(** * FCApy: formal contexts, formal concepts and concept construction

    A shallow embedding of
      - [fcapy/context/formal_context.py]   (class [FormalContext]),
      - [fcapy/lattice/formal_concept.py]   (class [AbstractConcept]),
      - [fcapy/algorithms/concept_construction.py]
        ([close_by_one], [sofia_binary], [lindig_algorithm]),
    together with the properties of these functions. *)

From stdpp Require Import gmap strings list sorting pretty.
From Stdlib Require Import Floats.


(** ** Python exceptions and fallible computations *)

Inductive exn :=
  | AssertionError
  | IndexError
  | KeyError
  | TypeError
  | ValueError
  | NotImplementedError
  | UnmatchedContextError
  | UnmatchedMonotonicityError
  | FrozenInstanceError.

#[global] Instance exn_eq_dec : EqDecision exn.
Proof. solve_decision. Defined.

(** [UnmatchedContextError] and [UnmatchedMonotonicityError] are declared as
    subclasses of [ValueError]. *)
Definition is_ValueError (e : exn) : bool :=
  match e with
  | ValueError | UnmatchedContextError | UnmatchedMonotonicityError => true
  | _ => false
  end.

Inductive result (A : Type) :=
  | Ok (a : A)
  | Raise (e : exn).
Arguments Ok {A} a.
Arguments Raise {A} e.

#[global] Instance result_ret : MRet result := λ A a, Ok a.
#[global] Instance result_bind : MBind result := λ A B f r,
  match r with Ok a => f a | Raise e => Raise e end.
#[global] Instance result_fmap : FMap result := λ A B f r,
  match r with Ok a => Ok (f a) | Raise e => Raise e end.

(** [l[i]] for a non-negative index, as the loops of the code produce them;
    [getitem_int] below is [l[i]] for an index of either sign. *)
Definition getitem {A} (l : list A) (i : nat) : result A :=
  match l !! i with
  | Some x => Ok x
  | None => Raise IndexError
  end.

Definition py_all (l : list bool) : bool := forallb id l.
Definition py_any (l : list bool) : bool := existsb id l.

(** [enumerate(l)] *)
Definition enumerate {A} (l : list A) : list (nat * A) := zip (seq 0 (length l)) l.

(** ** Python dictionaries: association lists in insertion order *)

Section dict.
Context {K V : Type} `{EqDecision K}.

Definition dict := list (K * V).

Fixpoint dict_get (d : dict) (k : K) : option V :=
  match d with
  | [] => None
  | (k', v) :: d => if decide (k' = k) then Some v else dict_get d k
  end.

Definition dict_in (k : K) (d : dict) : bool := bool_decide (is_Some (dict_get d k)).

(** [d[k] = v]: a present key keeps its position, a new key goes last. *)
Fixpoint dict_set (d : dict) (k : K) (v : V) : dict :=
  match d with
  | [] => [(k, v)]
  | (k', v') :: d =>
      if decide (k' = k) then (k', v) :: d else (k', v') :: dict_set d k v
  end.

Definition dict_keys (d : dict) : list K := d.*1.
Definition dict_values (d : dict) : list V := d.*2.
Definition dict_items (d : dict) : list (K * V) := d.
End dict.
Arguments dict : clear implicits.

(** ** fcapy.context.formal_context.FormalContext *)

Record FormalContext := {
  data : list (list bool);
  object_names : list string;
  attribute_names : list string;
  description : option string;
}.

(** [n_objects] is [len(value)], [n_attributes] is [len(value[0])]. *)
Definition n_objects (K : FormalContext) : nat := length (data K).
Definition n_attributes (K : FormalContext) : nat :=
  match data K with
  | [] => 0
  | row :: _ => length row
  end.

(** The assertions of the [data], [object_names] and [attribute_names]
    setters: a non-empty table, all rows of one length, one name per object
    and per attribute. *)
Definition data_setter_ok (value : list (list bool)) : bool :=
  match value with
  | [] => false
  | row :: _ => forallb (λ g_ms, length g_ms =? length row) value
  end.

Definition context_ok (K : FormalContext) : bool :=
  data_setter_ok (data K)
  && (length (object_names K) =? length (data K))
  && (length (attribute_names K) =? n_attributes K).

(** [FormalContext(data, object_names, attribute_names)]; the default names
    ['0', '1', ...] are supplied by the caller. *)
Definition FormalContext_init (value : list (list bool)) (obj_names attr_names : list string)
    : result FormalContext :=
  let K := {| data := value; object_names := obj_names;
              attribute_names := attr_names; description := None |} in
  if context_ok K then Ok K else Raise AssertionError.

Definition extension_i (K : FormalContext) (attribute_indexes : list nat) : result (list nat) :=
  rows ← mapM (λ '(g_idx, g_ms),
                 flags ← mapM (getitem g_ms) attribute_indexes;
                 mret (g_idx, py_all flags))
              (enumerate (data K));
  mret ((filter (λ r, r.2 = true) rows).*1).

Definition intention_i (K : FormalContext) (object_indexes : list nat) : result (list nat) :=
  row0 ← getitem (data K) 0;
  cols ← mapM (λ m_idx,
                 flags ← mapM (λ g_idx, g_ms ← getitem (data K) g_idx; getitem g_ms m_idx)
                              object_indexes;
                 mret (m_idx, py_all flags))
              (seq 0 (length row0));
  mret ((filter (λ r, r.2 = true) cols).*1).

(** [l[i]] for an integer [i]: a negative index counts from the end of the
    list. *)
Definition getitem_int {A} (l : list A) (i : Z) : result A :=
  let i := if (i <? 0)%Z then (i + Z.of_nat (length l))%Z else i in
  if (i <? 0)%Z || (Z.of_nat (length l) <=? i)%Z then Raise IndexError
  else getitem l (Z.to_nat i).

(** The position that an index in the range of a list of length [n] stands
    for. *)
Definition py_index (n : nat) (i : Z) : nat :=
  Z.to_nat (if (i <? 0)%Z then i + Z.of_nat n else i)%Z.

(** [extension_i] and [intention_i] on indexes of either sign. *)
Definition extension_i_int (K : FormalContext) (attribute_indexes : list Z)
    : result (list nat) :=
  rows ← mapM (λ '(g_idx, g_ms),
                 flags ← mapM (getitem_int g_ms) attribute_indexes;
                 mret (g_idx, py_all flags))
              (enumerate (data K));
  mret ((filter (λ r, r.2 = true) rows).*1).

Definition intention_i_int (K : FormalContext) (object_indexes : list Z)
    : result (list nat) :=
  row0 ← getitem (data K) 0;
  cols ← mapM (λ m_idx,
                 flags ← mapM (λ g_idx, g_ms ← getitem_int (data K) g_idx; getitem g_ms m_idx)
                              object_indexes;
                 mret (m_idx, py_all flags))
              (seq 0 (length row0));
  mret ((filter (λ r, r.2 = true) cols).*1).

Definition FormalContext_eq (self other : FormalContext) : result bool :=
  if negb (bool_decide (object_names self = object_names other)) then Raise ValueError
  else if negb (bool_decide (attribute_names self = attribute_names other)) then Raise ValueError
  else Ok (bool_decide (data self = data other)).

Definition FormalContext_ne (self other : FormalContext) : result bool :=
  if negb (bool_decide (object_names self = object_names other)) then Raise ValueError
  else if negb (bool_decide (attribute_names self = attribute_names other)) then Raise ValueError
  else Ok (negb (bool_decide (data self = data other))).

(** ** fcapy.lattice.formal_concept.AbstractConcept *)

Record FormalConcept := {
  extent_i : gset nat;
  extent : gset string;
  intent_i : gset nat;
  intent : gset string;
  measures : gmap string float;
  context_hash : option Z;
  is_monotone : bool;
}.

Definition support (c : FormalConcept) : nat := size (extent_i c).

(** [AbstractConcept.__eq__], lines 38-48.  A subclass that the dataclass
    decorator is applied to again without an [__eq__] of its own does not
    keep it: for [FormalConcept] see [FormalConcept_eq] below. *)
Definition concept_eq (self other : FormalConcept) : result bool :=
  if negb (bool_decide (context_hash self = context_hash other)) then Raise UnmatchedContextError
  else if negb (bool_decide (is_monotone self = is_monotone other))
  then Raise UnmatchedMonotonicityError
  else if negb (support self =? support other) then Ok false
  else Ok (bool_decide (extent_i self = extent_i other)).

Definition concept_le (self other : FormalConcept) : result bool :=
  if negb (bool_decide (context_hash self = context_hash other)) then Raise UnmatchedContextError
  else if negb (bool_decide (is_monotone self = is_monotone other))
  then Raise UnmatchedMonotonicityError
  else
    let '(lesser_ext, greater_ext) :=
      if negb (is_monotone self) then (self, other) else (other, self) in
    if support greater_ext <? support lesser_ext then Ok false
    else Ok (bool_decide (extent_i lesser_ext ∩ extent_i greater_ext = extent_i lesser_ext)).

Definition concept_lt (self other : FormalConcept) : result bool :=
  if support self =? support other then Ok false else concept_le self other.

(** What [==] does on two [FormalConcept] objects.  The class is declared
    [@dataclass(frozen=True)] (line 111) and its body has no [__eq__], so the
    decorator gives it one that compares the fields of the two objects as
    tuples, in the order of their declaration; the [__eq__] of lines 38-48
    is overridden, while [__le__] and [__lt__], which the decorator does not
    generate, are inherited.  [measures_eq] is [==] on the two dictionaries
    of measures, which looks at the identity of two values before it
    compares them as floats. *)
Definition FormalConcept_eq (measures_eq : gmap string float → gmap string float → bool)
    (self other : FormalConcept) : result bool :=
  Ok (bool_decide (extent_i self = extent_i other)
      && bool_decide (extent self = extent other)
      && bool_decide (intent_i self = intent_i other)
      && bool_decide (intent self = intent other)
      && measures_eq (measures self) (measures other)
      && bool_decide (context_hash self = context_hash other)
      && bool_decide (is_monotone self = is_monotone other)).

(** Assignment to an attribute of a [FormalConcept] object: the
    [__setattr__] of a frozen dataclass raises [FrozenInstanceError]
    whatever the name and the value. *)
Definition FormalConcept_setattr (c : FormalConcept) (name : string) (value : Z)
    : result FormalConcept :=
  Raise FrozenInstanceError.

(** ** Contexts other than [FormalContext] *)

(** Modelled from the spec: [MVContext] (module [fcapy.mvcontext]) is not part
    of the sources at hand.  The spec describes it as a "general closure
    system" answering the same two closure queries as a [FormalContext],
    with pattern descriptions in place of attribute index sets. *)
Record MVContext := {
  mv_description : Type;
  mv_n_objects : nat;
  mv_n_attributes : nat;
  mv_object_names : list string;
  mv_extension_i : mv_description → result (list nat);
  mv_intention_i : list nat → result mv_description;
  mv_hash_fixed : Z;
}.

Record PatternConcept (K : MVContext) := {
  pc_extent_i : gset nat;
  pc_extent : gset string;
  pc_intent_i : mv_description K;
  pc_context_hash : option Z;
}.
Arguments pc_extent_i {K}.
Arguments pc_extent {K}.
Arguments pc_intent_i {K}.
Arguments pc_context_hash {K}.

Inductive AnyContext :=
  | FormalCtx (K : FormalContext)
  | MVCtx (K : MVContext).

(** The classes [type(context)] is compared with. *)
Inductive pytype := TFormalContext | TMVContext | TFormalConcept | TPatternConcept.

#[global] Instance pytype_eq_dec : EqDecision pytype.
Proof. solve_decision. Defined.

Definition type_of (context : AnyContext) : pytype :=
  match context with
  | FormalCtx _ => TFormalContext
  | MVCtx _ => TMVContext
  end.

Definition ctx_n_objects (context : AnyContext) : nat :=
  match context with
  | FormalCtx K => n_objects K
  | MVCtx K => mv_n_objects K
  end.

Definition ctx_n_attributes (context : AnyContext) : nat :=
  match context with
  | FormalCtx K => n_attributes K
  | MVCtx K => mv_n_attributes K
  end.

(** ** Index combinations *)

(** A combination of indexes is a [list] when [close_by_one] builds it
    ([iterset_i+[g_i]], [[]]) and a [frozenset] when it is the [intent_i] or
    [extent_i] field of a concept (both are declared [FrozenSet[int]]). *)
Inductive pyseq :=
  | PyList (l : list nat)
  | PyFrozenSet (s : gset nat).

(** [c[-1]]: a [frozenset] is not subscriptable. *)
Definition seq_last (c : pyseq) : result nat :=
  match c with
  | PyList l =>
      match last l with
      | Some x => Ok x
      | None => Raise IndexError
      end
  | PyFrozenSet _ => Raise TypeError
  end.

Definition seq_set (c : pyseq) : gset nat :=
  match c with
  | PyList l => list_to_set l
  | PyFrozenSet s => s
  end.

(** Modelled from the spec: [ConceptLattice] (module [fcapy.lattice]) is not
    part of the sources at hand: "an ordered collection of Concepts plus two
    derived adjacency mappings: subconcepts and superconcepts, indexed by
    position in the concept list". *)
Record ConceptLattice := {
  lattice_concepts : list FormalConcept;
  subconcepts_dict : dict nat (list nat);
  superconcepts_dict : dict nat (list nat);
}.

(** [d.setdefault(k, []).append(v)] *)
Definition dict_setdefault_append {K V} `{EqDecision K} (d : dict K (list V)) (k : K) (v : V)
    : dict K (list V) :=
  dict_set d k (default [] (dict_get d k) ++ [v]).

(** ** The Python runtime *)

Section runtime.

(** What the sources leave to the interpreter or to code that is not at hand:
    the order in which a [set] or [frozenset] of integers is iterated, the
    element that [set.pop()] takes out of a set of concepts (given as a
    position in the order of insertion), and [FormalContext.hash_fixed]. *)
Variable set_order : gset nat → list nat.
Variable set_pop : list FormalConcept → nat.
Variable hash_fixed : FormalContext → Z.

Definition seq_items (c : pyseq) : list nat :=
  match c with
  | PyList l => l
  | PyFrozenSet s => set_order s
  end.

Definition seq_len (c : pyseq) : nat :=
  match c with
  | PyList l => length l
  | PyFrozenSet s => size s
  end.

(** ** close_by_one *)

Section close_by_one_loop.
Context {Side : Type}.
Variable iterset_fnc : Side → result (list nat).
Variable sideset_fnc : list nat → result Side.
Variable iter_elements_to_check : list nat.

Record cbo_state := {
  combinations_to_check : list pyseq;
  itersets_i_dict : dict (list nat) nat;
  sidesets_i : list Side;
}.

(** [g_i not in iterset_i and (len(comb_i) == 0 or g_i > comb_i[-1])] *)
Definition cbo_extends (comb_i : pyseq) (iterset_i : list nat) (g_i : nat) : result bool :=
  if negb (bool_decide (g_i ∈ iterset_i)) then
    if seq_len comb_i =? 0 then Ok true
    else x ← seq_last comb_i; mret (x <? g_i)
  else Ok false.

(** One pass through the body of the [while] loop, [comb_i] being the
    combination popped from the front of [combinations_to_check]. *)
Definition cbo_body (comb_i : pyseq) (st : cbo_state) : result cbo_state :=
  sideset_i ← sideset_fnc (seq_items comb_i);
  iterset_i ← iterset_fnc sideset_i;
  let iterset_i_new :=
    merge_sort (≤) (elements (list_to_set iterset_i ∖ seq_set comb_i : gset nat)) in
  is_not_lexicographic ←
    (if 0 <? seq_len comb_i
     then py_any <$> mapM (λ g_i, x ← seq_last comb_i; mret (g_i <? x)) iterset_i_new
     else Ok false);
  let is_duplicate := dict_in iterset_i (itersets_i_dict st) in
  if py_any [is_not_lexicographic; is_duplicate] then Ok st
  else
    let itersets_i_dict' := dict_set (itersets_i_dict st) iterset_i (length (sidesets_i st)) in
    let sidesets_i' := sidesets_i st ++ [sideset_i] in
    keep ← mapM (λ g_i, b ← cbo_extends comb_i iterset_i g_i; mret (g_i, b))
                iter_elements_to_check;
    let new_combs := (λ r, PyList (iterset_i ++ [r.1])) <$> filter (λ r, r.2 = true) keep in
    Ok {| combinations_to_check := new_combs ++ combinations_to_check st;
          itersets_i_dict := itersets_i_dict';
          sidesets_i := sidesets_i' |}.

(** The [while] loop; [None] when [fuel] passes do not empty the queue. *)
Fixpoint cbo_while (fuel : nat) (st : cbo_state) : option (result cbo_state) :=
  match combinations_to_check st with
  | [] => Some (Ok st)
  | comb_i :: rest =>
      match fuel with
      | 0 => None
      | S fuel =>
          match cbo_body comb_i {| combinations_to_check := rest;
                                   itersets_i_dict := itersets_i_dict st;
                                   sidesets_i := sidesets_i st |} with
          | Ok st' => cbo_while fuel st'
          | Raise e => Some (Raise e)
          end
      end
  end.

(** [list({idx: x_i for x_i, idx in itersets_i_dict.items()}.values())] *)
Definition cbo_itersets_i (d : dict (list nat) nat) : list (list nat) :=
  dict_values (foldl (λ acc r, dict_set acc r.2 r.1) [] (dict_items d)).

(** Lines 72-101: the queue is set up, emptied, and the two lists of sides
    are read off.  The loop is given as many passes as it can need when
    the closed sets are drawn from [n_iters] indexes. *)
Definition cbo_fuel (n_iters : nat) (initial : list pyseq) : nat :=
  2 ^ n_iters * length iter_elements_to_check + length initial.

Definition cbo_run (n_iters : nat) (initial_combinations : option (list pyseq))
    : option (result (list (list nat) * list Side)) :=
  let combinations_to_check := default [PyList []] initial_combinations in
  (λ r : result cbo_state, st ← r; mret (cbo_itersets_i (itersets_i_dict st), sidesets_i st))
  <$> cbo_while (cbo_fuel n_iters combinations_to_check)
        {| combinations_to_check := combinations_to_check;
           itersets_i_dict := [];
           sidesets_i := [] |}.

End close_by_one_loop.

Arguments cbo_state : clear implicits.

Inductive cbo_output :=
  | Concepts (concepts : list FormalConcept)
  | Data (extents_i intents_i : list (list nat))
  | PatternConcepts (K : MVContext) (concepts : list (PatternConcept K))
  | PatternData (K : MVContext) (extents_i : list (list nat))
                (intents_i : list (mv_description K)).

(** [assert cond] *)
Definition py_assert (cond : bool) : result unit :=
  if cond then Ok tt else Raise AssertionError.

(** Lines 47-58. *)
Definition close_by_one_asserts (context : AnyContext) (iterate_extents : option bool)
    (initial_combinations : option (list pyseq)) (iter_elements_to_check : option (list nat))
    : result unit :=
  _ ← (if bool_decide (iterate_extents = Some false)
       then py_assert (bool_decide (type_of context = TFormalContext)) else Ok tt);
  _ ← (if bool_decide (initial_combinations ≠ None)
       then py_assert (bool_decide (iterate_extents ≠ None)) else Ok tt);
  if bool_decide (iter_elements_to_check ≠ None)
  then py_assert (bool_decide (iterate_extents ≠ None)) else Ok tt.

(** Lines 60-61. *)
Definition cbo_iterate_extents (context : AnyContext) (iterate_extents : option bool) : bool :=
  match iterate_extents with
  | Some b => b
  | None =>
      if bool_decide (type_of context = TFormalConcept)
      then ctx_n_objects context <? ctx_n_attributes context
      else true
  end.

(** [FormalConcept(extent_i, [object_names[g_i] for g_i in extent_i],
                   intent_i, [attribute_names[m_i] for m_i in intent_i],
                   context_hash=context_hash)] *)
Definition new_FormalConcept (object_names attribute_names : list string) (context_hash : Z)
    (extent_i intent_i : list nat) : result FormalConcept :=
  extent ← mapM (getitem object_names) extent_i;
  intent ← mapM (getitem attribute_names) intent_i;
  mret {| extent_i := list_to_set extent_i; extent := list_to_set extent;
          intent_i := list_to_set intent_i; intent := list_to_set intent;
          measures := ∅; context_hash := Some context_hash; is_monotone := false |}.

Definition close_by_one (context : AnyContext) (output_as_concepts : bool)
    (iterate_extents : option bool) (initial_combinations : option (list pyseq))
    (iter_elements_to_check : option (list nat)) : option (result cbo_output) :=
  match close_by_one_asserts context iterate_extents initial_combinations
          iter_elements_to_check with
  | Raise e => Some (Raise e)
  | Ok _ =>
      let iterate_extents := cbo_iterate_extents context iterate_extents in
      let n_iters := if iterate_extents then ctx_n_objects context
                     else ctx_n_attributes context in
      let iter_elements_to_check := default (seq 0 n_iters) iter_elements_to_check in
      match context with
      | FormalCtx K =>
          let '(iterset_fnc, sideset_fnc) :=
            if negb iterate_extents then (intention_i K, extension_i K)
            else (extension_i K, intention_i K) in
          (λ r : result (list (list nat) * list (list nat)),
             '(itersets_i, sidesets_i) ← r;
             let '(extents_i, intents_i) :=
               if negb iterate_extents then (sidesets_i, itersets_i)
               else (itersets_i, sidesets_i) in
             if output_as_concepts then
               Concepts <$> mapM (λ concept_data,
                                    new_FormalConcept (object_names K) (attribute_names K)
                                      (hash_fixed K) concept_data.1 concept_data.2)
                                 (zip extents_i intents_i)
             else Ok (Data extents_i intents_i))
          <$> cbo_run iterset_fnc sideset_fnc iter_elements_to_check n_iters
                initial_combinations
      | MVCtx K =>
          (λ r : result (list (list nat) * list (mv_description K)),
             '(extents_i, intents_i) ← r;
             if output_as_concepts then
               PatternConcepts K <$>
                 mapM (λ concept_data,
                         extent ← mapM (getitem (mv_object_names K)) concept_data.1;
                         mret {| pc_extent_i := list_to_set concept_data.1;
                                 pc_extent := list_to_set extent;
                                 pc_intent_i := concept_data.2;
                                 pc_context_hash := Some (mv_hash_fixed K) |})
                      (zip extents_i intents_i)
             else Ok (PatternData K extents_i intents_i))
          <$> cbo_run (mv_extension_i K) (mv_intention_i K) iter_elements_to_check n_iters
                initial_combinations
      end
  end.

(** ** lindig_algorithm *)

Section lindig_loop.
(** The names bound at lines 424-434; they are swapped between objects and
    attributes when [iterate_extents] is false. *)
Variable n_objects' : nat.
Variable intention_i' extension_i' : list nat → result (list nat).
Variable object_names' attribute_names' : list string.
Variable context_hash' : Z.

(** The [for g in set(reps)] loop of [direct_super_elements], [gs] being
    what is left of the copy of [reps] that is iterated. *)
Fixpoint direct_super_elements_loop (gs : list nat) (extent reps : gset nat)
    (neighbors : list FormalConcept) : result (list FormalConcept) :=
  match gs with
  | [] => Ok neighbors
  | g :: gs =>
      let extent := extent ∪ {[g]} in
      M ← intention_i' (set_order extent);
      G ← extension_i' M;
      let extent := extent ∖ {[g]} in
      if size (reps ∩ list_to_set G) =? 1 then
        c ← new_FormalConcept object_names' attribute_names' context_hash' G M;
        direct_super_elements_loop gs extent reps (neighbors ++ [c])
      else if bool_decide (g ∈ reps) then
        direct_super_elements_loop gs extent (reps ∖ {[g]}) neighbors
      else Raise KeyError
  end.

Definition direct_super_elements (concept : FormalConcept) : result (list FormalConcept) :=
  let extent := extent_i concept in
  let reps : gset nat := list_to_set (seq 0 n_objects') ∖ extent in
  direct_super_elements_loop (set_order reps) extent reps [].

(** [concepts], [queue], the two adjacency dictionaries and [index].  The
    set [queue] is kept in order of insertion; [index] is keyed by the
    extent of a concept: the concepts of one run are all built from their
    extents by lines 447-449 or 456-458, with the names, the hash and the flags
    of the one context, so that two of them are [==] exactly when their
    extents are equal. *)
Record lindig_state := {
  l_concepts : list FormalConcept;
  l_queue : list FormalConcept;
  l_subconcepts_dict : dict nat (list nat);
  l_superconcepts_dict : dict nat (list nat);
  l_index : dict (gset nat) nat;
}.

(** [d[k]] *)
Definition dict_getitem {K V} `{EqDecision K} (d : dict K V) (k : K) : result V :=
  match dict_get d k with
  | Some v => Ok v
  | None => Raise KeyError
  end.

(** The [for x in dsups] loop. *)
Fixpoint lindig_add_dsups (c_id : nat) (dsups : list FormalConcept) (st : lindig_state)
    : result lindig_state :=
  match dsups with
  | [] => Ok st
  | x :: dsups =>
      let st :=
        if negb (dict_in (extent_i x) (l_index st)) then
          {| l_concepts := l_concepts st ++ [x];
             l_queue := l_queue st ++ [x];
             l_subconcepts_dict := l_subconcepts_dict st;
             l_superconcepts_dict := l_superconcepts_dict st;
             l_index := dict_set (l_index st) (extent_i x) (length (l_concepts st)) |}
        else st in
      x_id ← dict_getitem (l_index st) (extent_i x);
      lindig_add_dsups c_id dsups
        {| l_concepts := l_concepts st;
           l_queue := l_queue st;
           l_subconcepts_dict := dict_setdefault_append (l_subconcepts_dict st) x_id c_id;
           l_superconcepts_dict := dict_setdefault_append (l_superconcepts_dict st) c_id x_id;
           l_index := l_index st |}
  end.

(** One pass through the body of the [while] loop, [c] being the concept
    popped and [st] the state without it. *)
Definition lindig_body (c : FormalConcept) (st : lindig_state) : result lindig_state :=
  c_id ← dict_getitem (l_index st) (extent_i c);
  dsups ← direct_super_elements c;
  if length dsups =? 0 then
    Ok {| l_concepts := l_concepts st;
          l_queue := l_queue st;
          l_subconcepts_dict := l_subconcepts_dict st;
          l_superconcepts_dict := dict_set (l_superconcepts_dict st) c_id [];
          l_index := l_index st |}
  else lindig_add_dsups c_id dsups st.

Fixpoint lindig_while (fuel : nat) (st : lindig_state) : option (result lindig_state) :=
  match l_queue st with
  | [] => Some (Ok st)
  | c0 :: _ =>
      match fuel with
      | 0 => None
      | S fuel =>
          let pos := set_pop (l_queue st) `mod` length (l_queue st) in
          let c := default c0 (l_queue st !! pos) in
          match lindig_body c {| l_concepts := l_concepts st;
                                 l_queue := delete pos (l_queue st);
                                 l_subconcepts_dict := l_subconcepts_dict st;
                                 l_superconcepts_dict := l_superconcepts_dict st;
                                 l_index := l_index st |} with
          | Ok st' => lindig_while fuel st'
          | Raise e => Some (Raise e)
          end
      end
  end.

(** Lines 454-483. *)
Definition lindig_run (n_attributes' : nat) : option (result lindig_state) :=
  let M := seq 0 n_attributes' in
  match (G ← extension_i' M;
         new_FormalConcept object_names' attribute_names' context_hash' G M) with
  | Raise e => Some (Raise e)
  | Ok c =>
      lindig_while (2 ^ n_objects')
        {| l_concepts := [c];
           l_queue := [c];
           l_subconcepts_dict := [(0, [])];
           l_superconcepts_dict := [];
           l_index := [(extent_i c, 0)] |}
  end.

End lindig_loop.

(** Lines 486-491: [FormalConcept(c.intent_i, c.intent, c.extent_i, c.extent,
    context_hash=context_hash)]. *)
Definition swap_concept (context_hash : Z) (c : FormalConcept) : FormalConcept :=
  {| extent_i := intent_i c; extent := intent c;
     intent_i := extent_i c; intent := extent c;
     measures := ∅; context_hash := Some context_hash; is_monotone := false |}.

Definition lindig_algorithm (context : AnyContext) (iterate_extents : option bool)
    : option (result ConceptLattice) :=
  match context with
  | MVCtx _ => Some (Raise NotImplementedError)
  | FormalCtx K =>
      let iterate_extents :=
        default (n_objects K <? n_attributes K) iterate_extents in
      let context_hash := hash_fixed K in
      if negb iterate_extents then
        (λ r : result lindig_state,
           st ← r;
           mret {| lattice_concepts := swap_concept context_hash <$> l_concepts st;
                   subconcepts_dict := l_superconcepts_dict st;
                   superconcepts_dict := l_subconcepts_dict st |})
        <$> lindig_run (n_attributes K) (extension_i K) (intention_i K)
              (attribute_names K) (object_names K) context_hash (n_objects K)
      else
        (λ r : result lindig_state,
           st ← r;
           mret {| lattice_concepts := l_concepts st;
                   subconcepts_dict := l_subconcepts_dict st;
                   superconcepts_dict := l_superconcepts_dict st |})
        <$> lindig_run (n_objects K) (intention_i K) (extension_i K)
              (object_names K) (attribute_names K) context_hash (n_attributes K)
  end.

End runtime.

Arguments cbo_state : clear implicits.

(** ** The eviction step of sofia_binary *)

Section sofia_eviction.
(** Lines 258-269 are the end of a pass of the loop over the projections,
    which no run reaches (the pass stops at line 232, see
    [sofia_pass_rehash]); they are taken on their own here.  Measure values
    are Python floats or integers; the eviction step only compares them, so
    they are kept abstract, with [leb] for their [<=].  The concepts of the
    lattice are kept abstract as well. *)
Context {V C : Type}.
Variable leb : V → V → bool.

(** [sorted(metrics)], for values that [<=] orders totally: every stable
    sort then returns the same list.  With a NaN among the values what
    [sorted] returns depends on the steps of its algorithm, which this does
    not follow. *)
Definition py_sorted (metrics : list V) : list V :=
  merge_sort (λ x y, leb x y) metrics.

(** [l[-k]] for [k >= 1]. *)
Definition getitem_neg {A} (l : list A) (k : nat) : result A :=
  if k <=? length l then getitem l (length l - k) else Raise IndexError.

(** Lines 263-267. *)
Definition sofia_concepts_to_remove (metrics : list V) (L_max : nat)
    (top_concept_i bottom_concept_i : nat) : result (list nat) :=
  metrics_lim ← getitem_neg (py_sorted metrics) (L_max + 1);
  flags ← mapM (λ i, x ← getitem metrics i; mret (i, leb x metrics_lim))
               (seq 0 (length metrics));
  let concepts_to_remove := reverse (filter (λ r, r.2 = true) flags).*1 in
  mret (filter (λ i, i ∉ [top_concept_i; bottom_concept_i]) concepts_to_remove).

(** Modelled from the spec: [ConceptLattice.remove_concept] is not part of
    the sources at hand.  It takes the concept at position [c_i] out of the
    ordered collection of concepts ("removal must re-link each removed
    node's subconcepts directly to its superconcepts"); the positions of the
    concepts before it are unchanged. *)
Definition remove_concept (concepts : list C) (c_i : nat) : list C :=
  delete c_i concepts.

(** Lines 258-269, [metrics] being the measure values that
    [calc_concepts_measures] has stored in the concepts, in the order of the
    concepts, and [top_concept_i], [bottom_concept_i] the positions the
    lattice reports. *)
Definition sofia_evict (concepts : list C) (metrics : list V) (L_max : nat)
    (top_concept_i bottom_concept_i : nat) : result (list C) :=
  if L_max <? length concepts then
    concepts_to_remove ←
      sofia_concepts_to_remove metrics L_max top_concept_i bottom_concept_i;
    mret (foldl remove_concept concepts concepts_to_remove)
  else Ok concepts.

End sofia_eviction.

(** ** Closure operators of a context, as mathematics has them *)

Definition incidence (K : FormalContext) (g m : nat) : bool :=
  match data K !! g with
  | Some g_ms => default false (g_ms !! m)
  | None => false
  end.

Definition ext_of (K : FormalContext) (B : list nat) : list nat :=
  filter (λ g, forallb (incidence K g) B = true) (seq 0 (n_objects K)).

Definition int_of (K : FormalContext) (A : list nat) : list nat :=
  filter (λ m, forallb (λ g, incidence K g m) A = true) (seq 0 (n_attributes K)).

(** ** Example contexts *)

(** The animals of the spec's concrete scenario. *)
Definition animals : FormalContext :=
  {| data := [[false; false; true; false];
              [false; false; false; false];
              [true; false; false; true];
              [true; false; false; true];
              [true; true; false; false];
              [true; true; false; false];
              [true; true; false; false]];
     object_names := ["cow"; "hen"; "duck"; "goose"; "owl"; "hawk"; "eagle"]%string;
     attribute_names := ["fly"; "hunt"; "run"; "swim"]%string;
     description := None |}.

(** Two objects, one attribute. *)
Definition two_by_one : FormalContext :=
  {| data := [[true]; [false]];
     object_names := ["0"; "1"]%string;
     attribute_names := ["0"]%string;
     description := None |}.

(** A many-valued context with one object and no description at all. *)
Definition trivial_mv : MVContext :=
  {| mv_description := unit;
     mv_n_objects := 1;
     mv_n_attributes := 1;
     mv_object_names := ["0"%string];
     mv_extension_i := λ _, Ok [0];
     mv_intention_i := λ _, Ok tt;
     mv_hash_fixed := 0 |}.

(** [polar n R X]: the indexes below [n] that are [R]-related to every
    member of [X].  Both closure queries are instances of it. *)
Definition polar (n : nat) (R : nat → nat → bool) (X : list nat) : list nat :=
  filter (λ y, forallb (λ x, R x y) X = true) (seq 0 n).

(** All members of [X] are indexes below [n]. *)
Definition below (n : nat) (X : list nat) : Prop := Forall (λ x, x < n) X.

(** Two concepts with one extent, tagged with different context hashes. *)
Definition concept_of_context_1 : FormalConcept :=
  {| extent_i := {[0]}; extent := {["0"%string]}; intent_i := ∅; intent := ∅;
     measures := ∅; context_hash := Some 1%Z; is_monotone := false |}.

Definition concept_of_context_2 : FormalConcept :=
  {| extent_i := {[0]}; extent := {["0"%string]}; intent_i := ∅; intent := ∅;
     measures := ∅; context_hash := Some 2%Z; is_monotone := false |}.

(** What the two tests of the loop body amount to when the combination is a
    list [C] with closure [Z]: [lex_bad C Z] is [is_not_lexicographic], and
    [extends_list C Z g] is the test under which [Z + [g]] is queued. *)
Definition lex_bad (C Z : list nat) : Prop :=
  ∃ x g, last C = Some x ∧ g ∈ Z ∧ (g ∉ C) ∧ g < x.

Definition extends_list (C Z : list nat) (g : nat) : bool :=
  negb (bool_decide (g ∈ Z))
  && (match last C with
      | None => true
      | Some x => x <? g
      end).

(** The closure operator on the index sets that [close_by_one] iterates
    over: [closure n1 n2 R X] is [iterset_fnc(sideset_fnc(X))], there being
    [n1] indexes on the side that is iterated and [n2] on the other. *)
Definition closure (n1 n2 : nat) (R : nat → nat → bool) (X : list nat) : list nat :=
  polar n1 (λ y x, R x y) (polar n2 R X).

Definition closed (n1 n2 : nat) (R : nat → nat → bool) (Y : list nat) : Prop :=
  closure n1 n2 R Y = Y.

(** All sublists of a list. *)
Fixpoint sublists {A} (l : list A) : list (list A) :=
  match l with
  | [] => [[]]
  | x :: l => ((x ::.) <$> sublists l) ++ sublists l
  end.

(** ** Invariant of the loop of close_by_one *)

(** The combination [X + [g]] is on the way to the closed set [Y]: [g] is the
    least member of [Y] missing from [X], and [X] is the closure of its
    members below [g]. *)
Definition on_track (n1 n2 : nat) (R : nat → nat → bool) (X : list nat) (g : nat)
    (Y : list nat) : Prop :=
  X ⊆ Y ∧ g ∈ Y ∧ (g ∉ X) ∧ (∀ y, y ∈ Y → y < g → y ∈ X)
  ∧ closure n1 n2 R (filter (λ x, x < g) X) = X.

(** The closed set [Z] lies below [Y] and is the closure of its members
    below the least member of [Y] that it misses. *)
Definition prefix_generated (n1 n2 : nat) (R : nat → nat → bool) (Z Y : list nat) : Prop :=
  Z ⊆ Y ∧ closed n1 n2 R Z
  ∧ ∀ h, h ∈ Y → h ∉ Z → (∀ y, y ∈ Y → y < h → y ∈ Z) →
         closure n1 n2 R (filter (λ x, x < h) Z) = Z.

Record cbo_inv (n1 n2 : nat) (R : nat → nat → bool) (st : cbo_state (list nat)) : Prop := {
  inv_queue : ∀ c, c ∈ combinations_to_check st →
    c = PyList [] ∨ ∃ X g, c = PyList (X ++ [g]) ∧ closed n1 n2 R X ∧ g < n1 ∧ g ∉ X;
  inv_values : (itersets_i_dict st).*2 = seq 0 (length (itersets_i_dict st));
  inv_nodup : NoDup (itersets_i_dict st).*1;
  inv_pairs :
    Forall2 (λ Z S, ∃ C, below n1 C ∧ S = polar n2 R C ∧ Z = closure n1 n2 R C)
            (itersets_i_dict st).*1 (sidesets_i st);
  inv_root : PyList [] ∈ combinations_to_check st
             ∨ closure n1 n2 R [] ∈ (itersets_i_dict st).*1;
  inv_cover : ∀ Z Y, Z ∈ (itersets_i_dict st).*1 → closed n1 n2 R Y →
    prefix_generated n1 n2 R Z Y →
    Y ∈ (itersets_i_dict st).*1
    ∨ ∃ X g, PyList (X ++ [g]) ∈ combinations_to_check st
             ∧ on_track n1 n2 R X g Y ∧ Z ⊆ X;
}.

(** What bounds the number of passes still to come. *)
Definition cbo_measure (n1 : nat) (E : list nat) (st : cbo_state (list nat)) : nat :=
  (2 ^ n1 - length (itersets_i_dict st)) * length E + length (combinations_to_check st).

(** The concept that [new_FormalConcept] builds from in-range indexes. *)
Definition concept_of (object_names attribute_names : list string) (context_hash : Z)
    (A B : list nat) : FormalConcept :=
  {| extent_i := list_to_set A;
     extent := list_to_set ((λ i, default ""%string (object_names !! i)) <$> A);
     intent_i := list_to_set B;
     intent := list_to_set ((λ i, default ""%string (attribute_names !! i)) <$> B);
     measures := ∅; context_hash := Some context_hash; is_monotone := false |}.

(** What [close_by_one] returns for the extents and intents found. *)
Definition cbo_result (hash_fixed : FormalContext → Z) (K : FormalContext)
    (output_as_concepts : bool) (extents intents : list (list nat)) : cbo_output :=
  if output_as_concepts
  then Concepts (zip_with (concept_of (object_names K) (attribute_names K) (hash_fixed K))
                          extents intents)
  else Data extents intents.

(** The eviction step in terms of positions: [evict_flagged] tells whether
    the measure at position [i] is at most the threshold, [evict_removed]
    whether the concept at position [i] is taken out. *)
Definition evict_flagged {V} (leb : V → V → bool) (metrics : list V) (metrics_lim : V)
    (i : nat) : bool :=
  match metrics !! i with
  | Some x => leb x metrics_lim
  | None => false
  end.

Definition evict_removed {V} (leb : V → V → bool) (metrics : list V) (metrics_lim : V)
    (top_concept_i bottom_concept_i : nat) (i : nat) : bool :=
  evict_flagged leb metrics metrics_lim i
  && negb (bool_decide (i ∈ [top_concept_i; bottom_concept_i])).

(** A list of positions that decreases strictly and starts below [n]. *)
Fixpoint decreasing_below (l : list nat) (n : nat) : Prop :=
  match l with
  | [] => True
  | i :: l => i < n ∧ decreasing_below l i
  end.

(** The lattice of [two_by_one] after its only projection: top and bottom. *)
Definition two_by_one_top : FormalConcept :=
  concept_of (object_names two_by_one) (attribute_names two_by_one) 0 [0; 1] [].

Definition two_by_one_bottom : FormalConcept :=
  concept_of (object_names two_by_one) (attribute_names two_by_one) 0 [0] [0].

(** ** Invariants of lindig_algorithm *)

(** The concept of a closed set [A] of the side that is iterated. *)
Definition closed_concept (n2 : nat) (R : nat → nat → bool) (obj_names attr_names : list string)
    (h : Z) (A : list nat) : FormalConcept :=
  concept_of obj_names attr_names h A (polar n2 R A).

(** Invariant of the [for g in set(reps)] loop that looks for the
    neighbours of the closed set [A]: [gs] are the indexes still to come,
    [Ns] the closed sets accepted so far. *)
Record neighbours_inv (n1 n2 : nat) (R : nat → nat → bool) (A : list nat)
    (gs : list nat) (reps : gset nat) (Ns : list (list nat)) : Prop := {
  ninv_reps : ∀ h, h ∈ reps → h < n1 ∧ h ∉ A;
  ninv_todo : ∀ h, h ∈ gs → h ∈ reps;
  ninv_kept : ∀ h, h ∈ reps → h ∈ gs ∨ closure n1 n2 R (A ++ [h]) ∈ Ns;
  ninv_sound : ∀ N, N ∈ Ns → ∃ g, g < n1 ∧ (g ∉ A) ∧ N = closure n1 n2 R (A ++ [g]);
  ninv_cover : ∀ Y, closed n1 n2 R Y → A ⊆ Y → (∃ y, y ∈ Y ∧ y ∉ A) →
    (∃ N, N ∈ Ns ∧ N ⊆ Y) ∨ (∃ h, h ∈ gs ∧ h ∈ Y);
}.

(** Invariant of the [while] loop: [As] are the closed sets found so far. *)
Record lindig_inv (n1 n2 : nat) (R : nat → nat → bool) (obj_names attr_names : list string)
    (h : Z) (As : list (list nat)) (st : lindig_state) : Prop := {
  linv_concepts : l_concepts st = closed_concept n2 R obj_names attr_names h <$> As;
  linv_closed : Forall (closed n1 n2 R) As;
  linv_nodup : NoDup As;
  linv_index : (l_index st).*1 = list_to_set <$> As;
  linv_queue : ∀ c, c ∈ l_queue st → c ∈ l_concepts st;
  linv_bottom : closure n1 n2 R [] ∈ As;
  linv_expanded : ∀ A, A ∈ As →
    closed_concept n2 R obj_names attr_names h A ∈ l_queue st
    ∨ ∀ Y, closed n1 n2 R Y → A ⊆ Y → (∃ y, y ∈ Y ∧ y ∉ A) →
           ∃ N, N ∈ As ∧ N ⊆ Y ∧ A ⊆ N ∧ ∃ g, g ∈ N ∧ g ∉ A;
}.

(** How [l_concepts] and [l_index] hang together with the closed sets [As]
    found so far. *)
Definition lindig_coherent (n1 n2 : nat) (R : nat → nat → bool)
    (obj_names attr_names : list string) (h : Z) (As : list (list nat))
    (st : lindig_state) : Prop :=
  l_concepts st = closed_concept n2 R obj_names attr_names h <$> As
  ∧ (l_index st).*1 = list_to_set <$> As
  ∧ NoDup As
  ∧ Forall (closed n1 n2 R) As.

(** ** sofia_binary, up to the concepts of its first projection iteration *)

(** Modelled from the spec: [FormalContext.__getitem__] is not part of the
    sources at hand.  "A 'projection' operation returns a new Relation
    restricted to a prefix/subset of attributes (or objects)":
    [context[:, cols]] keeps the columns [cols] and [context[rows]] the
    rows [rows], in the order given, with their names. *)
Definition project_attributes (K : FormalContext) (cols : list nat) : result FormalContext :=
  rows ← mapM (λ g_ms, mapM (getitem g_ms) cols) (data K);
  names ← mapM (getitem (attribute_names K)) cols;
  mret {| data := rows; object_names := object_names K;
          attribute_names := names; description := description K |}.

Definition project_objects (K : FormalContext) (rows : list nat) : result FormalContext :=
  rows' ← mapM (getitem (data K)) rows;
  names ← mapM (getitem (object_names K)) rows;
  mret {| data := rows'; object_names := names;
          attribute_names := attribute_names K; description := description K |}.

(** Modelled from the spec: [lattice_construction.complete_comparison] is not
    part of the sources at hand.  "Compares every pair of concepts by
    extent-subset order; for each concept, its direct subconcepts are the
    maximal elements (by subset order) among all concepts strictly below
    it." *)
Definition complete_comparison (concepts : list FormalConcept) : result (dict nat (list nat)) :=
  mapM (λ '(c_i, c),
          lower ← mapM (λ '(d_i, d), b ← concept_lt d c; mret (d_i, d, b)) (enumerate concepts);
          let lower := (filter (λ r, r.2 = true) lower).*1 in
          covered ← mapM (λ '(d_i, d),
                            bs ← mapM (λ '(_, e), concept_lt d e) lower;
                            mret (d_i, py_any bs)) lower;
          mret (c_i, (filter (λ r, r.2 = false) covered).*1))
       (enumerate concepts).

(** Modelled from the spec: the constructor of [ConceptLattice] is not part of
    the sources at hand.  It keeps the concepts in the order given; the
    superconcepts are the subconcepts read the other way round. *)
Definition new_ConceptLattice (concepts : list FormalConcept)
    (subconcepts_dict : dict nat (list nat)) : ConceptLattice :=
  {| lattice_concepts := concepts;
     subconcepts_dict := subconcepts_dict;
     superconcepts_dict :=
       (λ c_i, (c_i, (filter (λ r, c_i ∈ r.2) subconcepts_dict).*1))
       <$> seq 0 (length concepts) |}.

(** The [measure] argument: a name, a pair of a name and a function, a
    list or tuple of names, or something else. *)
Inductive measure_arg :=
  | MeasureStr (name : string)
  | MeasureFunc (name : string) (func : nat → ConceptLattice → FormalContext → float)
  | MeasureStrs (names : list string)
  | MeasureOther.

(** Lines 188-201: the list [measure] and [measure_name]. *)
Definition sofia_measure (measure : measure_arg) : result (list measure_arg * string) :=
  match measure with
  | MeasureFunc name func => Ok ([MeasureFunc name func], name)
  | MeasureStr name => Ok ([MeasureStr name], name)
  | MeasureStrs names =>
      match last names with
      | Some name => Ok (MeasureStr <$> names, name)
      | None => Raise IndexError
      end
  | MeasureOther => Raise TypeError
  end.

(** [sorted(l, key=...)], the keys being given with the elements: a stable
    insertion sort. *)
Fixpoint insert_by_key (x : nat * Z) (l : list (nat * Z)) : list (nat * Z) :=
  match l with
  | [] => [x]
  | y :: l' => if (y.2 <=? x.2)%Z then y :: insert_by_key x l' else x :: y :: l'
  end.

Definition sorted_by_key (l : list (nat * Z)) : list nat :=
  (foldl (λ acc x, insert_by_key x acc) [] l).*1.

(** Sequencing of computations that can raise or run out of fuel. *)
Definition and_then {A B} (x : option (result A)) (f : A → option (result B))
    : option (result B) :=
  match x with
  | None => None
  | Some (Raise e) => Some (Raise e)
  | Some (Ok a) => f a
  end.

Section sofia.
Variable set_order : gset nat → list nat.
Variable hash_fixed : FormalContext → Z.
(** [random.sample(range(n), k=n)] *)
Variable random_sample : nat → list nat.

(** Lines 172-186. *)
Definition sofia_projections_order (K : FormalContext) (iterate_attributes : bool)
    (projection_sorting : option string) : result (list nat) :=
  let max_projection := if iterate_attributes then n_attributes K else n_objects K in
  let projections_order := seq 0 max_projection in
  if bool_decide (projection_sorting ∈ [Some "ascending"; Some "descending"]%string) then
    keys ← mapM (λ i,
                   v ← (if iterate_attributes then extension_i K [i] else intention_i K [i]);
                   let v := Z.of_nat (length v) in
                   mret (i, if bool_decide (projection_sorting = Some "descending"%string)
                            then (- v)%Z else v))
                projections_order;
    mret (sorted_by_key keys)
  else if bool_decide (projection_sorting = Some "random"%string) then
    Ok (random_sample max_projection)
  else if bool_decide (projection_sorting ≠ None) then Raise ValueError
  else Ok projections_order.

(** [context[:, cols]] if [iterate_attributes] else [context[rows]] *)
Definition sofia_project (K : FormalContext) (iterate_attributes : bool) (indexes : list nat)
    : result FormalContext :=
  if iterate_attributes then project_attributes K indexes else project_objects K indexes.

(** [close_by_one(ctx_projected, output_as_concepts=True,
                  iterate_extents=not iterate_attributes, ...)] *)
Definition sofia_close_by_one (ctx_projected : FormalContext) (iterate_attributes : bool)
    (initial_combinations : option (list pyseq)) (iter_elements_to_check : option (list nat))
    : option (result (list FormalConcept)) :=
  and_then (close_by_one set_order hash_fixed (FormalCtx ctx_projected) true
              (Some (negb iterate_attributes)) initial_combinations iter_elements_to_check)
    (λ out, match out with
            | Concepts concepts => Some (Ok concepts)
            | _ => Some (Raise TypeError)
            end).

(** What lines 172-213 have set up when the loop over the projections is
    entered. *)
Record sofia_state := {
  s_projections_order : list nat;
  s_measure : list measure_arg;
  s_measure_name : string;
  s_proj_to_start : nat;
  s_lattice : ConceptLattice;
  s_itersets : list (gset nat);
}.

(** Lines 172-213, on a [FormalContext], for which both assertions at lines
    162-167 hold.  [int(math.log2(L_max))] is the binary logarithm rounded
    down and raises [ValueError] for [L_max = 0].  ([math.log2] computes on
    floats: from [L_max = 2^49 - 1] on its result can be rounded up to the
    next integer, which [Nat.log2] does not follow.) *)
Definition sofia_binary_start (K : FormalContext) (L_max : nat) (iterate_attributes : bool)
    (measure : measure_arg) (projection_sorting : option string) (proj_to_start : option nat)
    : option (result sofia_state) :=
  and_then (Some (sofia_projections_order K iterate_attributes projection_sorting))
    (λ projections_order,
  and_then (Some (sofia_measure measure))
    (λ '(measure, measure_name),
  and_then (Some (match proj_to_start with
                  | Some k => Ok k
                  | None => if L_max =? 0 then Raise ValueError else Ok (Nat.log2 L_max)
                  end))
    (λ proj_to_start,
  and_then (Some (sofia_project K iterate_attributes (take proj_to_start projections_order)))
    (λ ctx_projected,
  and_then (sofia_close_by_one ctx_projected iterate_attributes None None)
    (λ concepts,
  and_then (Some (complete_comparison concepts))
    (λ subconcepts_dict,
       let lattice := new_ConceptLattice concepts subconcepts_dict in
       Some (Ok {| s_projections_order := projections_order;
                   s_measure := measure;
                   s_measure_name := measure_name;
                   s_proj_to_start := proj_to_start;
                   s_lattice := lattice;
                   s_itersets := ((λ c, if iterate_attributes then intent_i c else extent_i c)
                                  <$> lattice_concepts lattice) |}))))))).

(** Lines 217-227: the concepts that one pass of the loop over the
    projections starts from.  The seeds are the sets in [itersets], fields
    of concepts, as [deepcopy] hands them on. *)
Definition sofia_new_concepts (K : FormalContext) (iterate_attributes : bool)
    (projections_order : list nat) (itersets : list (gset nat)) (projection_num : nat)
    : option (result (list FormalConcept)) :=
  and_then (Some (sofia_project K iterate_attributes (take projection_num projections_order)))
    (λ ctx_projected,
       sofia_close_by_one ctx_projected iterate_attributes
         (Some (PyFrozenSet <$> itersets)) (Some [projection_num - 1])).

(** Lines 172-227 with the first pass of the loop, when there is one
    ([None] inside when [range(proj_to_start+1, max_projection+1)] is
    empty). *)
Definition sofia_binary_first_pass (K : FormalContext) (L_max : nat) (iterate_attributes : bool)
    (measure : measure_arg) (projection_sorting : option string) (proj_to_start : option nat)
    : option (result (sofia_state * option (list FormalConcept))) :=
  and_then (sofia_binary_start K L_max iterate_attributes measure projection_sorting
              proj_to_start)
    (λ st,
       let max_projection := if iterate_attributes then n_attributes K else n_objects K in
       if s_proj_to_start st + 1 <=? max_projection then
         and_then (sofia_new_concepts K iterate_attributes (s_projections_order st)
                     (s_itersets st) (s_proj_to_start st + 1))
           (λ new_concepts, Some (Ok (st, Some new_concepts)))
       else Some (Ok (st, None))).

(** Lines 217-232: a pass of the loop over the projections, up to the
    concepts of the lattice being given the hash of the projected context,
    [for c in lattice.concepts: c._context_hash = ctx_projected_hash]. *)
Definition sofia_pass_rehash (K : FormalContext) (iterate_attributes : bool)
    (projections_order : list nat) (lattice : ConceptLattice) (itersets : list (gset nat))
    (projection_num : nat) : option (result (list FormalConcept * list FormalConcept)) :=
  and_then (Some (sofia_project K iterate_attributes (take projection_num projections_order)))
    (λ ctx_projected,
  and_then (sofia_close_by_one ctx_projected iterate_attributes
              (Some (PyFrozenSet <$> itersets)) (Some [projection_num - 1]))
    (λ new_concepts,
       let ctx_projected_hash := hash_fixed ctx_projected in
       and_then (Some (mapM (λ c, FormalConcept_setattr c "_context_hash" ctx_projected_hash)
                         (lattice_concepts lattice)))
         (λ concepts, Some (Ok (new_concepts, concepts))))).

(** Lines 172-232: [sofia_binary] up to there in the first pass of the loop
    ([None] inside when the loop has no pass, and the lattice of line 211
    is returned). *)
Definition sofia_binary_to_rehash (K : FormalContext) (L_max : nat) (iterate_attributes : bool)
    (measure : measure_arg) (projection_sorting : option string) (proj_to_start : option nat)
    : option (result (sofia_state * option (list FormalConcept * list FormalConcept))) :=
  and_then (sofia_binary_start K L_max iterate_attributes measure projection_sorting
              proj_to_start)
    (λ st,
       let max_projection := if iterate_attributes then n_attributes K else n_objects K in
       if s_proj_to_start st + 1 <=? max_projection then
         and_then (sofia_pass_rehash K iterate_attributes (s_projections_order st)
                     (s_lattice st) (s_itersets st) (s_proj_to_start st + 1))
           (λ r, Some (Ok (st, Some r)))
       else Some (Ok (st, None))).

End sofia.

(** One object that has all of three attributes. *)
Definition one_by_three : FormalContext :=
  {| data := [[true; true; true]];
     object_names := ["0"]%string;
     attribute_names := ["0"; "1"; "2"]%string;
     description := None |}.

(** ** The two sides of a comparison of concepts *)

(** [lesser_ext, greater_ext = self, other] when the concepts are not
    monotone, [other, self] when they are ([__le__], lines 61-64). *)
Definition lesser_ext (self other : FormalConcept) : FormalConcept :=
  if negb (is_monotone self) then self else other.

Definition greater_ext (self other : FormalConcept) : FormalConcept :=
  if negb (is_monotone self) then other else self.

(** ** FormalContext.intention and FormalContext.extension *)

(** [{g: g_idx for g_idx, g in enumerate(names)}]: a name that occurs twice
    keeps its last position. *)
Definition index_dict (names : list string) : dict string nat :=
  foldl (λ d r, dict_set d r.2 r.1) [] (enumerate names).

(** The loop that looks every given name up and raises [KeyError] at the
    first one that the context does not have. *)
Definition names_to_indices (idx_dict : dict string nat) (names : list string)
    : result (list nat) :=
  mapM (dict_getitem idx_dict) names.

Definition intention (K : FormalContext) (objects : list string) : result (list string) :=
  let obj_idx_dict := index_dict (object_names K) in
  obj_indices ← names_to_indices obj_idx_dict objects;
  intention_i' ← intention_i K obj_indices;
  mapM (getitem (attribute_names K)) intention_i'.

Definition extension (K : FormalContext) (attributes : list string) : result (list string) :=
  let attr_idx_dict := index_dict (attribute_names K) in
  attr_indices ← names_to_indices attr_idx_dict attributes;
  extension_i' ← extension_i K attr_indices;
  mapM (getitem (object_names K)) extension_i'.

(** The names at the given positions. *)
Definition names_at (names : list string) (indexes : list nat) : list string :=
  (λ i, default ""%string (names !! i)) <$> indexes.

(** ** Upper neighbours of a closed set *)

(** [N] is an upper neighbour of the closed set [A]: a closed set strictly
    above [A] with no closed set strictly in between. *)
Definition upper_neighbour (n1 n2 : nat) (R : nat → nat → bool) (A N : list nat) : Prop :=
  closed n1 n2 R N ∧ A ⊆ N ∧ (∃ g, g ∈ N ∧ g ∉ A)
  ∧ ∀ Y, closed n1 n2 R Y → A ⊆ Y → Y ⊆ N → (∃ y, y ∈ Y ∧ y ∉ A) → Y = N.

(** Invariant of the [for g in set(reps)] loop that gives the neighbours
    exactly: an index taken out of [reps] has an index left in [reps] in the
    closed set it generates, and a closed set accepted meets [reps] in the
    one index it was generated by. *)
Record covers_inv (n1 n2 : nat) (R : nat → nat → bool) (A : list nat)
    (gs : list nat) (reps : gset nat) (Ns : list (list nat)) : Prop := {
  cinv_reps : ∀ h, h ∈ reps → h < n1 ∧ h ∉ A;
  cinv_todo : ∀ h, h ∈ gs → h ∈ reps;
  cinv_rejected : ∀ h, h < n1 → h ∉ A → h ∉ reps →
    ∃ k, k ∈ reps ∧ k ∈ closure n1 n2 R (A ++ [h]);
  cinv_accepted : ∀ N, N ∈ Ns →
    ∃ g, g ∈ reps ∧ (g ∉ gs) ∧ N = closure n1 n2 R (A ++ [g])
         ∧ ∀ k, k ∈ reps → k ∈ N → k = g;
  cinv_done : ∀ g, g ∈ reps → g ∉ gs → closure n1 n2 R (A ++ [g]) ∈ Ns;
  cinv_nodup : NoDup Ns;
}.

(** ** fcapy.utils.utils.powerset *)

(** [itertools.combinations(s, r)]: the subsequences of [s] of length [r],
    in the lexicographic order of the positions they are taken at. *)
Fixpoint combinations {A} (s : list A) (r : nat) : list (list A) :=
  match s with
  | [] =>
      match r with
      | 0 => [[]]
      | S _ => []
      end
  | x :: s' =>
      match r with
      | 0 => [[]]
      | S r' => ((x ::.) <$> combinations s' r') ++ combinations s' r
      end
  end.

(** [chain.from_iterable(combinations(s, r) for r in range(len(s)+1))] *)
Definition powerset {A} (iterable : list A) : list (list A) :=
  let s := iterable in
  concat ((λ r, combinations s r) <$> seq 0 (length s + 1)).

(** The combinations of the sizes below [n], one size after the other. *)
Definition combinations_below {A} (s : list A) (n : nat) : list (list A) :=
  concat ((λ r, combinations s r) <$> seq 0 n).

(** ** The constructor of FormalContext *)

(** A [FormalContext] object: without data all of [data], [n_objects],
    [n_attributes] and the names are [None]. *)
Inductive FormalContext_object :=
  | NoData (description : option string)
  | WithData (K : FormalContext).

(** [[str(idx) for idx in range(n)]] *)
Definition default_names (n : nat) : list string := pretty <$> seq 0 n.

(** [FormalContext(data, object_names, attribute_names, description=...)]:
    the four setters in the order of [__init__].  With [data] left [None], a
    list of names makes [len(self._data)] raise [TypeError]. *)
Definition new_FormalContext (data : option (list (list bool)))
    (object_names attribute_names : option (list string)) (description : option string)
    : result FormalContext_object :=
  match data with
  | None =>
      match object_names, attribute_names with
      | None, None => Ok (NoData description)
      | _, _ => Raise TypeError
      end
  | Some value =>
      _ ← py_assert (0 <? length value);
      row0 ← getitem value 0;
      let length := length row0 in
      _ ← py_assert (forallb (λ g_ms, List.length g_ms =? length) value);
      object_names ←
        match object_names with
        | None => Ok (default_names (List.length value))
        | Some names =>
            _ ← py_assert (List.length names =? List.length value); mret names
        end;
      attribute_names ←
        match attribute_names with
        | None => Ok (default_names length)
        | Some names =>
            _ ← py_assert (List.length names =? List.length row0); mret names
        end;
      mret (WithData {| data := value; object_names := object_names;
                        attribute_names := attribute_names;
                        description := description |})
  end.

(** ** fcapy.context.bintable_new.BinTableLists *)

(** The exceptions of the module, with the fields of their dataclasses, and
    the built-in ones that its code can raise. *)
Inductive bt_exn :=
  | BtAssertionError
  | BtIndexError
  | BtTypeError
  | UnmatchedTypeError (row_idx : nat)
  | UnmatchedLengthError (row_idx : option nat)
  | NotBooleanValueError (row_idx : option nat)
  | UnknownDataTypeError
  | UnknownAxisError (unknown_axis : Z).

Inductive bt_result (A : Type) :=
  | BtOk (a : A)
  | BtRaise (e : bt_exn).
Arguments BtOk {A} a.
Arguments BtRaise {A} e.

#[global] Instance bt_result_ret : MRet bt_result := λ A a, BtOk a.
#[global] Instance bt_result_bind : MBind bt_result := λ A B f r,
  match r with BtOk a => f a | BtRaise e => BtRaise e end.

(** What [all], [any] and [sum] return: one value for the whole table, or
    one per row or column. *)
Inductive bt_val (A : Type) :=
  | BtScalar (x : A)
  | BtVector (l : list A).
Arguments BtScalar {A} x.
Arguments BtVector {A} l.

Record BinTableLists := {
  bt_data : list (list bool);
  bt_height : nat;
  bt_width : option nat;
}.

(** [decide_dataclass] on a list of lists. *)
Definition decide_dataclass (data : list (list bool)) : bt_result string :=
  if 0 <? length data then BtOk "BinTableLists"%string else BtRaise BtAssertionError.

(** [BinTableLists._validate_data], the values being booleans and the rows
    lists: the first row whose length is not that of row 0 is reported. *)
Definition validate_data (data : list (list bool)) : bt_result bool :=
  match data with
  | [] => BtOk true
  | row0 :: _ =>
      match list_find (λ row, length row ≠ length row0) data with
      | Some (i, _) => BtRaise (UnmatchedLengthError (Some i))
      | None => BtOk true
      end
  end.

(** [_transform_data]: [None] gives the empty table; a list of lists, for
    which [decide_dataclass] answers the name of this very class, is taken as
    it is, with [len(data)] and [len(data[0])]. *)
Definition transform_data (data : option (list (list bool)))
    : bt_result (list (list bool) * nat * option nat) :=
  match data with
  | None => BtOk ([], 0, None)
  | Some data =>
      _ ← decide_dataclass data;
      match data with
      | [] => BtRaise BtIndexError
      | row0 :: _ => BtOk (data, length data, Some (length row0))
      end
  end.

(** [BinTableLists(data)]: the [data] setter. *)
Definition new_BinTableLists (value : option (list (list bool))) : bt_result BinTableLists :=
  '(data, h, w) ← transform_data value;
  _ ← validate_data data;
  mret {| bt_data := data; bt_height := h; bt_width := w |}.

(** [zip] applied to the rows of [data]: the columns, as many as the shortest
    row is long. *)
Fixpoint zip_star {A} (data : list (list A)) : list (list A) :=
  match data with
  | [] => []
  | [row] => (λ x, [x]) <$> row
  | row :: rest => zip_with cons row (zip_star rest)
  end.

(** [sum(row)] for a row of booleans. *)
Definition py_sum_bool (row : list bool) : nat := sum_list (Nat.b2n <$> row).

Definition bt_all_ (t : BinTableLists) : bool := forallb py_all (bt_data t).
Definition bt_all_per_row (t : BinTableLists) : list bool := py_all <$> bt_data t.
Definition bt_all_per_column (t : BinTableLists) : list bool := py_all <$> zip_star (bt_data t).
Definition bt_any_ (t : BinTableLists) : bool := existsb py_any (bt_data t).
Definition bt_any_per_row (t : BinTableLists) : list bool := py_any <$> bt_data t.
Definition bt_any_per_column (t : BinTableLists) : list bool := py_any <$> zip_star (bt_data t).
Definition bt_sum_per_row (t : BinTableLists) : list nat := py_sum_bool <$> bt_data t.
Definition bt_sum_per_column (t : BinTableLists) : list nat :=
  py_sum_bool <$> zip_star (bt_data t).
Definition bt_sum_ (t : BinTableLists) : nat := sum_list (bt_sum_per_row t).

(** The dispatch on [axis] that [all], [any] and [sum] share: [None], [0]
    and [1] are known, anything else raises [UnknownAxisError]. *)
Definition by_axis {A} (axis : option Z) (whole : A) (per_column per_row : list A)
    : bt_result (bt_val A) :=
  match axis with
  | None => BtOk (BtScalar whole)
  | Some 0%Z => BtOk (BtVector per_column)
  | Some 1%Z => BtOk (BtVector per_row)
  | Some a => BtRaise (UnknownAxisError a)
  end.

Definition bt_all (t : BinTableLists) (axis : option Z) : bt_result (bt_val bool) :=
  by_axis axis (bt_all_ t) (bt_all_per_column t) (bt_all_per_row t).

Definition bt_any (t : BinTableLists) (axis : option Z) : bt_result (bt_val bool) :=
  by_axis axis (bt_any_ t) (bt_any_per_column t) (bt_any_per_row t).

Definition bt_sum (t : BinTableLists) (axis : option Z) : bt_result (bt_val nat) :=
  by_axis axis (bt_sum_ t) (bt_sum_per_column t) (bt_sum_per_row t).

(** [[i for i, flg in enumerate(flags) if flg]]; a single [bool] cannot be
    enumerated. *)
Definition flagged (flags : bt_val bool) : bt_result (list nat) :=
  match flags with
  | BtScalar _ => BtRaise BtTypeError
  | BtVector l => BtOk (filter (λ r, r.2 = true) (enumerate l)).*1
  end.

Definition bt_all_i (t : BinTableLists) (axis : option Z) : bt_result (list nat) :=
  bt_all t axis ≫= flagged.

Definition bt_any_i (t : BinTableLists) (axis : option Z) : bt_result (list nat) :=
  bt_any t axis ≫= flagged.

(** ** The order of the projections of sofia_binary *)

(** [support_of K iterate_attributes i]: what [key_fnc(i)] measures, the
    number of objects that have attribute [i], or of attributes that object
    [i] has. *)
Definition support_of (K : FormalContext) (iterate_attributes : bool) (i : nat) : nat :=
  length (if iterate_attributes then ext_of K [i] else int_of K [i]).

(** The order in which a stable sort leaves two elements given with their
    keys, the first of which comes first in the list that is sorted. *)
Definition pair_before (y z : nat * Z) : Prop :=
  (y.2 < z.2)%Z ∨ (y.2 = z.2 ∧ y.1 < z.1).

(** ** FormalConcept.to_dict *)

(** The values that [to_dict] puts into the dictionary it returns. *)
#[warnings="-register-all"]
Inductive pyval :=
  | PyInt (z : Z)
  | PyFloat (f : float)
  | PyBool (b : bool)
  | PyStr (s : string)
  | PyNone
  | PyTuple (l : list pyval)
  | PyDict (d : list (string * pyval)).

(** [sort_set(set_)] on a set of integers: [tuple(sorted(set_))]. *)
Definition sort_set (set_ : gset nat) : list nat := merge_sort (≤) (elements set_).

(** The order of two names given with their keys. *)
Definition key_le (x y : nat * string) : Prop := x.1 ≤ y.1.

#[global] Instance key_le_dec : RelDecision key_le.
Proof. intros x y. unfold key_le. apply _. Defined.

(** [sort_set(set_, key=lambda g: idxs_map[g])] on a set of names: the key
    of every name is looked up, which raises [KeyError] for a name that the
    map does not have, and the names are put in the order of their keys. *)
Definition sort_set_by (idxs_map : dict string nat) (set_ : gset string)
    : result (list string) :=
  keyed ← mapM (λ g, i ← dict_getitem idxs_map g; mret (i, g)) (elements set_);
  mret (merge_sort key_le keyed).*2.

(** Lines 134-153.  The measures are stored in a map that does not record
    the order in which Python would go through them; they are written in
    the order of [map_to_list], which the look-ups in the result do not
    depend on. *)
Definition to_dict (c : FormalConcept) (objs_order attrs_order : list string)
    : result (dict string pyval) :=
  let obj_idxs_map := index_dict objs_order in
  let attrs_idxs_map := index_dict attrs_order in
  let concept_info : dict string pyval := [] in
  ext_names ← sort_set_by obj_idxs_map (extent c);
  let concept_info :=
    dict_set concept_info "Ext"%string
      (PyDict [("Inds"%string, PyTuple (PyInt ∘ Z.of_nat <$> sort_set (extent_i c)));
               ("Names"%string, PyTuple (PyStr <$> ext_names));
               ("Count"%string, PyInt (Z.of_nat (size (extent_i c))))]) in
  int_names ← sort_set_by attrs_idxs_map (intent c);
  let concept_info :=
    dict_set concept_info "Int"%string
      (PyDict [("Inds"%string, PyTuple (PyInt ∘ Z.of_nat <$> sort_set (intent_i c)));
               ("Names"%string, PyTuple (PyStr <$> int_names));
               ("Count"%string, PyInt (Z.of_nat (size (intent_i c))))]) in
  let concept_info := dict_set concept_info "Supp"%string (PyInt (Z.of_nat (support c))) in
  let concept_info :=
    foldl (λ d kv, dict_set d kv.1 (PyFloat kv.2)) concept_info (map_to_list (measures c)) in
  let concept_info :=
    dict_set concept_info "Context_Hash"%string
      (match context_hash c with Some h => PyInt h | None => PyNone end) in
  let concept_info := dict_set concept_info "Monotone"%string (PyBool (is_monotone c)) in
  mret concept_info.

(** ** The adjacency dictionaries of lindig_algorithm *)

(** Invariant of the [while] loop on [subconcepts_dict] and
    [superconcepts_dict], [As] being the closed sets found so far, in the
    order of [concepts]: a closed set has an entry in [superconcepts_dict]
    once it has left the queue, the entry then lists the positions of its
    upper neighbours, all of which have been found; every closed set found
    has an entry in [subconcepts_dict], which lists the positions that list
    it in [superconcepts_dict]. *)
Record lindig_adj (n1 n2 : nat) (R : nat → nat → bool) (obj_names attr_names : list string)
    (h : Z) (As : list (list nat)) (st : lindig_state) : Prop := {
  adj_queue : NoDup (l_queue st);
  adj_index : ∀ i A, As !! i = Some A → dict_get (l_index st) (list_to_set A) = Some i;
  adj_super_keys : ∀ i A, As !! i = Some A →
    (dict_get (l_superconcepts_dict st) i = None
     ↔ closed_concept n2 R obj_names attr_names h A ∈ l_queue st);
  adj_super_range : ∀ i, is_Some (dict_get (l_superconcepts_dict st) i) → i < length As;
  adj_super : ∀ i A js, As !! i = Some A → dict_get (l_superconcepts_dict st) i = Some js →
    NoDup js
    ∧ (∀ j, j ∈ js ↔ ∃ N, As !! j = Some N ∧ upper_neighbour n1 n2 R A N)
    ∧ ∀ N, upper_neighbour n1 n2 R A N → N ∈ As;
  adj_sub_keys : ∀ j, j < length As → is_Some (dict_get (l_subconcepts_dict st) j);
  adj_sub : ∀ j ks, dict_get (l_subconcepts_dict st) j = Some ks →
    NoDup ks
    ∧ ∀ i, i ∈ ks ↔ ∃ js, dict_get (l_superconcepts_dict st) i = Some js ∧ j ∈ js;
}.

(** The concept [cj] is an upper neighbour of the concept [ci] among
    [concepts]: its extent is strictly larger, and no concept has an extent
    strictly in between. *)
Definition concept_covers (concepts : list FormalConcept) (ci cj : FormalConcept) : Prop :=
  extent_i ci ⊂ extent_i cj
  ∧ ∀ ck, ck ∈ concepts → extent_i ci ⊆ extent_i ck → extent_i ck ⊆ extent_i cj →
          extent_i ck = extent_i ci ∨ extent_i ck = extent_i cj.

(** ** FormalContext.print_data *)

(** An entry of the table to print: a value of [data], or the ['...'] put
    where columns are left out. *)
Inductive print_cell :=
  | CellValue (m_val : bool)
  | CellDots.

(** Python's [l[:k]] and [l[k:]]: a negative [k] counts from the end, and the
    bound is clipped to the list. *)
Definition py_slice_to {A} (k : Z) (l : list A) : list A :=
  take (Z.to_nat (if (k <? 0)%Z then Z.of_nat (length l) + k else k)%Z) l.

Definition py_slice_from {A} (k : Z) (l : list A) : list A :=
  drop (Z.to_nat (if (k <? 0)%Z then Z.of_nat (length l) + k else k)%Z) l.

(** [s * n] on a string: no copy at all for a negative [n]. *)
Definition str_times (s : string) (n : Z) : string :=
  String.concat "" (replicate (Z.to_nat n) s).

(** [max(l)] raises [ValueError] on an empty list. *)
Definition py_max (l : list nat) : result nat :=
  match l with
  | [] => Raise ValueError
  | x :: l => Ok (foldl Nat.max x l)
  end.

(** The line feed, character 10. *)
Definition newline : string := String (Ascii.ascii_of_nat 10) "".

(** Lines 410-411, one entry of a line. *)
Definition print_cell_str (m_name : string) (m_val : print_cell) : string :=
  match m_val with
  | CellDots => "..."
  | CellValue m_val =>
      str_times " " (Z.of_nat (String.length m_name) - 1) +:+ (if m_val then "X" else " ")
  end.

(** Lines 384-415: [[header] + lines], which line 417 joins. *)
Definition print_data_lines (K : FormalContext) (max_n_objects max_n_attributes : Z)
    : result (list string) :=
  let objs_to_print := object_names K in
  let attrs_to_print := attribute_names K in
  let data_to_print := fmap CellValue <$> data K in
  let '(attrs_to_print, data_to_print) :=
    if (max_n_attributes <? Z.of_nat (n_attributes K))%Z then
      (py_slice_to (max_n_attributes `div` 2) attrs_to_print ++ ["..."%string]
         ++ py_slice_from ((- max_n_attributes) `div` 2) attrs_to_print,
       (λ line, py_slice_to (max_n_attributes `div` 2) line ++ [CellDots]
                  ++ py_slice_from ((- max_n_attributes) `div` 2) line) <$> data_to_print)
    else (attrs_to_print, data_to_print) in
  let '(objs_to_print, data_to_print, plot_objs_line) :=
    if (max_n_objects <? Z.of_nat (n_objects K))%Z then
      (py_slice_to (max_n_objects `div` 2) objs_to_print
         ++ py_slice_from ((- max_n_objects) `div` 2) objs_to_print,
       py_slice_to (max_n_objects `div` 2) data_to_print
         ++ py_slice_from ((- max_n_objects) `div` 2) data_to_print,
       true)
    else (objs_to_print, data_to_print, false) in
  max_obj_name_len ← py_max (String.length <$> objs_to_print);
  let header :=
    str_times " " (Z.of_nat max_obj_name_len) +:+ "|"
    +:+ String.concat "|" attrs_to_print +:+ "|" in
  lines ← mapM (λ idx,
                  g_name ← getitem objs_to_print idx;
                  g_ms ← getitem data_to_print idx;
                  let dots :=
                    if plot_objs_line && (Z.of_nat idx =? max_n_objects `div` 2)%Z then
                      replicate 2
                        (str_times "."
                           (Z.of_nat (max_obj_name_len + 1
                                      + sum_list ((λ m, String.length m + 1)
                                                    <$> attrs_to_print))))
                    else [] in
                  let line :=
                    g_name
                    +:+ str_times " " (Z.of_nat max_obj_name_len - Z.of_nat (String.length g_name))
                    +:+ "|"
                    +:+ String.concat "|" (zip_with print_cell_str attrs_to_print g_ms)
                    +:+ "|" in
                  mret (dots ++ [line]))
               (seq 0 (length data_to_print));
  mret (header :: concat lines).

Definition print_data (K : FormalContext) (max_n_objects max_n_attributes : Z)
    : result string :=
  lines ← print_data_lines K max_n_objects max_n_attributes;
  mret (String.concat newline lines).

(** * Properties *)

(** ** The result monad *)

Lemma mapM_Ok {A B} (f : A → B) (l : list A) :
  mapM (λ x, Ok (f x)) l = Ok (f <$> l).
Proof. induction l as [|x l IH]; [done|]. cbn. by rewrite IH. Qed.

Lemma mapM_cons {A B} (f : A → result B) (x : A) (l : list A) :
  mapM f (x :: l) = y ← f x; k ← mapM f l; mret (y :: k).
Proof. reflexivity. Qed.

Lemma mapM_ext_Forall {A B} (f g : A → result B) (l : list A) :
  Forall (λ x, f x = g x) l → mapM f l = mapM g l.
Proof. induction 1 as [|x l Hx _ IH]; [done|]. cbn. by rewrite Hx, IH. Qed.

Lemma mapM_Ok_Forall {A B} (f : A → result B) (g : A → B) (l : list A) :
  Forall (λ x, f x = Ok (g x)) l → mapM f l = Ok (g <$> l).
Proof. intros H. rewrite <-mapM_Ok. by apply mapM_ext_Forall. Qed.

Lemma mapM_Raise {A B} (f : A → result B) (l : list A) e :
  Forall (λ x, f x = Raise e) l → l ≠ [] → mapM f l = Raise e.
Proof. intros [|x l' Hx _] ?; [done|]. cbn. by rewrite Hx. Qed.

Lemma getitem_Ok {A} (l : list A) i : i < length l → ∃ x, l !! i = Some x ∧ getitem l i = Ok x.
Proof.
  intros Hi. destruct (lookup_lt_is_Some_2 l i Hi) as [x Hx].
  exists x. unfold getitem. by rewrite Hx.
Qed.

Lemma py_all_forallb {A} (f : A → bool) l : py_all (f <$> l) = forallb f l.
Proof. induction l as [|x l IH]; [done|]. cbn. unfold py_all in IH. by rewrite IH. Qed.

(** ** The closure queries of a well-formed context *)

Lemma context_ok_inv K :
  context_ok K = true →
  data K ≠ [] ∧ Forall (λ g_ms, length g_ms = n_attributes K) (data K)
  ∧ length (object_names K) = n_objects K
  ∧ length (attribute_names K) = n_attributes K.
Proof.
  unfold context_ok, data_setter_ok, n_attributes, n_objects.
  destruct (data K) as [|row rows] eqn:HD; [done|].
  rewrite !andb_true_iff, forallb_forall, !Nat.eqb_eq.
  intros [[Hrows ?] ?]. split_and!; [done| |done|done].
  apply Forall_forall. intros r Hr. apply Nat.eqb_eq, Hrows.
  by apply list_elem_of_In.
Qed.

Lemma filter_flags_fst (Q : nat → bool) (l : list nat) :
  (filter (λ r : nat * bool, r.2 = true) ((λ m, (m, Q m)) <$> l)).*1
  = filter (λ m, Q m = true) l.
Proof.
  induction l as [|m l IH]; [done|].
  cbn [fmap list_fmap]. rewrite !filter_cons. cbn [snd].
  destruct (decide (Q m = true)); cbn; by rewrite IH.
Qed.

Lemma enumerate_flags {X} (P : X → bool) (Q : nat → bool) (l : list X) s :
  (∀ i x, l !! i = Some x → P x = Q (s + i)) →
  (λ r : nat * X, (r.1, P r.2)) <$> zip (seq s (length l)) l
  = (λ m, (m, Q m)) <$> seq s (length l).
Proof.
  revert s. induction l as [|x l IH]; intros s H; [done|].
  cbn. f_equal.
  - rewrite (H 0 x eq_refl). by rewrite Nat.add_0_r.
  - apply IH. intros i y Hy. rewrite (H (S i) y Hy). f_equal. lia.
Qed.

Lemma extension_i_ok K B :
  context_ok K = true → Forall (λ m, m < n_attributes K) B →
  extension_i K B = Ok (ext_of K B).
Proof.
  intros HK HB. destruct (context_ok_inv K HK) as (_ & Hrows & _).
  unfold extension_i, ext_of, enumerate, n_objects.
  rewrite (mapM_Ok_Forall _ (λ r, (r.1, forallb (λ m, default false (r.2 !! m)) B))).
  - cbn. f_equal.
    rewrite (enumerate_flags (λ g_ms, forallb (λ m, default false (g_ms !! m)) B)
               (λ g, forallb (incidence K g) B) (data K) 0).
    + apply filter_flags_fst.
    + intros i x Hx. cbn. unfold incidence. by rewrite Hx.
  - apply Forall_forall. intros [g g_ms] Hin.
    assert (g_ms ∈ data K) as Hg by (by apply elem_of_zip_r in Hin).
    assert (length g_ms = n_attributes K) as Hlen
      by (by eapply (proj1 (Forall_forall _ _) Hrows)).
    rewrite (mapM_Ok_Forall _ (λ m, default false (g_ms !! m))).
    + cbn. by rewrite py_all_forallb.
    + eapply Forall_impl; [exact HB|]. cbn. intros m Hm.
      destruct (getitem_Ok g_ms m) as (x & Hx & ->); [lia|]. by rewrite Hx.
Qed.

Lemma intention_i_ok K A :
  context_ok K = true → Forall (λ g, g < n_objects K) A →
  intention_i K A = Ok (int_of K A).
Proof.
  intros HK HA. destruct (context_ok_inv K HK) as (Hne & Hrows & _).
  unfold intention_i, int_of, n_attributes.
  destruct (data K) as [|row0 rows] eqn:HD; [done|]. cbn [getitem lookup list_lookup mbind result_bind].
  rewrite (mapM_Ok_Forall _ (λ m, (m, forallb (λ g, incidence K g m) A))).
  - cbn. f_equal. apply filter_flags_fst.
  - apply Forall_forall. intros m Hm. apply elem_of_seq in Hm.
    rewrite (mapM_Ok_Forall _ (λ g, incidence K g m)).
    + cbn. by rewrite py_all_forallb.
    + eapply Forall_impl; [exact HA|]. cbn. intros g Hg.
      unfold n_objects in Hg. rewrite HD in Hg.
      destruct (getitem_Ok (row0 :: rows) g Hg) as (g_ms & Hg_ms & ->). cbn.
      assert (length g_ms = length row0) as Hlen.
      { assert (g_ms ∈ row0 :: rows) as Hin by (by eapply list_elem_of_lookup_2).
        pose proof (proj1 (Forall_forall _ _) Hrows g_ms Hin) as Hl.
        unfold n_attributes in Hl. by rewrite HD in Hl. }
      destruct (getitem_Ok g_ms m) as (x & Hx & ->); [lia|].
      unfold incidence. rewrite HD, Hg_ms. by rewrite Hx.
Qed.

(** ** Galois connection between index sets *)

Lemma ext_of_polar K B : ext_of K B = polar (n_objects K) (λ m g, incidence K g m) B.
Proof. reflexivity. Qed.

Lemma int_of_polar K A : int_of K A = polar (n_attributes K) (incidence K) A.
Proof. reflexivity. Qed.

Lemma elem_of_polar n R X y :
  y ∈ polar n R X ↔ y < n ∧ ∀ x, x ∈ X → R x y = true.
Proof.
  unfold polar. rewrite list_elem_of_filter, elem_of_seq, forallb_forall.
  split.
  - intros [H1 H2]. split; [lia|]. intros x Hx. by apply H1, list_elem_of_In.
  - intros [H1 H2]. split; [|lia]. intros x Hx. by apply H2, list_elem_of_In.
Qed.

Lemma polar_below n R X : below n (polar n R X).
Proof. apply Forall_forall. intros y Hy. by apply elem_of_polar in Hy as [? _]. Qed.

Lemma polar_sublist n R X : polar n R X `sublist_of` seq 0 n.
Proof. apply sublist_filter. Qed.

Lemma polar_NoDup n R X : NoDup (polar n R X).
Proof. apply NoDup_filter, NoDup_seq. Qed.

Lemma filter_ext_in {A} (P1 P2 : A → Prop)
    `{!∀ x, Decision (P1 x), !∀ x, Decision (P2 x)} (l : list A) :
  (∀ x, x ∈ l → P1 x ↔ P2 x) → filter P1 l = filter P2 l.
Proof.
  induction l as [|a l IH]; intros Hl; [done|].
  rewrite !filter_cons.
  rewrite IH by (intros x Hx; apply Hl; by right).
  assert (P1 a ↔ P2 a) as Ha by (apply Hl; by left).
  destruct (decide (P1 a)), (decide (P2 a)); tauto || done.
Qed.

(** A polar is determined by its members. *)
Lemma polar_ext n R X X' :
  (∀ y, y ∈ polar n R X ↔ y ∈ polar n R X') → polar n R X = polar n R X'.
Proof.
  intros H. unfold polar. apply filter_ext_in.
  intros y Hy. pose proof (H y) as Hy'. rewrite !elem_of_polar in Hy'.
  apply elem_of_seq in Hy. rewrite !forallb_forall.
  destruct Hy' as [H1 H2].
  split; intros HX x Hx; apply list_elem_of_In in Hx.
  - destruct H1 as [_ H1]; [|by apply H1].
    split; [lia|]. intros x' Hx'. by apply HX, list_elem_of_In.
  - destruct H2 as [_ H2]; [|by apply H2].
    split; [lia|]. intros x' Hx'. by apply HX, list_elem_of_In.
Qed.

Lemma polar_set_ext n R X X' : (∀ x, x ∈ X ↔ x ∈ X') → polar n R X = polar n R X'.
Proof.
  intros H. apply polar_ext. intros y. rewrite !elem_of_polar.
  split; intros [? HX]; (split; [done|]); intros x Hx; apply HX; by apply H.
Qed.

Lemma polar_anti n R X X' : X ⊆ X' → polar n R X' ⊆ polar n R X.
Proof.
  intros H y. rewrite !elem_of_polar. intros [? HX]. split; [done|].
  intros x Hx. by apply HX, H.
Qed.

Section galois.
Variables (n1 n2 : nat) (R : nat → nat → bool).

Abbreviation up := (polar n2 R).
Abbreviation down := (polar n1 (λ y x, R x y)).

Lemma down_up_extensive X : below n1 X → X ⊆ down (up X).
Proof.
  intros HX x Hx. apply elem_of_polar. split.
  - by apply (proj1 (Forall_forall _ _) HX).
  - intros y Hy. apply elem_of_polar in Hy as [_ Hy]. by apply Hy.
Qed.

Lemma up_down_extensive Y : below n2 Y → Y ⊆ up (down Y).
Proof.
  intros HY y Hy. apply elem_of_polar. split.
  - by apply (proj1 (Forall_forall _ _) HY).
  - intros x Hx. apply elem_of_polar in Hx as [_ Hx]. by apply Hx.
Qed.

Lemma up_down_up X : below n1 X → up (down (up X)) = up X.
Proof.
  intros HX. apply polar_ext. intros y. split.
  - apply polar_anti. by apply down_up_extensive.
  - apply up_down_extensive, polar_below.
Qed.

Lemma down_up_down Y : below n2 Y → down (up (down Y)) = down Y.
Proof.
  intros HY. apply polar_ext. intros x. split.
  - apply polar_anti. by apply up_down_extensive.
  - apply down_up_extensive, polar_below.
Qed.

Lemma down_up_idemp X : below n1 X → down (up (down (up X))) = down (up X).
Proof. intros HX. by rewrite up_down_up. Qed.

Lemma down_up_mono X X' : X ⊆ X' → down (up X) ⊆ down (up X').
Proof. intros H. by apply polar_anti, polar_anti. Qed.

End galois.

(** ** Comparison of contexts and of concepts *)

(** C10.  [==] and [!=] on two contexts raise [ValueError] whenever the
    lists of object names differ or the lists of attribute names differ;
    when both lists agree they return the (in)equality of the data. *)
Theorem FormalContext_eq_ne_names (K1 K2 : FormalContext) :
  (object_names K1 ≠ object_names K2 ∨ attribute_names K1 ≠ attribute_names K2 →
   FormalContext_eq K1 K2 = Raise ValueError ∧ FormalContext_ne K1 K2 = Raise ValueError)
  ∧ (object_names K1 = object_names K2 ∧ attribute_names K1 = attribute_names K2 →
     FormalContext_eq K1 K2 = Ok (bool_decide (data K1 = data K2))
     ∧ FormalContext_ne K1 K2 = Ok (negb (bool_decide (data K1 = data K2)))).
Proof.
  unfold FormalContext_eq, FormalContext_ne. split.
  - intros [H|H].
    + by rewrite (bool_decide_eq_false_2 _ H).
    + rewrite (bool_decide_eq_false_2 _ H). by destruct (bool_decide _).
  - intros [H1 H2]. by rewrite (bool_decide_eq_true_2 _ H1), (bool_decide_eq_true_2 _ H2).
Qed.

(** C8.  On two concepts with different context hashes, or of which one is
    monotone and the other is not, [<=] raises an error (one of the two
    [ValueError] subclasses of the module), and so would the [__eq__] of
    lines 38-48.  But [==] on two [FormalConcept] objects is answered by the
    [__eq__] that the dataclass decorator generates: it returns [False] and
    raises nothing. *)
Theorem concept_eq_mismatch_silent (measures_eq : gmap string float → gmap string float → bool)
    (c1 c2 : FormalConcept) :
  context_hash c1 ≠ context_hash c2 ∨ is_monotone c1 ≠ is_monotone c2 →
  FormalConcept_eq measures_eq c1 c2 = Ok false
  ∧ ((concept_eq c1 c2 = Raise UnmatchedContextError
      ∧ concept_le c1 c2 = Raise UnmatchedContextError)
     ∨ (concept_eq c1 c2 = Raise UnmatchedMonotonicityError
        ∧ concept_le c1 c2 = Raise UnmatchedMonotonicityError)).
Proof.
  intros H. split.
  - unfold FormalConcept_eq. f_equal.
    destruct H as [H|H]; rewrite (bool_decide_eq_false_2 _ H);
      rewrite ?andb_false_r; reflexivity.
  - unfold concept_eq, concept_le.
    destruct (decide (context_hash c1 = context_hash c2)) as [Hh|Hh].
    + right. destruct H as [H|H]; [done|].
      by rewrite (bool_decide_eq_true_2 _ Hh), (bool_decide_eq_false_2 _ H).
    + left. by rewrite (bool_decide_eq_false_2 _ Hh).
Qed.

(** ** Entry checks and defaults of the algorithms *)

Section entry_checks.
Variable set_order : gset nat → list nat.
Variable set_pop : list FormalConcept → nat.
Variable hash_fixed : FormalContext → Z.

(** C9.  On a context that is not a [FormalContext], [close_by_one] with
    [iterate_extents=False] fails on its first assertion and
    [lindig_algorithm] fails on its first statement; neither produces a
    concept. *)
Theorem unsupported_context_fails (context : AnyContext) (output_as_concepts : bool)
    (initial_combinations : option (list pyseq)) (iter_elements_to_check : option (list nat))
    (iterate_extents : option bool) :
  type_of context ≠ TFormalContext →
  close_by_one set_order hash_fixed context output_as_concepts (Some false)
    initial_combinations iter_elements_to_check = Some (Raise AssertionError)
  ∧ lindig_algorithm set_order set_pop hash_fixed context iterate_extents
    = Some (Raise NotImplementedError).
Proof. destruct context as [K|K]; [done|]. intros _. split; reflexivity. Qed.

(** With [iterate_extents] left unspecified, [close_by_one] on a
    [FormalContext] walks subsets of objects, whatever the numbers of
    objects and of attributes. *)
Lemma close_by_one_default_is_extents (K : FormalContext) (output_as_concepts : bool) :
  cbo_iterate_extents (FormalCtx K) None = true
  ∧ close_by_one set_order hash_fixed (FormalCtx K) output_as_concepts None None None
    = close_by_one set_order hash_fixed (FormalCtx K) output_as_concepts (Some true) None None.
Proof. split; reflexivity. Qed.

End entry_checks.

(** C5.  On a context with two objects and one attribute, so that the
    attributes are the smaller side, [close_by_one] with [iterate_extents]
    unspecified walks subsets of objects: its output is that of
    [iterate_extents=True] and not that of [iterate_extents=False]. *)
Theorem close_by_one_default_direction :
  (n_objects two_by_one <? n_attributes two_by_one) = false
  ∧ cbo_iterate_extents (FormalCtx two_by_one) None = true
  ∧ close_by_one elements (λ _, 0%Z) (FormalCtx two_by_one) false None None None
    = Some (Ok (Data [[0]; [0; 1]] [[0]; []]))
  ∧ close_by_one elements (λ _, 0%Z) (FormalCtx two_by_one) false (Some true) None None
    = Some (Ok (Data [[0]; [0; 1]] [[0]; []]))
  ∧ close_by_one elements (λ _, 0%Z) (FormalCtx two_by_one) false (Some false) None None
    = Some (Ok (Data [[0; 1]; [0]] [[]; [0]])).
Proof. split_and!; vm_compute; reflexivity. Qed.

Lemma FormalContext_eq_ne_names_witness :
  FormalContext_eq animals two_by_one = Raise ValueError
  ∧ FormalContext_ne animals two_by_one = Raise ValueError.
Proof.
  apply (proj1 (FormalContext_eq_ne_names animals two_by_one)).
  left. vm_compute. discriminate.
Defined.

Lemma concept_eq_mismatch_silent_witness :
  FormalConcept_eq (λ _ _, true) concept_of_context_1 concept_of_context_2
  = Ok false
  ∧ concept_le concept_of_context_1 concept_of_context_2 = Raise UnmatchedContextError.
Proof.
  destruct (concept_eq_mismatch_silent (λ _ _, true)
              concept_of_context_1 concept_of_context_2) as [Heq Hle].
  - left. vm_compute. discriminate.
  - split; [exact Heq|]. destruct Hle as [[_ Hle]|[_ Hle]]; [exact Hle|].
    vm_compute in Hle. discriminate.
Defined.

Lemma unsupported_context_fails_witness :
  close_by_one elements (λ _, 0%Z) (MVCtx trivial_mv) true (Some false) None None
    = Some (Raise AssertionError)
  ∧ lindig_algorithm elements (λ _, 0) (λ _, 0%Z) (MVCtx trivial_mv) None
    = Some (Raise NotImplementedError).
Proof.
  apply (unsupported_context_fails elements (λ _, 0) (λ _, 0%Z) (MVCtx trivial_mv)).
  vm_compute. discriminate.
Defined.

(** ** Closure idempotence *)

Lemma closure_of_objects K S :
  context_ok K = true → below (n_objects K) S →
  intention_i K S ≫= extension_i K = Ok (ext_of K (int_of K S)).
Proof.
  intros HK HS. rewrite (intention_i_ok K S HK HS). cbn.
  apply extension_i_ok; [done|]. apply polar_below.
Qed.

Lemma closure_of_attributes K B :
  context_ok K = true → below (n_attributes K) B →
  extension_i K B ≫= intention_i K = Ok (int_of K (ext_of K B)).
Proof.
  intros HK HB. rewrite (extension_i_ok K B HK HB). cbn.
  apply intention_i_ok; [done|]. apply polar_below.
Qed.

(** C7.  For a list [S] of valid object indexes, [extension_i(intention_i(S))]
    is returned and is a closed extent: closing it again returns it
    unchanged.  The same holds for lists of valid attribute indexes and
    [intention_i(extension_i(B))]. *)
Theorem closure_idempotence (K : FormalContext) :
  context_ok K = true →
  (∀ S, below (n_objects K) S →
     ∃ E, intention_i K S ≫= extension_i K = Ok E
          ∧ intention_i K E ≫= extension_i K = Ok E)
  ∧ (∀ B, below (n_attributes K) B →
       ∃ I, extension_i K B ≫= intention_i K = Ok I
            ∧ extension_i K I ≫= intention_i K = Ok I).
Proof.
  intros HK. split.
  - intros S HS. exists (ext_of K (int_of K S)). split; [by apply closure_of_objects|].
    rewrite closure_of_objects by (done || apply polar_below).
    f_equal. apply (down_up_idemp (n_objects K) (n_attributes K) (incidence K) S HS).
  - intros B HB. exists (int_of K (ext_of K B)). split; [by apply closure_of_attributes|].
    rewrite closure_of_attributes by (done || apply polar_below).
    f_equal.
    apply (down_up_idemp (n_attributes K) (n_objects K) (λ m g, incidence K g m) B HB).
Qed.

Lemma closure_idempotence_witness :
  ∃ E, intention_i animals [4; 5] ≫= extension_i animals = Ok E
       ∧ intention_i animals E ≫= extension_i animals = Ok E.
Proof.
  apply (proj1 (closure_idempotence animals eq_refl) [4; 5]).
  repeat constructor; cbn; lia.
Defined.

(** ** Dictionaries *)

Section dict_facts.
Context {K V : Type} `{EqDecision K}.
Implicit Types d : dict K V.

Lemma dict_get_Some d k : is_Some (dict_get d k) ↔ k ∈ d.*1.
Proof.
  induction d as [|[k' v] d IH]; cbn.
  - split; [by intros [? ?]|by intros ?%elem_of_nil].
  - destruct (decide (k' = k)) as [->|Hne].
    + split; [left|eauto].
    + rewrite IH, elem_of_cons. naive_solver.
Qed.

Lemma dict_in_true d k : dict_in k d = true ↔ k ∈ d.*1.
Proof. unfold dict_in. by rewrite bool_decide_eq_true, dict_get_Some. Qed.

Lemma dict_in_false d k : dict_in k d = false ↔ k ∉ d.*1.
Proof. unfold dict_in. by rewrite bool_decide_eq_false, dict_get_Some. Qed.

Lemma dict_set_fresh d k v : k ∉ d.*1 → dict_set d k v = d ++ [(k, v)].
Proof.
  induction d as [|[k' v'] d IH]; cbn; [done|].
  rewrite not_elem_of_cons. intros [Hne Hk].
  destruct (decide (k' = k)); [congruence|]. by rewrite IH.
Qed.

Lemma dict_get_lookup d i k v :
  NoDup d.*1 → d !! i = Some (k, v) → dict_get d k = Some v.
Proof.
  revert i. induction d as [|[k' v'] d IH]; intros i Hnd Hi; [done|].
  apply NoDup_cons in Hnd as [Hk' Hnd]. cbn.
  destruct i as [|i]; cbn in Hi.
  - injection Hi as -> ->. by rewrite decide_True.
  - destruct (decide (k' = k)) as [->|Hne]; [|by eapply IH].
    exfalso. apply Hk'. apply list_elem_of_fmap. exists (k, v). split; [done|].
    by eapply list_elem_of_lookup_2.
Qed.

End dict_facts.

Lemma cbo_itersets_i_keys (d : dict (list nat) nat) :
  d.*2 = seq 0 (length d) → cbo_itersets_i d = d.*1.
Proof.
  unfold cbo_itersets_i, dict_items, dict_values.
  assert (∀ d : dict (list nat) nat, d.*2 = seq 0 (length d) →
            foldl (λ acc r, dict_set acc r.2 r.1) [] d = zip d.*2 d.*1) as Hgen.
  { clear d. intros d. induction d as [|[Z k] d IH] using rev_ind; intros Hd; [done|].
    rewrite fmap_app, length_app, seq_app in Hd. cbn in Hd.
    apply app_inj_tail in Hd as [Hd ->].
    rewrite foldl_app. cbn. rewrite IH by done.
    rewrite dict_set_fresh.
    - rewrite !fmap_app. cbn. rewrite zip_with_app; [done|].
      by rewrite !length_fmap.
    - rewrite fst_zip by (by rewrite !length_fmap).
      rewrite Hd, elem_of_seq. lia. }
  intros Hd. rewrite Hgen by done.
  apply snd_zip. by rewrite !length_fmap.
Qed.

(** ** One pass of the loop of close_by_one on a list combination *)

Lemma py_any_existsb {A} (f : A → bool) l : py_any (f <$> l) = existsb f l.
Proof. induction l as [|x l IH]; [done|]. cbn. unfold py_any in IH. by rewrite IH. Qed.

Lemma last_is_Some {A} (l : list A) : 0 < length l → is_Some (last l).
Proof.
  destruct l as [|x l] using rev_ind; cbn; [lia|]. rewrite last_snoc. eauto.
Qed.

Section cbo_body_list.
Context {Side : Type}.
Variable set_order : gset nat → list nat.
Variable iterset_fnc : Side → result (list nat).
Variable sideset_fnc : list nat → result Side.
Variable E : list nat.

Lemma cbo_not_lexicographic (C Z : list nat) :
  ∃ b : bool,
    (if 0 <? seq_len (PyList C)
     then py_any <$> mapM (λ g_i, x ← seq_last (PyList C); mret (g_i <? x))
                      (merge_sort (≤) (elements (list_to_set Z ∖ seq_set (PyList C) : gset nat)))
     else Ok false) = Ok b
    ∧ (b = true ↔ lex_bad C Z).
Proof.
  cbn [seq_len seq_set seq_last]. destruct (0 <? length C) eqn:Hlen.
  - apply Nat.ltb_lt in Hlen. destruct (last_is_Some C Hlen) as [x Hx]. rewrite Hx.
    set (new := merge_sort _ _).
    exists (existsb (λ g, g <? x) new). split.
    + rewrite (mapM_Ok_Forall _ (λ g, g <? x)) by (by apply Forall_forall).
      cbn. by rewrite py_any_existsb.
    + rewrite existsb_exists. unfold lex_bad. split.
      * intros (g & Hg & Hlt). exists x, g. apply list_elem_of_In in Hg.
        unfold new in Hg. rewrite merge_sort_Permutation in Hg.
        apply elem_of_elements, elem_of_difference in Hg as [Hg1 Hg2].
        rewrite elem_of_list_to_set in Hg1, Hg2. apply Nat.ltb_lt in Hlt. done.
      * intros (x' & g & Hx' & Hg1 & Hg2 & Hlt). exists g.
        assert (x' = x) as -> by congruence. split; [|by apply Nat.ltb_lt].
        apply list_elem_of_In. unfold new. rewrite merge_sort_Permutation.
        apply elem_of_elements, elem_of_difference.
        by rewrite !elem_of_list_to_set.
  - exists false. split; [done|]. split; [done|].
    intros (x & g & Hx & _). apply Nat.ltb_ge in Hlen.
    destruct C; [done|cbn in Hlen; lia].
Qed.

Lemma cbo_extends_PyList (C Z : list nat) (g : nat) :
  cbo_extends (PyList C) Z g = Ok (extends_list C Z g).
Proof.
  unfold cbo_extends, extends_list. cbn [seq_len seq_last].
  destruct (bool_decide (g ∈ Z)); cbn; [done|].
  destruct C as [|c C] using rev_ind; [done|].
  rewrite length_app, last_snoc. cbn. by rewrite Nat.add_1_r.
Qed.

(** The outcome of one pass: the state is left as it is when the
    combination is rejected, and otherwise gains [Z], [S] and the new
    combinations. *)
Lemma cbo_body_PyList (C : list nat) (S : Side) (Z : list nat) (st : cbo_state Side) :
  sideset_fnc C = Ok S → iterset_fnc S = Ok Z →
  ∃ st', cbo_body set_order iterset_fnc sideset_fnc E (PyList C) st = Ok st'
    ∧ ((lex_bad C Z ∨ Z ∈ (itersets_i_dict st).*1) ∧ st' = st
       ∨ (¬ lex_bad C Z ∧ (Z ∉ (itersets_i_dict st).*1)
          ∧ st' = {| combinations_to_check :=
                       ((λ g, PyList (Z ++ [g])) <$> filter (λ g, extends_list C Z g = true) E)
                       ++ combinations_to_check st;
                     itersets_i_dict := itersets_i_dict st ++ [(Z, length (sidesets_i st))];
                     sidesets_i := sidesets_i st ++ [S] |})).
Proof.
  intros HS HZ. unfold cbo_body. cbn [seq_items]. rewrite HS. cbn [mbind result_bind].
  rewrite HZ. cbn [mbind result_bind].
  destruct (cbo_not_lexicographic C Z) as (b & -> & Hb). cbn [mbind result_bind].
  destruct b.
  { eexists. split; [done|]. left. split; [|done]. left. by apply Hb. }
  cbn [py_any existsb id orb].
  destruct (dict_in Z (itersets_i_dict st)) eqn:Hdup.
  { eexists. split; [done|]. left. split; [|done]. right. by apply dict_in_true. }
  cbn [py_any existsb id orb].
  rewrite (mapM_Ok_Forall _ (λ g, (g, extends_list C Z g))).
  2:{ apply Forall_forall. intros g _. by rewrite cbo_extends_PyList. }
  cbn [mbind result_bind].
  eexists. split; [done|]. right. apply dict_in_false in Hdup.
  split; [intros H; apply Hb in H; done|]. split; [done|].
  rewrite dict_set_fresh by done. f_equal. f_equal.
  induction E as [|g E' IH]; [done|].
  cbn [fmap list_fmap]. rewrite !filter_cons. cbn [snd].
  destruct (decide (extends_list C Z g = true)); cbn; by rewrite IH.
Qed.

End cbo_body_list.

(** ** Counting closed sets *)

Lemma length_sublists {A} (l : list A) : length (sublists l) = 2 ^ length l.
Proof.
  induction l as [|x l IH]; [done|].
  cbn [sublists length]. rewrite length_app, length_fmap, IH, Nat.pow_succ_r'. lia.
Qed.

Lemma elem_of_sublists {A} (k l : list A) : k `sublist_of` l → k ∈ sublists l.
Proof.
  revert k. induction l as [|x l IH]; intros k Hk.
  - apply sublist_nil_r in Hk as ->. by left.
  - cbn. apply elem_of_app. apply sublist_cons_r in Hk as [Hk|(k' & -> & Hk)].
    + right. by apply IH.
    + left. apply list_elem_of_fmap. exists k'. split; [done|]. by apply IH.
Qed.

Lemma NoDup_sublists_length {A} (ks : list (list A)) (l : list A) :
  NoDup ks → (∀ k, k ∈ ks → k `sublist_of` l) → length ks ≤ 2 ^ length l.
Proof.
  intros Hnd Hks. rewrite <-length_sublists.
  apply submseteq_length, NoDup_submseteq; [done|].
  intros k Hk. by apply elem_of_sublists, Hks.
Qed.

(** ** The closure operator *)

Section closure_facts.
Variables (n1 n2 : nat) (R : nat → nat → bool).

Abbreviation cl := (closure n1 n2 R).

Lemma cl_below X : below n1 (cl X).
Proof. apply polar_below. Qed.

Lemma cl_sublist X : cl X `sublist_of` seq 0 n1.
Proof. apply polar_sublist. Qed.

Lemma cl_extensive X : below n1 X → X ⊆ cl X.
Proof. apply down_up_extensive. Qed.

Lemma cl_mono X X' : X ⊆ X' → cl X ⊆ cl X'.
Proof. apply down_up_mono. Qed.

Lemma cl_idemp X : below n1 X → cl (cl X) = cl X.
Proof. apply down_up_idemp. Qed.

Lemma cl_closed X : below n1 X → closed n1 n2 R (cl X).
Proof. apply cl_idemp. Qed.

Lemma closed_below Y : closed n1 n2 R Y → below n1 Y.
Proof. intros <-. apply cl_below. Qed.

Lemma cl_least X Y : closed n1 n2 R Y → X ⊆ Y → cl X ⊆ Y.
Proof. intros HY HX. rewrite <-HY. by apply cl_mono. Qed.

Lemma cl_eq X X' : X ⊆ cl X' → X' ⊆ cl X → below n1 X → below n1 X' → cl X = cl X'.
Proof.
  intros H1 H2 HX HX'. apply polar_ext. intros y. split.
  - apply (cl_least X (cl X')); [by apply cl_closed|done].
  - apply (cl_least X' (cl X)); [by apply cl_closed|done].
Qed.

Lemma closed_eq Y Z : closed n1 n2 R Y → closed n1 n2 R Z → Y ⊆ Z → Z ⊆ Y → Y = Z.
Proof.
  intros HY HZ H1 H2. rewrite <-HY, <-HZ.
  apply cl_eq; [rewrite HZ|rewrite HY|..]; auto using closed_below.
Qed.

Lemma below_filter X (P : nat → Prop) `{!∀ x, Decision (P x)} :
  below n1 X → below n1 (filter P X).
Proof.
  intros HX. apply Forall_forall. intros x Hx%list_elem_of_filter.
  by apply (proj1 (Forall_forall _ _) HX), Hx.
Qed.

Lemma below_snoc X g : below n1 X → g < n1 → below n1 (X ++ [g]).
Proof. intros HX Hg. apply Forall_app. split; [done|]. by constructor. Qed.

End closure_facts.

(** ** Canonical generation of closed sets *)

Lemma min_missing (Y Z : list nat) (h : nat) :
  h ∈ Y → h ∉ Z → ∃ h', h' ∈ Y ∧ (h' ∉ Z) ∧ ∀ y, y ∈ Y → y < h' → y ∈ Z.
Proof.
  induction h as [h IH] using lt_wf_ind. intros HY HZ.
  destruct (decide (Forall (λ y, y < h → y ∈ Z) Y)) as [Hall|Hex].
  - exists h. split_and!; [done..|]. intros y Hy. by apply (proj1 (Forall_forall _ _) Hall).
  - apply not_Forall_Exists in Hex; [|apply _].
    apply Exists_exists in Hex as (y & Hy & Hn). cbv beta in Hn.
    destruct (decide (y < h)) as [Hlt|]; [|exfalso; apply Hn; intros; lia].
    destruct (decide (y ∈ Z)); [exfalso; by apply Hn|]. by apply (IH y).
Qed.

Lemma subset_or_missing (Y Z : list nat) : Y ⊆ Z ∨ ∃ h, h ∈ Y ∧ h ∉ Z.
Proof.
  destruct (decide (Forall (λ y, y ∈ Z) Y)) as [Hall|Hex].
  - left. intros y Hy. by apply (proj1 (Forall_forall _ _) Hall).
  - right. apply not_Forall_Exists in Hex; [|apply _].
    by apply Exists_exists in Hex.
Qed.

Section canonical.
Variables (n1 n2 : nat) (R : nat → nat → bool).

Abbreviation cl' := (closure n1 n2 R).
Abbreviation closed' := (closed n1 n2 R).

(** A combination on the way to a closed set [Y] passes the lexicographic
    test, and its closure is again on the way to [Y]. *)
Lemma on_track_step X g Y :
  closed' X → g < n1 → closed' Y → on_track n1 n2 R X g Y →
  ¬ lex_bad (X ++ [g]) (cl' (X ++ [g]))
  ∧ prefix_generated n1 n2 R (cl' (X ++ [g])) Y.
Proof.
  intros HX Hg HY (HXY & HgY & HgX & Hmin & Hgen).
  assert (below n1 (X ++ [g])) as HC by (apply below_snoc; eauto using closed_below).
  assert (X ++ [g] ⊆ Y) as HCY.
  { intros x [Hx| ->%list_elem_of_singleton]%elem_of_app; auto. }
  assert (cl' (X ++ [g]) ⊆ Y) as HZY by (by apply cl_least).
  assert (X ++ [g] ⊆ cl' (X ++ [g])) as HCZ by (by apply cl_extensive).
  split.
  - intros (x & z & Hlast & Hz & HzC & Hlt).
    rewrite last_snoc in Hlast. injection Hlast as <-.
    apply HzC, elem_of_app. left. apply Hmin; [by apply HZY|done].
  - split_and!; [done|by apply cl_closed|].
    intros h HhY HhZ Hhmin.
    assert (g < h) as Hgh.
    { destruct (decide (g = h)) as [->|].
      { exfalso. apply HhZ, HCZ, elem_of_app. right. by left. }
      destruct (decide (h < g)); [|lia].
      exfalso. apply HhZ, HCZ, elem_of_app. left. by apply Hmin. }
    apply polar_ext. intros y. split.
    + apply (cl_least _ _ _ _ (cl' (X ++ [g]))); [by apply cl_closed|].
      intros x Hx%list_elem_of_filter. apply Hx.
    + apply (cl_least _ _ _ _ (cl' (filter (λ x, x < h) (cl' (X ++ [g]))))).
      { apply cl_closed, below_filter, cl_below. }
      intros x [Hx| ->%list_elem_of_singleton]%elem_of_app.
      * rewrite <-Hgen in Hx. revert x Hx. apply cl_mono.
        intros x [Hxg Hx]%list_elem_of_filter. apply list_elem_of_filter. split; [lia|].
        apply HCZ, elem_of_app. by left.
      * apply cl_extensive; [apply below_filter, cl_below|].
        apply list_elem_of_filter. split; [done|]. apply HCZ, elem_of_app. right. by left.
Qed.

(** When the closure [Z] of an accepted combination [C] is on the way to a
    closed set [Y], it is [Y] or one of the combinations queued for [Z] is
    on the way to [Y]. *)
Lemma accepted_children C Y :
  below n1 C →
  (C = [] ∨ ∃ X g, C = X ++ [g] ∧ closed' X ∧ g ∉ X) →
  ¬ lex_bad C (cl' C) → closed' Y → prefix_generated n1 n2 R (cl' C) Y →
  Y = cl' C
  ∨ ∃ h, h ∈ filter (λ g, extends_list C (cl' C) g = true) (seq 0 n1)
         ∧ on_track n1 n2 R (cl' C) h Y.
Proof.
  intros HC Hform Hlex HY (HZY & HZ & Hgen).
  destruct (subset_or_missing Y (cl' C)) as [HYZ|(h0 & Hh0Y & Hh0Z)].
  { left. by apply (closed_eq n1 n2 R). }
  right. destruct (min_missing Y (cl' C) h0 Hh0Y Hh0Z) as (h & HhY & HhZ & Hmin).
  exists h. split; [|by split_and!; auto].
  apply list_elem_of_filter. split.
  2:{ apply elem_of_seq. split; [lia|]. cbn.
      by apply (proj1 (Forall_forall _ _) (closed_below n1 n2 R Y HY)). }
  unfold extends_list. rewrite bool_decide_eq_false_2 by done. cbn.
  destruct Hform as [->|(X & g & -> & HX & HgX)]; [done|].
  rewrite last_snoc. apply Nat.ltb_lt.
  assert (X ++ [g] ⊆ cl' (X ++ [g])) as HCZ by (by apply cl_extensive).
  destruct (decide (g = h)) as [->|].
  { exfalso. apply HhZ, HCZ, elem_of_app. right. by left. }
  destruct (decide (h < g)) as [Hlt|]; [|lia]. exfalso.
  apply HgX. rewrite <-HX.
  assert (g ∈ cl' (filter (λ x, x < h) (cl' (X ++ [g])))) as Hg.
  { rewrite (Hgen h HhY HhZ Hmin). apply HCZ, elem_of_app. right. by left. }
  refine (cl_mono n1 n2 R _ _ _ g Hg).
  intros z [Hzh Hz]%list_elem_of_filter.
  destruct (decide (z ∈ X ++ [g])) as [[Hin| ->%list_elem_of_singleton]%elem_of_app|Hnin];
    [done|lia|].
  exfalso. apply Hlex. exists g, z. rewrite last_snoc. split_and!; [done..|lia].
Qed.

(** The closure of the empty combination is on the way to every closed set. *)
Lemma root_prefix_generated Y : closed' Y → prefix_generated n1 n2 R (cl' []) Y.
Proof.
  intros HY. split_and!.
  - apply cl_least; [done|]. intros x Hx. by apply elem_of_nil in Hx.
  - apply cl_closed. constructor.
  - intros h _ _ _. apply polar_ext. intros y. split.
    + apply (cl_least _ _ _ _ (cl' [])); [apply cl_closed; constructor|].
      intros x Hx%list_elem_of_filter. apply Hx.
    + apply cl_mono. intros x Hx. by apply elem_of_nil in Hx.
Qed.

End canonical.

(** ** The invariant is kept by every pass of the loop *)

Section cbo_step.
Variable set_order : gset nat → list nat.
Variable iterset_fnc : list nat → result (list nat).
Variable sideset_fnc : list nat → result (list nat).
Variables (n1 n2 : nat) (R : nat → nat → bool).
Hypothesis Hside : ∀ C, below n1 C → sideset_fnc C = Ok (polar n2 R C).
Hypothesis Hiter : ∀ S, below n2 S → iterset_fnc S = Ok (polar n1 (λ y x, R x y) S).

Abbreviation inv := (cbo_inv n1 n2 R).
Abbreviation measure := (cbo_measure n1 (seq 0 n1)).
Abbreviation body := (cbo_body set_order iterset_fnc sideset_fnc (seq 0 n1)).

Lemma keys_are_closures (d : dict (list nat) nat) (ss : list (list nat)) Z :
  Forall2 (λ Z S, ∃ C, below n1 C ∧ S = polar n2 R C ∧ Z = closure n1 n2 R C) d.*1 ss →
  Z ∈ d.*1 → ∃ C, below n1 C ∧ Z = closure n1 n2 R C.
Proof.
  intros Hp [i Hi]%list_elem_of_lookup.
  destruct (Forall2_lookup_l _ _ _ _ _ Hp Hi) as (S & _ & C & ? & _ & ?). eauto.
Qed.

Lemma keys_bound (d : dict (list nat) nat) (ss : list (list nat)) :
  NoDup d.*1 →
  Forall2 (λ Z S, ∃ C, below n1 C ∧ S = polar n2 R C ∧ Z = closure n1 n2 R C) d.*1 ss →
  length d ≤ 2 ^ n1.
Proof.
  intros Hnd Hp.
  pose proof (NoDup_sublists_length d.*1 (seq 0 n1) Hnd) as Hlen.
  rewrite length_fmap, length_seq in Hlen. apply Hlen.
  intros Z HZ. destruct (keys_are_closures d ss Z Hp HZ) as (C & _ & ->).
  apply cl_sublist.
Qed.

Lemma cbo_step_inv_list C rest d ss :
  below n1 C →
  (C = [] ∨ ∃ X g, C = X ++ [g] ∧ closed n1 n2 R X ∧ g < n1 ∧ g ∉ X) →
  inv {| combinations_to_check := PyList C :: rest;
         itersets_i_dict := d; sidesets_i := ss |} →
  ∃ st', body (PyList C) {| combinations_to_check := rest;
                            itersets_i_dict := d; sidesets_i := ss |} = Ok st'
    ∧ inv st'
    ∧ measure st' < measure {| combinations_to_check := PyList C :: rest;
                               itersets_i_dict := d; sidesets_i := ss |}.
Proof.
  intros HC Hform [Hq Hv Hnd Hp Hroot Hcov]. cbn in *.
  set (Z := closure n1 n2 R C).
  assert (C ⊆ Z) as HCZ by (by apply cl_extensive).
  assert (Hform' : C = [] ∨ ∃ X g, C = X ++ [g] ∧ closed n1 n2 R X ∧ g ∉ X)
    by (destruct Hform as [?|(X & g & ? & ? & ? & ?)]; eauto 10).
  (* a combination that is on the way to [Y] and is [C] itself *)
  assert (Hhead : ∀ X g Y, PyList (X ++ [g]) = PyList C → closed n1 n2 R Y →
            on_track n1 n2 R X g Y →
            ¬ lex_bad C Z ∧ prefix_generated n1 n2 R Z Y ∧ X ⊆ Z ∧ g ∈ Z ∧ g ∉ X).
  { intros X g Y [= <-] HY Hot.
    destruct Hform as [Hnil|(X' & g' & Heq & HX' & Hg' & HgX')].
    { destruct X; discriminate. }
    apply app_inj_tail in Heq as [<- <-].
    destruct (on_track_step n1 n2 R X g Y HX' Hg' HY Hot) as [? ?].
    split_and!; [done|done| | |done].
    - intros x Hx. apply HCZ, elem_of_app. by left.
    - apply HCZ, elem_of_app. right. by left. }
  destruct (cbo_body_PyList set_order iterset_fnc sideset_fnc (seq 0 n1) C
              (polar n2 R C) Z
              {| combinations_to_check := rest; itersets_i_dict := d; sidesets_i := ss |}
              (Hside C HC) (Hiter _ (polar_below _ _ _)))
    as (st' & Hbody & Hcase).
  exists st'. split; [done|]. cbn in Hcase.
  destruct Hcase as [[Hrej ->] | (Hlex & Hnew & ->)].
  - (* the combination is rejected *)
    split; [|unfold cbo_measure; cbn; lia].
    constructor; cbn; [|done..| |].
    + intros c Hc. apply Hq. by right.
    + destruct Hroot as [[Heq|Hr]%elem_of_cons|Hr]; [|by left|by right].
      injection Heq as <-. right.
      destruct Hrej as [(x & g & Hl & _)|Hdup]; [done|done].
    + intros Z' Y HZ' HY HZY.
      destruct (Hcov Z' Y HZ' HY HZY) as [?|(X & g & Hin & Hot & Hsub)]; [by left|].
      apply elem_of_cons in Hin as [Heq|Hin]; [|right; eauto 10].
      destruct (Hhead X g Y Heq HY Hot) as (Hlex & Hpg & HXZ & HgZ & HgX).
      destruct Hrej as [?|Hdup]; [done|].
      destruct (Hcov Z Y Hdup HY Hpg) as [?|(X3 & g3 & Hin3 & Hot3 & Hsub3)]; [by left|].
      right. exists X3, g3. split_and!; [|done|by etrans; [|etrans]].
      apply elem_of_cons in Hin3 as [Heq3|Hin3]; [|done].
      exfalso. rewrite <-Heq in Heq3. injection Heq3 as Heq3.
      apply app_inj_tail in Heq3 as [-> ->]. by apply HgX, Hsub3.
  - (* the combination is accepted *)
    assert (length ss = length d) as Hlen.
    { apply Forall2_length in Hp. by rewrite length_fmap in Hp. }
    assert (Hnd' : NoDup (d ++ [(Z, length ss)]).*1).
    { rewrite fmap_app. apply NoDup_app. split_and!; [done| |apply NoDup_singleton].
      intros Z' HZ' ->%list_elem_of_singleton. done. }
    assert (Hp' : Forall2 (λ Z S, ∃ C, below n1 C ∧ S = polar n2 R C
                                       ∧ Z = closure n1 n2 R C)
                    (d ++ [(Z, length ss)]).*1 (ss ++ [polar n2 R C])).
    { rewrite fmap_app. apply Forall2_app; [done|]. constructor; [|constructor]. eauto. }
    assert (Hchildren : ∀ Y, closed n1 n2 R Y → prefix_generated n1 n2 R Z Y →
              Y ∈ (d ++ [(Z, length ss)]).*1
              ∨ ∃ X g, PyList (X ++ [g]) ∈
                         ((λ g, PyList (Z ++ [g])) <$>
                            filter (λ g, extends_list C Z g = true) (seq 0 n1)) ++ rest
                       ∧ on_track n1 n2 R X g Y ∧ Z ⊆ X).
    { intros Y HY Hpg.
      destruct (accepted_children n1 n2 R C Y HC Hform' Hlex HY Hpg) as [->|(h & Hh & Hot)].
      - left. rewrite fmap_app. apply elem_of_app. right. by left.
      - right. exists Z, h. split_and!; [|done|done].
        apply elem_of_app. left. apply list_elem_of_fmap. eauto. }
    split; [constructor; cbn|].
    + intros c [Hc|Hc]%elem_of_app; [|apply Hq; by right].
      apply list_elem_of_fmap in Hc as (h & -> & [Hext Hh]%list_elem_of_filter).
      right. exists Z, h. split_and!; [done|by apply cl_closed| |].
      * apply elem_of_seq in Hh. lia.
      * unfold extends_list in Hext. apply andb_true_iff in Hext as [Hext _].
        apply negb_true_iff, bool_decide_eq_false in Hext. done.
    + rewrite fmap_app, length_app, seq_app, Hv. cbn. by rewrite Hlen.
    + done.
    + done.
    + rewrite fmap_app.
      destruct Hroot as [[Heq|Hr]%elem_of_cons|Hr].
      * injection Heq as <-. right. apply elem_of_app. right. by left.
      * left. apply elem_of_app. by right.
      * right. apply elem_of_app. by left.
    + intros Z' Y HZ' HY HZY. rewrite fmap_app in HZ'.
      apply elem_of_app in HZ' as [HZ'| ->%list_elem_of_singleton]; [|by apply Hchildren].
      destruct (Hcov Z' Y HZ' HY HZY) as [?|(X & g & Hin & Hot & Hsub)].
      { left. rewrite fmap_app. apply elem_of_app. by left. }
      apply elem_of_cons in Hin as [Heq|Hin].
      2:{ right. exists X, g. split_and!; [|done|done]. apply elem_of_app. by right. }
      destruct (Hhead X g Y Heq HY Hot) as (_ & Hpg & HXZ & _ & _).
      destruct (Hchildren Y HY Hpg) as [?|(X4 & g4 & Hin4 & Hot4 & Hsub4)]; [by left|].
      right. exists X4, g4. split_and!; [done|done|by etrans; [|etrans]].
    + unfold cbo_measure. cbn.
      pose proof (keys_bound _ _ Hnd' Hp') as Hk.
      rewrite !length_app, length_fmap in *. cbn in Hk |- *.
      pose proof (length_filter (λ g, extends_list C Z g = true) (seq 0 n1)) as Hf.
      replace (2 ^ n1 - length d) with (S (2 ^ n1 - (length d + 1))) by lia.
      lia.
Qed.

End cbo_step.

(** ** The loop of close_by_one ends, with all closed sets *)

Section cbo_loop_total.
Variable set_order : gset nat → list nat.
Variable iterset_fnc : list nat → result (list nat).
Variable sideset_fnc : list nat → result (list nat).
Variables (n1 n2 : nat) (R : nat → nat → bool).
Hypothesis Hside : ∀ C, below n1 C → sideset_fnc C = Ok (polar n2 R C).
Hypothesis Hiter : ∀ S, below n2 S → iterset_fnc S = Ok (polar n1 (λ y x, R x y) S).

Lemma cbo_while_inv fuel st :
  cbo_inv n1 n2 R st → cbo_measure n1 (seq 0 n1) st ≤ fuel →
  ∃ st', cbo_while set_order iterset_fnc sideset_fnc (seq 0 n1) fuel st = Some (Ok st')
         ∧ cbo_inv n1 n2 R st' ∧ combinations_to_check st' = [].
Proof.
  revert st. induction fuel as [|fuel IH]; intros [[|c rest] d ss] Hinv Hfuel.
  - exists {| combinations_to_check := []; itersets_i_dict := d; sidesets_i := ss |}. done.
  - unfold cbo_measure in Hfuel.
    cbn [combinations_to_check itersets_i_dict length] in Hfuel.
    exfalso. revert Hfuel. generalize ((2 ^ n1 - length d) * length (seq 0 n1)). lia.
  - exists {| combinations_to_check := []; itersets_i_dict := d; sidesets_i := ss |}. done.
  - assert (∃ C, c = PyList C ∧ below n1 C
                 ∧ (C = [] ∨ ∃ X g, C = X ++ [g] ∧ closed n1 n2 R X ∧ g < n1 ∧ g ∉ X))
      as (C & -> & HC & Hform).
    { destruct (inv_queue _ _ _ _ Hinv c) as [->|(X & g & -> & HX & Hg & HgX)]; [by left|..].
      - exists []. split_and!; [done|constructor|by left].
      - exists (X ++ [g]). split_and!; [done| |right; eauto 10].
        apply below_snoc; [|done]. by eapply closed_below. }
    destruct (cbo_step_inv_list set_order iterset_fnc sideset_fnc n1 n2 R Hside Hiter
                C rest d ss HC Hform Hinv) as (st' & Hbody & Hinv' & Hlt).
    cbn. rewrite Hbody. apply IH; [done|lia].
Qed.

(** Run from the empty combination over all [n1] indexes, the loop ends
    after at most [cbo_fuel] passes.  The closed sets it returns are
    pairwise different, each is paired with the side set of a combination
    it is the closure of, and every closed set is among them. *)
Lemma cbo_run_default :
  ∃ Zs Ss,
    cbo_run set_order iterset_fnc sideset_fnc (seq 0 n1) n1 None = Some (Ok (Zs, Ss))
    ∧ Forall2 (λ Z S, ∃ C, below n1 C ∧ S = polar n2 R C ∧ Z = closure n1 n2 R C) Zs Ss
    ∧ NoDup Zs
    ∧ ∀ Y, closed n1 n2 R Y → Y ∈ Zs.
Proof.
  unfold cbo_run. cbn [default].
  destruct (cbo_while_inv (cbo_fuel (seq 0 n1) n1 [PyList []])
              {| combinations_to_check := [PyList []];
                 itersets_i_dict := []; sidesets_i := [] |})
    as ([q d ss] & Hrun & [Hq Hv Hnd Hp Hroot Hcov] & Hempty).
  - constructor; cbn.
    + intros c ->%list_elem_of_singleton. by left.
    + done.
    + constructor.
    + constructor.
    + left. by left.
    + intros Z Y HZ. by apply elem_of_nil in HZ.
  - unfold cbo_measure, cbo_fuel. cbn. lia.
  - cbn in *. subst q. exists d.*1, ss. rewrite Hrun.
    cbn [fmap option_fmap option_map mbind result_bind mret result_ret
         itersets_i_dict sidesets_i].
    rewrite cbo_itersets_i_keys by done. split_and!; [done..|].
    intros Y HY.
    destruct Hroot as [Hr|Hr]; [by apply elem_of_nil in Hr|].
    destruct (Hcov _ Y Hr HY (root_prefix_generated n1 n2 R Y HY))
      as [?|(X & g & Hin & _)]; [done|].
    by apply elem_of_nil in Hin.
Qed.

End cbo_loop_total.

(** ** close_by_one on a formal context *)

Lemma mapM_getitem_below {A} (d : A) (names : list A) (X : list nat) :
  below (length names) X → mapM (getitem names) X = Ok ((λ i, default d (names !! i)) <$> X).
Proof.
  intros HX. apply mapM_Ok_Forall. eapply Forall_impl; [exact HX|].
  cbn. intros i Hi. destruct (getitem_Ok names i Hi) as (x & Hx & ->). by rewrite Hx.
Qed.

Lemma new_FormalConcept_ok obj_names attr_names h A B :
  below (length obj_names) A → below (length attr_names) B →
  new_FormalConcept obj_names attr_names h A B = Ok (concept_of obj_names attr_names h A B).
Proof.
  intros HA HB. unfold new_FormalConcept.
  rewrite (mapM_getitem_below ""%string) by done. cbn.
  rewrite (mapM_getitem_below ""%string) by done. done.
Qed.

Lemma mapM_new_FormalConcept obj_names attr_names h extents intents :
  Forall2 (λ A B, below (length obj_names) A ∧ below (length attr_names) B) extents intents →
  mapM (λ concept_data : list nat * list nat,
          new_FormalConcept obj_names attr_names h concept_data.1 concept_data.2)
       (zip extents intents)
  = Ok (zip_with (concept_of obj_names attr_names h) extents intents).
Proof.
  induction 1 as [|A B extents intents [HA HB] _ IH]; [done|].
  change (zip (A :: extents) (B :: intents)) with ((A, B) :: zip extents intents).
  rewrite mapM_cons, IH. cbn [fst snd]. by rewrite new_FormalConcept_ok.
Qed.

Section close_by_one_formal.
Variable set_order : gset nat → list nat.
Variable hash_fixed : FormalContext → Z.
Variable K : FormalContext.
Hypothesis HK : context_ok K = true.

Lemma galois_pair_below A B :
  int_of K A = B → ext_of K B = A →
  below (length (object_names K)) A ∧ below (length (attribute_names K)) B.
Proof.
  destruct (context_ok_inv K HK) as (_ & _ & -> & ->).
  intros <- <-. split; apply polar_below.
Qed.

(** With either direction given and no seed, [close_by_one] returns the
    Galois-closed pairs of the context: every closed extent once, each with
    its intent. *)
Lemma close_by_one_formal (b o : bool) :
  ∃ extents intents,
    close_by_one set_order hash_fixed (FormalCtx K) o (Some b) None None
    = Some (Ok (cbo_result hash_fixed K o extents intents))
    ∧ Forall2 (λ A B, int_of K A = B ∧ ext_of K B = A) extents intents
    ∧ NoDup extents
    ∧ ∀ A, A ∈ extents ↔ ext_of K (int_of K A) = A.
Proof.
  destruct b.
  - destruct (cbo_run_default set_order (extension_i K) (intention_i K)
                (n_objects K) (n_attributes K) (incidence K))
      as (Zs & Ss & Hrun & Hp & Hnd & Hall).
    { intros C HC. by apply intention_i_ok. }
    { intros S HS. by apply extension_i_ok. }
    exists Zs, Ss.
    assert (Hpairs : Forall2 (λ A B, int_of K A = B ∧ ext_of K B = A) Zs Ss).
    { eapply Forall2_impl; [exact Hp|]. cbn. intros Z S (C & HC & -> & ->). split; [|done].
      by apply (up_down_up (n_objects K) (n_attributes K) (incidence K)). }
    split_and!; [|done|done|].
    + unfold close_by_one. cbn -[cbo_run]. rewrite Hrun.
      cbn -[new_FormalConcept]. unfold cbo_result.
      destruct o; [|done].
      rewrite mapM_new_FormalConcept; [done|].
      eapply Forall2_impl; [exact Hpairs|]. cbn. intros A B [? ?].
      by apply galois_pair_below.
    + intros A. split; [|apply Hall].
      intros [i Hi]%list_elem_of_lookup.
      destruct (Forall2_lookup_l _ _ _ _ _ Hp Hi) as (S & _ & C & HC & _ & ->).
      by apply (cl_closed (n_objects K) (n_attributes K) (incidence K)).
  - destruct (cbo_run_default set_order (intention_i K) (extension_i K)
                (n_attributes K) (n_objects K) (λ m g, incidence K g m))
      as (Zs & Ss & Hrun & Hp & Hnd & Hall).
    { intros C HC. by apply extension_i_ok. }
    { intros S HS. by apply intention_i_ok. }
    exists Ss, Zs.
    assert (Hpairs : Forall2 (λ A B, int_of K A = B ∧ ext_of K B = A) Ss Zs).
    { apply Forall2_flip. eapply Forall2_impl; [exact Hp|].
      cbn. intros Z S (C & HC & -> & ->). split; [done|].
      by apply (up_down_up (n_attributes K) (n_objects K) (λ m g, incidence K g m)). }
    assert (Zs = int_of K <$> Ss) as HZs.
    { clear -Hpairs. induction Hpairs as [|A B ?? [<- _] _ IH]; [done|]. cbn. by rewrite IH. }
    split_and!; [|done| |].
    + unfold close_by_one. cbn -[cbo_run]. rewrite Hrun.
      cbn -[new_FormalConcept]. unfold cbo_result.
      destruct o; [|done].
      rewrite mapM_new_FormalConcept; [done|].
      eapply Forall2_impl; [exact Hpairs|]. cbn. intros A B [? ?].
      by apply galois_pair_below.
    + rewrite HZs in Hnd. by apply NoDup_fmap_1 in Hnd.
    + intros A. split.
      * intros [i Hi]%list_elem_of_lookup.
        destruct (Forall2_lookup_l _ _ _ _ _ Hpairs Hi) as (B & _ & <- & HA).
        by rewrite HA.
      * intros HA.
        assert (int_of K A ∈ Zs) as [i Hi]%list_elem_of_lookup.
        { apply Hall.
          apply (up_down_up (n_objects K) (n_attributes K) (incidence K)).
          rewrite <-HA. apply polar_below. }
        destruct (Forall2_lookup_r _ _ _ _ _ Hpairs Hi) as (A' & HA' & Hint & Hext).
        apply list_elem_of_lookup. exists i. rewrite HA'. f_equal. congruence.
Qed.

End close_by_one_formal.

(** ** The concepts returned by close_by_one *)

Lemma zip_with_concept_of_extent_i on an h (extents intents : list (list nat)) :
  length extents = length intents →
  extent_i <$> zip_with (concept_of on an h) extents intents = list_to_set <$> extents.
Proof.
  revert intents. induction extents as [|A extents IH]; intros [|B intents] Hlen;
    try done. cbn in *. f_equal. apply IH. lia.
Qed.

Lemma zip_with_concept_of_intent_i on an h (extents intents : list (list nat)) :
  length extents = length intents →
  intent_i <$> zip_with (concept_of on an h) extents intents = list_to_set <$> intents.
Proof.
  revert intents. induction extents as [|A extents IH]; intros [|B intents] Hlen;
    try done. cbn in *. f_equal. apply IH. lia.
Qed.

(** A polar is determined by its set of members. *)
Lemma polar_list_to_set_inj n R X X' :
  list_to_set (polar n R X) =@{gset nat} list_to_set (polar n R X') →
  polar n R X = polar n R X'.
Proof.
  intros Heq. apply polar_ext. intros y.
  by rewrite <-!(elem_of_list_to_set (C:=gset nat)), Heq.
Qed.

Lemma NoDup_polars n R (l : list (list nat)) :
  (∀ A, A ∈ l → ∃ X, A = polar n R X) → NoDup l →
  NoDup (list_to_set (C:=gset nat) <$> l).
Proof.
  intros Hl. apply NoDup_fmap_2_strong.
  intros A A' (X & ->)%Hl (X' & ->)%Hl. apply polar_list_to_set_inj.
Qed.

Lemma galois_pairs_intents K (extents intents : list (list nat)) :
  Forall2 (λ A B, int_of K A = B ∧ ext_of K B = A) extents intents →
  intents = int_of K <$> extents.
Proof. induction 1 as [|A B ?? [<- _] _ IH]; [done|]. cbn. by rewrite IH. Qed.

Lemma galois_pairs_NoDup K (extents intents : list (list nat)) :
  Forall2 (λ A B, int_of K A = B ∧ ext_of K B = A) extents intents →
  NoDup extents →
  NoDup (list_to_set (C:=gset nat) <$> extents)
  ∧ NoDup (list_to_set (C:=gset nat) <$> intents).
Proof.
  intros Hp Hnd. split.
  - apply (NoDup_polars (n_objects K) (λ m g, incidence K g m)); [|done].
    intros A [i Hi]%list_elem_of_lookup.
    destruct (Forall2_lookup_l _ _ _ _ _ Hp Hi) as (B & _ & _ & <-). by exists B.
  - apply (NoDup_polars (n_attributes K) (incidence K)).
    + intros B [i Hi]%list_elem_of_lookup.
      destruct (Forall2_lookup_r _ _ _ _ _ Hp Hi) as (A & _ & <- & _). by exists A.
    + apply NoDup_alt. intros i j B Hi Hj.
      destruct (Forall2_lookup_r _ _ _ _ _ Hp Hi) as (A & HA & _ & HextA).
      destruct (Forall2_lookup_r _ _ _ _ _ Hp Hj) as (A' & HA' & _ & HextA').
      apply (proj1 (NoDup_alt _) Hnd i j A); congruence.
Qed.

Section close_by_one_concepts.
Variable set_order : gset nat → list nat.
Variable hash_fixed : FormalContext → Z.

(** C2.  With no seed and either direction (or none), [close_by_one] returns
    concepts, and each of them is a Galois-closed pair: [intention_i] of
    its extent is its intent and [extension_i] of its intent is its extent,
    as index sets. *)
Theorem close_by_one_galois_closed (K : FormalContext) (iterate_extents : option bool) :
  context_ok K = true →
  (∀ s x, x ∈ set_order s ↔ x ∈ s) →
  ∃ concepts,
    close_by_one set_order hash_fixed (FormalCtx K) true iterate_extents None None
    = Some (Ok (Concepts concepts))
    ∧ ∀ c, c ∈ concepts →
        (∃ I, intention_i K (set_order (extent_i c)) = Ok I ∧ list_to_set I = intent_i c)
        ∧ (∃ E, extension_i K (set_order (intent_i c)) = Ok E ∧ list_to_set E = extent_i c).
Proof.
  intros HK Horder.
  assert (∃ b, close_by_one set_order hash_fixed (FormalCtx K) true iterate_extents None None
               = close_by_one set_order hash_fixed (FormalCtx K) true (Some b) None None)
    as [b ->].
  { destruct iterate_extents as [b|]; [by exists b|]. exists true.
    apply close_by_one_default_is_extents. }
  destruct (close_by_one_formal set_order hash_fixed K HK b true)
    as (extents & intents & -> & Hpairs & _ & _).
  eexists. split; [done|].
  intros c [i Hi]%list_elem_of_lookup.
  apply lookup_zip_with_Some in Hi as (A & B & -> & HA & HB).
  destruct (Forall2_lookup_lr _ _ _ _ _ _ Hpairs HA HB) as [Hint Hext].
  destruct (galois_pair_below K HK A B Hint Hext) as [HbA HbB].
  destruct (context_ok_inv K HK) as (_ & _ & Hon & Han).
  rewrite Hon in HbA. rewrite Han in HbB. cbn. split.
  - exists B. split; [|done]. rewrite intention_i_ok; [|done|].
    + f_equal. rewrite <-Hint. apply polar_set_ext. intros x.
      by rewrite Horder, elem_of_list_to_set.
    + apply Forall_forall. intros x Hx%Horder%elem_of_list_to_set.
      by apply (proj1 (Forall_forall _ _) HbA).
  - exists A. split; [|done]. rewrite extension_i_ok; [|done|].
    + f_equal. rewrite <-Hext. apply polar_set_ext. intros x.
      by rewrite Horder, elem_of_list_to_set.
    + apply Forall_forall. intros x Hx%Horder%elem_of_list_to_set.
      by apply (proj1 (Forall_forall _ _) HbB).
Qed.

(** C1.  Walking subsets of objects and walking subsets of attributes both
    return concepts; within each list no two concepts have the same extent
    (nor the same intent), every closed extent is the extent of a returned
    concept, and the two lists hold the same extents, indeed the same
    concepts. *)
Theorem close_by_one_enumerates_once (K : FormalContext) :
  context_ok K = true →
  ∃ concepts_ext concepts_int,
    close_by_one set_order hash_fixed (FormalCtx K) true (Some true) None None
    = Some (Ok (Concepts concepts_ext))
    ∧ close_by_one set_order hash_fixed (FormalCtx K) true (Some false) None None
      = Some (Ok (Concepts concepts_int))
    ∧ NoDup (extent_i <$> concepts_ext) ∧ NoDup (extent_i <$> concepts_int)
    ∧ NoDup (intent_i <$> concepts_ext) ∧ NoDup (intent_i <$> concepts_int)
    ∧ (∀ S, below (n_objects K) S →
         list_to_set (ext_of K (int_of K S)) ∈ extent_i <$> concepts_ext)
    ∧ (∀ A, A ∈ extent_i <$> concepts_ext ↔ A ∈ extent_i <$> concepts_int)
    ∧ (∀ c, c ∈ concepts_ext ↔ c ∈ concepts_int).
Proof.
  intros HK.
  destruct (close_by_one_formal set_order hash_fixed K HK true true)
    as (ext1 & int1 & -> & Hp1 & Hnd1 & Hall1).
  destruct (close_by_one_formal set_order hash_fixed K HK false true)
    as (ext2 & int2 & -> & Hp2 & Hnd2 & Hall2).
  eexists _, _. split; [done|]. split; [done|].
  assert (Hext : ∀ A, A ∈ ext1 ↔ A ∈ ext2) by (intros A; by rewrite Hall1, Hall2).
  destruct (galois_pairs_NoDup K ext1 int1 Hp1 Hnd1) as [Hnde1 Hndi1].
  destruct (galois_pairs_NoDup K ext2 int2 Hp2 Hnd2) as [Hnde2 Hndi2].
  rewrite !zip_with_concept_of_extent_i, !zip_with_concept_of_intent_i
    by (by eapply Forall2_length).
  split_and!; [done..| | |].
  - intros S HS. apply list_elem_of_fmap. eexists. split; [done|]. apply Hall1.
    by apply (down_up_idemp (n_objects K) (n_attributes K) (incidence K)).
  - intros A. rewrite !list_elem_of_fmap. by setoid_rewrite Hext.
  - intros c.
    rewrite (galois_pairs_intents K ext1 int1 Hp1), (galois_pairs_intents K ext2 int2 Hp2).
    rewrite !zip_with_fmap_r, !zip_with_diag, !list_elem_of_fmap.
    by setoid_rewrite Hext.
Qed.

End close_by_one_concepts.

Lemma close_by_one_galois_closed_witness :
  ∃ concepts,
    close_by_one elements (λ _, 0%Z) (FormalCtx animals) true None None None
    = Some (Ok (Concepts concepts))
    ∧ ∀ c, c ∈ concepts →
        (∃ I, intention_i animals (elements (extent_i c)) = Ok I
              ∧ list_to_set I = intent_i c)
        ∧ (∃ E, extension_i animals (elements (intent_i c)) = Ok E
                ∧ list_to_set E = extent_i c).
Proof.
  apply (close_by_one_galois_closed elements (λ _, 0%Z) animals None).
  - reflexivity.
  - intros s x. apply elem_of_elements.
Defined.

Lemma close_by_one_enumerates_once_witness :
  ∃ concepts_ext concepts_int,
    close_by_one elements (λ _, 0%Z) (FormalCtx animals) true (Some true) None None
    = Some (Ok (Concepts concepts_ext))
    ∧ close_by_one elements (λ _, 0%Z) (FormalCtx animals) true (Some false) None None
      = Some (Ok (Concepts concepts_int))
    ∧ NoDup (extent_i <$> concepts_ext) ∧ NoDup (extent_i <$> concepts_int)
    ∧ NoDup (intent_i <$> concepts_ext) ∧ NoDup (intent_i <$> concepts_int)
    ∧ (∀ S, below (n_objects animals) S →
         list_to_set (ext_of animals (int_of animals S)) ∈ extent_i <$> concepts_ext)
    ∧ (∀ A, A ∈ extent_i <$> concepts_ext ↔ A ∈ extent_i <$> concepts_int)
    ∧ (∀ c, c ∈ concepts_ext ↔ c ∈ concepts_int).
Proof. apply (close_by_one_enumerates_once elements (λ _, 0%Z) animals). reflexivity. Defined.

(** ** Removing concepts by decreasing position *)

Lemma delete_app_lt {C} (cs tl : list C) i :
  i < length cs → delete i (cs ++ tl) = delete i cs ++ tl.
Proof.
  revert i. induction cs as [|c cs IH]; intros [|i] Hi; cbn in *; try lia; [done|].
  f_equal. apply IH. lia.
Qed.

Lemma delete_last {C} (cs : list C) c : delete (length cs) (cs ++ [c]) = cs.
Proof. induction cs as [|c' cs IH]; [done|]. cbn. f_equal. apply IH. Qed.

Lemma remove_concept_app_lt {C} (cs tl : list C) i :
  i < length cs → remove_concept (cs ++ tl) i = remove_concept cs i ++ tl.
Proof. apply delete_app_lt. Qed.

Lemma remove_concept_last {C} (cs : list C) c : remove_concept (cs ++ [c]) (length cs) = cs.
Proof. apply delete_last. Qed.

Lemma length_remove_concept {C} (cs : list C) i :
  i < length cs → length (remove_concept cs i) = length cs - 1.
Proof. intros Hi. unfold remove_concept. by rewrite length_delete by (by apply lookup_lt_is_Some_2). Qed.

Lemma decreasing_below_mono l n m : n ≤ m → decreasing_below l n → decreasing_below l m.
Proof. destruct l as [|i l]; [done|]. cbn. intros ? [? ?]. split; [lia|done]. Qed.

Lemma foldl_remove_concept_app {C} (l : list nat) (cs tl : list C) :
  decreasing_below l (length cs) →
  foldl remove_concept (cs ++ tl) l = foldl remove_concept cs l ++ tl.
Proof.
  revert cs. induction l as [|i l IH]; intros cs Hl; [done|].
  destruct Hl as [Hi Hl]. cbn [foldl].
  rewrite remove_concept_app_lt by done. apply IH.
  eapply decreasing_below_mono; [|done]. rewrite length_remove_concept by done. lia.
Qed.

Lemma decreasing_reverse_filter (Q : nat → bool) n :
  decreasing_below (reverse (filter (λ i, Q i = true) (seq 0 n))) n.
Proof.
  induction n as [|n IH]; [done|].
  rewrite seq_S, filter_app, reverse_app. cbn [Nat.add].
  rewrite filter_cons, filter_nil. destruct (decide (Q n = true)); cbn.
  - split; [lia|done].
  - eapply decreasing_below_mono; [|done]. lia.
Qed.

Lemma omap_lookup_app {C} (cs tl : list C) (l : list nat) :
  Forall (λ i, i < length cs) l →
  omap (λ i, (cs ++ tl) !! i) l = omap (λ i, cs !! i) l.
Proof.
  induction 1 as [|i l Hi _ IH]; [done|]. cbn. by rewrite IH, lookup_app_l.
Qed.

(** Deleting the flagged positions from the highest down leaves the
    concepts at the other positions, in order. *)
Lemma foldl_remove_concept_filter {C} (Q : nat → bool) (cs : list C) :
  foldl remove_concept cs (reverse (filter (λ i, Q i = true) (seq 0 (length cs))))
  = omap (λ i, cs !! i) (filter (λ i, Q i = false) (seq 0 (length cs))).
Proof.
  induction cs as [|c cs IH] using rev_ind; [done|].
  rewrite length_app. cbn [length]. rewrite Nat.add_1_r, seq_S.
  rewrite !filter_app, reverse_app, omap_app. cbn [Nat.add].
  rewrite omap_lookup_app.
  2:{ apply Forall_forall. intros i [_ Hi%elem_of_seq]%list_elem_of_filter. lia. }
  rewrite !filter_cons, !filter_nil.
  destruct (decide (Q (length cs) = true)) as [HQ|HQ].
  - rewrite decide_False by (by rewrite HQ). cbn -[remove_concept].
    rewrite remove_concept_last, IH. by rewrite app_nil_r.
  - apply not_true_is_false in HQ. rewrite decide_True by done. cbn -[remove_concept].
    rewrite foldl_remove_concept_app by apply decreasing_reverse_filter.
    rewrite IH. f_equal. by rewrite list_lookup_middle.
Qed.

Lemma filter_none {A} (P : A → Prop) `{!∀ x, Decision (P x)} (l : list A) :
  (∀ x, x ∈ l → ¬ P x) → filter P l = [].
Proof.
  induction l as [|x l IH]; intros Hl; [done|].
  rewrite filter_cons, decide_False by (apply Hl; by left).
  apply IH. intros y Hy. apply Hl. by right.
Qed.

Lemma length_omap_lookup {C} (cs : list C) (l : list nat) :
  Forall (λ i, i < length cs) l → length (omap (λ i, cs !! i) l) = length l.
Proof.
  induction 1 as [|i l Hi _ IH]; [done|]. cbn.
  destruct (lookup_lt_is_Some_2 cs i Hi) as [c ->]. cbn. by rewrite IH.
Qed.

Lemma length_filter_seq_lookup {V} (P : V → bool) (l : list V) s :
  length (filter (λ i, match l !! (i - s) with Some x => P x | None => false end = true)
                 (seq s (length l)))
  = length (filter (λ x, P x = true) l).
Proof.
  revert s. induction l as [|x l IH]; intros s; [done|].
  cbn [length seq]. rewrite !filter_cons. rewrite Nat.sub_diag. cbn [lookup list_lookup].
  assert (filter (λ i, match (x :: l) !! (i - s) with Some x => P x | None => false end = true)
                 (seq (S s) (length l))
          = filter (λ i, match l !! (i - S s) with Some x => P x | None => false end = true)
                   (seq (S s) (length l))) as ->.
  { apply filter_ext_in. intros i Hi%elem_of_seq.
    replace (i - s) with (S (i - S s)) by lia. done. }
  destruct (decide (P x = true)); cbn; by rewrite IH.
Qed.

(** ** The eviction step of sofia_binary *)

Section sofia_evict_facts.
Context {V C : Type}.
Variable leb : V → V → bool.
Hypothesis leb_total : ∀ x y, leb x y = true ∨ leb y x = true.
Hypothesis leb_trans : ∀ x y z, leb x y = true → leb y z = true → leb x z = true.

#[local] Instance leb_Total : Total (λ x y : V, leb x y : Prop).
Proof. intros x y. destruct (leb_total x y) as [->| ->]; [by left|by right]. Qed.

#[local] Instance leb_Transitive : Transitive (λ x y : V, leb x y : Prop).
Proof.
  intros x y z Hxy%Is_true_true Hyz%Is_true_true. apply Is_true_true. by eapply leb_trans.
Qed.

Lemma length_py_sorted (metrics : list V) : length (py_sorted leb metrics) = length metrics.
Proof. unfold py_sorted. by rewrite merge_sort_Permutation. Qed.

(** At most [L_max] measures lie strictly above the threshold
    [sorted(metrics)[-L_max-1]]. *)
Lemma above_threshold (metrics : list V) (L_max : nat) (lim : V) :
  getitem_neg (py_sorted leb metrics) (L_max + 1) = Ok lim →
  length (filter (λ x, leb x lim = false) metrics) ≤ L_max.
Proof.
  unfold getitem_neg, getitem. rewrite length_py_sorted.
  destruct (L_max + 1 <=? length metrics) eqn:Hle; [|done].
  apply Nat.leb_le in Hle.
  destruct (py_sorted leb metrics !! (length metrics - (L_max + 1))) as [x|] eqn:Hx; [|done].
  intros [= ->].
  assert (filter (λ x, leb x lim = false) metrics
          ≡ₚ filter (λ x, leb x lim = false) (py_sorted leb metrics)) as ->.
  { unfold py_sorted. by rewrite merge_sort_Permutation. }
  pose proof (StronglySorted_merge_sort (λ x y : V, leb x y : Prop) metrics) as Hsorted.
  fold (py_sorted leb metrics) in Hsorted.
  rewrite <-(take_drop_middle _ _ _ Hx) in Hsorted |- *.
  rewrite filter_app, filter_cons.
  assert (filter (λ x, leb x lim = false)
                 (take (length metrics - (L_max + 1)) (py_sorted leb metrics)) = []) as ->.
  { apply filter_none. intros y Hy.
    assert (leb y lim) as Hle'%Is_true_true; [|congruence].
    eapply (StronglySorted_app_1_elem_of _ _ _ _ _ Hsorted); [done|by left]. }
  rewrite decide_False by (destruct (leb_total lim lim); congruence).
  cbn [app]. etrans; [apply length_filter|].
  rewrite length_drop, length_py_sorted. lia.
Qed.

(** The positions [sofia_binary] takes out. *)
Lemma sofia_concepts_to_remove_ok (metrics : list V) (L_max top bottom : nat) (lim : V) :
  getitem_neg (py_sorted leb metrics) (L_max + 1) = Ok lim →
  sofia_concepts_to_remove leb metrics L_max top bottom
  = Ok (reverse (filter (λ i, evict_removed leb metrics lim top bottom i = true)
                        (seq 0 (length metrics)))).
Proof.
  intros Hlim. unfold sofia_concepts_to_remove. rewrite Hlim. cbn [mbind result_bind].
  rewrite (mapM_Ok_Forall _ (λ i, (i, evict_flagged leb metrics lim i))).
  2:{ apply Forall_forall. intros i Hi%elem_of_seq. unfold evict_flagged.
      destruct (getitem_Ok metrics i) as (x & -> & ->); [lia|done]. }
  cbn [mbind result_bind mret result_ret]. f_equal.
  rewrite filter_flags_fst, filter_reverse. f_equal.
  rewrite list_filter_filter. apply list_filter_iff. intros i.
  unfold evict_removed. rewrite andb_true_iff, negb_true_iff, bool_decide_eq_false. tauto.
Qed.

(** Lines 258-269 on their own, for measure values that [<=] orders totally
    (no NaN among them).  After the eviction step the lattice holds at
    most [L_max + 2] concepts.  When the step runs (more than [L_max]
    concepts), at most [L_max] measures lie strictly above the threshold
    [sorted(metrics)[-L_max-1]], and what is left of the lattice is, in
    order, every concept whose measure is not at most the threshold,
    together with the concepts at the top and bottom positions whatever
    their measures; all others are removed. *)
Theorem sofia_evict_bound (concepts : list C) (metrics : list V)
    (L_max top_concept_i bottom_concept_i : nat) :
  length metrics = length concepts →
  ∃ concepts',
    sofia_evict leb concepts metrics L_max top_concept_i bottom_concept_i = Ok concepts'
    ∧ length concepts' ≤ L_max + 2
    ∧ (length concepts ≤ L_max → concepts' = concepts)
    ∧ (L_max < length concepts →
       ∃ metrics_lim,
         getitem_neg (py_sorted leb metrics) (L_max + 1) = Ok metrics_lim
         ∧ length (filter (λ x, leb x metrics_lim = false) metrics) ≤ L_max
         ∧ concepts' =
             omap (λ i, concepts !! i)
               (filter (λ i, evict_removed leb metrics metrics_lim
                               top_concept_i bottom_concept_i i = false)
                       (seq 0 (length concepts)))).
Proof.
  intros Hlen. unfold sofia_evict.
  destruct (L_max <? length concepts) eqn:Hlt.
  2:{ apply Nat.ltb_ge in Hlt. exists concepts. split_and!; [done|lia|done|lia]. }
  apply Nat.ltb_lt in Hlt.
  assert (∃ lim, getitem_neg (py_sorted leb metrics) (L_max + 1) = Ok lim) as [lim Hlim].
  { unfold getitem_neg. rewrite length_py_sorted.
    rewrite (proj2 (Nat.leb_le _ _)) by lia.
    destruct (getitem_Ok (py_sorted leb metrics) (length metrics - (L_max + 1)))
      as (x & _ & ->); [rewrite length_py_sorted; lia|eauto]. }
  rewrite (sofia_concepts_to_remove_ok _ _ _ _ lim Hlim). cbn [mbind result_bind mret result_ret].
  rewrite Hlen, foldl_remove_concept_filter.
  pose proof (above_threshold metrics L_max lim Hlim) as Habove.
  eexists. split; [done|]. split_and!; [|lia|eauto].
  rewrite length_omap_lookup.
  2:{ apply Forall_forall. intros i [_ Hi%elem_of_seq]%list_elem_of_filter. lia. }
  etrans; [|apply Nat.add_le_mono_r, Habove].
  rewrite (list_filter_iff (λ x, leb x lim = false) (λ x, negb (leb x lim) = true))
    by (intros x; by rewrite negb_true_iff).
  rewrite <-(length_filter_seq_lookup (λ x, negb (leb x lim)) metrics 0).
  etrans.
  { apply submseteq_length,
      (NoDup_submseteq _
         (filter (λ i, match metrics !! (i - 0) with
                       | Some x => negb (leb x lim) | None => false end = true)
                 (seq 0 (length metrics)) ++ [top_concept_i; bottom_concept_i])).
    - apply NoDup_filter, NoDup_seq.
    - intros i [Hrem Hi]%list_elem_of_filter. apply elem_of_app.
      unfold evict_removed, evict_flagged in Hrem.
      destruct (decide (i ∈ [top_concept_i; bottom_concept_i])) as [Hin|Hnin]; [by right|].
      left. apply list_elem_of_filter. rewrite Hlen. split; [|done].
      rewrite Nat.sub_0_r. rewrite (bool_decide_eq_false_2 _ Hnin), andb_true_r in Hrem.
      apply elem_of_seq in Hi. rewrite <-Hlen in Hi.
      destruct (getitem_Ok metrics i) as (x & Hx & _); [lia|].
      rewrite Hx in Hrem |- *. by rewrite Hrem. }
  rewrite length_app. cbn. lia.
Qed.

End sofia_evict_facts.

(** The bound [L_max] itself is not kept: a lattice of a top and a bottom
    concept, evicted with [L_max = 1], keeps both. *)
Lemma sofia_evict_exceeds_L_max :
  sofia_evict PrimFloat.leb [two_by_one_top; two_by_one_bottom] [1%float; 0.5%float] 1 0 1
  = Ok [two_by_one_top; two_by_one_bottom]
  ∧ ¬ length [two_by_one_top; two_by_one_bottom] ≤ 1.
Proof. split; [vm_compute; reflexivity|cbn; lia]. Qed.

Lemma sofia_evict_bound_witness :
  ∃ concepts',
    sofia_evict Z.leb [two_by_one_top; two_by_one_bottom] [3%Z; 1%Z] 1 0 1 = Ok concepts'
    ∧ length concepts' ≤ 1 + 2
    ∧ (length [two_by_one_top; two_by_one_bottom] ≤ 1 →
       concepts' = [two_by_one_top; two_by_one_bottom])
    ∧ (1 < length [two_by_one_top; two_by_one_bottom] →
       ∃ metrics_lim,
         getitem_neg (py_sorted Z.leb [3%Z; 1%Z]) (1 + 1) = Ok metrics_lim
         ∧ length (filter (λ x, Z.leb x metrics_lim = false) [3%Z; 1%Z]) ≤ 1
         ∧ concepts' =
             omap (λ i, [two_by_one_top; two_by_one_bottom] !! i)
               (filter (λ i, evict_removed Z.leb [3%Z; 1%Z] metrics_lim 0 1 i = false)
                       (seq 0 (length [two_by_one_top; two_by_one_bottom])))).
Proof.
  apply (sofia_evict_bound Z.leb).
  - intros x y. rewrite !Z.leb_le. lia.
  - intros x y z. rewrite !Z.leb_le. lia.
  - reflexivity.
Defined.

(** ** The neighbours of a closed set, as lindig_algorithm finds them *)

Lemma size_not_1_other (S : gset nat) (g : nat) :
  g ∈ S → size S ≠ 1 → ∃ h, h ∈ S ∧ h ≠ g.
Proof.
  intros Hg Hsize.
  destruct (set_choose_or_empty (S ∖ {[g]})) as [[h Hh]|Hempty].
  - exists h. set_solver.
  - exfalso. apply Hsize.
    assert (S = {[g]}) as Heq; [|rewrite Heq; apply size_singleton].
    apply set_eq. intros x. rewrite elem_of_singleton. split; [|by intros ->].
    intros Hx. destruct (decide (x = g)) as [|Hne]; [done|].
    exfalso. apply (not_elem_of_empty (C:=gset nat) x). rewrite <-Hempty.
    apply elem_of_difference. split; [done|]. by rewrite elem_of_singleton.
Qed.

Section lindig_neighbours.
Variable set_order : gset nat → list nat.
Variable intention_i' extension_i' : list nat → result (list nat).
Variables (n1 n2 : nat) (R : nat → nat → bool).
Variables (obj_names attr_names : list string) (h : Z).
Hypothesis Horder : ∀ s, set_order s ≡ₚ elements s.
Hypothesis Hint : ∀ C, below n1 C → intention_i' C = Ok (polar n2 R C).
Hypothesis Hext : ∀ S, below n2 S → extension_i' S = Ok (polar n1 (λ y x, R x y) S).
Hypothesis Hon : length obj_names = n1.
Hypothesis Han : length attr_names = n2.

Abbreviation cof := (closed_concept n2 R obj_names attr_names h).
Abbreviation dse_loop :=
  (direct_super_elements_loop set_order intention_i' extension_i' obj_names attr_names h).

Lemma elem_of_set_order s x : x ∈ set_order s ↔ x ∈ s.
Proof. by rewrite Horder, elem_of_elements. Qed.

Lemma NoDup_set_order s : NoDup (set_order s).
Proof. rewrite Horder. apply NoDup_elements. Qed.

Lemma neighbours_loop A gs reps Ns :
  closed n1 n2 R A → NoDup gs → neighbours_inv n1 n2 R A gs reps Ns →
  ∃ Ns', dse_loop gs (list_to_set A) reps (cof <$> Ns) = Ok (cof <$> Ns')
    ∧ (∀ N, N ∈ Ns' → ∃ g, g < n1 ∧ (g ∉ A) ∧ N = closure n1 n2 R (A ++ [g]))
    ∧ (∀ Y, closed n1 n2 R Y → A ⊆ Y → (∃ y, y ∈ Y ∧ y ∉ A) → ∃ N, N ∈ Ns' ∧ N ⊆ Y).
Proof.
  intros HA. revert reps Ns. induction gs as [|g gs IH]; intros reps Ns Hnd Hinv.
  { exists Ns. split_and!; [done|apply Hinv|].
    intros Y HY HAY Hy.
    destruct (ninv_cover _ _ _ _ _ _ _ Hinv Y HY HAY Hy) as [?|(x & Hx & _)]; [done|].
    by apply elem_of_nil in Hx. }
  apply NoDup_cons in Hnd as [Hg_gs Hnd].
  destruct Hinv as [Hreps Htodo Hkept Hsound Hcover].
  assert (g ∈ reps) as Hg_reps by (apply Htodo; by left).
  destruct (Hreps g Hg_reps) as [Hg HgA].
  assert (below n1 (A ++ [g])) as HC by (apply below_snoc; [by eapply closed_below|done]).
  set (N := closure n1 n2 R (A ++ [g])).
  assert (A ++ [g] ⊆ N) as HCN by (by apply cl_extensive).
  assert (∀ Y, closed n1 n2 R Y → A ⊆ Y → g ∈ Y → N ⊆ Y) as HNY.
  { intros Y HY HAY HgY. apply cl_least; [done|].
    intros x [Hx| ->%list_elem_of_singleton]%elem_of_app; auto. }
  cbn [direct_super_elements_loop].
  assert (set_order (list_to_set A ∪ {[g]}) ⊆ A ++ [g] ∧ A ++ [g] ⊆ set_order (list_to_set A ∪ {[g]}))
    as [Hsub1 Hsub2].
  { split; intros x; rewrite elem_of_set_order, elem_of_union, elem_of_list_to_set,
      elem_of_singleton, elem_of_app, list_elem_of_singleton; done. }
  assert (polar n2 R (set_order (list_to_set A ∪ {[g]})) = polar n2 R (A ++ [g])) as HM.
  { apply polar_set_ext. intros x. split; [apply Hsub1|apply Hsub2]. }
  rewrite Hint.
  2:{ apply Forall_forall. intros x Hx%Hsub1. by apply (proj1 (Forall_forall _ _) HC). }
  cbn [mbind result_bind]. rewrite HM, Hext by apply polar_below.
  cbn [mbind result_bind]. fold (closure n1 n2 R (A ++ [g])). fold N.
  assert ((list_to_set A ∪ {[g]}) ∖ {[g]} = list_to_set (C:=gset nat) A) as ->.
  { apply set_eq. intros x. rewrite elem_of_difference, elem_of_union, elem_of_list_to_set,
      elem_of_singleton. split; [by intros [[?|?] ?]|]. intros Hx. split; [by left|].
    by intros ->. }
  destruct (size (reps ∩ list_to_set N) =? 1) eqn:Hsize.
  - (* [g] gives a neighbour *)
    rewrite new_FormalConcept_ok.
    2:{ rewrite Hon. apply cl_below. }
    2:{ rewrite Han. apply polar_below. }
    cbn [mbind result_bind].
    assert (concept_of obj_names attr_names h N (polar n2 R (A ++ [g])) = cof N) as ->.
    { unfold closed_concept. f_equal. symmetry. by apply up_down_up. }
    replace ((cof <$> Ns) ++ [cof N]) with (cof <$> (Ns ++ [N])) by (by rewrite fmap_app).
    apply IH; [done|]. constructor.
    + done.
    + intros x Hx. apply Htodo. by right.
    + intros x Hx. destruct (decide (x = g)) as [->|Hne].
      { right. apply elem_of_app. right. by left. }
      destruct (Hkept x Hx) as [[?|?]%elem_of_cons|?]; [done|by left|].
      right. apply elem_of_app. by left.
    + intros N' [HN'| ->%list_elem_of_singleton]%elem_of_app; [by apply Hsound|].
      by exists g.
    + intros Y HY HAY Hy.
      destruct (Hcover Y HY HAY Hy) as [(N' & HN' & ?)|(x & [->|Hx]%elem_of_cons & HxY)].
      * left. exists N'. split; [|done]. apply elem_of_app. by left.
      * left. exists N. split; [|by apply HNY]. apply elem_of_app. right. by left.
      * right. by exists x.
  - (* [g] is taken out of [reps] *)
    rewrite bool_decide_eq_true_2 by done.
    apply IH; [done|]. apply Nat.eqb_neq in Hsize. constructor.
    + intros x Hx. apply Hreps. set_solver.
    + intros x Hx. apply elem_of_difference. split; [apply Htodo; by right|].
      intros ->%elem_of_singleton. done.
    + intros x [Hx Hne]%elem_of_difference.
      destruct (Hkept x Hx) as [[->|?]%elem_of_cons|?]; [|by left|by right].
      exfalso. apply Hne. by apply elem_of_singleton.
    + done.
    + intros Y HY HAY Hy.
      destruct (Hcover Y HY HAY Hy) as [?|(x & [->|Hx]%elem_of_cons & HxY)];
        [by left| |right; by exists x].
      destruct (size_not_1_other (reps ∩ list_to_set N) g) as (x & Hx & Hne); [|done|].
      { apply elem_of_intersection. split; [done|]. apply elem_of_list_to_set, HCN, elem_of_app.
        right. by left. }
      apply elem_of_intersection in Hx as [Hx_reps Hx_N%elem_of_list_to_set].
      assert (x ∈ Y) as HxY' by (by apply (HNY Y)).
      destruct (Hkept x Hx_reps) as [[->|?]%elem_of_cons|HNx]; [done|right; by exists x|].
      left. eexists. split; [done|]. apply cl_least; [done|].
      intros z [Hz| ->%list_elem_of_singleton]%elem_of_app; auto.
Qed.

(** [direct_super_elements] on the concept of a closed set [A] returns
    concepts of closed sets strictly above [A], one of them below every
    closed set strictly above [A]. *)
Lemma direct_super_elements_ok A :
  closed n1 n2 R A →
  ∃ Ns, direct_super_elements set_order n1 intention_i' extension_i'
          obj_names attr_names h (cof A) = Ok (cof <$> Ns)
    ∧ (∀ N, N ∈ Ns → ∃ g, g < n1 ∧ (g ∉ A) ∧ N = closure n1 n2 R (A ++ [g]))
    ∧ (∀ Y, closed n1 n2 R Y → A ⊆ Y → (∃ y, y ∈ Y ∧ y ∉ A) → ∃ N, N ∈ Ns ∧ N ⊆ Y).
Proof.
  intros HA. unfold direct_super_elements.
  change (extent_i (cof A)) with (list_to_set (C:=gset nat) A).
  set (reps := list_to_set (seq 0 n1) ∖ list_to_set A : gset nat).
  assert (∀ x, x ∈ reps ↔ x < n1 ∧ x ∉ A) as Hreps.
  { intros x. unfold reps. rewrite elem_of_difference, !elem_of_list_to_set, elem_of_seq.
    split; intros [? ?]; (split; [lia|done]). }
  apply (neighbours_loop A (set_order reps) reps []); [done|apply NoDup_set_order|].
  constructor.
  - intros x. apply Hreps.
  - intros x. by rewrite elem_of_set_order.
  - intros x Hx. left. by rewrite elem_of_set_order.
  - intros N HN. by apply elem_of_nil in HN.
  - intros Y HY HAY (y & HyY & HyA). right. exists y. split; [|done].
    apply elem_of_set_order, Hreps. split; [|done].
    by apply (proj1 (Forall_forall _ _) (closed_below n1 n2 R Y HY)).
Qed.

End lindig_neighbours.

(** ** The loop of lindig_algorithm *)

Lemma closed_list_to_set_inj n1 n2 R (A A' : list nat) :
  closed n1 n2 R A → closed n1 n2 R A' →
  list_to_set A =@{gset nat} list_to_set A' → A = A'.
Proof.
  intros HA HA' Heq. apply (closed_eq n1 n2 R); [done|done|..];
    intros x Hx; apply (elem_of_list_to_set (C:=gset nat));
    apply (elem_of_list_to_set (C:=gset nat)) in Hx; congruence.
Qed.

Lemma closed_list_to_set_elem n1 n2 R (N : list nat) (As : list (list nat)) :
  closed n1 n2 R N → Forall (closed n1 n2 R) As →
  list_to_set (C:=gset nat) N ∈ list_to_set (C:=gset nat) <$> As ↔ N ∈ As.
Proof.
  intros HN HAs. split.
  - intros (A & Heq & HA)%list_elem_of_fmap.
    assert (N = A) as ->; [|done].
    eapply closed_list_to_set_inj; [done| |done].
    by apply (proj1 (Forall_forall _ _) HAs).
  - intros HNAs. apply list_elem_of_fmap. eauto.
Qed.

Lemma elem_of_delete_ne {A} (l : list A) (pos : nat) (c x : A) :
  l !! pos = Some c → x ∈ l → x ≠ c → x ∈ delete pos l.
Proof.
  intros Hpos [i Hi]%list_elem_of_lookup Hne.
  assert (i ≠ pos) as Hip by (intros ->; congruence).
  apply list_elem_of_lookup.
  destruct (decide (i < pos)).
  - exists i. by rewrite list_lookup_delete_lt.
  - exists (i - 1). rewrite list_lookup_delete_ge by lia. rewrite <-Hi. f_equal. lia.
Qed.

Section lindig_loop_facts.
Variable set_order : gset nat → list nat.
Variable set_pop : list FormalConcept → nat.
Variable intention_i' extension_i' : list nat → result (list nat).
Variables (n1 n2 : nat) (R : nat → nat → bool).
Variables (obj_names attr_names : list string) (h : Z).
Hypothesis Horder : ∀ s, set_order s ≡ₚ elements s.
Hypothesis Hint : ∀ C, below n1 C → intention_i' C = Ok (polar n2 R C).
Hypothesis Hext : ∀ S, below n2 S → extension_i' S = Ok (polar n1 (λ y x, R x y) S).
Hypothesis Hon : length obj_names = n1.
Hypothesis Han : length attr_names = n2.

Abbreviation cof' := (closed_concept n2 R obj_names attr_names h).
Abbreviation coherent := (lindig_coherent n1 n2 R obj_names attr_names h).
Abbreviation linv := (lindig_inv n1 n2 R obj_names attr_names h).

Lemma cof_inj A A' : closed n1 n2 R A → closed n1 n2 R A' → cof' A = cof' A' → A = A'.
Proof.
  intros HA HA' Heq. apply (closed_list_to_set_inj n1 n2 R); [done..|].
  by apply (f_equal extent_i) in Heq.
Qed.

Lemma lindig_add_dsups_ok c_id Ns As st :
  coherent As st → Forall (closed n1 n2 R) Ns →
  ∃ As' st',
    lindig_add_dsups c_id (cof' <$> Ns) st = Ok st'
    ∧ coherent (As ++ As') st'
    ∧ l_queue st' = l_queue st ++ (cof' <$> As')
    ∧ (∀ N, N ∈ Ns → N ∈ As ++ As')
    ∧ (∀ N, N ∈ As' → N ∈ Ns).
Proof.
  intros Hcoh HNs. revert As st Hcoh.
  induction HNs as [|N Ns HN HNs IH]; intros As st Hcoh.
  { exists [], st. rewrite app_nil_r. split_and!; [done|done|by rewrite app_nil_r| |];
      by intros N ?%elem_of_nil. }
  destruct st as [concepts queue subd superd index].
  destruct Hcoh as (Hc & Hi & Hnd & Hcl). cbn in Hc, Hi.
  cbn [fmap list_fmap lindig_add_dsups].
  change (extent_i (cof' N)) with (list_to_set (C:=gset nat) N).
  cbn [l_index l_concepts l_queue l_subconcepts_dict l_superconcepts_dict].
  destruct (dict_in (list_to_set N) index) eqn:Hin; cbn [negb].
  - (* already in [index] *)
    apply dict_in_true in Hin. rewrite Hi in Hin.
    apply (closed_list_to_set_elem n1 n2 R) in Hin; [|done..].
    assert (∃ x_id, dict_getitem index (list_to_set N) = Ok x_id) as [x_id Hx].
    { unfold dict_getitem.
      destruct (proj2 (dict_get_Some index (list_to_set N))) as [x_id ->]; [|eauto].
      rewrite Hi. apply list_elem_of_fmap. eauto. }
    cbn [l_index l_concepts l_queue l_subconcepts_dict l_superconcepts_dict].
    rewrite Hx. cbn [mbind result_bind].
    destruct (IH As {| l_concepts := concepts; l_queue := queue;
                       l_subconcepts_dict := dict_setdefault_append subd x_id c_id;
                       l_superconcepts_dict := dict_setdefault_append superd c_id x_id;
                       l_index := index |})
      as (As' & st' & Hrun & Hcoh' & Hq' & Hall & Hnew); [done|].
    exists As', st'. split_and!; [done..| |].
    + intros N' [->|?]%elem_of_cons; [|by apply Hall]. apply elem_of_app. by left.
    + intros N' ?. right. by apply Hnew.
  - (* a new concept *)
    apply dict_in_false in Hin. rewrite Hi in Hin.
    assert (N ∉ As) as HNAs by (intros ?; apply Hin, list_elem_of_fmap; eauto).
    cbn [l_index l_concepts l_queue l_subconcepts_dict l_superconcepts_dict].
    rewrite dict_set_fresh by (by rewrite Hi).
    assert (dict_getitem (index ++ [(list_to_set N, length concepts)]) (list_to_set N)
            = Ok (length concepts)) as ->.
    { unfold dict_getitem.
      rewrite (dict_get_lookup _ (length index) (list_to_set N) (length concepts)); [done| |].
      - assert ((index ++ [(list_to_set N, length concepts)]).*1
                = list_to_set (C:=gset nat) <$> (As ++ [N])) as ->
          by (by rewrite !fmap_app, Hi).
        apply (NoDup_fmap_2_strong _ (As ++ [N])).
        + intros A A' HA HA'. apply (closed_list_to_set_inj n1 n2 R).
          * apply elem_of_app in HA as [HA| ->%list_elem_of_singleton]; [|done].
            by apply (proj1 (Forall_forall _ _) Hcl).
          * apply elem_of_app in HA' as [HA'| ->%list_elem_of_singleton]; [|done].
            by apply (proj1 (Forall_forall _ _) Hcl).
        + apply NoDup_app. split_and!; [done| |apply NoDup_singleton].
          by intros A HA ->%list_elem_of_singleton.
      - by apply list_lookup_middle. }
    cbn [mbind result_bind].
    destruct (IH (As ++ [N])
                {| l_concepts := concepts ++ [cof' N]; l_queue := queue ++ [cof' N];
                   l_subconcepts_dict := dict_setdefault_append subd (length concepts) c_id;
                   l_superconcepts_dict :=
                     dict_setdefault_append superd c_id (length concepts);
                   l_index := index ++ [(list_to_set N, length concepts)] |})
      as (As' & st' & Hrun & Hcoh' & Hq' & Hall & Hnew).
    { split_and!; cbn.
      - by rewrite Hc, fmap_app.
      - by rewrite !fmap_app, Hi.
      - apply NoDup_app. split_and!; [done| |apply NoDup_singleton].
        by intros A HA ->%list_elem_of_singleton.
      - apply Forall_app. split; [done|]. by constructor. }
    exists (N :: As'), st'. rewrite <-app_assoc in Hcoh', Hall. cbn in Hq'.
    rewrite <-app_assoc in Hq'. split_and!; [done..| |].
    + intros N' [->|?]%elem_of_cons; [|by apply Hall].
      apply elem_of_app. right. by left.
    + intros N' [->|?]%elem_of_cons; [by left|]. right. by apply Hnew.
Qed.

Lemma lindig_body_ok As A st :
  coherent As st → A ∈ As →
  ∃ As' st',
    lindig_body set_order n1 intention_i' extension_i' obj_names attr_names h (cof' A) st
    = Ok st'
    ∧ coherent (As ++ As') st'
    ∧ l_queue st' = l_queue st ++ (cof' <$> As')
    ∧ ∀ Y, closed n1 n2 R Y → A ⊆ Y → (∃ y, y ∈ Y ∧ y ∉ A) →
           ∃ N, N ∈ As ++ As' ∧ N ⊆ Y ∧ A ⊆ N ∧ ∃ g, g ∈ N ∧ g ∉ A.
Proof.
  intros Hcoh HA.
  pose proof Hcoh as (Hc & Hi & Hnd & Hcl).
  assert (closed n1 n2 R A) as HAcl by (by apply (proj1 (Forall_forall _ _) Hcl)).
  unfold lindig_body.
  change (extent_i (cof' A)) with (list_to_set (C:=gset nat) A).
  assert (∃ c_id, dict_getitem (l_index st) (list_to_set A) = Ok c_id) as [c_id ->].
  { unfold dict_getitem.
    destruct (proj2 (dict_get_Some (l_index st) (list_to_set A))) as [c_id ->]; [|eauto].
    rewrite Hi. apply list_elem_of_fmap. eauto. }
  cbn [mbind result_bind].
  destruct (direct_super_elements_ok set_order intention_i' extension_i' n1 n2 R
              obj_names attr_names h Horder Hint Hext Hon Han A HAcl)
    as (Ns & -> & Hsound & Hcover).
  cbn [mbind result_bind].
  assert (Hstrict : ∀ N, N ∈ Ns → closed n1 n2 R N ∧ A ⊆ N ∧ ∃ g, g ∈ N ∧ g ∉ A).
  { intros N (g & Hg & HgA & ->)%Hsound.
    assert (below n1 (A ++ [g])) as HC by (apply below_snoc; [by eapply closed_below|done]).
    pose proof (cl_extensive n1 n2 R _ HC) as Hext'.
    split_and!; [by apply cl_closed| |].
    - intros x Hx. apply Hext', elem_of_app. by left.
    - exists g. split; [|done]. apply Hext', elem_of_app. right. by left. }
  destruct Ns as [|N Ns].
  - exists [], {| l_concepts := l_concepts st; l_queue := l_queue st;
                  l_subconcepts_dict := l_subconcepts_dict st;
                  l_superconcepts_dict := dict_set (l_superconcepts_dict st) c_id [];
                  l_index := l_index st |}.
    rewrite !app_nil_r. split_and!; [done|done|done|].
    intros Y HY HAY Hy. destruct (Hcover Y HY HAY Hy) as (N & HN & _).
    by apply elem_of_nil in HN.
  - cbn [fmap list_fmap length Nat.eqb].
    destruct (lindig_add_dsups_ok c_id (N :: Ns) As st Hcoh)
      as (As' & st' & Hrun & Hcoh' & Hq' & Hall & Hnew).
    { apply Forall_forall. intros N' HN'. by apply Hstrict. }
    exists As', st'. split_and!; [done..|].
    intros Y HY HAY Hy. destruct (Hcover Y HY HAY Hy) as (N' & HN' & HN'Y).
    exists N'. destruct (Hstrict N' HN') as (_ & ? & ?). split_and!; auto.
Qed.

Lemma lindig_inv_bound As st : linv As st → length As ≤ 2 ^ n1.
Proof.
  intros [_ Hcl Hnd _ _ _ _].
  pose proof (NoDup_sublists_length As (seq 0 n1) Hnd) as Hlen.
  rewrite length_seq in Hlen. apply Hlen.
  intros A HA. rewrite <-(proj1 (Forall_forall _ _) Hcl A HA). apply cl_sublist.
Qed.

Lemma lindig_while_ok fuel As st :
  linv As st → 2 ^ n1 - length As + length (l_queue st) ≤ fuel →
  ∃ As' st',
    lindig_while set_order set_pop n1 intention_i' extension_i' obj_names attr_names h
      fuel st = Some (Ok st')
    ∧ linv As' st' ∧ l_queue st' = [].
Proof.
  revert As st. induction fuel as [|fuel IH]; intros As st Hinv Hfuel.
  { destruct st as [concepts [|c0 queue] subd superd index]; [by exists As; eexists|].
    cbn in Hfuel. lia. }
  destruct st as [concepts [|c0 queue] subd superd index]; [by exists As; eexists|].
  cbn [lindig_while l_queue l_concepts l_subconcepts_dict l_superconcepts_dict l_index].
  set (q := c0 :: queue) in *.
  set (pos := set_pop q `mod` length q).
  assert (pos < length q) as Hpos by (apply Nat.mod_upper_bound; done).
  destruct (lookup_lt_is_Some_2 q pos Hpos) as [c Hc]. rewrite Hc. cbn [default id].
  pose proof Hinv as [Hcs Hcl Hnd Hidx Hq Hbot Hexp].
  cbn [l_queue l_concepts l_index] in Hcs, Hidx, Hq, Hexp.
  assert (∃ A, A ∈ As ∧ c = cof' A) as (A & HA & ->).
  { assert (c ∈ concepts) as Hcin by (apply Hq; by eapply list_elem_of_lookup_2).
    rewrite Hcs in Hcin. apply list_elem_of_fmap in Hcin as (A & -> & HA). eauto. }
  destruct (lindig_body_ok As A
              {| l_concepts := concepts; l_queue := delete pos q;
                 l_subconcepts_dict := subd; l_superconcepts_dict := superd;
                 l_index := index |})
    as (As' & st' & -> & Hcoh' & Hq' & Hexp'); [by split_and!|done|].
  cbn [l_queue] in Hq'. destruct Hcoh' as (Hcs' & Hidx' & Hnd' & Hcl').
  assert (linv (As ++ As') st') as Hinv'.
  { constructor; [done..| | |].
    - intros c. rewrite Hq', Hcs', fmap_app, !elem_of_app.
      intros [Hc'%list_elem_of_delete_inv%Hq|Hc']; [left|by right]. by rewrite <-Hcs.
    - apply elem_of_app. by left.
    - intros A' [HA'|HA']%elem_of_app.
      + destruct (decide (A' = A)) as [->|Hne]; [by right|].
        destruct (Hexp A' HA') as [Hin|Hdone].
        * left. rewrite Hq'. apply elem_of_app. left.
          eapply elem_of_delete_ne; [done..|]. intros Heq. apply Hne.
          apply cof_inj; [..|done]; by apply (proj1 (Forall_forall _ _) Hcl).
        * right. intros Y HY HAY Hy. destruct (Hdone Y HY HAY Hy) as (N & HN & ?).
          exists N. split; [|done]. apply elem_of_app. by left.
      + left. rewrite Hq'. apply elem_of_app. right. apply list_elem_of_fmap. eauto. }
  apply (IH (As ++ As') st' Hinv').
  pose proof (lindig_inv_bound _ _ Hinv') as Hbound.
  rewrite Hq'. rewrite !length_app, length_fmap in *.
  rewrite length_delete by done. subst q. cbn [length l_queue] in *. lia.
Qed.

Lemma polar_nil n (Rel : nat → nat → bool) : polar n Rel [] = seq 0 n.
Proof.
  unfold polar. induction (seq 0 n) as [|y l IH]; [done|].
  rewrite filter_cons, decide_True by done. by rewrite IH.
Qed.

Lemma length_lt_of_strict_subset (Z N : list nat) g :
  NoDup Z → Z ⊆ N → g ∈ N → g ∉ Z → length Z < length N.
Proof.
  intros Hnd HZN HgN HgZ.
  assert (g :: Z ⊆+ N) as Hsub%submseteq_length; [|cbn in Hsub; lia].
  apply NoDup_submseteq; [by constructor|].
  intros x [->|Hx]%elem_of_cons; auto.
Qed.

(** When the queue is empty every closed set has been found. *)
Lemma lindig_complete As st Y :
  linv As st → l_queue st = [] → closed n1 n2 R Y → Y ∈ As.
Proof.
  intros [_ Hcl _ _ _ Hbot Hexp] Hq HY.
  assert (∀ k Z, Z ∈ As → Z ⊆ Y → length Y ≤ length Z + k → Y ∈ As) as Hgen.
  { induction k as [|k IH]; intros Z HZ HZY Hlen.
    - destruct (subset_or_missing Y Z) as [HYZ|Hy].
      { assert (Y = Z) as ->; [|done].
        apply (closed_eq n1 n2 R); [done| |done..]. by apply (proj1 (Forall_forall _ _) Hcl). }
      assert (closed n1 n2 R Z) as HZcl by (by apply (proj1 (Forall_forall _ _) Hcl)).
      destruct (Hexp Z HZ) as [Hin|Hdone]; [rewrite Hq in Hin; by apply elem_of_nil in Hin|].
      destruct (Hdone Y HY HZY Hy) as (N & HN & HNY & HZN & g & HgN & HgZ).
      assert (length Z < length N).
      { eapply length_lt_of_strict_subset; [|done..]. rewrite <-HZcl. apply polar_NoDup. }
      assert (length N ≤ length Y).
      { apply submseteq_length, NoDup_submseteq; [|done].
        rewrite <-(proj1 (Forall_forall _ _) Hcl N HN). apply polar_NoDup. }
      lia.
    - destruct (subset_or_missing Y Z) as [HYZ|Hy].
      { assert (Y = Z) as ->; [|done].
        apply (closed_eq n1 n2 R); [done| |done..]. by apply (proj1 (Forall_forall _ _) Hcl). }
      assert (closed n1 n2 R Z) as HZcl by (by apply (proj1 (Forall_forall _ _) Hcl)).
      destruct (Hexp Z HZ) as [Hin|Hdone]; [rewrite Hq in Hin; by apply elem_of_nil in Hin|].
      destruct (Hdone Y HY HZY Hy) as (N & HN & HNY & HZN & g & HgN & HgZ).
      assert (length Z < length N).
      { eapply length_lt_of_strict_subset; [|done..]. rewrite <-HZcl. apply polar_NoDup. }
      apply (IH N); [done..|lia]. }
  apply (Hgen (length Y) (closure n1 n2 R [])); [done| |lia].
  apply cl_least; [done|]. intros x Hx. by apply elem_of_nil in Hx.
Qed.

(** Lines 454-483 end, and [concepts] then holds the concept of every
    closed set, each once. *)
Lemma lindig_run_ok :
  ∃ As st,
    lindig_run set_order set_pop n1 intention_i' extension_i' obj_names attr_names h n2
    = Some (Ok st)
    ∧ l_concepts st = cof' <$> As
    ∧ NoDup As
    ∧ ∀ Y, Y ∈ As ↔ closed n1 n2 R Y.
Proof.
  unfold lindig_run.
  rewrite Hext by (apply Forall_forall; intros x Hx%elem_of_seq; lia).
  cbn [mbind result_bind].
  assert (polar n1 (λ y x, R x y) (seq 0 n2) = closure n1 n2 R []) as HG.
  { unfold closure. by rewrite polar_nil. }
  rewrite HG.
  rewrite new_FormalConcept_ok.
  2:{ rewrite Hon. apply cl_below. }
  2:{ rewrite Han. apply Forall_forall. intros x Hx%elem_of_seq. lia. }
  assert (concept_of obj_names attr_names h (closure n1 n2 R []) (seq 0 n2)
          = cof' (closure n1 n2 R [])) as ->.
  { unfold closed_concept. f_equal. rewrite <-(polar_nil n2 R).
    symmetry. apply up_down_up. constructor. }
  change (extent_i (cof' (closure n1 n2 R [])))
    with (list_to_set (C:=gset nat) (closure n1 n2 R [])).
  assert (closed n1 n2 R (closure n1 n2 R [])) as Hbot by (apply cl_closed; constructor).
  assert (linv [closure n1 n2 R []]
            {| l_concepts := [cof' (closure n1 n2 R [])];
               l_queue := [cof' (closure n1 n2 R [])];
               l_subconcepts_dict := [(0, [])];
               l_superconcepts_dict := [];
               l_index := [(list_to_set (closure n1 n2 R []), 0)] |}) as Hinv.
  { constructor; cbn; [done| |apply NoDup_singleton|done|done|by left|].
    - by constructor.
    - intros A ->%list_elem_of_singleton. left. by left. }
  destruct (lindig_while_ok (2 ^ n1) _ _ Hinv) as (As & st & -> & Hinv' & Hq).
  { pose proof (lindig_inv_bound _ _ Hinv) as Hb. cbn in Hb |- *. lia. }
  exists As, st. split_and!; [done|apply Hinv'|apply Hinv'|].
  intros Y. split.
  - intros HY. by apply (proj1 (Forall_forall _ _) (linv_closed _ _ _ _ _ _ _ _ Hinv')).
  - by apply (lindig_complete As st).
Qed.

End lindig_loop_facts.

(** ** lindig_algorithm and close_by_one on a formal context *)

Section lindig_formal.
Variable set_order : gset nat → list nat.
Variable set_pop : list FormalConcept → nat.
Variable hash_fixed : FormalContext → Z.
Variable K : FormalContext.
Hypothesis HK : context_ok K = true.
Hypothesis Horder : ∀ s, set_order s ≡ₚ elements s.

Abbreviation the_concept :=
  (λ A, concept_of (object_names K) (attribute_names K) (hash_fixed K) A (int_of K A)).

(** The concepts of [close_by_one] are the concepts of the closed extents. *)
Lemma close_by_one_concepts (iterate_extents : option bool) :
  ∃ concepts,
    close_by_one set_order hash_fixed (FormalCtx K) true iterate_extents None None
    = Some (Ok (Concepts concepts))
    ∧ ∀ c, c ∈ concepts ↔ ∃ A, ext_of K (int_of K A) = A ∧ c = the_concept A.
Proof.
  assert (∃ b, close_by_one set_order hash_fixed (FormalCtx K) true iterate_extents None None
               = close_by_one set_order hash_fixed (FormalCtx K) true (Some b) None None)
    as [b ->].
  { destruct iterate_extents as [b|]; [by exists b|]. exists true.
    apply close_by_one_default_is_extents. }
  destruct (close_by_one_formal set_order hash_fixed K HK b true)
    as (extents & intents & -> & Hp & _ & Hall).
  eexists. split; [done|]. intros c.
  rewrite (galois_pairs_intents K extents intents Hp).
  rewrite zip_with_fmap_r, zip_with_diag, list_elem_of_fmap.
  split; intros (A & HA & HA'); exists A.
  - split; [by apply Hall|done].
  - split; [done|by apply Hall].
Qed.

(** The concepts of [lindig_algorithm] are the concepts of the closed
    extents as well. *)
Lemma lindig_concepts (iterate_extents : option bool) :
  ∃ lattice,
    lindig_algorithm set_order set_pop hash_fixed (FormalCtx K) iterate_extents
    = Some (Ok lattice)
    ∧ ∀ c, c ∈ lattice_concepts lattice ↔ ∃ A, ext_of K (int_of K A) = A ∧ c = the_concept A.
Proof.
  destruct (context_ok_inv K HK) as (_ & _ & Hon & Han).
  unfold lindig_algorithm.
  destruct (default (n_objects K <? n_attributes K) iterate_extents); cbn [negb].
  - destruct (lindig_run_ok set_order set_pop (intention_i K) (extension_i K)
                (n_objects K) (n_attributes K) (incidence K)
                (object_names K) (attribute_names K) (hash_fixed K))
      as (As & st & -> & Hc & _ & Hall); [done| | |done|done|].
    { intros C HC. by apply intention_i_ok. }
    { intros S HS. by apply extension_i_ok. }
    eexists. split; [done|]. cbn. intros c. rewrite Hc, list_elem_of_fmap.
    split; intros (A & HA & HA'); exists A.
    + split; [by apply Hall|done].
    + split; [done|by apply Hall].
  - destruct (lindig_run_ok set_order set_pop (extension_i K) (intention_i K)
                (n_attributes K) (n_objects K) (λ m g, incidence K g m)
                (attribute_names K) (object_names K) (hash_fixed K))
      as (Bs & st & -> & Hc & _ & Hall); [done| | |done|done|].
    { intros C HC. by apply extension_i_ok. }
    { intros S HS. by apply intention_i_ok. }
    eexists. split; [done|]. cbn. intros c. rewrite Hc, <-list_fmap_compose, list_elem_of_fmap.
    split.
    + intros (B & -> & HB%Hall). exists (ext_of K B). split.
      * apply (up_down_up (n_attributes K) (n_objects K) (λ m g, incidence K g m)).
        rewrite <-HB. apply polar_below.
      * unfold closed_concept, concept_of, swap_concept. cbn.
        change (polar (n_objects K) (λ m g, incidence K g m) B) with (ext_of K B).
        change (closure (n_attributes K) (n_objects K) (λ m g, incidence K g m) B)
          with (int_of K (ext_of K B)) in HB. by rewrite HB.
    + intros (A & HA & ->). exists (int_of K A). split.
      * unfold closed_concept, concept_of, swap_concept. cbn.
        change (polar (n_objects K) (λ m g, incidence K g m) (int_of K A))
          with (ext_of K (int_of K A)). by rewrite HA.
      * apply Hall.
        apply (up_down_up (n_objects K) (n_attributes K) (incidence K)).
        rewrite <-HA. apply polar_below.
Qed.

End lindig_formal.

(** C6.  On a context that passed the assertions of the setters,
    [lindig_algorithm] and [close_by_one] both return, whatever direction
    is chosen for either, and the lattice of the one holds the same
    concepts, hence the same pairs of extent and intent index sets, as the
    list of the other. *)
Theorem lindig_equals_close_by_one (set_order : gset nat → list nat)
    (set_pop : list FormalConcept → nat) (hash_fixed : FormalContext → Z)
    (K : FormalContext) (iterate_extents_lindig iterate_extents_cbo : option bool) :
  context_ok K = true →
  (∀ s, set_order s ≡ₚ elements s) →
  ∃ lattice concepts,
    lindig_algorithm set_order set_pop hash_fixed (FormalCtx K) iterate_extents_lindig
    = Some (Ok lattice)
    ∧ close_by_one set_order hash_fixed (FormalCtx K) true iterate_extents_cbo None None
      = Some (Ok (Concepts concepts))
    ∧ (∀ c, c ∈ lattice_concepts lattice ↔ c ∈ concepts)
    ∧ (∀ A B, (∃ c, c ∈ lattice_concepts lattice ∧ extent_i c = A ∧ intent_i c = B)
              ↔ (∃ c, c ∈ concepts ∧ extent_i c = A ∧ intent_i c = B)).
Proof.
  intros HK Horder.
  destruct (lindig_concepts set_order set_pop hash_fixed K HK Horder iterate_extents_lindig)
    as (lattice & Hl & Hlc).
  destruct (close_by_one_concepts set_order hash_fixed K HK iterate_extents_cbo)
    as (concepts & Hc & Hcc).
  exists lattice, concepts. split_and!; [done|done| |].
  - intros c. by rewrite Hlc, Hcc.
  - intros A B. split; intros (c & Hin & ? & ?); exists c; (split; [|done]).
    + by apply Hcc, Hlc.
    + by apply Hlc, Hcc.
Qed.

Lemma lindig_equals_close_by_one_witness :
  ∃ lattice concepts,
    lindig_algorithm elements (λ _, 0) (λ _, 0%Z) (FormalCtx animals) None = Some (Ok lattice)
    ∧ close_by_one elements (λ _, 0%Z) (FormalCtx animals) true (Some false) None None
      = Some (Ok (Concepts concepts))
    ∧ (∀ c, c ∈ lattice_concepts lattice ↔ c ∈ concepts)
    ∧ (∀ A B, (∃ c, c ∈ lattice_concepts lattice ∧ extent_i c = A ∧ intent_i c = B)
              ↔ (∃ c, c ∈ concepts ∧ extent_i c = A ∧ intent_i c = B)).
Proof.
  apply (lindig_equals_close_by_one elements (λ _, 0) (λ _, 0%Z) animals None (Some false)).
  - reflexivity.
  - intros s. reflexivity.
Defined.

(** ** The combinations sofia_binary hands to close_by_one *)

(** The seeds of a pass of [sofia_binary] are fields of concepts, which are
    frozensets; [close_by_one] takes the last element of a combination with
    [comb_i[-1]], at lines 84 and 97.  Line 97 on a frozenset that is not
    empty and an index outside of the closed set: *)
Lemma cbo_extends_frozenset s iterset_i g :
  s ≠ ∅ → g ∉ iterset_i → cbo_extends (PyFrozenSet s) iterset_i g = Raise TypeError.
Proof.
  intros Hs Hg. unfold cbo_extends. rewrite bool_decide_false by done. cbn.
  destruct (size s =? 0) eqn:E; [|done].
  apply Nat.eqb_eq, size_empty_iff in E. by apply leibniz_equiv in E.
Qed.

(** An index of the closed set is not asked about the combination. *)
Lemma cbo_extends_member c iterset_i g :
  g ∈ iterset_i → cbo_extends c iterset_i g = Ok false.
Proof. intros Hg. unfold cbo_extends. by rewrite bool_decide_true. Qed.

(** Lines 95-98 on a frozenset that is not empty: the first index to check
    outside of the closed set raises. *)
Lemma mapM_extends_frozenset s iterset_i (E : list nat) :
  s ≠ ∅ → (∃ g, g ∈ E ∧ g ∉ iterset_i) →
  mapM (λ g_i, b ← cbo_extends (PyFrozenSet s) iterset_i g_i; mret (g_i, b)) E = Raise TypeError.
Proof.
  intros Hs. induction E as [|g E IH]; intros (g' & Hin & Hout).
  - by apply elem_of_nil in Hin.
  - rewrite mapM_cons. destruct (decide (g ∈ iterset_i)) as [Hg|Hg].
    + rewrite (cbo_extends_member _ _ _ Hg). cbn.
      rewrite IH; [done|]. exists g'. split; [|done].
      apply elem_of_cons in Hin as [->|]; done.
    + by rewrite (cbo_extends_frozenset _ _ _ Hs Hg).
Qed.

(** One pass of the loop on a frozenset that is not empty, before any closed
    set is recorded: when the closed set has elements outside of the
    combination, line 84 raises; otherwise an index to check that is not in
    the combination is not in the closed set, and line 97 raises. *)
Lemma cbo_body_frozenset {Side} set_order (iterset_fnc : Side → result (list nat))
    (sideset_fnc : list nat → result Side) E s (st : cbo_state Side) sideset_i iterset_i :
  s ≠ ∅ →
  sideset_fnc (set_order s) = Ok sideset_i →
  iterset_fnc sideset_i = Ok iterset_i →
  itersets_i_dict st = [] →
  (∃ g, g ∈ E ∧ g ∉ s) →
  cbo_body set_order iterset_fnc sideset_fnc E (PyFrozenSet s) st = Raise TypeError.
Proof.
  intros Hs Hside Hiter Hd (g & HgE & Hgs). unfold cbo_body.
  cbn [seq_items]. rewrite Hside. cbn [mbind result_bind]. rewrite Hiter. cbn [mbind result_bind].
  cbn [seq_len seq_set].
  assert ((0 <? size s) = true) as ->.
  { apply Nat.ltb_lt. destruct (size s) eqn:E'; [|lia].
    apply size_empty_iff, leibniz_equiv in E'. done. }
  destruct (merge_sort le (elements (list_to_set iterset_i ∖ s))) as [|x new] eqn:Hnew.
  - cbn. rewrite Hd. cbn.
    rewrite mapM_extends_frozenset; [done..|].
    exists g. split; [done|]. intros Hin.
    assert (g ∈ merge_sort le (elements (list_to_set iterset_i ∖ s : gset nat))) as Hg.
    { rewrite merge_sort_Permutation. set_solver. }
    rewrite Hnew in Hg. by apply elem_of_nil in Hg.
  - rewrite mapM_cons. reflexivity.
Qed.

(** [close_by_one] over attributes raises [TypeError] when the first
    combination given is a frozenset of attributes that is not empty and does
    not hold all the indexes to check. *)
Lemma close_by_one_frozenset_seed set_order hash_fixed K out s rest E :
  (∀ s x, x ∈ set_order s ↔ x ∈ s) →
  context_ok K = true →
  s ≠ ∅ → (∀ m, m ∈ s → m < n_attributes K) →
  (∃ g, g ∈ E ∧ g ∉ s) →
  close_by_one set_order hash_fixed (FormalCtx K) out (Some false)
    (Some (PyFrozenSet s :: rest)) (Some E) = Some (Raise TypeError).
Proof.
  intros Hord HK Hs Hrange HE.
  assert (extension_i K (set_order s) = Ok (ext_of K (set_order s))) as Hside.
  { apply extension_i_ok; [done|]. apply Forall_forall. intros m Hm.
    apply Hrange, Hord, Hm. }
  assert (intention_i K (ext_of K (set_order s))
          = Ok (int_of K (ext_of K (set_order s)))) as Hiter.
  { apply intention_i_ok; [done|]. apply Forall_forall. intros g Hg.
    unfold ext_of in Hg. apply list_elem_of_filter in Hg as [_ Hg].
    apply elem_of_seq in Hg. lia. }
  unfold close_by_one.
  assert (close_by_one_asserts (FormalCtx K) (Some false) (Some (PyFrozenSet s :: rest))
            (Some E) = Ok tt) as ->.
  { unfold close_by_one_asserts. by rewrite !bool_decide_true. }
  cbn [cbo_iterate_extents negb default]. unfold cbo_run, cbo_fuel.
  cbn [default id ctx_n_attributes].
  replace (2 ^ n_attributes K * length E + length (PyFrozenSet s :: rest))
    with (S (2 ^ n_attributes K * length E + length rest)) by (cbn [length]; lia).
  cbn [cbo_while combinations_to_check itersets_i_dict sidesets_i].
  erewrite cbo_body_frozenset; [done|done|exact Hside|exact Hiter|done|done].
Qed.

(** C3.  On the context of one object with three attributes, which has a
    single concept, and with [L_max = 4]: [close_by_one] returns that
    concept, of extent [{0}]; [sofia_binary] builds its first lattice on
    the first [int(log2(4)) = 2] attributes and takes the intent [{0, 1}] of
    its concept as the seed of the pass for the third attribute, where
    [close_by_one] raises [TypeError]: no lattice is returned. *)
Theorem sofia_binary_seeds_raise set_order hash_fixed random_sample :
  (∀ s x, x ∈ set_order s ↔ x ∈ s) →
  (∃ c, close_by_one set_order hash_fixed (FormalCtx one_by_three) true None None None
        = Some (Ok (Concepts [c])) ∧ extent_i c = {[0]} ∧ intent_i c = {[0; 1; 2]}) ∧
  (∃ st, sofia_binary_start set_order hash_fixed random_sample one_by_three 4 true
           (MeasureStr "LStab") None None = Some (Ok st) ∧
         s_proj_to_start st = 2 ∧
         extent_i <$> lattice_concepts (s_lattice st) = [{[0]}] ∧
         s_itersets st = [{[0; 1]}]) ∧
  sofia_binary_first_pass set_order hash_fixed random_sample one_by_three 4 true
    (MeasureStr "LStab") None None = Some (Raise TypeError).
Proof.
  intros Hord.
  assert (∃ st, sofia_binary_start set_order hash_fixed random_sample one_by_three 4 true
           (MeasureStr "LStab") None None = Some (Ok st) ∧
         s_proj_to_start st = 2 ∧ s_itersets st = [{[0; 1]}] ∧
         s_projections_order st = [0; 1; 2]) as (st & Hst & Hp & Hi & Ho).
  { eexists. split; [vm_compute; reflexivity|]. repeat split; vm_compute; reflexivity. }
  split; [|split].
  - eexists. split; [vm_compute; reflexivity|]. split; vm_compute; reflexivity.
  - exists st. split_and!; [done|done| |done].
    apply (f_equal (λ r, match r with
                         | Some (Ok st) => extent_i <$> lattice_concepts (s_lattice st)
                         | _ => []
                         end)) in Hst.
    rewrite <-Hst. vm_compute. reflexivity.
  - unfold sofia_binary_first_pass. rewrite Hst. cbn [and_then]. rewrite Hp, Hi, Ho.
    assert (n_attributes one_by_three = 3) as -> by reflexivity.
    cbn [Nat.add Nat.leb]. unfold sofia_new_concepts.
    assert (sofia_project one_by_three true (take 3 [0; 1; 2]) = Ok one_by_three) as ->
      by reflexivity.
    cbn [and_then]. unfold sofia_close_by_one. cbn [negb fmap list_fmap Nat.sub].
    rewrite close_by_one_frozenset_seed; [done|done|done|..].
    + intros Hs. assert (0 ∈ (∅ : gset nat)) as H0 by (rewrite <-Hs; set_solver).
      set_solver.
    + intros m Hm. assert (m = 0 ∨ m = 1) as [->| ->] by set_solver; cbn; lia.
    + exists 2. split; [set_solver|]. set_solver.
Qed.

Lemma sofia_binary_seeds_raise_witness :
  (∀ (s : gset nat) x, x ∈ elements s ↔ x ∈ s) ∧
  sofia_binary_first_pass elements (λ _, 0%Z) (λ n, seq 0 n) one_by_three 4 true
    (MeasureStr "LStab") None None = Some (Raise TypeError).
Proof.
  split; [intros s x; apply elem_of_elements|].
  apply (sofia_binary_seeds_raise elements (λ _, 0%Z) (λ n, seq 0 n)).
  intros s x; apply elem_of_elements.
Defined.

(** ** The order on concepts *)

(** Between concepts of one context and one monotonicity, [__le__] does not
    raise and tells whether the extent of the lesser is included in the
    extent of the greater; the test on the supports changes nothing. *)
Lemma concept_le_Ok (c1 c2 : FormalConcept) :
  context_hash c1 = context_hash c2 → is_monotone c1 = is_monotone c2 →
  concept_le c1 c2
  = Ok (bool_decide (extent_i (lesser_ext c1 c2) ⊆ extent_i (greater_ext c1 c2))).
Proof.
  intros Hh Hm. unfold concept_le, lesser_ext, greater_ext.
  rewrite !bool_decide_true by done. cbn [negb].
  assert (∀ A B : gset nat,
            (if size B <? size A then Ok false else Ok (bool_decide (A ∩ B = A)))
            = Ok (bool_decide (A ⊆ B))) as Hsub.
  { intros A B. destruct (size B <? size A) eqn:Hs.
    - apply Nat.ltb_lt in Hs. rewrite bool_decide_false; [done|].
      intros Hsub. apply subseteq_size in Hsub. lia.
    - f_equal. apply bool_decide_ext. set_solver. }
  destruct (is_monotone c1); cbn [negb]; apply Hsub.
Qed.

(** Two concepts that [==] holds equal have all fields but the measures
    equal. *)
Lemma FormalConcept_eq_true measures_eq (c1 c2 : FormalConcept) :
  FormalConcept_eq measures_eq c1 c2 = Ok true →
  extent_i c1 = extent_i c2 ∧ extent c1 = extent c2
  ∧ intent_i c1 = intent_i c2 ∧ intent c1 = intent c2
  ∧ context_hash c1 = context_hash c2 ∧ is_monotone c1 = is_monotone c2.
Proof.
  unfold FormalConcept_eq. intros [= H].
  repeat (apply andb_true_iff in H as [H ?]).
  repeat match goal with H : bool_decide _ = true |- _ => apply bool_decide_eq_true in H end.
  done.
Qed.

(** [__le__] orders the concepts of one context by inclusion of extents
    (by the converse inclusion when they are monotone): it is reflexive and
    transitive, two concepts that are [<=] each other have the same extent,
    and concepts that are [==] are [<=] each other.  Concepts that are [<=]
    each other need not be [==], which compares the intents, the names and
    the measures as well. *)
Theorem concept_le_partial_order
    (measures_eq : gmap string float → gmap string float → bool) (c1 c2 c3 : FormalConcept) :
  context_hash c1 = context_hash c2 → context_hash c2 = context_hash c3 →
  is_monotone c1 = is_monotone c2 → is_monotone c2 = is_monotone c3 →
  (concept_le c1 c2 = Ok true
   ↔ extent_i (lesser_ext c1 c2) ⊆ extent_i (greater_ext c1 c2))
  ∧ (concept_le c1 c2 = Ok false
     ↔ ¬ extent_i (lesser_ext c1 c2) ⊆ extent_i (greater_ext c1 c2))
  ∧ concept_le c1 c1 = Ok true
  ∧ (concept_le c1 c2 = Ok true → concept_le c2 c3 = Ok true → concept_le c1 c3 = Ok true)
  ∧ (concept_le c1 c2 = Ok true → concept_le c2 c1 = Ok true → extent_i c1 = extent_i c2)
  ∧ (FormalConcept_eq measures_eq c1 c2 = Ok true →
     concept_le c1 c2 = Ok true ∧ concept_le c2 c1 = Ok true)
  ∧ (extent_i c1 = extent_i c2 → intent_i c1 ≠ intent_i c2 →
     concept_le c1 c2 = Ok true ∧ concept_le c2 c1 = Ok true
     ∧ FormalConcept_eq measures_eq c1 c2 = Ok false).
Proof.
  intros H12 H23 M12 M23.
  rewrite (concept_le_Ok c1 c2), (concept_le_Ok c1 c1), (concept_le_Ok c2 c3),
    (concept_le_Ok c1 c3), (concept_le_Ok c2 c1) by congruence.
  unfold lesser_ext, greater_ext. rewrite <-M12.
  split_and!.
  - split; [intros [= H%bool_decide_eq_true]; done|intros H; by rewrite bool_decide_true].
  - split; [intros [= H%bool_decide_eq_false]; done|intros H; by rewrite bool_decide_false].
  - rewrite bool_decide_true; [done|]. by destruct (is_monotone c1).
  - intros [= H1%bool_decide_eq_true] [= H2%bool_decide_eq_true].
    rewrite bool_decide_true; [done|]. destruct (is_monotone c1); set_solver.
  - intros [= H1%bool_decide_eq_true] [= H2%bool_decide_eq_true].
    destruct (is_monotone c1); set_solver.
  - intros (He & _)%FormalConcept_eq_true.
    destruct (is_monotone c1); cbn [negb]; rewrite He; by rewrite !bool_decide_true.
  - intros He Hi. split_and!.
    + destruct (is_monotone c1); cbn [negb]; rewrite He; by rewrite !bool_decide_true.
    + destruct (is_monotone c1); cbn [negb]; rewrite He; by rewrite !bool_decide_true.
    + unfold FormalConcept_eq. f_equal.
      rewrite (bool_decide_eq_false_2 _ Hi). by rewrite ?andb_false_r.
Qed.

(** Two concepts of the context with 2 objects: extents [{0}] and [{0, 1}]. *)
Lemma concept_le_partial_order_witness :
  concept_le two_by_one_bottom two_by_one_top = Ok true
  ∧ concept_le two_by_one_top two_by_one_bottom = Ok false.
Proof.
  pose proof (concept_le_partial_order (λ _ _, true)
                two_by_one_bottom two_by_one_top two_by_one_top
                eq_refl eq_refl eq_refl eq_refl) as (H1 & _).
  pose proof (concept_le_partial_order (λ _ _, true)
                two_by_one_top two_by_one_bottom two_by_one_top
                eq_refl eq_refl eq_refl eq_refl) as (_ & H2 & _).
  split.
  - apply H1. cbn. set_solver.
  - apply H2. cbn. intros H. assert (1 ∈ ({[0]} : gset nat)) by (apply H; set_solver).
    set_solver.
Defined.

(** [__lt__] between concepts of one context and one monotonicity is the
    strict inclusion of extents: it holds exactly when [__le__] holds and
    the extents differ. *)
Theorem concept_lt_strict (c1 c2 : FormalConcept) :
  context_hash c1 = context_hash c2 → is_monotone c1 = is_monotone c2 →
  concept_lt c1 c2
  = Ok (bool_decide (extent_i (lesser_ext c1 c2) ⊂ extent_i (greater_ext c1 c2)))
  ∧ (concept_lt c1 c2 = Ok true
     ↔ concept_le c1 c2 = Ok true ∧ extent_i c1 ≠ extent_i c2).
Proof.
  intros Hh Hm. unfold concept_lt, support.
  rewrite (concept_le_Ok c1 c2) by done.
  unfold lesser_ext, greater_ext.
  assert (∀ A B : gset nat, A ⊂ B ↔ A ⊆ B ∧ size A ≠ size B) as Hstrict.
  { intros A B. split.
    - intros H. split; [by apply H|]. apply subset_size in H. lia.
    - intros [H Hs]. split; [done|]. intros H'. apply Hs.
      apply Nat.le_antisymm; by apply subseteq_size. }
  destruct (size (extent_i c1) =? size (extent_i c2)) eqn:Hs.
  - apply Nat.eqb_eq in Hs. split.
    + rewrite bool_decide_false; [done|].
      destruct (is_monotone c1); cbn [negb]; rewrite Hstrict; intros [_ ?]; congruence.
    + split; [done|]. intros [[= H1%bool_decide_eq_true] H2].
      exfalso. apply H2.
      destruct (is_monotone c1); cbn [negb] in H1.
      * symmetry. apply set_subseteq_size_eq; [done|lia].
      * apply set_subseteq_size_eq; [done|lia].
  - apply Nat.eqb_neq in Hs. split.
    + f_equal. apply bool_decide_ext.
      destruct (is_monotone c1); cbn [negb]; rewrite Hstrict; intuition congruence.
    + split.
      * intros [= H%bool_decide_eq_true]. split; [by rewrite bool_decide_true|]. congruence.
      * by intros [-> _].
Qed.

Lemma concept_lt_strict_witness :
  concept_lt two_by_one_bottom two_by_one_top
  = Ok (bool_decide (extent_i two_by_one_bottom ⊂ extent_i two_by_one_top)).
Proof. exact (proj1 (concept_lt_strict two_by_one_bottom two_by_one_top eq_refl eq_refl)). Defined.

(** Between concepts of different contexts [__le__] raises, [__lt__]
    raises only when the supports differ (with equal supports it answers
    [False] before the contexts are looked at), and [==] on two
    [FormalConcept] objects answers [False]. *)
Theorem concept_lt_other_context
    (measures_eq : gmap string float → gmap string float → bool) (c1 c2 : FormalConcept) :
  context_hash c1 ≠ context_hash c2 →
  concept_le c1 c2 = Raise UnmatchedContextError
  ∧ FormalConcept_eq measures_eq c1 c2 = Ok false
  ∧ (support c1 = support c2 → concept_lt c1 c2 = Ok false)
  ∧ (support c1 ≠ support c2 → concept_lt c1 c2 = Raise UnmatchedContextError).
Proof.
  intros Hh. unfold concept_lt, concept_le, FormalConcept_eq.
  rewrite !bool_decide_false by done. cbn [negb]. split_and!; [done| |..].
  - by rewrite andb_false_r.
  - intros ->. by rewrite Nat.eqb_refl.
  - intros Hs. apply Nat.eqb_neq in Hs. by rewrite Hs.
Qed.

Lemma concept_lt_other_context_witness :
  concept_le concept_of_context_1 concept_of_context_2 = Raise UnmatchedContextError
  ∧ concept_lt concept_of_context_1 concept_of_context_2 = Ok false.
Proof.
  destruct (concept_lt_other_context (λ _ _, true) concept_of_context_1 concept_of_context_2)
    as (H1 & _ & H2 & _); [done|].
  split; [exact H1|]. by apply H2.
Defined.

(** ** What the closure queries return and when they raise *)

Lemma StronglySorted_lt_seq s n : StronglySorted lt (seq s n).
Proof.
  revert s. induction n as [|n IH]; intros s; cbn; constructor; [apply IH|].
  apply Forall_forall. intros x Hx. apply elem_of_seq in Hx. lia.
Qed.

Lemma StronglySorted_filter {A} (R : relation A) (P : A → Prop) `{!∀ x, Decision (P x)}
    (l : list A) :
  StronglySorted R l → StronglySorted R (filter P l).
Proof.
  induction 1 as [|x l Hl IH Hx]; [constructor|].
  rewrite filter_cons. destruct (decide (P x)); [|done].
  constructor; [done|]. apply Forall_forall. intros y Hy.
  apply list_elem_of_filter in Hy as [_ Hy]. rewrite Forall_forall in Hx. by apply Hx.
Qed.

Lemma polar_sorted n R X : StronglySorted lt (polar n R X).
Proof. apply StronglySorted_filter, StronglySorted_lt_seq. Qed.

Lemma getitem_Some {A} (l : list A) i x : l !! i = Some x → getitem l i = Ok x.
Proof. unfold getitem. by intros ->. Qed.

Lemma getitem_None {A} (l : list A) i : l !! i = None → getitem l i = Raise IndexError.
Proof. unfold getitem. by intros ->. Qed.

(** A list subscripted at positions of which one is out of range. *)
Lemma mapM_getitem_Raise {A} (l : list A) (X : list nat) :
  ¬ below (length l) X → mapM (getitem l) X = Raise IndexError.
Proof.
  induction X as [|x X IH]; intros HX.
  - exfalso. apply HX. constructor.
  - rewrite mapM_cons. destruct (l !! x) as [y|] eqn:Hx;
      [rewrite (getitem_Some _ _ _ Hx)|by rewrite (getitem_None _ _ Hx)].
    cbn [mbind result_bind]. rewrite IH; [done|]. intros HX'. apply HX. constructor; [|done].
    eapply lookup_lt_Some, Hx.
Qed.

Lemma extension_i_IndexError K B :
  context_ok K = true → ¬ below (n_attributes K) B → extension_i K B = Raise IndexError.
Proof.
  intros HK HB. destruct (context_ok_inv K HK) as (Hne & Hrows & _).
  unfold extension_i, enumerate.
  destruct (data K) as [|row0 rows] eqn:HD; [done|].
  cbn [length seq zip zip_with]. rewrite mapM_cons.
  rewrite mapM_getitem_Raise; [done|].
  unfold n_attributes in HB. by rewrite HD in HB.
Qed.

Lemma intention_i_IndexError K A :
  context_ok K = true → ¬ below (n_objects K) A → 0 < n_attributes K →
  intention_i K A = Raise IndexError.
Proof.
  intros HK HA Hpos. destruct (context_ok_inv K HK) as (Hne & Hrows & _).
  unfold intention_i.
  destruct (data K) as [|row0 rows] eqn:HD; [done|].
  cbn [getitem lookup list_lookup mbind result_bind].
  unfold n_attributes in Hpos, Hrows. rewrite HD in Hpos, Hrows.
  destruct (length row0) as [|k] eqn:Hlen; [lia|].
  cbn [seq]. rewrite mapM_cons.
  assert (mapM (λ g_idx, g_ms ← getitem (row0 :: rows) g_idx; getitem g_ms 0) A
          = Raise IndexError) as ->; [|done].
  unfold n_objects in HA. rewrite HD in HA. clear -HA Hrows.
  induction A as [|g A IH].
  - exfalso. apply HA. constructor.
  - rewrite mapM_cons.
    destruct ((row0 :: rows) !! g) as [g_ms|] eqn:Hg;
      [rewrite (getitem_Some _ _ _ Hg)|by rewrite (getitem_None _ _ Hg)].
    cbn [mbind result_bind].
    assert (length g_ms = S k) as Hg_ms.
    { rewrite Forall_forall in Hrows. apply Hrows. by eapply list_elem_of_lookup_2. }
    destruct g_ms as [|b g_ms]; [done|]. rewrite (getitem_Some _ 0 b) by done.
    cbn [mbind result_bind]. rewrite IH; [done|]. intros HA'. apply HA. constructor; [|done].
    eapply lookup_lt_Some, Hg.
Qed.

Lemma intention_i_no_attributes K A :
  context_ok K = true → n_attributes K = 0 → intention_i K A = Ok [].
Proof.
  intros HK H0. destruct (context_ok_inv K HK) as (Hne & _).
  unfold intention_i. destruct (data K) as [|row0 rows] eqn:HD; [done|].
  unfold n_attributes in H0. rewrite HD in H0. cbn. by rewrite H0.
Qed.

(** ** The closure queries on indexes of either sign *)

Lemma getitem_int_nat {A} (l : list A) (i : nat) : getitem_int l (Z.of_nat i) = getitem l i.
Proof.
  unfold getitem_int. cbv zeta.
  assert ((Z.of_nat i <? 0)%Z = false) as Hi by (apply Z.ltb_ge; lia).
  rewrite !Hi. cbn [orb].
  destruct (Z.of_nat (length l) <=? Z.of_nat i)%Z eqn:E.
  - apply Z.leb_le in E. rewrite getitem_None; [done|]. apply lookup_ge_None. lia.
  - by rewrite Nat2Z.id.
Qed.

Lemma getitem_int_in_range {A} (l : list A) (i : Z) :
  (- Z.of_nat (length l) ≤ i < Z.of_nat (length l))%Z →
  getitem_int l i = getitem l (py_index (length l) i) ∧ py_index (length l) i < length l.
Proof.
  intros Hi. unfold getitem_int, py_index. cbv zeta.
  destruct (i <? 0)%Z eqn:E; [apply Z.ltb_lt in E|apply Z.ltb_ge in E].
  - assert ((i + Z.of_nat (length l) <? 0)%Z = false) as -> by (apply Z.ltb_ge; lia).
    assert ((Z.of_nat (length l) <=? i + Z.of_nat (length l))%Z = false) as ->
      by (apply Z.leb_gt; lia).
    split; [done|lia].
  - assert ((i <? 0)%Z = false) as -> by (apply Z.ltb_ge; lia).
    assert ((Z.of_nat (length l) <=? i)%Z = false) as -> by (apply Z.leb_gt; lia).
    split; [done|lia].
Qed.

Lemma getitem_int_out_of_range {A} (l : list A) (i : Z) :
  ¬ (- Z.of_nat (length l) ≤ i < Z.of_nat (length l))%Z → getitem_int l i = Raise IndexError.
Proof.
  intros Hi. unfold getitem_int. cbv zeta.
  destruct (i <? 0)%Z eqn:E; [apply Z.ltb_lt in E|apply Z.ltb_ge in E].
  - by assert ((i + Z.of_nat (length l) <? 0)%Z = true) as -> by (apply Z.ltb_lt; lia).
  - assert ((i <? 0)%Z = false) as -> by (apply Z.ltb_ge; lia).
    by assert ((Z.of_nat (length l) <=? i)%Z = true) as -> by (apply Z.leb_le; lia).
Qed.

Lemma mapM_fmap {A B C} (f : B → result C) (g : A → B) (l : list A) :
  mapM f (g <$> l) = mapM (λ x, f (g x)) l.
Proof. induction l as [|x l IH]; [done|]. cbn [fmap list_fmap]. by rewrite !mapM_cons, IH. Qed.

(** Indexes within [-n, n) are looked up at the positions they stand for;
    the first index outside makes the whole lookup raise. *)
Lemma mapM_getitem_int_in_range {A B} (l : list A) (k : A → result B) (X : list Z) :
  Forall (λ i, - Z.of_nat (length l) ≤ i < Z.of_nat (length l))%Z X →
  mapM (λ i, x ← getitem_int l i; k x) X
  = mapM (λ i, x ← getitem l i; k x) (py_index (length l) <$> X).
Proof.
  intros HX. rewrite mapM_fmap. apply mapM_ext_Forall.
  eapply Forall_impl; [exact HX|]. cbn. intros i Hi.
  by destruct (getitem_int_in_range l i Hi) as [-> _].
Qed.

Lemma mapM_getitem_int_out_of_range {A B} (l : list A) (k : A → result B) (X : list Z) :
  ¬ Forall (λ i, - Z.of_nat (length l) ≤ i < Z.of_nat (length l))%Z X →
  (∀ x, x ∈ l → ∃ y, k x = Ok y) →
  mapM (λ i, x ← getitem_int l i; k x) X = Raise IndexError.
Proof.
  intros HX Hk. induction X as [|i X IH].
  - exfalso. apply HX. constructor.
  - rewrite mapM_cons.
    destruct (decide (- Z.of_nat (length l) ≤ i < Z.of_nat (length l))%Z) as [Hi|Hi].
    + destruct (getitem_int_in_range l i Hi) as [-> Hlt].
      destruct (getitem_Ok l _ Hlt) as (x & Hx & ->). cbn [mbind result_bind].
      destruct (Hk x) as [y ->]; [by eapply list_elem_of_lookup_2|].
      cbn [mbind result_bind]. rewrite IH; [done|].
      intros HX'. apply HX. by constructor.
    + by rewrite (getitem_int_out_of_range l i Hi).
Qed.

Lemma result_bind_ret {A} (r : result A) : (x ← r; mret x) = r.
Proof. by destruct r. Qed.

Lemma extension_i_int_in_range K (B : list Z) :
  context_ok K = true →
  Forall (λ i, - Z.of_nat (n_attributes K) ≤ i < Z.of_nat (n_attributes K))%Z B →
  extension_i_int K B = extension_i K (py_index (n_attributes K) <$> B).
Proof.
  intros HK HB. destruct (context_ok_inv K HK) as (_ & Hrows & _).
  unfold extension_i_int, extension_i. f_equal. apply mapM_ext_Forall.
  apply Forall_forall. intros [g g_ms] Hin. cbn.
  assert (length g_ms = n_attributes K) as Hlen.
  { apply (proj1 (Forall_forall _ _) Hrows). by apply elem_of_zip_r in Hin. }
  f_equal. rewrite <-Hlen in HB |- *.
  pose proof (mapM_getitem_int_in_range g_ms (λ x, Ok x) B HB) as H.
  etrans; [etrans; [|exact H]|].
  - apply mapM_ext_Forall, Forall_forall. intros i _. symmetry. apply result_bind_ret.
  - apply mapM_ext_Forall, Forall_forall. intros i _. apply result_bind_ret.
Qed.

Lemma extension_i_int_IndexError K (B : list Z) :
  context_ok K = true →
  ¬ Forall (λ i, - Z.of_nat (n_attributes K) ≤ i < Z.of_nat (n_attributes K))%Z B →
  extension_i_int K B = Raise IndexError.
Proof.
  intros HK HB. destruct (context_ok_inv K HK) as (Hne & _).
  unfold extension_i_int, enumerate.
  destruct (data K) as [|row0 rows] eqn:HD; [done|].
  cbn [length seq zip zip_with]. rewrite mapM_cons.
  unfold n_attributes in HB. rewrite HD in HB.
  pose proof (mapM_getitem_int_out_of_range row0 (λ x, Ok x) B HB) as H.
  assert (mapM (getitem_int row0) B = Raise IndexError) as ->; [|done].
  rewrite <-H by eauto.
  apply mapM_ext_Forall, Forall_forall. intros i _. symmetry. apply result_bind_ret.
Qed.

Lemma intention_i_int_in_range K (A : list Z) :
  Forall (λ i, - Z.of_nat (n_objects K) ≤ i < Z.of_nat (n_objects K))%Z A →
  intention_i_int K A = intention_i K (py_index (n_objects K) <$> A).
Proof.
  intros HA. unfold intention_i_int, intention_i.
  destruct (getitem (data K) 0) as [row0|]; [|done]. cbn [mbind result_bind].
  f_equal. apply mapM_ext_Forall, Forall_forall. intros m _. f_equal.
  by apply (mapM_getitem_int_in_range (data K) (λ g_ms, getitem g_ms m) A).
Qed.

Lemma intention_i_int_IndexError K (A : list Z) :
  context_ok K = true →
  ¬ Forall (λ i, - Z.of_nat (n_objects K) ≤ i < Z.of_nat (n_objects K))%Z A →
  0 < n_attributes K →
  intention_i_int K A = Raise IndexError.
Proof.
  intros HK HA Hpos. destruct (context_ok_inv K HK) as (Hne & Hrows & _).
  unfold intention_i_int.
  destruct (data K) as [|row0 rows] eqn:HD; [done|].
  cbn [getitem lookup list_lookup mbind result_bind].
  unfold n_attributes in Hpos, Hrows. rewrite HD in Hpos, Hrows.
  destruct (length row0) as [|k] eqn:Hlen; [lia|].
  cbn [seq]. rewrite mapM_cons.
  unfold n_objects in HA. rewrite HD in HA.
  rewrite (mapM_getitem_int_out_of_range (row0 :: rows) (λ g_ms, getitem g_ms 0) A HA);
    [done|].
  intros g_ms Hg. destruct (getitem_Ok g_ms 0) as (x & _ & ->); [|eauto].
  rewrite (proj1 (Forall_forall _ _) Hrows g_ms Hg). lia.
Qed.

Lemma intention_i_int_no_attributes K (A : list Z) :
  context_ok K = true → n_attributes K = 0 → intention_i_int K A = Ok [].
Proof.
  intros HK H0. destruct (context_ok_inv K HK) as (Hne & _).
  unfold intention_i_int. destruct (data K) as [|row0 rows] eqn:HD; [done|].
  unfold n_attributes in H0. rewrite HD in H0. cbn. by rewrite H0.
Qed.

(** The closure queries take indexes as Python lists do: an index [i] with
    [-n <= i < 0] stands for [n + i].  [extension_i] raises [IndexError]
    exactly when an attribute index lies outside [-n_attributes,
    n_attributes), and answers otherwise as on the positions the indexes
    stand for.  [intention_i] does so for object indexes and [-n_objects,
    n_objects), unless the context has no attribute at all: it then returns
    the empty list whatever the indexes. *)
Theorem closure_queries_IndexError (K : FormalContext) (A B : list Z) :
  context_ok K = true →
  (Forall (λ i, - Z.of_nat (n_attributes K) ≤ i < Z.of_nat (n_attributes K))%Z B →
   ∃ E, extension_i_int K B = Ok E
        ∧ extension_i K (py_index (n_attributes K) <$> B) = Ok E)
  ∧ (¬ Forall (λ i, - Z.of_nat (n_attributes K) ≤ i < Z.of_nat (n_attributes K))%Z B →
     extension_i_int K B = Raise IndexError)
  ∧ (Forall (λ i, - Z.of_nat (n_objects K) ≤ i < Z.of_nat (n_objects K))%Z A →
     ∃ I, intention_i_int K A = Ok I
          ∧ intention_i K (py_index (n_objects K) <$> A) = Ok I)
  ∧ (¬ Forall (λ i, - Z.of_nat (n_objects K) ≤ i < Z.of_nat (n_objects K))%Z A →
     0 < n_attributes K → intention_i_int K A = Raise IndexError)
  ∧ (n_attributes K = 0 → intention_i_int K A = Ok [])
  ∧ (∀ B' : list nat, extension_i_int K (Z.of_nat <$> B') = extension_i K B')
  ∧ (∀ A' : list nat, intention_i_int K (Z.of_nat <$> A') = intention_i K A').
Proof.
  intros HK.
  assert (∀ n (X : list Z),
            Forall (λ i, - Z.of_nat n ≤ i < Z.of_nat n)%Z X → below n (py_index n <$> X))
    as Hbelow.
  { intros n X HX. apply Forall_fmap. eapply Forall_impl; [exact HX|]. cbn.
    intros i Hi. unfold py_index. destruct (i <? 0)%Z eqn:E; lia. }
  split_and!.
  - intros HB. rewrite extension_i_int_in_range by done.
    eexists. split; (apply extension_i_ok; [done|by apply Hbelow]).
  - by apply extension_i_int_IndexError.
  - intros HA. rewrite intention_i_int_in_range by done.
    eexists. split; (apply intention_i_ok; [done|by apply Hbelow]).
  - by apply intention_i_int_IndexError.
  - by apply intention_i_int_no_attributes.
  - intros B'. unfold extension_i_int, extension_i. f_equal.
    apply mapM_ext_Forall, Forall_forall. intros [g g_ms] _. cbn. f_equal.
    rewrite mapM_fmap. apply mapM_ext_Forall, Forall_forall. intros i _.
    apply getitem_int_nat.
  - intros A'. unfold intention_i_int, intention_i.
    destruct (getitem (data K) 0) as [row0|]; [|done]. cbn [mbind result_bind]. f_equal.
    apply mapM_ext_Forall, Forall_forall. intros m _. f_equal.
    rewrite mapM_fmap. apply mapM_ext_Forall, Forall_forall. intros i _.
    by rewrite getitem_int_nat.
Qed.

(** On the context of 7 animals and 4 attributes: the last attribute by
    [-1], and the two ways out of range. *)
Lemma closure_queries_IndexError_witness :
  (∃ E, extension_i_int animals [(-1)%Z] = Ok E ∧ extension_i animals [3] = Ok E)
  ∧ extension_i_int animals [4%Z] = Raise IndexError
  ∧ extension_i_int animals [(-5)%Z] = Raise IndexError
  ∧ intention_i_int animals [(-8)%Z] = Raise IndexError.
Proof.
  destruct (closure_queries_IndexError animals [(-8)%Z] [(-1)%Z] eq_refl)
    as (H1 & _ & _ & H4 & _).
  destruct (closure_queries_IndexError animals [] [4%Z] eq_refl) as (_ & H2 & _).
  destruct (closure_queries_IndexError animals [] [(-5)%Z] eq_refl) as (_ & H3 & _).
  split_and!.
  - apply H1. repeat constructor; cbn; lia.
  - apply H2. intros H. apply Forall_cons in H as [H _]. cbn in H. lia.
  - apply H3. intros H. apply Forall_cons in H as [H _]. cbn in H. lia.
  - apply H4; [|cbn; lia]. intros H. apply Forall_cons in H as [H _]. cbn in H. lia.
Defined.

(** On indexes in range, [extension_i] returns exactly the objects that have
    all the given attributes and [intention_i] exactly the attributes that
    all the given objects have, each in increasing order; on no index at
    all they return all objects and all attributes. *)
Theorem closure_queries_result (K : FormalContext) (A B : list nat) :
  context_ok K = true → below (n_objects K) A → below (n_attributes K) B →
  (∃ E, extension_i K B = Ok E ∧ StronglySorted lt E
        ∧ ∀ g, g ∈ E ↔ g < n_objects K ∧ ∀ m, m ∈ B → incidence K g m = true)
  ∧ (∃ I, intention_i K A = Ok I ∧ StronglySorted lt I
          ∧ ∀ m, m ∈ I ↔ m < n_attributes K ∧ ∀ g, g ∈ A → incidence K g m = true)
  ∧ extension_i K [] = Ok (seq 0 (n_objects K))
  ∧ intention_i K [] = Ok (seq 0 (n_attributes K)).
Proof.
  intros HK HA HB. split_and!.
  - exists (ext_of K B). split; [by apply extension_i_ok|].
    rewrite ext_of_polar. split; [apply polar_sorted|]. intros g. apply elem_of_polar.
  - exists (int_of K A). split; [by apply intention_i_ok|].
    rewrite int_of_polar. split; [apply polar_sorted|]. intros m. apply elem_of_polar.
  - rewrite extension_i_ok by (done || constructor). by rewrite ext_of_polar, polar_nil.
  - rewrite intention_i_ok by (done || constructor). by rewrite int_of_polar, polar_nil.
Qed.

Lemma closure_queries_result_witness :
  extension_i animals [] = Ok (seq 0 7) ∧ intention_i animals [] = Ok (seq 0 4).
Proof.
  destruct (closure_queries_result animals [4; 5] [0; 1]) as (_ & _ & HE & HI);
    [reflexivity|repeat constructor; cbn; lia..|].
  split; [exact HE|exact HI].
Defined.

(** The two queries form a Galois connection: the objects [A] all have the
    attributes [B] if and only if [A] lies within [extension_i(B)], if and
    only if [B] lies within [intention_i(A)]. *)
Theorem closure_queries_galois (K : FormalContext) (A B : list nat) :
  context_ok K = true → below (n_objects K) A → below (n_attributes K) B →
  ∃ E I, extension_i K B = Ok E ∧ intention_i K A = Ok I
         ∧ (A ⊆ E ↔ B ⊆ I)
         ∧ (A ⊆ E ↔ ∀ g m, g ∈ A → m ∈ B → incidence K g m = true).
Proof.
  intros HK HA HB. exists (ext_of K B), (int_of K A).
  split; [by apply extension_i_ok|]. split; [by apply intention_i_ok|].
  rewrite ext_of_polar, int_of_polar.
  unfold below in HA, HB. rewrite Forall_forall in HA, HB.
  assert (A ⊆ polar (n_objects K) (λ m g, incidence K g m) B
          ↔ ∀ g m, g ∈ A → m ∈ B → incidence K g m = true) as H1.
  { split.
    - intros H g m Hg Hm. apply H, elem_of_polar in Hg as [_ Hg]. by apply Hg.
    - intros H g Hg. apply elem_of_polar. split; [by apply HA|]. intros m Hm. by apply H. }
  split; [|done]. rewrite H1. split.
  - intros H m Hm. apply elem_of_polar. split; [by apply HB|]. intros g Hg. by apply H.
  - intros H g m Hg Hm. apply H, elem_of_polar in Hm as [_ Hm]. by apply Hm.
Qed.

Lemma closure_queries_galois_witness :
  ∃ E I, extension_i animals [0; 1] = Ok E ∧ intention_i animals [4; 5] = Ok I
         ∧ (([4; 5] : list nat) ⊆ E ↔ ([0; 1] : list nat) ⊆ I)
         ∧ (([4; 5] : list nat) ⊆ E
            ↔ ∀ g m, g ∈ [4; 5] → m ∈ [0; 1] → incidence animals g m = true).
Proof.
  apply (closure_queries_galois animals [4; 5] [0; 1]);
    [reflexivity|repeat constructor; cbn; lia..].
Defined.

(** Going back and forth once more changes nothing:
    [intention_i(extension_i(intention_i(A)))] is [intention_i(A)], as a
    list, and likewise with the two queries exchanged. *)
Theorem closure_queries_triple (K : FormalContext) (A B : list nat) :
  context_ok K = true → below (n_objects K) A → below (n_attributes K) B →
  (∃ I, intention_i K A = Ok I ∧ extension_i K I ≫= intention_i K = Ok I)
  ∧ (∃ E, extension_i K B = Ok E ∧ intention_i K E ≫= extension_i K = Ok E).
Proof.
  intros HK HA HB. split.
  - exists (int_of K A). split; [by apply intention_i_ok|].
    rewrite closure_of_attributes by (done || rewrite int_of_polar; apply polar_below).
    f_equal. rewrite !int_of_polar, ext_of_polar.
    by apply (up_down_up (n_objects K) (n_attributes K) (incidence K)).
  - exists (ext_of K B). split; [by apply extension_i_ok|].
    rewrite closure_of_objects by (done || rewrite ext_of_polar; apply polar_below).
    f_equal. rewrite !ext_of_polar, int_of_polar.
    by apply (down_up_down (n_objects K) (n_attributes K) (incidence K)).
Qed.

Lemma closure_queries_triple_witness :
  ∃ I, intention_i animals [4; 5; 6] = Ok I
       ∧ extension_i animals I ≫= intention_i animals = Ok I.
Proof.
  apply (closure_queries_triple animals [4; 5; 6] []);
    [reflexivity|repeat constructor; cbn; lia..].
Defined.

(** ** Queries by name *)

Lemma dict_get_set {K V} `{EqDecision K} (d : dict K V) k v k' :
  dict_get (dict_set d k v) k' = if decide (k = k') then Some v else dict_get d k'.
Proof.
  induction d as [|[k0 v0] d IH]; cbn.
  - by destruct (decide (k = k')).
  - destruct (decide (k0 = k)) as [->|Hne]; cbn.
    + by destruct (decide (k = k')).
    + destruct (decide (k0 = k')) as [->|Hne'].
      * by rewrite decide_False by done.
      * apply IH.
Qed.

Lemma dict_getitem_Some {K V} `{EqDecision K} (d : dict K V) k v :
  dict_get d k = Some v → dict_getitem d k = Ok v.
Proof. unfold dict_getitem. by intros ->. Qed.

Lemma dict_getitem_None {K V} `{EqDecision K} (d : dict K V) k :
  dict_get d k = None → dict_getitem d k = Raise KeyError.
Proof. unfold dict_getitem. by intros ->. Qed.

Lemma enumerate_snoc {A} (l : list A) (x : A) :
  enumerate (l ++ [x]) = enumerate l ++ [(length l, x)].
Proof.
  unfold enumerate. rewrite length_app. cbn [length].
  rewrite seq_app. cbn [seq]. rewrite zip_with_app by (by rewrite length_seq). done.
Qed.

(** What [index_dict] holds for a name: the last position of the name. *)
Lemma index_dict_get (names : list string) (g : string) :
  match dict_get (index_dict names) g with
  | Some i => names !! i = Some g ∧ ∀ j, names !! j = Some g → j ≤ i
  | None => g ∉ names
  end.
Proof.
  unfold index_dict. induction names as [|x names IH] using rev_ind.
  - cbn. apply not_elem_of_nil.
  - rewrite enumerate_snoc, foldl_app. cbn [foldl fst snd]. rewrite dict_get_set.
    destruct (decide (x = g)) as [->|Hne].
    + split; [by apply list_lookup_middle|]. intros j Hj.
      apply lookup_lt_Some in Hj. rewrite length_app in Hj. cbn in Hj. lia.
    + destruct (dict_get _ g) as [i|].
      * destruct IH as [Hi Hlast]. split; [by apply lookup_app_l_Some|].
        intros j Hj. apply lookup_app_Some in Hj as [Hj|[_ Hj]]; [by apply Hlast|].
        destruct (j - length names) as [|?]; cbn in Hj; [congruence|done].
      * rewrite elem_of_app, list_elem_of_singleton. intros [?|?]; [done|congruence].
Qed.

Lemma index_dict_NoDup (names : list string) (i : nat) (g : string) :
  NoDup names → names !! i = Some g → dict_get (index_dict names) g = Some i.
Proof.
  intros Hnd Hi. pose proof (index_dict_get names g) as H.
  destruct (dict_get (index_dict names) g) as [j|].
  - destruct H as [Hj _]. f_equal. by eapply NoDup_lookup.
  - exfalso. apply H. by eapply list_elem_of_lookup_2.
Qed.

Lemma names_to_indices_KeyError (names gs : list string) :
  (∃ g, g ∈ gs ∧ g ∉ names) → names_to_indices (index_dict names) gs = Raise KeyError.
Proof.
  unfold names_to_indices. induction gs as [|g gs IH]; intros (g' & Hin & Hout).
  - by apply elem_of_nil in Hin.
  - rewrite mapM_cons.
    pose proof (index_dict_get names g) as Hg.
    destruct (dict_get (index_dict names) g) as [i|] eqn:Hget;
      [rewrite (dict_getitem_Some _ _ _ Hget)|by rewrite (dict_getitem_None _ _ Hget)].
    cbn [mbind result_bind]. rewrite IH; [done|]. exists g'. split; [|done].
    apply elem_of_cons in Hin as [->|?]; [|done].
    destruct Hg as [Hg _]. exfalso. apply Hout. by eapply list_elem_of_lookup_2.
Qed.

Lemma names_to_indices_Ok (names gs : list string) :
  (∀ g, g ∈ gs → g ∈ names) →
  ∃ idxs, names_to_indices (index_dict names) gs = Ok idxs
          ∧ Forall2 (λ g i, names !! i = Some g) gs idxs.
Proof.
  unfold names_to_indices. induction gs as [|g gs IH]; intros Hgs.
  - by exists [].
  - destruct IH as (idxs & Hidxs & HF); [intros g' ?; apply Hgs; by right|].
    rewrite mapM_cons, Hidxs.
    pose proof (index_dict_get names g) as Hg.
    destruct (dict_get (index_dict names) g) as [i|] eqn:Hget.
    + rewrite (dict_getitem_Some _ _ _ Hget).
      exists (i :: idxs). split; [done|]. constructor; [apply Hg|done].
    + exfalso. apply Hg, Hgs. by left.
Qed.

Lemma names_to_indices_names_at (names : list string) (X : list nat) :
  NoDup names → below (length names) X →
  names_to_indices (index_dict names) (names_at names X) = Ok X.
Proof.
  intros Hnd. unfold names_to_indices, names_at. induction 1 as [|i X Hi _ IH]; [done|].
  rewrite fmap_cons, mapM_cons, IH.
  apply lookup_lt_is_Some_2 in Hi as [g Hg]. rewrite Hg.
  change (default ""%string (Some g)) with g.
  by rewrite (dict_getitem_Some _ _ _ (index_dict_NoDup names i g Hnd Hg)).
Qed.

Lemma Forall2_lookup_below {A} (names : list A) (gs : list A) (idxs : list nat) :
  Forall2 (λ g i, names !! i = Some g) gs idxs → below (length names) idxs.
Proof.
  induction 1 as [|g i gs idxs Hi _ IH]; constructor; [|done].
  by eapply lookup_lt_Some.
Qed.

Lemma mapM_getitem_names_at (names : list string) (X : list nat) :
  below (length names) X → mapM (getitem names) X = Ok (names_at names X).
Proof. apply mapM_getitem_below. Qed.

Section queries_by_name.
Variable K : FormalContext.
Hypothesis HK : context_ok K = true.

Lemma intention_Ok (objects : list string) (idxs : list nat) :
  names_to_indices (index_dict (object_names K)) objects = Ok idxs →
  below (n_objects K) idxs →
  intention K objects = Ok (names_at (attribute_names K) (int_of K idxs)).
Proof.
  intros Hidxs Hb. unfold intention. cbn zeta. rewrite Hidxs. cbn [mbind result_bind].
  rewrite intention_i_ok by done. cbn [mbind result_bind].
  apply mapM_getitem_names_at. destruct (context_ok_inv K HK) as (_ & _ & _ & ->).
  rewrite int_of_polar. apply polar_below.
Qed.

Lemma extension_Ok (attributes : list string) (idxs : list nat) :
  names_to_indices (index_dict (attribute_names K)) attributes = Ok idxs →
  below (n_attributes K) idxs →
  extension K attributes = Ok (names_at (object_names K) (ext_of K idxs)).
Proof.
  intros Hidxs Hb. unfold extension. cbn zeta. rewrite Hidxs. cbn [mbind result_bind].
  rewrite extension_i_ok by done. cbn [mbind result_bind].
  apply mapM_getitem_names_at. destruct (context_ok_inv K HK) as (_ & _ & -> & _).
  rewrite ext_of_polar. apply polar_below.
Qed.

Lemma intention_names_at (A : list nat) :
  NoDup (object_names K) → below (n_objects K) A →
  intention K (names_at (object_names K) A)
  = Ok (names_at (attribute_names K) (int_of K A)).
Proof.
  intros Hnd HA. apply intention_Ok; [|done]. apply names_to_indices_names_at; [done|].
  by destruct (context_ok_inv K HK) as (_ & _ & -> & _).
Qed.

Lemma extension_names_at (B : list nat) :
  NoDup (attribute_names K) → below (n_attributes K) B →
  extension K (names_at (attribute_names K) B)
  = Ok (names_at (object_names K) (ext_of K B)).
Proof.
  intros Hnd HB. apply extension_Ok; [|done]. apply names_to_indices_names_at; [done|].
  by destruct (context_ok_inv K HK) as (_ & _ & _ & ->).
Qed.

End queries_by_name.

(** [intention] and [extension] raise [KeyError] as soon as one of the given
    names is not a name of the context, and return otherwise. *)
Theorem queries_by_name_KeyError (K : FormalContext) (objects attributes : list string) :
  context_ok K = true →
  ((∃ g, g ∈ objects ∧ g ∉ object_names K) → intention K objects = Raise KeyError)
  ∧ ((∀ g, g ∈ objects → g ∈ object_names K) → ∃ I, intention K objects = Ok I)
  ∧ ((∃ m, m ∈ attributes ∧ m ∉ attribute_names K) → extension K attributes = Raise KeyError)
  ∧ ((∀ m, m ∈ attributes → m ∈ attribute_names K) → ∃ E, extension K attributes = Ok E).
Proof.
  intros HK. destruct (context_ok_inv K HK) as (_ & _ & Hon & Han). split_and!.
  - intros H. unfold intention. cbn zeta. by rewrite names_to_indices_KeyError.
  - intros H. destruct (names_to_indices_Ok _ _ H) as (idxs & Hidxs & HF).
    eexists. apply (intention_Ok K HK objects idxs Hidxs).
    rewrite <-Hon. by eapply Forall2_lookup_below.
  - intros H. unfold extension. cbn zeta. by rewrite names_to_indices_KeyError.
  - intros H. destruct (names_to_indices_Ok _ _ H) as (idxs & Hidxs & HF).
    eexists. apply (extension_Ok K HK attributes idxs Hidxs).
    rewrite <-Han. by eapply Forall2_lookup_below.
Qed.

Lemma queries_by_name_KeyError_witness :
  intention animals ["d1"%string] = Raise KeyError
  ∧ extension animals ["z93"%string] = Raise KeyError.
Proof.
  destruct (queries_by_name_KeyError animals ["d1"%string] ["z93"%string] eq_refl)
    as (HI & _ & HE & _).
  split.
  - apply HI. exists "d1"%string. split; [by left|]. cbn.
    rewrite !elem_of_cons, elem_of_nil. intros H. repeat destruct H as [H|H]; done.
  - apply HE. exists "z93"%string. split; [by left|]. cbn.
    rewrite !elem_of_cons, elem_of_nil. intros H. repeat destruct H as [H|H]; done.
Defined.

(** When the names of the context are pairwise distinct, the queries by
    name are the queries by index read through the names: the attributes
    shared by the objects named after the positions [A] are those named
    after [intention_i(A)], and dually. *)
Theorem queries_by_name_agree (K : FormalContext) (A B : list nat) :
  context_ok K = true →
  NoDup (object_names K) → NoDup (attribute_names K) →
  below (n_objects K) A → below (n_attributes K) B →
  (∃ I, intention_i K A = Ok I
        ∧ intention K (names_at (object_names K) A) = Ok (names_at (attribute_names K) I))
  ∧ (∃ E, extension_i K B = Ok E
          ∧ extension K (names_at (attribute_names K) B) = Ok (names_at (object_names K) E)).
Proof.
  intros HK Hon Han HA HB. split.
  - exists (int_of K A). split; [by apply intention_i_ok|]. by apply intention_names_at.
  - exists (ext_of K B). split; [by apply extension_i_ok|]. by apply extension_names_at.
Qed.

Lemma queries_by_name_agree_witness :
  ∃ E, extension_i animals [0; 1] = Ok E
       ∧ extension animals (names_at (attribute_names animals) [0; 1])
         = Ok (names_at (object_names animals) E).
Proof.
  apply (queries_by_name_agree animals [] [0; 1]); [reflexivity|..].
  - apply (bool_decide_unpack _). vm_compute. exact I.
  - apply (bool_decide_unpack _). vm_compute. exact I.
  - constructor.
  - repeat constructor; cbn; lia.
Defined.

(** With pairwise distinct names, the intent of known objects is kept by
    [intention(extension(.))], as a list of names; dually for the extent of
    known attributes. *)
Theorem queries_by_name_triple (K : FormalContext) (objects attributes : list string) :
  context_ok K = true →
  NoDup (object_names K) → NoDup (attribute_names K) →
  (∀ g, g ∈ objects → g ∈ object_names K) →
  (∀ m, m ∈ attributes → m ∈ attribute_names K) →
  (∃ I, intention K objects = Ok I ∧ extension K I ≫= intention K = Ok I)
  ∧ (∃ E, extension K attributes = Ok E ∧ intention K E ≫= extension K = Ok E).
Proof.
  intros HK Hon Han Hobj Hattr.
  destruct (context_ok_inv K HK) as (_ & _ & Hlo & Hla). split.
  - destruct (names_to_indices_Ok _ _ Hobj) as (idxs & Hidxs & HF).
    assert (below (n_objects K) idxs) as Hb.
    { rewrite <-Hlo. by eapply Forall2_lookup_below. }
    eexists. split; [by apply (intention_Ok K HK objects idxs)|].
    rewrite extension_names_at by (done || rewrite int_of_polar; apply polar_below).
    cbn [mbind result_bind].
    rewrite intention_names_at by (done || rewrite ext_of_polar; apply polar_below).
    do 2 f_equal. rewrite !int_of_polar, ext_of_polar.
    by apply (up_down_up (n_objects K) (n_attributes K) (incidence K)).
  - destruct (names_to_indices_Ok _ _ Hattr) as (idxs & Hidxs & HF).
    assert (below (n_attributes K) idxs) as Hb.
    { rewrite <-Hla. by eapply Forall2_lookup_below. }
    eexists. split; [by apply (extension_Ok K HK attributes idxs)|].
    rewrite intention_names_at by (done || rewrite ext_of_polar; apply polar_below).
    cbn [mbind result_bind].
    rewrite extension_names_at by (done || rewrite int_of_polar; apply polar_below).
    do 2 f_equal. rewrite !ext_of_polar, int_of_polar.
    by apply (down_up_down (n_objects K) (n_attributes K) (incidence K)).
Qed.

Lemma queries_by_name_triple_witness :
  ∃ I, intention animals ["owl"; "hawk"; "eagle"]%string = Ok I
       ∧ extension animals I ≫= intention animals = Ok I.
Proof.
  apply (queries_by_name_triple animals ["owl"; "hawk"; "eagle"]%string []); [reflexivity|..].
  - apply (bool_decide_unpack _). vm_compute. exact I.
  - apply (bool_decide_unpack _). vm_compute. exact I.
  - intros g Hg. cbn. rewrite !elem_of_cons, elem_of_nil in Hg.
    destruct Hg as [->|[->|[->|[]]]]; rewrite !elem_of_cons; tauto.
  - intros m Hm. by apply elem_of_nil in Hm.
Defined.

(** ** More on what close_by_one returns *)

Section close_by_one_more.
Variable set_order : gset nat → list nat.
Variable hash_fixed : FormalContext → Z.
Variable K : FormalContext.
Hypothesis HK : context_ok K = true.

(** With no seed and all indexes to check, whatever [iterate_extents]. *)
Lemma close_by_one_any_direction (iterate_extents : option bool) (o : bool) :
  ∃ extents intents,
    close_by_one set_order hash_fixed (FormalCtx K) o iterate_extents None None
    = Some (Ok (cbo_result hash_fixed K o extents intents))
    ∧ Forall2 (λ A B, int_of K A = B ∧ ext_of K B = A) extents intents
    ∧ NoDup extents
    ∧ ∀ A, A ∈ extents ↔ ext_of K (int_of K A) = A.
Proof.
  assert (∃ b, close_by_one set_order hash_fixed (FormalCtx K) o iterate_extents None None
               = close_by_one set_order hash_fixed (FormalCtx K) o (Some b) None None)
    as [b ->].
  { destruct iterate_extents as [b|]; [by exists b|]. exists true.
    apply close_by_one_default_is_extents. }
  apply (close_by_one_formal set_order hash_fixed K HK).
Qed.

Lemma galois_pairs_bound (extents intents : list (list nat)) :
  Forall2 (λ A B, int_of K A = B ∧ ext_of K B = A) extents intents →
  NoDup extents →
  length extents ≤ 2 ^ (n_objects K `min` n_attributes K).
Proof.
  intros Hp Hnd.
  assert (length extents ≤ 2 ^ n_objects K) as H1.
  { pose proof (NoDup_sublists_length extents (seq 0 (n_objects K)) Hnd) as H.
    rewrite length_seq in H. apply H. intros A HA.
    apply list_elem_of_lookup in HA as [i Hi].
    destruct (Forall2_lookup_l _ _ _ _ _ Hp Hi) as (B & _ & _ & <-).
    rewrite ext_of_polar. apply polar_sublist. }
  assert (length extents ≤ 2 ^ n_attributes K) as H2.
  { rewrite (Forall2_length _ _ _ Hp).
    pose proof (NoDup_sublists_length intents (seq 0 (n_attributes K))) as H.
    rewrite length_seq in H. apply H.
    - destruct (galois_pairs_NoDup K extents intents Hp Hnd) as [_ H'].
      by apply NoDup_fmap_1 in H'.
    - intros B HB. apply list_elem_of_lookup in HB as [i Hi].
      destruct (Forall2_lookup_r _ _ _ _ _ Hp Hi) as (A & _ & <- & _).
      rewrite int_of_polar. apply polar_sublist. }
  destruct (Nat.min_spec (n_objects K) (n_attributes K)) as [[_ ->]|[_ ->]]; done.
Qed.

Lemma all_objects_closed : ext_of K (int_of K (seq 0 (n_objects K))) = seq 0 (n_objects K).
Proof.
  rewrite <-(polar_nil (n_objects K) (λ m g, incidence K g m)).
  rewrite !ext_of_polar, int_of_polar.
  apply (down_up_down (n_objects K) (n_attributes K) (incidence K)). constructor.
Qed.

Lemma all_attributes_closed :
  int_of K (ext_of K (seq 0 (n_attributes K))) = seq 0 (n_attributes K).
Proof.
  rewrite <-(polar_nil (n_attributes K) (incidence K)).
  rewrite !int_of_polar, ext_of_polar.
  apply (up_down_up (n_objects K) (n_attributes K) (incidence K)). constructor.
Qed.

End close_by_one_more.

(** [close_by_one] on a context of [n] objects and [m] attributes returns at
    least one and at most [2 ^ min(n, m)] concepts. *)
Theorem close_by_one_count (set_order : gset nat → list nat) (hash_fixed : FormalContext → Z)
    (K : FormalContext) (iterate_extents : option bool) :
  context_ok K = true →
  ∃ concepts,
    close_by_one set_order hash_fixed (FormalCtx K) true iterate_extents None None
    = Some (Ok (Concepts concepts))
    ∧ 1 ≤ length concepts ≤ 2 ^ (n_objects K `min` n_attributes K).
Proof.
  intros HK.
  destruct (close_by_one_any_direction set_order hash_fixed K HK iterate_extents true)
    as (extents & intents & -> & Hp & Hnd & Hall).
  eexists. split; [done|]. cbn.
  rewrite length_zip_with.
  rewrite <-(Forall2_length _ _ _ Hp), Nat.min_id.
  split; [|by apply (galois_pairs_bound K extents intents)].
  assert (seq 0 (n_objects K) ∈ extents) as Hin by apply Hall, all_objects_closed.
  destruct extents; [by apply elem_of_nil in Hin|cbn; lia].
Qed.

Lemma close_by_one_count_witness :
  ∃ concepts,
    close_by_one elements (λ _, 0%Z) (FormalCtx animals) true None None None
    = Some (Ok (Concepts concepts))
    ∧ 1 ≤ length concepts ≤ 2 ^ (n_objects animals `min` n_attributes animals).
Proof. apply (close_by_one_count elements (λ _, 0%Z) animals None). reflexivity. Defined.

(** Among the concepts that [close_by_one] returns there is a top concept,
    whose extent is all objects, and a bottom concept, whose intent is all
    attributes; the extent of every concept lies between theirs. *)
Theorem close_by_one_top_bottom (set_order : gset nat → list nat)
    (hash_fixed : FormalContext → Z) (K : FormalContext) (iterate_extents : option bool) :
  context_ok K = true →
  ∃ concepts top bottom,
    close_by_one set_order hash_fixed (FormalCtx K) true iterate_extents None None
    = Some (Ok (Concepts concepts))
    ∧ top ∈ concepts ∧ bottom ∈ concepts
    ∧ extent_i top = list_to_set (seq 0 (n_objects K))
    ∧ intent_i bottom = list_to_set (seq 0 (n_attributes K))
    ∧ ∀ c, c ∈ concepts →
        extent_i bottom ⊆ extent_i c ∧ extent_i c ⊆ extent_i top
        ∧ intent_i top ⊆ intent_i c ∧ intent_i c ⊆ intent_i bottom.
Proof.
  intros HK.
  destruct (close_by_one_concepts set_order hash_fixed K HK iterate_extents)
    as (concepts & Hrun & Hc).
  set (cof := λ A, concept_of (object_names K) (attribute_names K) (hash_fixed K) A
                     (int_of K A)).
  exists concepts, (cof (seq 0 (n_objects K))), (cof (ext_of K (seq 0 (n_attributes K)))).
  split; [done|]. split_and!.
  - apply Hc. eexists. split; [|done]. by apply all_objects_closed.
  - apply Hc. eexists. split; [|done]. by rewrite all_attributes_closed.
  - done.
  - cbn. by rewrite all_attributes_closed.
  - intros c (A & HA & ->)%Hc. cbn. rewrite all_attributes_closed by done.
    rewrite <-HA at 1 2.
    assert (∀ X n R, list_to_set (polar n R X) ⊆@{gset nat} list_to_set (seq 0 n)) as Hsub.
    { intros X n R x. rewrite !elem_of_list_to_set, elem_of_polar, elem_of_seq. lia. }
    split_and!.
    + intros g. rewrite !elem_of_list_to_set, !ext_of_polar.
      apply polar_anti. rewrite int_of_polar. intros m Hm.
      apply elem_of_polar in Hm as [Hm _]. apply elem_of_seq. lia.
    + rewrite ext_of_polar. apply Hsub.
    + intros m. rewrite !elem_of_list_to_set, !int_of_polar.
      apply polar_anti. rewrite <-HA, ext_of_polar. intros g Hg.
      apply elem_of_polar in Hg as [Hg _]. apply elem_of_seq. lia.
    + rewrite int_of_polar. apply Hsub.
Qed.

Lemma close_by_one_top_bottom_witness :
  ∃ concepts top bottom,
    close_by_one elements (λ _, 0%Z) (FormalCtx animals) true None None None
    = Some (Ok (Concepts concepts))
    ∧ top ∈ concepts ∧ bottom ∈ concepts
    ∧ extent_i top = list_to_set (seq 0 (n_objects animals))
    ∧ intent_i bottom = list_to_set (seq 0 (n_attributes animals))
    ∧ ∀ c, c ∈ concepts →
        extent_i bottom ⊆ extent_i c ∧ extent_i c ⊆ extent_i top
        ∧ intent_i top ⊆ intent_i c ∧ intent_i c ⊆ intent_i bottom.
Proof. apply (close_by_one_top_bottom elements (λ _, 0%Z) animals None). reflexivity. Defined.

(** With [output_as_concepts=False], [close_by_one] returns two lists of
    equal length: the closed extents, each once, and at the same positions
    their intents; each list of indexes is what the closure query of the
    context returns for the other one. *)
Theorem close_by_one_data (set_order : gset nat → list nat) (hash_fixed : FormalContext → Z)
    (K : FormalContext) (iterate_extents : option bool) :
  context_ok K = true →
  ∃ extents_i intents_i,
    close_by_one set_order hash_fixed (FormalCtx K) false iterate_extents None None
    = Some (Ok (Data extents_i intents_i))
    ∧ Forall2 (λ A B, intention_i K A = Ok B ∧ extension_i K B = Ok A) extents_i intents_i
    ∧ NoDup extents_i ∧ NoDup intents_i
    ∧ ∀ S, below (n_objects K) S →
        ∃ E, intention_i K S ≫= extension_i K = Ok E ∧ E ∈ extents_i.
Proof.
  intros HK.
  destruct (close_by_one_any_direction set_order hash_fixed K HK iterate_extents false)
    as (extents & intents & -> & Hp & Hnd & Hall).
  exists extents, intents. split; [done|]. split_and!.
  - eapply Forall2_impl; [exact Hp|]. cbn. intros A B [HB HA]. split.
    + rewrite intention_i_ok; [by rewrite HB|done|].
      rewrite <-HA, ext_of_polar. apply polar_below.
    + rewrite extension_i_ok; [by rewrite HA|done|].
      rewrite <-HB, int_of_polar. apply polar_below.
  - done.
  - destruct (galois_pairs_NoDup K extents intents Hp Hnd) as [_ H].
    by apply NoDup_fmap_1 in H.
  - intros S HS. exists (ext_of K (int_of K S)). split; [by apply closure_of_objects|].
    apply Hall. rewrite !ext_of_polar, !int_of_polar.
    by apply (down_up_idemp (n_objects K) (n_attributes K) (incidence K)).
Qed.

Lemma close_by_one_data_witness :
  ∃ extents_i intents_i,
    close_by_one elements (λ _, 0%Z) (FormalCtx animals) false None None None
    = Some (Ok (Data extents_i intents_i))
    ∧ Forall2 (λ A B, intention_i animals A = Ok B ∧ extension_i animals B = Ok A)
        extents_i intents_i
    ∧ NoDup extents_i ∧ NoDup intents_i
    ∧ ∀ S, below (n_objects animals) S →
        ∃ E, intention_i animals S ≫= extension_i animals = Ok E ∧ E ∈ extents_i.
Proof. apply (close_by_one_data elements (λ _, 0%Z) animals None). reflexivity. Defined.

(** Seeds or indexes to check given without [iterate_extents] fail the
    assertions of [close_by_one], whatever the context. *)
Theorem close_by_one_needs_direction (set_order : gset nat → list nat)
    (hash_fixed : FormalContext → Z) (context : AnyContext) (output_as_concepts : bool)
    (initial_combinations : option (list pyseq)) (iter_elements_to_check : option (list nat)) :
  initial_combinations ≠ None ∨ iter_elements_to_check ≠ None →
  close_by_one set_order hash_fixed context output_as_concepts None
    initial_combinations iter_elements_to_check = Some (Raise AssertionError).
Proof.
  intros H. unfold close_by_one.
  assert (close_by_one_asserts context None initial_combinations iter_elements_to_check
          = Raise AssertionError) as ->; [|done].
  assert (∀ A, ¬ (None ≠ @None A)) as Hnn by (intros A Hne; by apply Hne).
  unfold close_by_one_asserts. rewrite (bool_decide_false (None = Some false)) by done.
  destruct initial_combinations as [seeds|].
  - rewrite (bool_decide_true (Some seeds ≠ None)) by done.
    by rewrite (bool_decide_false (None ≠ None)) by apply Hnn.
  - rewrite (bool_decide_false (None ≠ None)) by apply Hnn.
    destruct H as [H|H]; [done|]. rewrite (bool_decide_true (iter_elements_to_check ≠ None)) by done.
    by rewrite (bool_decide_false (None ≠ None)) by apply Hnn.
Qed.

Lemma close_by_one_needs_direction_witness :
  close_by_one elements (λ _, 0%Z) (FormalCtx animals) true None (Some [PyList []]) None
  = Some (Raise AssertionError).
Proof. apply close_by_one_needs_direction. by left. Defined.

(** The loop of [close_by_one] started on the empty combination alone, with
    no index to check: one pass, which records the closure of the empty
    set. *)
Lemma cbo_run_nothing_to_check {Side} (set_order : gset nat → list nat)
    (iterset_fnc : Side → result (list nat)) (sideset_fnc : list nat → result Side)
    (n_iters : nat) (S : Side) (Z : list nat) :
  sideset_fnc [] = Ok S → iterset_fnc S = Ok Z →
  cbo_run set_order iterset_fnc sideset_fnc [] n_iters None = Some (Ok ([Z], [S])).
Proof.
  intros HS HZ. unfold cbo_run, cbo_fuel. cbn [default length].
  rewrite Nat.mul_0_r. cbn [Nat.add cbo_while combinations_to_check itersets_i_dict sidesets_i].
  destruct (cbo_body_PyList set_order iterset_fnc sideset_fnc [] [] S Z
              {| combinations_to_check := []; itersets_i_dict := []; sidesets_i := [] |}
              HS HZ) as (st' & -> & [[[Hbad|Hin] _]|(_ & _ & ->)]).
  - destruct Hbad as (x & _ & Hx & _). done.
  - by apply elem_of_nil in Hin.
  - reflexivity.
Qed.

(** With an empty list of indexes to check, [close_by_one] returns a single
    pair: the bottom concept (the objects that have all attributes, and all
    attributes) when it iterates over objects, the top concept (all objects,
    and the attributes they share) when it iterates over attributes. *)
Theorem close_by_one_nothing_to_check (set_order : gset nat → list nat)
    (hash_fixed : FormalContext → Z) (K : FormalContext) :
  context_ok K = true →
  close_by_one set_order hash_fixed (FormalCtx K) false (Some true) None (Some [])
  = Some (Ok (Data [ext_of K (seq 0 (n_attributes K))] [seq 0 (n_attributes K)]))
  ∧ close_by_one set_order hash_fixed (FormalCtx K) false (Some false) None (Some [])
    = Some (Ok (Data [seq 0 (n_objects K)] [int_of K (seq 0 (n_objects K))])).
Proof.
  intros HK.
  assert (intention_i K [] = Ok (seq 0 (n_attributes K))) as Hint.
  { rewrite intention_i_ok by (done || constructor). by rewrite int_of_polar, polar_nil. }
  assert (extension_i K [] = Ok (seq 0 (n_objects K))) as Hext.
  { rewrite extension_i_ok by (done || constructor). by rewrite ext_of_polar, polar_nil. }
  split; unfold close_by_one; cbn -[cbo_run].
  - erewrite cbo_run_nothing_to_check; [done|exact Hint|].
    apply extension_i_ok; [done|]. apply Forall_forall. intros m Hm%elem_of_seq. lia.
  - erewrite cbo_run_nothing_to_check; [done|exact Hext|].
    apply intention_i_ok; [done|]. apply Forall_forall. intros g Hg%elem_of_seq. lia.
Qed.

Lemma close_by_one_nothing_to_check_witness :
  close_by_one elements (λ _, 0%Z) (FormalCtx animals) false (Some true) None (Some [])
  = Some (Ok (Data [[]] [[0; 1; 2; 3]]))
  ∧ close_by_one elements (λ _, 0%Z) (FormalCtx animals) false (Some false) None (Some [])
    = Some (Ok (Data [[0; 1; 2; 3; 4; 5; 6]] [[]])).
Proof. apply (close_by_one_nothing_to_check elements (λ _, 0%Z) animals). reflexivity. Defined.

(** ** direct_super_elements returns the upper neighbours *)

Section lindig_covers.
Variable set_order : gset nat → list nat.
Variable intention_i' extension_i' : list nat → result (list nat).
Variables (n1 n2 : nat) (R : nat → nat → bool).
Variables (obj_names attr_names : list string) (h : Z).
Hypothesis Horder : ∀ s, set_order s ≡ₚ elements s.
Hypothesis Hint : ∀ C, below n1 C → intention_i' C = Ok (polar n2 R C).
Hypothesis Hext : ∀ S, below n2 S → extension_i' S = Ok (polar n1 (λ y x, R x y) S).
Hypothesis Hon : length obj_names = n1.
Hypothesis Han : length attr_names = n2.

Abbreviation cof2 := (closed_concept n2 R obj_names attr_names h).
Abbreviation dse_loop2 :=
  (direct_super_elements_loop set_order intention_i' extension_i' obj_names attr_names h).
Abbreviation cl2 := (closure n1 n2 R).

(** The closed set generated by [A] and [g] lies below every closed set
    that holds both. *)
Lemma cl_snoc_least A g Y :
  closed n1 n2 R Y → A ⊆ Y → g ∈ Y → cl2 (A ++ [g]) ⊆ Y.
Proof.
  intros HY HAY HgY. apply cl_least; [done|].
  intros x [Hx| ->%list_elem_of_singleton]%elem_of_app; auto.
Qed.

Lemma cl_snoc_extensive A g : below n1 A → g < n1 → A ⊆ cl2 (A ++ [g]) ∧ g ∈ cl2 (A ++ [g]).
Proof.
  intros HA Hg. pose proof (cl_extensive n1 n2 R (A ++ [g]) (below_snoc n1 A g HA Hg)) as H.
  split.
  - intros x Hx. apply H, elem_of_app. by left.
  - apply H, elem_of_app. right. by left.
Qed.

(** One pass of the loop, for an index [g] of [reps]. *)
Lemma dse_loop_step A g gs reps Ns :
  closed n1 n2 R A → g < n1 → g ∉ A → g ∈ reps →
  dse_loop2 (g :: gs) (list_to_set A) reps (cof2 <$> Ns)
  = if size (reps ∩ list_to_set (cl2 (A ++ [g]))) =? 1
    then dse_loop2 gs (list_to_set A) reps (cof2 <$> (Ns ++ [cl2 (A ++ [g])]))
    else dse_loop2 gs (list_to_set A) (reps ∖ {[g]}) (cof2 <$> Ns).
Proof.
  intros HA Hg HgA Hg_reps.
  assert (below n1 (A ++ [g])) as HC by (apply below_snoc; [by eapply closed_below|done]).
  cbn [direct_super_elements_loop].
  assert (polar n2 R (set_order (list_to_set A ∪ {[g]})) = polar n2 R (A ++ [g])) as HM.
  { apply polar_set_ext. intros x.
    rewrite Horder, elem_of_elements, elem_of_union, elem_of_list_to_set,
      elem_of_singleton, elem_of_app, list_elem_of_singleton. done. }
  rewrite Hint.
  2:{ apply Forall_forall. intros x Hx. apply (proj1 (Forall_forall _ _) HC).
      revert Hx. rewrite Horder, elem_of_elements, elem_of_union, elem_of_list_to_set,
        elem_of_singleton, elem_of_app, list_elem_of_singleton. done. }
  cbn [mbind result_bind]. rewrite HM, Hext by apply polar_below.
  cbn [mbind result_bind]. fold (closure n1 n2 R (A ++ [g])).
  assert ((list_to_set A ∪ {[g]}) ∖ {[g]} = list_to_set (C:=gset nat) A) as ->.
  { apply set_eq. intros x. rewrite elem_of_difference, elem_of_union, elem_of_list_to_set,
      elem_of_singleton. split; [by intros [[?|?] ?]|]. intros Hx. split; [by left|].
    by intros ->. }
  destruct (size (reps ∩ list_to_set (cl2 (A ++ [g]))) =? 1) eqn:Hsize.
  - rewrite new_FormalConcept_ok.
    2:{ rewrite Hon. apply cl_below. }
    2:{ rewrite Han. apply polar_below. }
    cbn [mbind result_bind].
    assert (concept_of obj_names attr_names h (cl2 (A ++ [g])) (polar n2 R (A ++ [g]))
            = cof2 (cl2 (A ++ [g]))) as ->.
    { unfold closed_concept. f_equal. symmetry. by apply up_down_up. }
    by rewrite fmap_app.
  - by rewrite bool_decide_eq_true_2 by done.
Qed.

Lemma size_1_only (S : gset nat) (g k : nat) : size S = 1 → g ∈ S → k ∈ S → k = g.
Proof.
  intros Hsize Hg Hk. apply size_1_elem_of in Hsize as [x Hx].
  apply leibniz_equiv in Hx.
  rewrite Hx in Hg, Hk. apply elem_of_singleton in Hg, Hk. congruence.
Qed.

Lemma covers_loop A gs reps Ns :
  closed n1 n2 R A → NoDup gs → covers_inv n1 n2 R A gs reps Ns →
  ∃ reps' Ns', dse_loop2 gs (list_to_set A) reps (cof2 <$> Ns) = Ok (cof2 <$> Ns')
    ∧ covers_inv n1 n2 R A [] reps' Ns'.
Proof.
  intros HA. pose proof (closed_below n1 n2 R A HA) as HAb.
  revert reps Ns. induction gs as [|g gs IH]; intros reps Ns Hnd Hinv.
  { by exists reps, Ns. }
  apply NoDup_cons in Hnd as [Hg_gs Hnd].
  destruct Hinv as [Hreps Htodo Hrej Hacc Hdone HndNs].
  assert (g ∈ reps) as Hg_reps by (apply Htodo; by left).
  destruct (Hreps g Hg_reps) as [Hg HgA].
  rewrite dse_loop_step by done.
  set (N := cl2 (A ++ [g])).
  destruct (cl_snoc_extensive A g HAb Hg) as [HAN HgN]. fold N in HAN, HgN.
  assert (g ∈ reps ∩ list_to_set N) as Hg_in.
  { apply elem_of_intersection. split; [done|]. by apply elem_of_list_to_set. }
  destruct (size (reps ∩ list_to_set N) =? 1) eqn:Hsize.
  - apply Nat.eqb_eq in Hsize. apply IH; [done|].
    assert (∀ k, k ∈ reps → k ∈ N → k = g) as Honly.
    { intros k Hk HkN. apply (size_1_only (reps ∩ list_to_set N)); [done|done|].
      apply elem_of_intersection. split; [done|]. by apply elem_of_list_to_set. }
    constructor.
    + done.
    + intros x Hx. apply Htodo. by right.
    + done.
    + intros N' [HN'| ->%list_elem_of_singleton]%elem_of_app.
      * destruct (Hacc N' HN') as (g' & ? & Hg' & ? & ?). exists g'. split_and!; [done| |done..].
        intros ?. apply Hg'. by right.
      * exists g. by split_and!.
    + intros x Hx Hx_gs. destruct (decide (x = g)) as [->|Hne].
      * apply elem_of_app. right. by left.
      * apply elem_of_app. left. apply Hdone; [done|].
        intros [?|?]%elem_of_cons; done.
    + apply NoDup_app. split; [done|]. split; [|apply NoDup_singleton].
      intros N' HN' ->%list_elem_of_singleton.
      destruct (Hacc N HN') as (g' & Hg'_reps & Hg'_gs & HNg' & _).
      assert (g' = g) as ->.
      { apply Honly; [done|]. rewrite HNg'.
        apply cl_snoc_extensive; [done|]. by apply Hreps. }
      apply Hg'_gs. by left.
  - apply Nat.eqb_neq in Hsize.
    destruct (size_not_1_other (reps ∩ list_to_set N) g Hg_in Hsize) as (k & Hk & Hkg).
    apply elem_of_intersection in Hk as [Hk_reps Hk_N%elem_of_list_to_set].
    apply IH; [done|]. constructor.
    + intros x Hx. apply Hreps. set_solver.
    + intros x Hx. apply elem_of_difference. split; [apply Htodo; by right|].
      intros ->%elem_of_singleton. done.
    + intros x Hx HxA Hx_reps.
      destruct (decide (x = g)) as [->|Hne].
      * exists k. split; [|done]. apply elem_of_difference. split; [done|].
        by intros ?%elem_of_singleton.
      * destruct (Hrej x Hx HxA) as (k' & Hk' & Hk'x).
        { intros ?. apply Hx_reps. apply elem_of_difference. split; [done|].
          by intros ?%elem_of_singleton. }
        destruct (decide (k' = g)) as [->|Hne'].
        -- exists k. split.
           { apply elem_of_difference. split; [done|]. by intros ?%elem_of_singleton. }
           assert (N ⊆ cl2 (A ++ [x])) as Hsub; [|by apply Hsub].
           apply cl_snoc_least; [apply cl_closed; by apply below_snoc| |done].
           by apply cl_snoc_extensive.
        -- exists k'. split; [|done]. apply elem_of_difference. split; [done|].
           by intros ?%elem_of_singleton.
    + intros N' HN'. destruct (Hacc N' HN') as (g' & Hg'_reps & Hg'_gs & HNg' & Honly).
      exists g'. split_and!; [|by intros ?; apply Hg'_gs; right|done|].
      * apply elem_of_difference. split; [done|]. intros ->%elem_of_singleton.
        apply Hg'_gs. by left.
      * intros x [Hx _]%elem_of_difference. by apply Honly.
    + intros x [Hx Hxg]%elem_of_difference Hx_gs. apply Hdone; [done|].
      intros [->|?]%elem_of_cons; [|done]. apply Hxg. by apply elem_of_singleton.
    + done.
Qed.

(** What the invariant says when the loop is over. *)
Lemma covers_inv_final A reps Ns :
  closed n1 n2 R A → covers_inv n1 n2 R A [] reps Ns →
  NoDup Ns ∧ ∀ N, N ∈ Ns ↔ upper_neighbour n1 n2 R A N.
Proof.
  intros HA [Hreps _ Hrej Hacc Hdone HndNs].
  pose proof (closed_below n1 n2 R A HA) as HAb.
  split; [done|].
  assert (∀ Y y, closed n1 n2 R Y → A ⊆ Y → y ∈ Y → y ∉ A →
            ∃ k, k ∈ reps ∧ k ∈ Y) as Hrep.
  { intros Y y HY HAY HyY HyA.
    assert (y < n1) as Hy by (by apply (proj1 (Forall_forall _ _) (closed_below n1 n2 R Y HY))).
    destruct (decide (y ∈ reps)) as [?|Hy_reps]; [by exists y|].
    destruct (Hrej y Hy HyA Hy_reps) as (k & Hk & Hky). exists k. split; [done|].
    by apply (cl_snoc_least A y Y). }
  intros N. split.
  - intros HN. destruct (Hacc N HN) as (g & Hg_reps & _ & -> & Honly).
    destruct (Hreps g Hg_reps) as [Hg HgA].
    destruct (cl_snoc_extensive A g HAb Hg) as [HAN HgN].
    split_and!; [apply cl_closed; by apply below_snoc|done|by exists g|].
    intros Y HY HAY HYN (y & HyY & HyA).
    destruct (Hrep Y y HY HAY HyY HyA) as (k & Hk & HkY).
    assert (k = g) as -> by (apply Honly; [done|by apply HYN]).
    apply (closed_eq n1 n2 R); [done|apply cl_closed; by apply below_snoc|done|].
    by apply cl_snoc_least.
  - intros (HN & HAN & (y & HyN & HyA) & Hmin).
    destruct (Hrep N y HN HAN HyN HyA) as (k & Hk & HkN).
    destruct (Hreps k Hk) as [Hk_lt HkA].
    assert (cl2 (A ++ [k]) = N) as <-; [|apply Hdone; [done|apply not_elem_of_nil]].
    apply Hmin.
    + apply cl_closed. by apply below_snoc.
    + by apply cl_snoc_extensive.
    + by apply cl_snoc_least.
    + exists k. split; [by apply cl_snoc_extensive|done].
Qed.

(** [direct_super_elements] on the concept of a closed set [A] returns the
    concepts of the upper neighbours of [A], each once. *)
Lemma direct_super_elements_upper A :
  closed n1 n2 R A →
  ∃ Ns, direct_super_elements set_order n1 intention_i' extension_i'
          obj_names attr_names h (cof2 A) = Ok (cof2 <$> Ns)
    ∧ NoDup Ns ∧ ∀ N, N ∈ Ns ↔ upper_neighbour n1 n2 R A N.
Proof.
  intros HA. unfold direct_super_elements.
  change (extent_i (cof2 A)) with (list_to_set (C:=gset nat) A).
  set (reps := list_to_set (seq 0 n1) ∖ list_to_set A : gset nat).
  assert (∀ x, x ∈ reps ↔ x < n1 ∧ x ∉ A) as Hreps.
  { intros x. unfold reps. rewrite elem_of_difference, !elem_of_list_to_set, elem_of_seq.
    split; intros [? ?]; (split; [lia|done]). }
  destruct (covers_loop A (set_order reps) reps []) as (reps' & Ns & Hrun & Hinv); [done|..].
  - rewrite Horder. apply NoDup_elements.
  - constructor.
    + intros x. apply Hreps.
    + intros x. by rewrite Horder, elem_of_elements.
    + intros x Hx HxA Hx_reps. exfalso. apply Hx_reps. by apply Hreps.
    + intros N HN. by apply elem_of_nil in HN.
    + intros x Hx Hx_gs. exfalso. apply Hx_gs. by rewrite Horder, elem_of_elements.
    + constructor.
  - exists Ns. split; [exact Hrun|]. by apply (covers_inv_final A reps').
Qed.

End lindig_covers.

(** For every order in which Python iterates a set: [direct_super_elements],
    as [lindig_algorithm] defines it when it iterates over objects, returns
    for the concept of a closed extent [A] the concepts of the upper
    neighbours of [A], each once: the closed extents strictly above [A] with
    no closed extent strictly in between. *)
Theorem direct_super_elements_neighbours (set_order : gset nat → list nat)
    (hash : Z) (K : FormalContext) (A : list nat) :
  context_ok K = true →
  (∀ s, set_order s ≡ₚ elements s) →
  ext_of K (int_of K A) = A →
  ∃ Ns,
    direct_super_elements set_order (n_objects K) (intention_i K) (extension_i K)
      (object_names K) (attribute_names K) hash
      (concept_of (object_names K) (attribute_names K) hash A (int_of K A))
    = Ok ((λ N, concept_of (object_names K) (attribute_names K) hash N (int_of K N)) <$> Ns)
    ∧ NoDup Ns
    ∧ ∀ N, N ∈ Ns ↔
        ext_of K (int_of K N) = N ∧ A ⊆ N ∧ (∃ g, g ∈ N ∧ g ∉ A)
        ∧ ∀ Y, ext_of K (int_of K Y) = Y → A ⊆ Y → Y ⊆ N → (∃ y, y ∈ Y ∧ y ∉ A) → Y = N.
Proof.
  intros HK Horder HA.
  destruct (context_ok_inv K HK) as (_ & _ & Hon & Han).
  apply (direct_super_elements_upper set_order (intention_i K) (extension_i K)
           (n_objects K) (n_attributes K) (incidence K)
           (object_names K) (attribute_names K) hash); try done.
  - intros C HC. by apply intention_i_ok.
  - intros S HS. by apply extension_i_ok.
Qed.

Lemma direct_super_elements_neighbours_witness :
  ∃ Ns,
    direct_super_elements elements (n_objects animals) (intention_i animals)
      (extension_i animals) (object_names animals) (attribute_names animals) 0
      (concept_of (object_names animals) (attribute_names animals) 0 [4; 5; 6]
         (int_of animals [4; 5; 6]))
    = Ok ((λ N, concept_of (object_names animals) (attribute_names animals) 0 N
                  (int_of animals N)) <$> Ns)
    ∧ NoDup Ns
    ∧ ∀ N, N ∈ Ns ↔
        ext_of animals (int_of animals N) = N ∧ [4; 5; 6] ⊆ N ∧ (∃ g, g ∈ N ∧ g ∉ [4; 5; 6])
        ∧ ∀ Y, ext_of animals (int_of animals Y) = Y → [4; 5; 6] ⊆ Y → Y ⊆ N →
               (∃ y, y ∈ Y ∧ y ∉ [4; 5; 6]) → Y = N.
Proof.
  apply (direct_super_elements_neighbours elements 0 animals [4; 5; 6]).
  - reflexivity.
  - intros s. reflexivity.
  - reflexivity.
Defined.

(** ** The power set *)

Section powerset_facts.
Context {A : Type}.
Implicit Types (s t : list A).

Lemma combinations_0 s : combinations s 0 = [[]].
Proof. by destruct s. Qed.

Lemma combinations_length s r t : t ∈ combinations s r → length t = r.
Proof.
  revert r t. induction s as [|x s IH]; intros [|r] t; cbn.
  - by intros ->%list_elem_of_singleton.
  - by intros ?%elem_of_nil.
  - by intros ->%list_elem_of_singleton.
  - intros [(t' & -> & Ht')%list_elem_of_fmap|Ht]%elem_of_app.
    + cbn. f_equal. by apply IH.
    + by apply IH.
Qed.

Lemma combinations_too_long s r : length s < r → combinations s r = [].
Proof.
  revert r. induction s as [|x s IH]; intros [|r] Hr; cbn in *; [lia|done|lia|].
  rewrite !IH by lia. done.
Qed.

Lemma combinations_below_S s n :
  combinations_below s (S n) = combinations_below s n ++ combinations s n.
Proof.
  unfold combinations_below. rewrite seq_S, fmap_app, concat_app. cbn.
  by rewrite app_nil_r.
Qed.

Lemma combinations_below_cons x s n :
  combinations_below (x :: s) (S n)
  ≡ₚ ((x ::.) <$> combinations_below s n) ++ combinations_below s (S n).
Proof.
  induction n as [|n IH].
  - unfold combinations_below. cbn [seq fmap list_fmap concat combinations app].
    by rewrite combinations_0.
  - rewrite (combinations_below_S (x :: s)), IH.
    rewrite (combinations_below_S s (S n)), (combinations_below_S s n), fmap_app.
    cbn [combinations]. generalize (combinations_below s n), (combinations s n),
      (combinations s (S n)). intros l1 l2 l3.
    rewrite <-!(assoc_L (++)). f_equiv. rewrite !(assoc_L (++)). f_equiv.
    rewrite <-(assoc_L (++) (cons x <$> l2)). apply Permutation_app_comm.
Qed.

Lemma powerset_cons x s : powerset (x :: s) ≡ₚ ((x ::.) <$> powerset s) ++ powerset s.
Proof.
  unfold powerset. cbn zeta. fold (combinations_below (x :: s) (length (x :: s) + 1)).
  fold (combinations_below s (length s + 1)).
  cbn [length]. replace (S (length s) + 1) with (S (length s + 1)) by lia.
  rewrite combinations_below_cons. f_equiv.
  rewrite combinations_below_S, combinations_too_long by lia. by rewrite app_nil_r.
Qed.

Lemma powerset_sublists s : powerset s ≡ₚ sublists s.
Proof.
  induction s as [|x s IH]; [done|].
  rewrite powerset_cons. cbn [sublists]. by rewrite IH.
Qed.

Lemma sublists_sublist s t : t ∈ sublists s ↔ t `sublist_of` s.
Proof.
  split; [|apply elem_of_sublists].
  revert t. induction s as [|x s IH]; intros t; cbn.
  - intros ->%list_elem_of_singleton. constructor.
  - intros [(t' & -> & Ht')%list_elem_of_fmap|Ht]%elem_of_app.
    + constructor. by apply IH.
    + constructor. by apply IH.
Qed.

Lemma NoDup_sublists s : NoDup s → NoDup (sublists s).
Proof.
  induction 1 as [|x s Hx Hs IH]; cbn; [apply NoDup_singleton|].
  apply NoDup_app. split; [|split; [|done]].
  - apply (NoDup_fmap_2 _), IH.
  - intros t (t' & -> & _)%list_elem_of_fmap Ht%sublists_sublist.
    apply Hx. eapply elem_of_sublist; [|done]. by left.
Qed.

Lemma combinations_below_sorted s n :
  StronglySorted (λ t1 t2, length t1 ≤ length t2) (combinations_below s n)
  ∧ Forall (λ t, length t < n) (combinations_below s n).
Proof.
  induction n as [|n [IH1 IH2]]; [split; constructor|].
  rewrite combinations_below_S.
  assert (Forall (λ t, length t = n) (combinations s n)) as Hn.
  { apply Forall_forall. intros t. apply combinations_length. }
  split.
  - apply StronglySorted_app_2; [|done|].
    + intros t1 t2 Ht1 Ht2. rewrite Forall_forall in IH2, Hn.
      rewrite (Hn t2 Ht2). specialize (IH2 t1 Ht1). cbn in IH2. lia.
    + clear -Hn. induction Hn as [|t l Ht Hl IH]; constructor; [done|].
      eapply Forall_impl; [exact Hl|]. cbn. intros t' ->. lia.
  - apply Forall_app. split.
    + eapply Forall_impl; [exact IH2|]. cbn. lia.
    + eapply Forall_impl; [exact Hn|]. cbn. lia.
Qed.

End powerset_facts.

(** [powerset] lists the subsequences of its argument, the shorter ones
    first, [2 ^ n] of them for [n] elements; when the elements are pairwise
    different no subsequence is listed twice. *)
Theorem powerset_subsequences {A} (s : list A) :
  length (powerset s) = 2 ^ length s
  ∧ (∀ t, t ∈ powerset s ↔ t `sublist_of` s)
  ∧ StronglySorted (λ t1 t2, length t1 ≤ length t2) (powerset s)
  ∧ (NoDup s → NoDup (powerset s)).
Proof.
  split_and!.
  - by rewrite powerset_sublists, length_sublists.
  - intros t. by rewrite powerset_sublists, sublists_sublist.
  - apply (combinations_below_sorted s (length s + 1)).
  - intros Hs. rewrite powerset_sublists. by apply NoDup_sublists.
Qed.

(** The example of the docstring. *)
Lemma powerset_subsequences_witness :
  powerset [1; 2; 3] = [[]; [1]; [2]; [3]; [1; 2]; [1; 3]; [2; 3]; [1; 2; 3]]
  ∧ NoDup (powerset [1; 2; 3]).
Proof.
  split; [reflexivity|].
  destruct (powerset_subsequences [1; 2; 3]) as (_ & _ & _ & H). apply H.
  apply (bool_decide_unpack _). vm_compute. exact I.
Defined.

(** ** The constructor of FormalContext *)

Lemma default_names_NoDup n : NoDup (default_names n).
Proof. unfold default_names. apply (NoDup_fmap_2 _), NoDup_seq. Qed.

Lemma length_default_names n : length (default_names n) = n.
Proof. unfold default_names. by rewrite length_fmap, length_seq. Qed.

Lemma py_assert_Ok b : py_assert b = Ok tt ↔ b = true.
Proof. destruct b; cbn; split; congruence. Qed.

(** What a context that the constructor returned is made of. *)
Lemma new_FormalContext_inv (value : list (list bool))
    (obj_names attr_names : option (list string)) (descr : option string) (K : FormalContext) :
  new_FormalContext (Some value) obj_names attr_names descr = Ok (WithData K) →
  context_ok K = true ∧ data K = value ∧ description K = descr
  ∧ object_names K = default (default_names (n_objects K)) obj_names
  ∧ attribute_names K = default (default_names (n_attributes K)) attr_names.
Proof.
  unfold new_FormalContext.
  destruct value as [|row0 rows]; [done|].
  cbn [length Nat.ltb Nat.leb py_assert mbind result_bind getitem lookup list_lookup].
  destruct (forallb _ (row0 :: rows)) eqn:Hrows; [|done].
  cbn [py_assert mbind result_bind].
  destruct obj_names as [on|]; cbn [mbind result_bind default].
  + destruct (length on =? S (length rows)) eqn:Hon; [|done].
    cbn [py_assert mbind result_bind mret result_ret].
    destruct attr_names as [an|]; cbn [mbind result_bind default].
    * destruct (length an =? length row0) eqn:Han; [|done].
      cbn [py_assert mbind result_bind mret result_ret]. intros [= <-].
      unfold context_ok, data_setter_ok, n_attributes. cbn -[default_names].
      cbn in Hrows. rewrite Hrows, Hon, Han. done.
    * cbn [mret result_ret]. intros [= <-].
      unfold context_ok, data_setter_ok, n_attributes. cbn -[default_names].
      cbn in Hrows. rewrite Hrows, Hon, length_default_names, Nat.eqb_refl. done.
  + destruct attr_names as [an|]; cbn [mbind result_bind default].
    * destruct (length an =? length row0) eqn:Han; [|done].
      cbn [py_assert mbind result_bind mret result_ret]. intros [= <-].
      unfold context_ok, data_setter_ok, n_attributes, n_objects. cbn -[default_names].
      cbn in Hrows. rewrite Hrows, Han, length_default_names, Nat.eqb_refl. done.
    * cbn [mret result_ret]. intros [= <-].
      unfold context_ok, data_setter_ok, n_attributes, n_objects. cbn -[default_names].
      cbn in Hrows. rewrite Hrows, !length_default_names, !Nat.eqb_refl. done.
Qed.

(** The constructor raises [AssertionError] on an empty table, on rows of
    different lengths, on object names that are not one per row and on
    attribute names that are not one per entry of row 0.  A context that it
    returns keeps the data and the names given and satisfies the assertions
    of the setters; names left out are ['0', '1', ...].  It returns whenever
    none of the four assertions fails. *)
Theorem new_FormalContext_checked (value : list (list bool))
    (obj_names attr_names : option (list string)) (descr : option string) :
  (value = [] → new_FormalContext (Some value) obj_names attr_names descr = Raise AssertionError)
  ∧ ((∃ g_ms row0, value !! 0 = Some row0 ∧ g_ms ∈ value ∧ length g_ms ≠ length row0) →
     new_FormalContext (Some value) obj_names attr_names descr = Raise AssertionError)
  ∧ (∀ names, obj_names = Some names → length names ≠ length value →
       new_FormalContext (Some value) obj_names attr_names descr = Raise AssertionError)
  ∧ (∀ names row0, attr_names = Some names → value !! 0 = Some row0 →
       length names ≠ length row0 →
       new_FormalContext (Some value) obj_names attr_names descr = Raise AssertionError)
  ∧ (∀ K, new_FormalContext (Some value) obj_names attr_names descr = Ok (WithData K) →
       context_ok K = true ∧ data K = value ∧ description K = descr
       ∧ object_names K = default (default_names (n_objects K)) obj_names
       ∧ attribute_names K = default (default_names (n_attributes K)) attr_names)
  ∧ (∀ row0, value !! 0 = Some row0 →
       Forall (λ g_ms, length g_ms = length row0) value →
       (∀ names, obj_names = Some names → length names = length value) →
       (∀ names, attr_names = Some names → length names = length row0) →
       ∃ K, new_FormalContext (Some value) obj_names attr_names descr = Ok (WithData K)).
Proof.
  split_and!.
  - by intros ->.
  - intros (g_ms & row0 & H0 & Hin & Hlen). unfold new_FormalContext.
    destruct value as [|r rows]; [done|]. cbn in H0. injection H0 as ->.
    cbn [length Nat.ltb Nat.leb py_assert mbind result_bind getitem lookup list_lookup].
    assert (forallb (λ g_ms, length g_ms =? length row0) (row0 :: rows) = false) as ->; [|done].
    apply not_true_iff_false. intros Hall. rewrite forallb_forall in Hall.
    apply Hlen, Nat.eqb_eq, Hall. by apply list_elem_of_In.
  - intros names -> Hlen. unfold new_FormalContext.
    destruct value as [|row0 rows]; [done|].
    cbn [length Nat.ltb Nat.leb py_assert mbind result_bind getitem lookup list_lookup].
    destruct (forallb _ (row0 :: rows)); [|done].
    cbn [py_assert mbind result_bind].
    apply Nat.eqb_neq in Hlen. cbn [length] in Hlen. by rewrite Hlen.
  - intros names row0 -> H0 Hlen. unfold new_FormalContext.
    destruct value as [|r rows]; [done|]. cbn in H0. injection H0 as ->.
    cbn [length Nat.ltb Nat.leb py_assert mbind result_bind getitem lookup list_lookup].
    destruct (forallb _ (row0 :: rows)); [|done].
    cbn [py_assert mbind result_bind].
    apply Nat.eqb_neq in Hlen.
    destruct obj_names as [on|]; cbn [mbind result_bind].
    + destruct (length on =? S (length rows)); [|done].
      cbn [py_assert mbind result_bind mret result_ret]. by rewrite Hlen.
    + by rewrite Hlen.
  - intros K. apply new_FormalContext_inv.
  - intros row0 H0 Hrows Hon Han. unfold new_FormalContext.
    destruct value as [|r rows]; [done|]. cbn in H0. injection H0 as ->.
    cbn [length Nat.ltb Nat.leb py_assert mbind result_bind getitem lookup list_lookup].
    assert (forallb (λ g_ms, length g_ms =? length row0) (row0 :: rows) = true) as ->.
    { apply forallb_forall. intros g_ms Hin%list_elem_of_In. apply Nat.eqb_eq.
      rewrite Forall_forall in Hrows. by apply Hrows. }
    cbn [py_assert mbind result_bind].
    destruct obj_names as [on|]; cbn [mbind result_bind].
    + rewrite (Hon on eq_refl). cbn [length]. rewrite Nat.eqb_refl.
      cbn [py_assert mbind result_bind mret result_ret].
      destruct attr_names as [an|]; cbn [mbind result_bind]; [|by eexists].
      rewrite (Han an eq_refl), Nat.eqb_refl. by eexists.
    + destruct attr_names as [an|]; cbn [mbind result_bind]; [|by eexists].
      rewrite (Han an eq_refl), Nat.eqb_refl. by eexists.
Qed.

(** The two failures of [test_data_property]. *)
Lemma new_FormalContext_checked_witness :
  new_FormalContext (Some []) None None None = Raise AssertionError
  ∧ new_FormalContext (Some [[false]; [true; false]]) None None None = Raise AssertionError.
Proof.
  destruct (new_FormalContext_checked [] None None None) as (H1 & _).
  destruct (new_FormalContext_checked [[false]; [true; false]] None None None)
    as (_ & H2 & _).
  split; [by apply H1|]. apply H2.
  exists [true; false], [false]. split; [done|]. split; [|cbn; lia].
  apply elem_of_cons. right. by left.
Defined.

(** A context built from data alone has the names ['0', '1', ...], which are
    pairwise distinct: the name ['i'] stands for the index [i], and the
    queries by name answer as the queries by index do. *)
Theorem new_FormalContext_default_names (value : list (list bool)) (descr : option string)
    (K : FormalContext) (A B : list nat) :
  new_FormalContext (Some value) None None descr = Ok (WithData K) →
  below (n_objects K) A → below (n_attributes K) B →
  object_names K = pretty <$> seq 0 (n_objects K)
  ∧ attribute_names K = pretty <$> seq 0 (n_attributes K)
  ∧ (∃ I, intention_i K A = Ok I ∧ intention K (pretty <$> A) = Ok (pretty <$> I))
  ∧ (∃ E, extension_i K B = Ok E ∧ extension K (pretty <$> B) = Ok (pretty <$> E)).
Proof.
  intros Hnew HA HB.
  destruct (new_FormalContext_inv value None None descr K Hnew) as (HK & _ & _ & Hon & Han).
  cbn in Hon, Han.
  assert (∀ n X, below n X → names_at (default_names n) X = pretty <$> X) as Hnames.
  { intros n X HX. unfold names_at, default_names. apply Forall_fmap_ext.
    eapply Forall_impl; [exact HX|]. cbn. intros i Hi.
    rewrite list_lookup_fmap, lookup_seq_lt by done. done. }
  split_and!; [done|done|..].
  - exists (int_of K A). split; [by apply intention_i_ok|].
    rewrite <-(Hnames (n_objects K) A HA), <-Hon.
    rewrite intention_names_at; [|done|rewrite Hon; apply default_names_NoDup|done].
    rewrite Han, Hnames; [done|]. rewrite int_of_polar. apply polar_below.
  - exists (ext_of K B). split; [by apply extension_i_ok|].
    rewrite <-(Hnames (n_attributes K) B HB), <-Han.
    rewrite extension_names_at; [|done|rewrite Han; apply default_names_NoDup|done].
    rewrite Hon, Hnames; [done|]. rewrite ext_of_polar. apply polar_below.
Qed.

Lemma new_FormalContext_default_names_witness :
  ∃ K, new_FormalContext (Some (data animals)) None None None = Ok (WithData K)
       ∧ object_names K = pretty <$> seq 0 7
       ∧ extension K ["0"; "1"]%string = Ok ["4"; "5"; "6"]%string.
Proof.
  eexists. split; [reflexivity|].
  edestruct (new_FormalContext_default_names (data animals) None) with (A := @nil nat)
    (B := [0; 1]) as (Hon & _ & _ & E & HE & Hext);
    [reflexivity|constructor|repeat constructor; cbn; lia|].
  split; [exact Hon|]. cbn in HE. injection HE as <-. exact Hext.
Defined.

(** ** Binary tables *)

Lemma list_find_length_None (data : list (list bool)) (w : nat) :
  list_find (λ row, length row ≠ w) data = None ↔ Forall (λ row, length row = w) data.
Proof.
  rewrite list_find_None. apply Forall_iff. intros row. cbn.
  destruct (decide (length row = w)); tauto.
Qed.

(** [BinTableLists(None)] is the empty table, with no width;
    [BinTableLists([])] fails the assertion of [decide_dataclass]; rows of
    different lengths are refused with the position of the first row that
    differs from row 0; any other table is kept as it is, with its height and
    the length of its rows as width. *)
Theorem new_BinTableLists_checked (data : list (list bool)) :
  new_BinTableLists None = BtOk {| bt_data := []; bt_height := 0; bt_width := None |}
  ∧ new_BinTableLists (Some []) = BtRaise BtAssertionError
  ∧ (∀ row0 i row,
       data !! 0 = Some row0 → data !! i = Some row → length row ≠ length row0 →
       (∀ j row', j < i → data !! j = Some row' → length row' = length row0) →
       new_BinTableLists (Some data) = BtRaise (UnmatchedLengthError (Some i)))
  ∧ (∀ row0,
       data !! 0 = Some row0 → Forall (λ row, length row = length row0) data →
       new_BinTableLists (Some data)
       = BtOk {| bt_data := data; bt_height := length data;
                 bt_width := Some (length row0) |}).
Proof.
  split_and!; [done|done|..].
  - intros row0 i row H0 Hi Hlen Hbefore.
    destruct data as [|r rows]; [done|]. cbn in H0. injection H0 as ->.
    unfold new_BinTableLists, transform_data, decide_dataclass.
    cbn [length Nat.ltb Nat.leb mbind bt_result_bind validate_data].
    assert (list_find (λ row, length row ≠ length row0) (row0 :: rows) = Some (i, row)) as ->;
      [|done].
    apply list_find_Some. split_and!; [done|done|].
    intros j row' Hj Hji Hne. apply Hne. by eapply Hbefore.
  - intros row0 H0 Hrows.
    destruct data as [|r rows]; [done|]. cbn in H0. injection H0 as ->.
    unfold new_BinTableLists, transform_data, decide_dataclass.
    cbn [length Nat.ltb Nat.leb mbind bt_result_bind validate_data].
    by rewrite (proj2 (list_find_length_None (row0 :: rows) (length row0)) Hrows).
Qed.

Lemma new_BinTableLists_checked_witness :
  new_BinTableLists (Some [[true]; [true; false]]) = BtRaise (UnmatchedLengthError (Some 1))
  ∧ new_BinTableLists (Some [[true; false]; [false; false]])
    = BtOk {| bt_data := [[true; false]; [false; false]]; bt_height := 2;
              bt_width := Some 2 |}.
Proof.
  split.
  - destruct (new_BinTableLists_checked [[true]; [true; false]]) as (_ & _ & H & _).
    apply (H [true] 1 [true; false]); [done|done|cbn; lia|].
    intros [|j] row' Hj; [by intros [= <-]|lia].
  - destruct (new_BinTableLists_checked [[true; false]; [false; false]]) as (_ & _ & _ & H).
    apply (H [true; false]); [done|]. by repeat constructor.
Defined.

(** A table that the constructor returns is rectangular. *)
Lemma new_BinTableLists_inv (value : option (list (list bool))) (t : BinTableLists) :
  new_BinTableLists value = BtOk t →
  bt_height t = length (bt_data t)
  ∧ ∃ w, Forall (λ row, length row = w) (bt_data t)
         ∧ (bt_data t ≠ [] → bt_width t = Some w).
Proof.
  destruct value as [[|row0 rows]|]; [done| |].
  - unfold new_BinTableLists, transform_data, decide_dataclass.
    cbn [length Nat.ltb Nat.leb mbind bt_result_bind validate_data].
    destruct (list_find _ _) as [[i row]|] eqn:Hfind; [done|].
    cbn. intros [= <-]. cbn. split; [done|]. exists (length row0).
    split; [|done]. by apply list_find_length_None.
  - intros [= <-]. cbn. split; [done|]. exists 0. split; [constructor|done].
Qed.

Section columns.
Context {A : Type}.
Implicit Types (row : list A) (cols data : list (list A)).

Lemma length_zip_star data (w : nat) :
  data ≠ [] → Forall (λ row, length row = w) data → length (zip_star data) = w.
Proof.
  induction data as [|row [|row' rest] IH]; intros Hne Hall; [done|..].
  - cbn. rewrite length_fmap. by apply Forall_cons in Hall as [? _].
  - apply Forall_cons in Hall as [Hrow Hall].
    change (zip_star (row :: row' :: rest)) with (zip_with cons row (zip_star (row' :: rest))).
    rewrite length_zip_with, IH by done. lia.
Qed.

(** A measure of a table that can be taken by rows or by columns:
    [f] on a row or a column, [op] to put the results together. *)
Lemma zip_star_fold {B} (f : list A → B) (g : A → B) (op : B → B → B) (e : B) data (w : nat) :
  (∀ x y z, op x (op y z) = op (op x y) z) → (∀ x y, op x y = op y x) →
  (∀ x, op e x = x) →
  f [] = e → (∀ x l, f (x :: l) = op (g x) (f l)) →
  data ≠ [] → Forall (λ row, length row = w) data →
  foldr op e (f <$> zip_star data) = foldr op e (f <$> data).
Proof.
  intros Hassoc Hcomm Hunit Hnil Hcons.
  assert (∀ row, foldr op e ((λ x, f [x]) <$> row) = f row) as Hrow.
  { induction row as [|x row IH]; cbn; [done|].
    rewrite IH, !Hcons, Hnil. f_equal. by rewrite Hcomm, Hunit. }
  assert (∀ row cols, length row = length cols →
            foldr op e (f <$> zip_with cons row cols) = op (f row) (foldr op e (f <$> cols)))
    as Hstep.
  { induction row as [|x row IH]; intros [|c cols] Hlen; cbn in *; try done.
    - by rewrite Hnil, Hunit.
    - rewrite IH, !Hcons by lia.
      rewrite <-!Hassoc. f_equal. rewrite !Hassoc. f_equal. apply Hcomm. }
  induction data as [|row [|row' rest] IH]; intros Hne Hall; [done|..].
  - cbn [zip_star]. rewrite <-list_fmap_compose.
    change (foldr op e ((λ x, f [x]) <$> row) = op (f row) e).
    by rewrite Hrow, Hcomm, Hunit.
  - apply Forall_cons in Hall as [Hlen Hall].
    change (zip_star (row :: row' :: rest)) with (zip_with cons row (zip_star (row' :: rest))).
    rewrite Hstep by (by rewrite (length_zip_star _ w)).
    rewrite IH by done. done.
Qed.

End columns.

Lemma foldr_add_sum_list (l : list nat) : foldr Nat.add 0 l = sum_list l.
Proof. induction l as [|x l IH]; cbn; [done|]. by rewrite IH. Qed.

Lemma foldr_andb_forallb (l : list bool) : foldr andb true l = forallb id l.
Proof. induction l as [|x l IH]; cbn; [done|]. by rewrite IH. Qed.

Lemma foldr_orb_existsb (l : list bool) : foldr orb false l = existsb id l.
Proof. induction l as [|x l IH]; cbn; [done|]. by rewrite IH. Qed.

Lemma forallb_fmap {A} (f : A → bool) (l : list A) : forallb id (f <$> l) = forallb f l.
Proof. induction l as [|x l IH]; cbn; [done|]. by rewrite IH. Qed.

Lemma existsb_fmap {A} (f : A → bool) (l : list A) : existsb id (f <$> l) = existsb f l.
Proof. induction l as [|x l IH]; cbn; [done|]. by rewrite IH. Qed.

(** On a table that the constructor returned, the three axes of [sum] agree:
    the sums by row are as many as the table is high, the sums by column as
    many as it is wide, and both add up to [sum()]. *)
Theorem bt_sum_axes (value : option (list (list bool))) (t : BinTableLists) :
  new_BinTableLists value = BtOk t →
  ∃ (n : nat) (rows cols : list nat),
    bt_sum t None = BtOk (BtScalar n)
    ∧ bt_sum t (Some 1%Z) = BtOk (BtVector rows)
    ∧ bt_sum t (Some 0%Z) = BtOk (BtVector cols)
    ∧ sum_list rows = n ∧ sum_list cols = n
    ∧ length rows = bt_height t
    ∧ (bt_data t ≠ [] → bt_width t = Some (length cols)).
Proof.
  intros Hnew. destruct (new_BinTableLists_inv value t Hnew) as (Hh & w & Hrect & Hw).
  exists (bt_sum_ t), (bt_sum_per_row t), (bt_sum_per_column t).
  split_and!; [done..| | |].
  - unfold bt_sum_, bt_sum_per_column, bt_sum_per_row.
    destruct (decide (bt_data t = [])) as [->|Hne]; [done|].
    rewrite <-!foldr_add_sum_list.
    apply (zip_star_fold py_sum_bool Nat.b2n Nat.add 0 (bt_data t) w); try done; lia.
  - unfold bt_sum_per_row. by rewrite length_fmap.
  - intros Hne. unfold bt_sum_per_column.
    by rewrite length_fmap, (length_zip_star _ w), Hw.
Qed.

Lemma bt_sum_axes_witness :
  ∃ (t : BinTableLists) (n : nat) (rows cols : list nat),
    new_BinTableLists (Some [[true; false; true]; [false; false; true]]) = BtOk t
    ∧ bt_sum t None = BtOk (BtScalar n)
    ∧ bt_sum t (Some 1%Z) = BtOk (BtVector rows)
    ∧ bt_sum t (Some 0%Z) = BtOk (BtVector cols)
    ∧ sum_list rows = n ∧ sum_list cols = n.
Proof.
  eexists.
  edestruct (bt_sum_axes (Some [[true; false; true]; [false; false; true]]))
    as (n & rows & cols & H1 & H2 & H3 & H4 & H5 & _); [reflexivity|].
  exists n, rows, cols. by split_and!.
Defined.

(** Likewise for [all] and [any]: [all()] holds exactly when [all(1)] holds
    for every row, and exactly when [all(0)] holds for every column;
    [any()] holds exactly when [any(1)] holds for some row, and exactly when
    [any(0)] holds for some column. *)
Theorem bt_all_any_axes (value : option (list (list bool))) (t : BinTableLists) :
  new_BinTableLists value = BtOk t →
  ∃ (a e : bool) (a_rows a_cols e_rows e_cols : list bool),
    bt_all t None = BtOk (BtScalar a)
    ∧ bt_all t (Some 1%Z) = BtOk (BtVector a_rows)
    ∧ bt_all t (Some 0%Z) = BtOk (BtVector a_cols)
    ∧ bt_any t None = BtOk (BtScalar e)
    ∧ bt_any t (Some 1%Z) = BtOk (BtVector e_rows)
    ∧ bt_any t (Some 0%Z) = BtOk (BtVector e_cols)
    ∧ py_all a_rows = a ∧ py_all a_cols = a
    ∧ py_any e_rows = e ∧ py_any e_cols = e.
Proof.
  intros Hnew. destruct (new_BinTableLists_inv value t Hnew) as (Hh & w & Hrect & Hw).
  exists (bt_all_ t), (bt_any_ t), (bt_all_per_row t), (bt_all_per_column t),
    (bt_any_per_row t), (bt_any_per_column t).
  split_and!; [done..| | | |].
  - unfold py_all, bt_all_per_row, bt_all_. apply forallb_fmap.
  - unfold py_all at 1, bt_all_per_column, bt_all_. rewrite <-(forallb_fmap py_all (bt_data t)).
    destruct (decide (bt_data t = [])) as [->|Hne]; [done|].
    rewrite <-!foldr_andb_forallb.
    apply (zip_star_fold py_all id andb true (bt_data t) w); try done.
    + intros x y z. by destruct x, y, z.
    + intros x y. by destruct x, y.
  - unfold py_any, bt_any_per_row, bt_any_. apply existsb_fmap.
  - unfold py_any at 1, bt_any_per_column, bt_any_. rewrite <-(existsb_fmap py_any (bt_data t)).
    destruct (decide (bt_data t = [])) as [->|Hne]; [done|].
    rewrite <-!foldr_orb_existsb.
    apply (zip_star_fold py_any id orb false (bt_data t) w); try done.
    + intros x y z. by destruct x, y, z.
    + intros x y. by destruct x, y.
Qed.

Lemma bt_all_any_axes_witness :
  ∃ (t : BinTableLists) (a e : bool) (a_rows a_cols e_rows e_cols : list bool),
    new_BinTableLists (Some [[true; false; true]; [false; false; true]]) = BtOk t
    ∧ bt_all t None = BtOk (BtScalar a)
    ∧ bt_all t (Some 0%Z) = BtOk (BtVector a_cols)
    ∧ bt_any t None = BtOk (BtScalar e)
    ∧ bt_any t (Some 0%Z) = BtOk (BtVector e_cols)
    ∧ py_all a_cols = a ∧ py_any e_cols = e.
Proof.
  eexists.
  edestruct (bt_all_any_axes (Some [[true; false; true]; [false; false; true]]))
    as (a & e & a_rows & a_cols & e_rows & e_cols & H1 & H2 & H3 & H4 & H5 & H6 & H7 & H8
        & H9 & H10); [reflexivity|].
  exists a, e, a_rows, a_cols, e_rows, e_cols. by split_and!.
Defined.

(** [all_i] and [any_i] need an axis: on [None] the single [bool] that
    [all] returns cannot be enumerated and [TypeError] is raised; an axis
    other than [0] and [1] raises [UnknownAxisError]; on axis [1] the result
    lists, in increasing order, the rows that hold only [True]
    (for [any_i]: some [True]). *)
Theorem bt_all_i_axes (t : BinTableLists) (axis : Z) :
  bt_all_i t None = BtRaise BtTypeError
  ∧ bt_any_i t None = BtRaise BtTypeError
  ∧ (axis ≠ 0%Z → axis ≠ 1%Z →
     bt_all_i t (Some axis) = BtRaise (UnknownAxisError axis)
     ∧ bt_any_i t (Some axis) = BtRaise (UnknownAxisError axis))
  ∧ (∃ rows, bt_all_i t (Some 1%Z) = BtOk rows ∧ StronglySorted lt rows
             ∧ ∀ i, i ∈ rows ↔ ∃ row, bt_data t !! i = Some row ∧ Forall (λ b, b = true) row)
  ∧ (∃ rows, bt_any_i t (Some 1%Z) = BtOk rows ∧ StronglySorted lt rows
             ∧ ∀ i, i ∈ rows ↔ ∃ row, bt_data t !! i = Some row ∧ Exists (λ b, b = true) row).
Proof.
  assert (∀ flags : list bool,
            StronglySorted lt (filter (λ r, r.2 = true) (enumerate flags)).*1
            ∧ ∀ i, i ∈ (filter (λ r, r.2 = true) (enumerate flags)).*1 ↔ flags !! i = Some true)
    as Hflag.
  { intros flags.
    assert (enumerate flags
            = (λ i, (i, default false (flags !! i))) <$> seq 0 (length flags)) as ->.
    { unfold enumerate.
      transitivity ((λ r : nat * bool, (r.1, id r.2)) <$> zip (seq 0 (length flags)) flags).
      - rewrite <-(list_fmap_id (zip (seq 0 (length flags)) flags)) at 1.
        apply list_fmap_ext. by intros ? [? ?] _.
      - apply enumerate_flags. intros i x Hx. cbn. by rewrite Hx. }
    rewrite filter_flags_fst. split.
    - apply StronglySorted_filter, StronglySorted_lt_seq.
    - intros i. rewrite list_elem_of_filter, elem_of_seq. split.
      + intros [Hi _]. destruct (flags !! i) as [[]|]; done.
      + intros Hi. rewrite Hi. split; [done|]. apply lookup_lt_Some in Hi. lia. }
  split_and!; [done|done|..].
  - intros H0 H1. unfold bt_all_i, bt_any_i, bt_all, bt_any, by_axis.
    destruct axis as [|[]|]; done.
  - eexists. split; [reflexivity|]. destruct (Hflag (bt_all_per_row t)) as [Hs Hm].
    split; [done|]. intros i. rewrite Hm. unfold bt_all_per_row.
    rewrite list_lookup_fmap. destruct (bt_data t !! i) as [row|]; cbn.
    + unfold py_all. split.
      * intros [= Hrow]. exists row. split; [done|].
        apply Forall_forall. intros b Hb%list_elem_of_In.
        rewrite forallb_forall in Hrow. by apply Hrow.
      * intros (? & [= <-] & Hrow). f_equal. apply forallb_forall.
        intros b Hb%list_elem_of_In. rewrite Forall_forall in Hrow. by apply Hrow.
    + split; [done|]. by intros (? & ? & _).
  - eexists. split; [reflexivity|]. destruct (Hflag (bt_any_per_row t)) as [Hs Hm].
    split; [done|]. intros i. rewrite Hm. unfold bt_any_per_row.
    rewrite list_lookup_fmap. destruct (bt_data t !! i) as [row|]; cbn.
    + unfold py_any. split.
      * intros [= Hrow]. exists row. split; [done|].
        apply existsb_exists in Hrow as (b & Hb%list_elem_of_In & Hb').
        apply Exists_exists. by exists b.
      * intros (? & [= <-] & Hrow). f_equal. apply existsb_exists.
        apply Exists_exists in Hrow as (b & Hb%list_elem_of_In & Hb'). by exists b.
    + split; [done|]. by intros (? & ? & _).
Qed.

Lemma bt_all_i_axes_witness :
  bt_all_i {| bt_data := [[true]; [false]]; bt_height := 2; bt_width := Some 1 |} (Some 2%Z)
  = BtRaise (UnknownAxisError 2).
Proof.
  by apply (bt_all_i_axes {| bt_data := [[true]; [false]]; bt_height := 2;
                             bt_width := Some 1 |} 2%Z).
Defined.

(** ** The order of the projections of sofia_binary *)

Lemma insert_by_key_spec (x : nat * Z) (acc : list (nat * Z)) :
  StronglySorted pair_before acc → Forall (λ y, y.1 < x.1) acc →
  insert_by_key x acc ≡ₚ x :: acc ∧ StronglySorted pair_before (insert_by_key x acc).
Proof.
  induction acc as [|y acc IH]; intros Hs Hlt; cbn.
  - split; [done|]. repeat constructor.
  - apply StronglySorted_inv in Hs as [Hs Hy]. apply Forall_cons in Hlt as [Hyx Hlt].
    destruct (y.2 <=? x.2)%Z eqn:Hle.
    + destruct (IH Hs Hlt) as [Hp Hs']. split.
      * rewrite Hp. apply Permutation_swap.
      * constructor; [done|]. rewrite Hp. constructor; [|done].
        apply Z.leb_le in Hle. unfold pair_before.
        destruct (decide (y.2 = x.2)); [right; done|left; lia].
    + split; [done|]. apply Z.leb_gt in Hle. constructor; [by constructor|].
      constructor; [by left|].
      eapply Forall_impl; [exact Hy|]. cbn. unfold pair_before.
      intros z [Hz|[Hz _]]; left; lia.
Qed.

Lemma sorted_by_key_spec (l acc : list (nat * Z)) :
  StronglySorted pair_before acc → StronglySorted lt l.*1 →
  Forall (λ y, Forall (λ x, y.1 < x.1) l) acc →
  foldl (λ acc x, insert_by_key x acc) acc l ≡ₚ acc ++ l
  ∧ StronglySorted pair_before (foldl (λ acc x, insert_by_key x acc) acc l).
Proof.
  revert acc. induction l as [|x l IH]; intros acc Hacc Hl Hlt; cbn [foldl].
  - by rewrite app_nil_r.
  - cbn in Hl. apply StronglySorted_inv in Hl as [Hl Hx].
    destruct (insert_by_key_spec x acc Hacc) as [Hp Hs].
    { eapply Forall_impl; [exact Hlt|]. cbn. by intros y [? _]%Forall_cons. }
    destruct (IH (insert_by_key x acc) Hs Hl) as [Hp' Hs'].
    { rewrite Hp. constructor.
      - rewrite Forall_fmap in Hx. exact Hx.
      - eapply Forall_impl; [exact Hlt|]. cbn. by intros y [_ ?]%Forall_cons. }
    split; [|done]. rewrite Hp', Hp. by rewrite <-Permutation_middle.
Qed.

Lemma StronglySorted_fmap_2 {A B} (R : relation A) (R' : relation B) (f : A → B) (l : list A) :
  (∀ x y, x ∈ l → y ∈ l → R x y → R' (f x) (f y)) →
  StronglySorted R l → StronglySorted R' (f <$> l).
Proof.
  intros HR Hs. induction Hs as [|x l Hs IH Hx]; [constructor|].
  cbn. constructor.
  - apply IH. intros y z Hy Hz. apply HR; by right.
  - apply Forall_fmap, Forall_forall. intros y Hy. apply HR; [by left|by right|].
    rewrite Forall_forall in Hx. by apply Hx.
Qed.

Lemma StronglySorted_weaken {A} (R R' : relation A) (l : list A) :
  (∀ x y, R x y → R' x y) → StronglySorted R l → StronglySorted R' l.
Proof.
  intros HR. induction 1 as [|x l Hs IH Hx]; constructor; [done|].
  eapply Forall_impl; [exact Hx|]. apply HR.
Qed.

(** A list of indexes in increasing order, each given with its key, comes
    out of [sorted_by_key] as a permutation, ordered by key, the indexes of
    equal key still in increasing order. *)
Lemma sorted_by_key_keys (key : nat → Z) (n : nat) :
  sorted_by_key ((λ i, (i, key i)) <$> seq 0 n) ≡ₚ seq 0 n
  ∧ StronglySorted (λ i j, pair_before (i, key i) (j, key j))
      (sorted_by_key ((λ i, (i, key i)) <$> seq 0 n)).
Proof.
  unfold sorted_by_key.
  destruct (sorted_by_key_spec ((λ i, (i, key i)) <$> seq 0 n) []) as [Hp Hs].
  - constructor.
  - rewrite <-list_fmap_compose. rewrite list_fmap_id. apply StronglySorted_lt_seq.
  - constructor.
  - cbn [app] in Hp. split.
    + rewrite Hp, <-list_fmap_compose. by rewrite list_fmap_id.
    + eapply StronglySorted_fmap_2; [|exact Hs].
      intros x y Hx Hy Hxy. rewrite Hp in Hx, Hy.
      apply list_elem_of_fmap in Hx as (i & -> & _), Hy as (j & -> & _). done.
Qed.

(** The chain of projections of [sofia_binary]: all the indexes of the side
    that is iterated, in increasing order when [projection_sorting] is
    [None], as [random.sample] gives them when it is ['random'], and by
    increasing (decreasing) support when it is ['ascending']
    (['descending']), indexes of equal support in increasing order; any
    other value raises [ValueError]. *)
Theorem sofia_projections_order_sorted (random_sample : nat → list nat) (K : FormalContext)
    (iterate_attributes : bool) (projection_sorting : option string) :
  context_ok K = true →
  let n := if iterate_attributes then n_attributes K else n_objects K in
  let supp := support_of K iterate_attributes in
  (projection_sorting = None →
   sofia_projections_order random_sample K iterate_attributes projection_sorting
   = Ok (seq 0 n))
  ∧ (projection_sorting = Some "random"%string →
     sofia_projections_order random_sample K iterate_attributes projection_sorting
     = Ok (random_sample n))
  ∧ (projection_sorting = Some "ascending"%string →
     ∃ order,
       sofia_projections_order random_sample K iterate_attributes projection_sorting
       = Ok order
       ∧ order ≡ₚ seq 0 n
       ∧ StronglySorted (λ i j, supp i < supp j ∨ (supp i = supp j ∧ i < j)) order)
  ∧ (projection_sorting = Some "descending"%string →
     ∃ order,
       sofia_projections_order random_sample K iterate_attributes projection_sorting
       = Ok order
       ∧ order ≡ₚ seq 0 n
       ∧ StronglySorted (λ i j, supp j < supp i ∨ (supp i = supp j ∧ i < j)) order)
  ∧ (projection_sorting ∉ [None; Some "random"; Some "ascending"; Some "descending"]%string →
     sofia_projections_order random_sample K iterate_attributes projection_sorting
     = Raise ValueError).
Proof.
  intros HK n supp.
  set (key := λ (ps : option string) (i : nat),
                if bool_decide (ps = Some "descending"%string)
                then (- Z.of_nat (supp i))%Z else Z.of_nat (supp i)).
  assert (∀ ps : option string,
            mapM (λ i,
                    v ← (if iterate_attributes then extension_i K [i] else intention_i K [i]);
                    let v := Z.of_nat (length v) in
                    mret (i, if bool_decide (ps = Some "descending"%string)
                             then (- v)%Z else v))
                 (seq 0 n)
            = Ok ((λ i, (i, key ps i)) <$> seq 0 n)) as Hkeys.
  { intros ps. apply mapM_Ok_Forall, Forall_forall. intros i Hi%elem_of_seq.
    unfold key, supp, support_of, n in *. destruct iterate_attributes.
    - rewrite extension_i_ok by (done || (constructor; [lia|constructor])). done.
    - rewrite intention_i_ok by (done || (constructor; [lia|constructor])). done. }
  unfold sofia_projections_order. fold n. split_and!.
  - intros ->. rewrite bool_decide_false.
    2:{ rewrite !elem_of_cons, elem_of_nil. intros [?|[?|[]]]; done. }
    rewrite (bool_decide_false (None = Some "random"%string)) by done.
    rewrite bool_decide_false; [done|]. intros H. by apply H.
  - intros ->. rewrite bool_decide_false; [by rewrite bool_decide_true|].
    rewrite !elem_of_cons, elem_of_nil. intros [?|[?|[]]]; done.
  - intros ->. rewrite bool_decide_true by (by left).
    rewrite Hkeys. cbn [mbind result_bind mret result_ret].
    eexists. split; [done|].
    destruct (sorted_by_key_keys (key (Some "ascending"%string)) n) as [Hp Hs].
    split; [done|]. eapply StronglySorted_weaken; [|exact Hs].
    intros i j. unfold pair_before, key. cbn [fst snd].
    rewrite bool_decide_false by done. lia.
  - intros ->. rewrite bool_decide_true by (right; by left).
    rewrite Hkeys. cbn [mbind result_bind mret result_ret].
    eexists. split; [done|].
    destruct (sorted_by_key_keys (key (Some "descending"%string)) n) as [Hp Hs].
    split; [done|]. eapply StronglySorted_weaken; [|exact Hs].
    intros i j. unfold pair_before, key. cbn [fst snd].
    rewrite bool_decide_true by done. lia.
  - intros Hother. rewrite !elem_of_cons, elem_of_nil in Hother.
    rewrite bool_decide_false.
    2:{ rewrite !elem_of_cons, elem_of_nil. tauto. }
    rewrite bool_decide_false by tauto.
    rewrite bool_decide_true by tauto. done.
Qed.

Lemma sofia_projections_order_sorted_witness :
  sofia_projections_order (λ n, seq 0 n) animals true (Some "descending"%string)
  = Ok [0; 1; 3; 2]
  ∧ sofia_projections_order (λ n, seq 0 n) animals true (Some "up"%string) = Raise ValueError.
Proof.
  destruct (sofia_projections_order_sorted (λ n, seq 0 n) animals true (Some "up"%string))
    as (_ & _ & _ & _ & H); [reflexivity|].
  split; [reflexivity|]. apply H.
  rewrite !elem_of_cons, elem_of_nil. intros [?|[?|[?|[?|[]]]]]; done.
Defined.

(** ** The dictionary of a concept *)

Lemma sort_set_spec (s : gset nat) :
  StronglySorted lt (sort_set s) ∧ ∀ x, x ∈ sort_set s ↔ x ∈ s.
Proof.
  unfold sort_set. split.
  - assert (NoDup (merge_sort le (elements s))) as Hnd.
    { rewrite merge_sort_Permutation. apply NoDup_elements. }
    pose proof (StronglySorted_merge_sort le (elements s)) as Hs.
    induction Hs as [|x l Hs IH Hx]; [constructor|].
    apply NoDup_cons in Hnd as [Hxl Hnd]. constructor; [by apply IH|].
    apply Forall_forall. intros y Hy. rewrite Forall_forall in Hx. specialize (Hx y Hy).
    assert (x ≠ y) by (by intros ->). lia.
  - intros x. by rewrite merge_sort_Permutation, elem_of_elements.
Qed.

Lemma sort_set_by_KeyError (names : list string) (s : gset string) :
  (∃ g, g ∈ s ∧ g ∉ names) → sort_set_by (index_dict names) s = Raise KeyError.
Proof.
  intros (g & Hg & Hout). unfold sort_set_by.
  assert (mapM (λ g, i ← dict_getitem (index_dict names) g; mret (i, g)) (elements s)
          = Raise KeyError) as ->; [|done].
  assert (g ∈ elements s) as Hin by (by apply elem_of_elements).
  induction (elements s) as [|x l IH]; [by apply elem_of_nil in Hin|].
  rewrite mapM_cons. pose proof (index_dict_get names x) as Hx.
  destruct (dict_get (index_dict names) x) as [i|] eqn:Hget.
  - rewrite (dict_getitem_Some _ _ _ Hget). cbn [mbind result_bind mret result_ret].
    apply elem_of_cons in Hin as [->|Hin].
    + exfalso. apply Hout. destruct Hx as [Hx _]. by eapply list_elem_of_lookup_2.
    + by rewrite IH.
  - by rewrite (dict_getitem_None _ _ Hget).
Qed.

Lemma sort_set_by_Ok (names : list string) (s : gset string) :
  (∀ g, g ∈ s → g ∈ names) →
  ∃ sorted, sort_set_by (index_dict names) s = Ok sorted
    ∧ (∀ g, g ∈ sorted ↔ g ∈ s) ∧ NoDup sorted.
Proof.
  intros Hs. unfold sort_set_by.
  assert (∃ keyed,
            mapM (λ g, i ← dict_getitem (index_dict names) g; mret (i, g)) (elements s)
            = Ok keyed ∧ keyed.*2 = elements s) as (keyed & -> & Hkeyed).
  { assert (∀ g, g ∈ elements s → g ∈ names) as Hl.
    { intros g Hg. by apply Hs, elem_of_elements. }
    induction (elements s) as [|x l IH]; [by exists []|].
    destruct IH as (keyed & Hk & Hk2); [intros g Hg; apply Hl; by right|].
    rewrite mapM_cons, Hk. pose proof (index_dict_get names x) as Hx.
    destruct (dict_get (index_dict names) x) as [i|] eqn:Hget.
    - rewrite (dict_getitem_Some _ _ _ Hget). exists ((i, x) :: keyed). cbn. by rewrite Hk2.
    - exfalso. apply Hx, Hl. by left. }
  eexists. split; [done|].
  assert ((merge_sort key_le keyed).*2 ≡ₚ elements s) as Hp.
  { by rewrite merge_sort_Permutation, Hkeyed. }
  split.
  - intros g. by rewrite Hp, elem_of_elements.
  - rewrite Hp. apply NoDup_elements.
Qed.

Lemma dict_get_foldl_set {V W} (f : W → V) (l : list (string * W)) (d : dict string V)
    (k : string) :
  NoDup l.*1 →
  dict_get (foldl (λ d kv, dict_set d kv.1 (f kv.2)) d l) k
  = match list_find (λ kv, kv.1 = k) l with
    | Some (_, kv) => Some (f kv.2)
    | None => dict_get d k
    end.
Proof.
  revert d. induction l as [|[k' w] l IH]; intros d Hnd; [done|].
  cbn [foldl fst snd]. cbn in Hnd. apply NoDup_cons in Hnd as [Hk' Hnd].
  rewrite IH by done. cbn [list_find fst]. destruct (decide (k' = k)) as [->|Hne].
  - destruct (list_find (λ kv, kv.1 = k) l) as [[i [k2 w2]]|] eqn:Hfind.
    + apply list_find_Some in Hfind as (Hi & Hk2 & _). cbn in Hk2. subst k2.
      exfalso. apply Hk'. apply list_elem_of_fmap. exists (k, w2). split; [done|].
      by eapply list_elem_of_lookup_2.
    + cbn. rewrite dict_get_set. by rewrite decide_True.
  - destruct (list_find (λ kv, kv.1 = k) l) as [[i kv]|]; [done|].
    cbn. rewrite dict_get_set. by rewrite decide_False.
Qed.

Lemma dict_get_measures (c : FormalConcept) (d : dict string pyval) (k : string) :
  dict_get (foldl (λ d kv, dict_set d kv.1 (PyFloat kv.2)) d (map_to_list (measures c))) k
  = match measures c !! k with
    | Some v => Some (PyFloat v)
    | None => dict_get d k
    end.
Proof.
  rewrite dict_get_foldl_set by apply NoDup_fst_map_to_list.
  destruct (list_find _ _) as [[i [k' v]]|] eqn:Hfind.
  - apply list_find_Some in Hfind as (Hi & Hk & _). cbn in Hk. subst k'.
    apply list_elem_of_lookup_2, elem_of_map_to_list in Hi. by rewrite Hi.
  - destruct (measures c !! k) as [v|] eqn:Hv; [|done].
    apply elem_of_map_to_list in Hv. rewrite list_find_None, Forall_forall in Hfind.
    by destruct (Hfind _ Hv).
Qed.

(** [to_dict] raises [KeyError] when a name of the extent is missing from
    [objs_order] or a name of the intent from [attrs_order], and returns
    otherwise.  In the dictionary returned, ['Context_Hash'] and
    ['Monotone'] are those of the concept whatever the measures; every
    measure stands under its own name unless that name is one of these two;
    ['Supp'], ['Ext'] and ['Int'] hold the support, and the indexes in
    increasing order with the names and the count, unless a measure has
    taken the key. *)
Theorem to_dict_contents (c : FormalConcept) (objs_order attrs_order : list string) :
  ((∃ g, g ∈ extent c ∧ g ∉ objs_order) ∨ (∃ m, m ∈ intent c ∧ m ∉ attrs_order) →
   to_dict c objs_order attrs_order = Raise KeyError)
  ∧ ((∀ g, g ∈ extent c → g ∈ objs_order) → (∀ m, m ∈ intent c → m ∈ attrs_order) →
     ∃ d ext_names int_names,
       to_dict c objs_order attrs_order = Ok d
       ∧ (∀ g, g ∈ ext_names ↔ g ∈ extent c) ∧ NoDup ext_names
       ∧ (∀ m, m ∈ int_names ↔ m ∈ intent c) ∧ NoDup int_names
       ∧ dict_get d "Context_Hash"%string
         = Some (match context_hash c with Some h => PyInt h | None => PyNone end)
       ∧ dict_get d "Monotone"%string = Some (PyBool (is_monotone c))
       ∧ (∀ k v, measures c !! k = Some v → k ≠ "Context_Hash"%string →
                 k ≠ "Monotone"%string → dict_get d k = Some (PyFloat v))
       ∧ (measures c !! "Supp"%string = None →
          dict_get d "Supp"%string = Some (PyInt (Z.of_nat (size (extent_i c)))))
       ∧ (measures c !! "Ext"%string = None →
          dict_get d "Ext"%string
          = Some (PyDict [("Inds"%string, PyTuple (PyInt ∘ Z.of_nat <$> sort_set (extent_i c)));
                          ("Names"%string, PyTuple (PyStr <$> ext_names));
                          ("Count"%string, PyInt (Z.of_nat (size (extent_i c))))]))
       ∧ (measures c !! "Int"%string = None →
          dict_get d "Int"%string
          = Some (PyDict [("Inds"%string, PyTuple (PyInt ∘ Z.of_nat <$> sort_set (intent_i c)));
                          ("Names"%string, PyTuple (PyStr <$> int_names));
                          ("Count"%string, PyInt (Z.of_nat (size (intent_i c))))]))).
Proof.
  split.
  - intros H. unfold to_dict. cbn zeta.
    destruct (decide (Forall (λ g, g ∈ objs_order) (elements (extent c)))) as [Hall|Hnot].
    + destruct H as [(g & Hg & Hout)|Hint].
      { exfalso. apply Hout. rewrite Forall_forall in Hall. by apply Hall, elem_of_elements. }
      destruct (sort_set_by_Ok objs_order (extent c)) as (ext_names & -> & _).
      { intros g Hg. rewrite Forall_forall in Hall. by apply Hall, elem_of_elements. }
      cbn [mbind result_bind]. by rewrite (sort_set_by_KeyError attrs_order (intent c)).
    + apply not_Forall_Exists, Exists_exists in Hnot as (g & Hg & Hout); [|apply _].
      rewrite (sort_set_by_KeyError objs_order (extent c)); [done|].
      exists g. split; [by apply elem_of_elements|done].
  - intros Hext Hint. unfold to_dict. cbn zeta.
    destruct (sort_set_by_Ok objs_order (extent c) Hext) as (ext_names & -> & He & Hend).
    destruct (sort_set_by_Ok attrs_order (intent c) Hint) as (int_names & -> & Hi & Hind).
    cbn [mbind result_bind mret result_ret].
    eexists _, ext_names, int_names. split; [reflexivity|].
    split_and!; [done..| | | | | |].
    + rewrite !dict_get_set. by rewrite decide_False, decide_True.
    + rewrite !dict_get_set. by rewrite decide_True.
    + intros k v Hv Hk1 Hk2. rewrite !dict_get_set, !decide_False by done.
      by rewrite dict_get_measures, Hv.
    + intros Hm. rewrite !dict_get_set, !decide_False by done.
      rewrite dict_get_measures, Hm, !dict_get_set. by rewrite decide_True.
    + intros Hm. rewrite !dict_get_set, !decide_False by done.
      rewrite dict_get_measures, Hm, !dict_get_set.
      rewrite !decide_False by done. by rewrite decide_True.
    + intros Hm. rewrite !dict_get_set, !decide_False by done.
      rewrite dict_get_measures, Hm, !dict_get_set.
      rewrite decide_False by done. by rewrite decide_True.
Qed.

Lemma to_dict_contents_witness :
  to_dict two_by_one_top ["1"]%string ["0"]%string = Raise KeyError.
Proof.
  apply (to_dict_contents two_by_one_top ["1"]%string ["0"]%string).
  left. exists "0"%string. split.
  - cbn. set_solver.
  - by intros [?|?%elem_of_nil]%elem_of_cons.
Defined.

(** ** The adjacency dictionaries of lindig_algorithm *)

Lemma dict_get_setdefault_append {K V} `{EqDecision K} (d : dict K (list V)) k v k' :
  dict_get (dict_setdefault_append d k v) k'
  = if decide (k = k') then Some (default [] (dict_get d k) ++ [v]) else dict_get d k'.
Proof. unfold dict_setdefault_append. apply dict_get_set. Qed.

Section lindig_adjacency.
Variable set_order : gset nat → list nat.
Variable set_pop : list FormalConcept → nat.
Variable intention_i' extension_i' : list nat → result (list nat).
Variables (n1 n2 : nat) (R : nat → nat → bool).
Variables (obj_names attr_names : list string) (h : Z).
Hypothesis Horder : ∀ s, set_order s ≡ₚ elements s.
Hypothesis Hint : ∀ C, below n1 C → intention_i' C = Ok (polar n2 R C).
Hypothesis Hext : ∀ S, below n2 S → extension_i' S = Ok (polar n1 (λ y x, R x y) S).
Hypothesis Hon : length obj_names = n1.
Hypothesis Han : length attr_names = n2.

Abbreviation cof3 := (closed_concept n2 R obj_names attr_names h).
Abbreviation coherent3 := (lindig_coherent n1 n2 R obj_names attr_names h).
Abbreviation linv3 := (lindig_inv n1 n2 R obj_names attr_names h).
Abbreviation adj3 := (lindig_adj n1 n2 R obj_names attr_names h).
Abbreviation un3 := (upper_neighbour n1 n2 R).

Lemma NoDup_lookup_app {A} (l l' : list A) i j x :
  NoDup (l ++ l') → l !! i = Some x → (l ++ l') !! j = Some x → j = i.
Proof.
  intros Hnd Hi Hj. eapply NoDup_lookup; [done|done|]. by apply lookup_app_l_Some.
Qed.

(** The [for x in dsups] loop, with what it writes into the two
    dictionaries: [ids] are the positions of the neighbours [Ns]. *)
Lemma lindig_add_dsups_adj c_id Ns As st :
  coherent3 As st →
  (∀ i A, As !! i = Some A → dict_get (l_index st) (list_to_set A) = Some i) →
  Forall (closed n1 n2 R) Ns → NoDup Ns →
  ∃ As' st' ids,
    lindig_add_dsups c_id (cof3 <$> Ns) st = Ok st'
    ∧ coherent3 (As ++ As') st'
    ∧ (∀ i A, (As ++ As') !! i = Some A → dict_get (l_index st') (list_to_set A) = Some i)
    ∧ l_queue st' = l_queue st ++ (cof3 <$> As')
    ∧ (∀ N, N ∈ As' → N ∈ Ns)
    ∧ Forall2 (λ N id, (As ++ As') !! id = Some N) Ns ids
    ∧ (∀ i, dict_get (l_superconcepts_dict st') i
            = if decide (i = c_id)
              then match ids with
                   | [] => dict_get (l_superconcepts_dict st) c_id
                   | _ => Some (default [] (dict_get (l_superconcepts_dict st) c_id) ++ ids)
                   end
              else dict_get (l_superconcepts_dict st) i)
    ∧ (∀ j, dict_get (l_subconcepts_dict st') j
            = if decide (j ∈ ids)
              then Some (default [] (dict_get (l_subconcepts_dict st) j) ++ [c_id])
              else dict_get (l_subconcepts_dict st) j).
Proof.
  intros Hcoh Hidx HNs HndNs. revert As st Hcoh Hidx.
  induction HNs as [|N Ns HN HNs IH]; intros As st Hcoh Hidx.
  { exists [], st, []. rewrite app_nil_r. split_and!; try done.
    - by rewrite app_nil_r.
    - intros i. by destruct (decide (i = c_id)) as [->|]. }
  apply NoDup_cons in HndNs as [HN_Ns HndNs].
  destruct st as [concepts queue subd superd index].
  pose proof Hcoh as (Hc & Hi & Hnd & Hcl). cbn in Hc, Hi, Hidx.
  assert (length concepts = length As) as Hlen by (by rewrite Hc, length_fmap).
  cbn [fmap list_fmap lindig_add_dsups].
  change (extent_i (cof3 N)) with (list_to_set (C:=gset nat) N).
  cbn [l_index l_concepts l_queue l_subconcepts_dict l_superconcepts_dict].
  (* the state in which the rest of the loop starts, the closed sets it
     knows and the position of [N] *)
  assert (∃ As1 st1 x_id,
            (if negb (dict_in (list_to_set N) index)
             then {| l_concepts := concepts ++ [cof3 N]; l_queue := queue ++ [cof3 N];
                     l_subconcepts_dict := subd; l_superconcepts_dict := superd;
                     l_index := dict_set index (list_to_set N) (length concepts) |}
             else {| l_concepts := concepts; l_queue := queue;
                     l_subconcepts_dict := subd; l_superconcepts_dict := superd;
                     l_index := index |}) = st1
            ∧ coherent3 (As ++ As1) st1
            ∧ (∀ i A, (As ++ As1) !! i = Some A
                      → dict_get (l_index st1) (list_to_set A) = Some i)
            ∧ l_queue st1 = queue ++ (cof3 <$> As1)
            ∧ l_subconcepts_dict st1 = subd ∧ l_superconcepts_dict st1 = superd
            ∧ (As1 = [] ∨ As1 = [N])
            ∧ (As ++ As1) !! x_id = Some N) as (As1 & st1 & x_id & -> & Hcoh1 & Hidx1 & Hq1
                                                & Hsub1 & Hsup1 & HAs1 & Hx).
  { destruct (dict_in (list_to_set N) index) eqn:Hin; cbn [negb].
    - apply dict_in_true in Hin. rewrite Hi in Hin.
      apply (closed_list_to_set_elem n1 n2 R) in Hin; [|done..].
      apply list_elem_of_lookup in Hin as [x_id Hx].
      eexists [], _, x_id. split; [reflexivity|]. rewrite !app_nil_r.
      split_and!; try done; by left.
    - apply dict_in_false in Hin. rewrite Hi in Hin.
      assert (N ∉ As) as HNAs by (intros ?; apply Hin, list_elem_of_fmap; eauto).
      eexists [N], _, (length As). split; [reflexivity|]. split_and!; try done.
      + split_and!; cbn.
        * by rewrite Hc, fmap_app.
        * rewrite dict_set_fresh by (by rewrite Hi). by rewrite !fmap_app, Hi.
        * apply NoDup_app. split_and!; [done| |apply NoDup_singleton].
          by intros A HA ->%list_elem_of_singleton.
        * apply Forall_app. split; [done|]. by constructor.
      + intros i A HiA. cbn. rewrite dict_get_set.
        apply lookup_app_Some in HiA as [HiA|[Hge HiA]].
        * rewrite decide_False; [by apply Hidx|].
          intros Heq. apply HNAs.
          assert (N = A) as ->; [|by eapply list_elem_of_lookup_2].
          apply (closed_list_to_set_inj n1 n2 R); [done| |done].
          apply (proj1 (Forall_forall _ _) Hcl). by eapply list_elem_of_lookup_2.
        * destruct (i - length As) as [|?] eqn:Hd; cbn in HiA; [|done].
          injection HiA as <-. rewrite decide_True by done. f_equal. lia.
      + by right.
      + by apply list_lookup_middle. }
  assert (dict_getitem (l_index st1) (list_to_set N) = Ok x_id) as ->.
  { by rewrite (dict_getitem_Some _ _ _ (Hidx1 x_id N Hx)). }
  cbn [mbind result_bind]. rewrite Hsub1, Hsup1.
  destruct (IH HndNs (As ++ As1)
              {| l_concepts := l_concepts st1; l_queue := l_queue st1;
                 l_subconcepts_dict := dict_setdefault_append subd x_id c_id;
                 l_superconcepts_dict := dict_setdefault_append superd c_id x_id;
                 l_index := l_index st1 |})
    as (As' & st' & ids & Hrun & Hcoh' & Hidx' & Hq' & Hnew & Hids & Hsup' & Hsub');
    [done|done|].
  cbn [l_queue l_subconcepts_dict l_superconcepts_dict] in Hq', Hsup', Hsub'.
  exists (As1 ++ As'), st', (x_id :: ids). rewrite !(assoc_L (++)).
  assert ((As ++ As1 ++ As') !! x_id = Some N) as Hx'.
  { rewrite (assoc_L (++)). by apply lookup_app_l_Some. }
  assert (x_id ∉ ids) as Hx_ids.
  { intros Hin. apply list_elem_of_lookup in Hin as [k Hk].
    destruct (Forall2_lookup_r _ _ _ _ _ Hids Hk) as (N' & HN' & HN'x).
    rewrite <-(assoc_L (++)), Hx' in HN'x. injection HN'x as <-.
    apply HN_Ns. by eapply list_elem_of_lookup_2. }
  split_and!; try done.
  - rewrite Hq', Hq1, fmap_app. by rewrite (assoc_L (++)).
  - intros N' [HN'|HN']%elem_of_app; [|right; by apply Hnew].
    destruct HAs1 as [->| ->]; [by apply elem_of_nil in HN'|].
    apply list_elem_of_singleton in HN' as ->. by left.
  - constructor; [by rewrite <-(assoc_L (++))|done].
  - intros i. rewrite Hsup'. destruct (decide (i = c_id)) as [->|Hne].
    + rewrite !dict_get_setdefault_append, !decide_True by done.
      destruct ids as [|id ids]; [done|].
      change (default [] (Some ?l)) with l. by rewrite <-(assoc_L (++)).
    + by rewrite dict_get_setdefault_append, decide_False by done.
  - intros j. rewrite Hsub', !dict_get_setdefault_append.
    destruct (decide (j = x_id)) as [->|Hne].
    + rewrite decide_False by done. rewrite decide_True by done.
      by rewrite decide_True by (by left).
    + destruct (decide (j ∈ ids)) as [Hj|Hj].
      * rewrite decide_False by done. by rewrite decide_True by (by right).
      * rewrite decide_False by done. rewrite decide_False; [done|].
        by intros [?|?]%elem_of_cons.
Qed.

Lemma NoDup_delete_not_in {A} (l : list A) (i : nat) (x : A) :
  NoDup l → l !! i = Some x → NoDup (delete i l) ∧ x ∉ delete i l.
Proof.
  intros Hnd Hi. rewrite <-(take_drop_middle l i x Hi) in Hnd |- *.
  assert (length (take i l) = i) as Hlen.
  { apply length_take_le. apply lookup_lt_Some in Hi. lia. }
  assert (delete i (take i l ++ x :: drop (S i) l) = take i l ++ drop (S i) l) as ->.
  { rewrite <-Hlen at 1. by rewrite delete_middle. }
  apply NoDup_app in Hnd as (H1 & H2 & H3). apply NoDup_cons in H3 as [H3 H4].
  split.
  - apply NoDup_app. split_and!; [done| |done]. intros y Hy ?. apply (H2 y Hy). by right.
  - intros [Hx|Hx]%elem_of_app; [|done]. apply (H2 x Hx). by left.
Qed.

Lemma Forall2_positions_NoDup {A} (l : list A) (Ns : list A) (ids : list nat) :
  NoDup Ns → Forall2 (λ N id, l !! id = Some N) Ns ids → NoDup ids.
Proof.
  intros Hnd HF. apply NoDup_alt. intros a b id Ha Hb.
  destruct (Forall2_lookup_r _ _ _ _ _ HF Ha) as (Na & HNa & Hla).
  destruct (Forall2_lookup_r _ _ _ _ _ HF Hb) as (Nb & HNb & Hlb).
  eapply NoDup_lookup; [exact Hnd|exact HNa|]. congruence.
Qed.

(** One pass of the [while] loop on the closed set at position [c_id], which
    has no entry in [superconcepts_dict] yet. *)
Lemma lindig_body_adj As A c_id st :
  coherent3 As st →
  (∀ i A, As !! i = Some A → dict_get (l_index st) (list_to_set A) = Some i) →
  As !! c_id = Some A → dict_get (l_superconcepts_dict st) c_id = None →
  ∃ As' st' Ns ids,
    lindig_body set_order n1 intention_i' extension_i' obj_names attr_names h (cof3 A) st
    = Ok st'
    ∧ coherent3 (As ++ As') st'
    ∧ (∀ i A, (As ++ As') !! i = Some A → dict_get (l_index st') (list_to_set A) = Some i)
    ∧ l_queue st' = l_queue st ++ (cof3 <$> As')
    ∧ (∀ N, N ∈ As' → N ∈ Ns)
    ∧ NoDup Ns ∧ (∀ N, N ∈ Ns ↔ un3 A N)
    ∧ (∀ Y, closed n1 n2 R Y → A ⊆ Y → (∃ y, y ∈ Y ∧ y ∉ A) → ∃ N, N ∈ Ns ∧ N ⊆ Y)
    ∧ Forall2 (λ N id, (As ++ As') !! id = Some N) Ns ids
    ∧ (∀ i, dict_get (l_superconcepts_dict st') i
            = if decide (i = c_id) then Some ids else dict_get (l_superconcepts_dict st) i)
    ∧ (∀ j, dict_get (l_subconcepts_dict st') j
            = if decide (j ∈ ids)
              then Some (default [] (dict_get (l_subconcepts_dict st) j) ++ [c_id])
              else dict_get (l_subconcepts_dict st) j).
Proof.
  intros Hcoh Hidx HA Hnone.
  pose proof Hcoh as (Hc & Hi & Hnd & Hcl).
  assert (closed n1 n2 R A) as HAcl.
  { apply (proj1 (Forall_forall _ _) Hcl). by eapply list_elem_of_lookup_2. }
  unfold lindig_body.
  change (extent_i (cof3 A)) with (list_to_set (C:=gset nat) A).
  rewrite (dict_getitem_Some _ _ _ (Hidx c_id A HA)). cbn [mbind result_bind].
  destruct (direct_super_elements_upper set_order intention_i' extension_i' n1 n2 R
              obj_names attr_names h Horder Hint Hext Hon Han A HAcl)
    as (Ns & Hrun & HndNs & HNs).
  assert (∀ Y, closed n1 n2 R Y → A ⊆ Y → (∃ y, y ∈ Y ∧ y ∉ A) → ∃ N, N ∈ Ns ∧ N ⊆ Y)
    as Hbelow.
  { destruct (direct_super_elements_ok set_order intention_i' extension_i' n1 n2 R
                obj_names attr_names h Horder Hint Hext Hon Han A HAcl)
      as (Ns1 & Hrun1 & _ & Hcover).
    rewrite Hrun in Hrun1. injection Hrun1 as Heq.
    intros Y HY HAY Hy. destruct (Hcover Y HY HAY Hy) as (N1 & HN1 & HN1Y).
    assert (cof3 N1 ∈ cof3 <$> Ns) as (N & HeqN & HN)%list_elem_of_fmap.
    { rewrite Heq. apply list_elem_of_fmap. eauto. }
    exists N. split; [done|]. intros x Hx. apply HN1Y.
    apply (f_equal extent_i) in HeqN. cbn in HeqN.
    apply (elem_of_list_to_set (C:=gset nat)). rewrite HeqN.
    by apply elem_of_list_to_set. }
  rewrite Hrun. cbn [mbind result_bind].
  destruct Ns as [|N Ns].
  - exists [], {| l_concepts := l_concepts st; l_queue := l_queue st;
                  l_subconcepts_dict := l_subconcepts_dict st;
                  l_superconcepts_dict := dict_set (l_superconcepts_dict st) c_id [];
                  l_index := l_index st |}, [], [].
    rewrite !app_nil_r. split_and!; try done.
    intros i. cbn. rewrite dict_get_set.
    destruct (decide (c_id = i)) as [->|Hne]; [by rewrite decide_True|].
    by rewrite decide_False by done.
  - cbn [fmap list_fmap length Nat.eqb].
    assert (Forall (closed n1 n2 R) (N :: Ns)) as HNs_cl.
    { apply Forall_forall. intros N' HN'. by destruct (proj1 (HNs N') HN') as [? _]. }
    destruct (lindig_add_dsups_adj c_id (N :: Ns) As st Hcoh Hidx HNs_cl HndNs)
      as (As' & st' & ids & Hrun' & Hcoh' & Hidx' & Hq' & Hnew & Hids & Hsup & Hsub).
    exists As', st', (N :: Ns), ids. split_and!; try done.
    intros i. rewrite Hsup. destruct (decide (i = c_id)) as [->|]; [|done].
    rewrite Hnone. apply Forall2_length in Hids. by destruct ids.
Qed.

Lemma lindig_while_adj fuel As st :
  linv3 As st → adj3 As st → 2 ^ n1 - length As + length (l_queue st) ≤ fuel →
  ∃ As' st',
    lindig_while set_order set_pop n1 intention_i' extension_i' obj_names attr_names h
      fuel st = Some (Ok st')
    ∧ linv3 As' st' ∧ adj3 As' st' ∧ l_queue st' = [].
Proof.
  revert As st. induction fuel as [|fuel IH]; intros As st Hinv Hadj Hfuel.
  { destruct st as [concepts [|c0 queue] subd superd index]; [by exists As; eexists|].
    cbn in Hfuel. lia. }
  destruct st as [concepts [|c0 queue] subd superd index]; [by exists As; eexists|].
  cbn [lindig_while l_queue l_concepts l_subconcepts_dict l_superconcepts_dict l_index].
  set (q := c0 :: queue) in *.
  set (pos := set_pop q `mod` length q).
  assert (pos < length q) as Hpos by (apply Nat.mod_upper_bound; done).
  destruct (lookup_lt_is_Some_2 q pos Hpos) as [c Hc]. rewrite Hc. cbn [default id].
  pose proof Hinv as [Hcs Hcl Hnd Hidx Hq Hbot Hexp].
  pose proof Hadj as [Hqnd Haidx Hskeys Hsrange Hsuper Hsubkeys Hsub].
  cbn [l_queue l_concepts l_index l_subconcepts_dict l_superconcepts_dict]
    in Hcs, Hidx, Hq, Hexp, Hqnd, Haidx, Hskeys, Hsrange, Hsuper, Hsubkeys, Hsub.
  assert (∃ A, A ∈ As ∧ c = cof3 A) as (A & HA & ->).
  { assert (c ∈ concepts) as Hcin by (apply Hq; by eapply list_elem_of_lookup_2).
    rewrite Hcs in Hcin. apply list_elem_of_fmap in Hcin as (A & -> & HA). eauto. }
  pose proof HA as [c_id Hc_id]%list_elem_of_lookup.
  assert (dict_get superd c_id = None) as Hnone.
  { apply (Hskeys c_id A Hc_id). by eapply list_elem_of_lookup_2. }
  destruct (lindig_body_adj As A c_id
              {| l_concepts := concepts; l_queue := delete pos q;
                 l_subconcepts_dict := subd; l_superconcepts_dict := superd;
                 l_index := index |})
    as (As' & st' & Ns & ids & -> & Hcoh' & Hidx' & Hq' & Hnew & HndNs & HNs & Hbelow
        & Hids & Hsup' & Hsub'); [by split_and!|done|done|done|].
  cbn [l_queue l_subconcepts_dict l_superconcepts_dict] in Hq', Hsup', Hsub'.
  pose proof Hcoh' as (Hcs' & Hidxk' & Hnd' & Hcl').
  assert (∀ N, N ∈ Ns → N ∈ As ++ As') as HNs_in.
  { intros N [k Hk]%list_elem_of_lookup.
    destruct (Forall2_lookup_l _ _ _ _ _ Hids Hk) as (id & _ & Hid).
    by eapply list_elem_of_lookup_2. }
  assert (linv3 (As ++ As') st') as Hinv'.
  { constructor; [done..| | |].
    - intros c. rewrite Hq', Hcs', fmap_app, !elem_of_app.
      intros [Hc'%list_elem_of_delete_inv%Hq|Hc']; [left|by right]. by rewrite <-Hcs.
    - apply elem_of_app. by left.
    - intros A' [HA'|HA']%elem_of_app.
      + destruct (decide (A' = A)) as [->|Hne].
        { right. intros Y HY HAY Hy. destruct (Hbelow Y HY HAY Hy) as (N & HN & HNY).
          exists N. destruct (proj1 (HNs N) HN) as (_ & ? & ? & _). split_and!; auto. }
        destruct (Hexp A' HA') as [Hin|Hdone].
        * left. rewrite Hq'. apply elem_of_app. left.
          eapply elem_of_delete_ne; [done..|]. intros Heq. apply Hne.
          eapply cof_inj; [..|done]; by apply (proj1 (Forall_forall _ _) Hcl).
        * right. intros Y HY HAY Hy. destruct (Hdone Y HY HAY Hy) as (N & HN & ?).
          exists N. split; [|done]. apply elem_of_app. by left.
      + left. rewrite Hq'. apply elem_of_app. right. apply list_elem_of_fmap. eauto. }
  destruct (NoDup_delete_not_in q pos (cof3 A) Hqnd Hc) as [Hq0nd HAq0].
  assert (∀ A1 A2, A1 ∈ As ++ As' → A2 ∈ As ++ As' → cof3 A1 = cof3 A2 → A1 = A2) as Hinj.
  { intros A1 A2 H1 H2. eapply cof_inj; by apply (proj1 (Forall_forall _ _) Hcl'). }
  assert (∀ A', A' ∈ As → cof3 A' ∉ cof3 <$> As') as Hold_new.
  { intros A' HA' (A2 & Heq & HA2)%list_elem_of_fmap.
    apply Hinj in Heq as <-; [|apply elem_of_app; by left|apply elem_of_app; by right].
    apply NoDup_app in Hnd' as (_ & Hdis & _). by apply (Hdis A'). }
  assert (∀ A', A' ∈ As' → cof3 A' ∉ delete pos q) as Hnew_old.
  { intros A' HA' Hin%list_elem_of_delete_inv%Hq. rewrite Hcs in Hin.
    apply list_elem_of_fmap in Hin as (A2 & Heq & HA2).
    apply Hinj in Heq as ->; [|apply elem_of_app; by right|apply elem_of_app; by left].
    apply NoDup_app in Hnd' as (_ & Hdis & _). by apply (Hdis A2). }
  assert (∀ i A', (As ++ As') !! i = Some A' → i = c_id → A' = A) as Hat_c.
  { intros i A' Hi ->. rewrite lookup_app_l in Hi by (by eapply lookup_lt_Some). congruence. }
  assert (NoDup ids) as Hids_nd
    by exact (Forall2_positions_NoDup (As ++ As') Ns ids HndNs Hids).
  assert (∀ j, j ∈ ids ↔ ∃ N, (As ++ As') !! j = Some N ∧ un3 A N) as Hids_spec.
  { intros j. split.
    - intros [k Hk]%list_elem_of_lookup.
      destruct (Forall2_lookup_r _ _ _ _ _ Hids Hk) as (N & HN & Hj).
      exists N. split; [done|]. apply HNs. by eapply list_elem_of_lookup_2.
    - intros (N & Hj & [k Hk]%HNs%list_elem_of_lookup).
      destruct (Forall2_lookup_l _ _ _ _ _ Hids Hk) as (id & Hid & Hid').
      assert (j = id) as -> by exact (NoDup_lookup _ _ _ _ Hnd' Hj Hid').
      by eapply list_elem_of_lookup_2. }
  assert (adj3 (As ++ As') st') as Hadj'.
  { constructor.
    - rewrite Hq'. apply NoDup_app. split_and!; [done| |].
      + intros c Hc1 (A' & -> & HA')%list_elem_of_fmap. by apply (Hnew_old A').
      + apply NoDup_fmap_2_strong.
        * intros A1 A2 H1 H2. apply Hinj; apply elem_of_app; by right.
        * by apply NoDup_app in Hnd' as (_ & _ & ?).
    - done.
    - intros i A' Hi. rewrite Hsup', Hq'. destruct (decide (i = c_id)) as [Heq|Hne].
      + rewrite (Hat_c i A' Hi Heq). split; [done|].
        intros [?|?]%elem_of_app; [done|]. exfalso. by apply (Hold_new A).
      + apply lookup_app_Some in Hi as [Hi|[Hge Hi]].
        * assert (A' ≠ A) as HneA.
          { intros ->. apply Hne. exact (NoDup_lookup _ _ _ _ Hnd Hi Hc_id). }
          rewrite (Hskeys i A' Hi). rewrite elem_of_app. split.
          -- intros Hin. left. eapply elem_of_delete_ne; [done..|].
             intros Heq. apply HneA. eapply cof_inj; [..|done];
               apply (proj1 (Forall_forall _ _) Hcl); [by eapply list_elem_of_lookup_2|done].
          -- intros [Hin%list_elem_of_delete_inv|Hin]; [done|].
             exfalso. eapply Hold_new; [|done]. by eapply list_elem_of_lookup_2.
        * split.
          -- intros _. apply elem_of_app. right. apply list_elem_of_fmap.
             exists A'. split; [done|]. by eapply list_elem_of_lookup_2.
          -- intros _. destruct (dict_get superd i) as [js|] eqn:Hjs; [|done].
             assert (i < length As) by (apply Hsrange; eauto). lia.
    - intros i. rewrite Hsup', length_app. destruct (decide (i = c_id)) as [->|Hne].
      + intros _. apply lookup_lt_Some in Hc_id. lia.
      + intros Hsome%Hsrange. lia.
    - intros i A' js Hi. rewrite Hsup'. destruct (decide (i = c_id)) as [Heq|Hne].
      + rewrite (Hat_c i A' Hi Heq). intros [= <-]. split_and!; [done|done|].
        intros N HN. by apply HNs_in, HNs.
      + intros Hjs.
        assert (i < length As) as Hlt by (apply Hsrange; eauto).
        rewrite lookup_app_l in Hi by done.
        destruct (Hsuper i A' js Hi Hjs) as (Hjs_nd & Hjs_spec & Hall).
        split_and!; [done| |].
        * intros j. rewrite Hjs_spec. split.
          -- intros (N & Hj & HN). exists N. split; [by apply lookup_app_l_Some|done].
          -- intros (N & Hj & HN). exists N. split; [|done].
             destruct (proj1 (list_elem_of_lookup _ _) (Hall N HN)) as [j' Hj'].
             assert (j = j') as ->; [|done].
             exact (NoDup_lookup _ _ _ _ Hnd' Hj (lookup_app_l_Some _ _ _ _ Hj')).
        * intros N HN. apply elem_of_app. left. by apply Hall.
    - intros j Hj. rewrite Hsub'. destruct (decide (j ∈ ids)) as [?|Hj_ids]; [eauto|].
      destruct (decide (j < length As)) as [?|Hge]; [by apply Hsubkeys|].
      exfalso. apply Hj_ids.
      destruct (lookup_lt_is_Some_2 (As ++ As') j Hj) as [N HN].
      apply Hids_spec. exists N. split; [done|]. apply HNs, Hnew.
      apply lookup_app_Some in HN as [HN|[_ HN]]; [|by eapply list_elem_of_lookup_2].
      apply lookup_lt_Some in HN. lia.
    - intros j ks. rewrite Hsub'.
      assert (∃ old, default [] (dict_get subd j) = old ∧ NoDup old
                ∧ ∀ i, i ∈ old ↔ ∃ js, dict_get superd i = Some js ∧ j ∈ js)
        as (old & Hold & Hold_nd & Hold_spec).
      { destruct (dict_get subd j) as [old|] eqn:Hj.
        - exists old. split; [done|]. by apply Hsub.
        - exists []. split; [done|]. split; [constructor|]. intros i. split.
          + by intros ?%elem_of_nil.
          + intros (js & Hjs & Hj_js). exfalso.
            assert (i < length As) as Hlt by (apply Hsrange; eauto).
            destruct (lookup_lt_is_Some_2 As i Hlt) as [A' HA'].
            destruct (Hsuper i A' js HA' Hjs) as (_ & Hspec & _).
            apply Hspec in Hj_js as (N & HN%lookup_lt_Some & _).
            destruct (Hsubkeys j HN) as [? ?]. congruence. }
      destruct (decide (j ∈ ids)) as [Hj_ids|Hj_ids].
      + rewrite Hold. intros [= <-]. split.
        * apply NoDup_app. split_and!; [done| |apply NoDup_singleton].
          intros i Hi ->%list_elem_of_singleton.
          apply Hold_spec in Hi as (js & Hjs & _). congruence.
        * intros i. rewrite elem_of_app, list_elem_of_singleton, Hold_spec, Hsup'.
          destruct (decide (i = c_id)) as [->|Hne].
          -- split; [eauto|]. by right.
          -- split; [intros [?|?]; done|]. by left.
      + intros Hks. destruct (Hsub j ks Hks) as [Hks_nd Hks_spec]. split; [done|].
        intros i. rewrite Hks_spec, Hsup'. destruct (decide (i = c_id)) as [->|Hne]; [|done].
        rewrite Hnone. split; [by intros (? & ? & _)|]. by intros (? & [= <-] & ?). }
  apply (IH (As ++ As') st' Hinv' Hadj').
  pose proof (lindig_inv_bound _ _ _ _ _ _ _ _ Hinv') as Hbound.
  rewrite Hq'. rewrite !length_app, length_fmap in *.
  rewrite length_delete by done. subst q. cbn [length l_queue] in *. lia.
Qed.

(** The whole run: both dictionaries have an entry for every position, the
    one lists the positions of the upper neighbours, the other the positions
    of the closed sets it is an upper neighbour of. *)
Lemma lindig_run_adj :
  ∃ As st,
    lindig_run set_order set_pop n1 intention_i' extension_i' obj_names attr_names h n2
    = Some (Ok st)
    ∧ l_concepts st = cof3 <$> As
    ∧ NoDup As
    ∧ (∀ Y, Y ∈ As ↔ closed n1 n2 R Y)
    ∧ ∀ i A, As !! i = Some A →
        ∃ sups subs,
          dict_get (l_superconcepts_dict st) i = Some sups
          ∧ dict_get (l_subconcepts_dict st) i = Some subs
          ∧ NoDup sups ∧ NoDup subs
          ∧ (∀ j, j ∈ sups ↔ ∃ N, As !! j = Some N ∧ un3 A N)
          ∧ (∀ j, j ∈ subs ↔ ∃ N, As !! j = Some N ∧ un3 N A).
Proof.
  unfold lindig_run.
  rewrite Hext by (apply Forall_forall; intros x Hx%elem_of_seq; lia).
  cbn [mbind result_bind].
  assert (polar n1 (λ y x, R x y) (seq 0 n2) = closure n1 n2 R []) as HG.
  { unfold closure. by rewrite polar_nil. }
  rewrite HG.
  rewrite new_FormalConcept_ok.
  2:{ rewrite Hon. apply cl_below. }
  2:{ rewrite Han. apply Forall_forall. intros x Hx%elem_of_seq. lia. }
  assert (concept_of obj_names attr_names h (closure n1 n2 R []) (seq 0 n2)
          = cof3 (closure n1 n2 R [])) as ->.
  { unfold closed_concept. f_equal. rewrite <-(polar_nil n2 R).
    symmetry. apply up_down_up. constructor. }
  change (extent_i (cof3 (closure n1 n2 R [])))
    with (list_to_set (C:=gset nat) (closure n1 n2 R [])).
  assert (closed n1 n2 R (closure n1 n2 R [])) as Hbot by (apply cl_closed; constructor).
  set (st0 := {| l_concepts := [cof3 (closure n1 n2 R [])];
                 l_queue := [cof3 (closure n1 n2 R [])];
                 l_subconcepts_dict := [(0, [])];
                 l_superconcepts_dict := [];
                 l_index := [(list_to_set (closure n1 n2 R []), 0)] |}).
  assert (linv3 [closure n1 n2 R []] st0) as Hinv.
  { constructor; cbn; [done| |apply NoDup_singleton|done|done|by left|].
    - by constructor.
    - intros A ->%list_elem_of_singleton. left. by left. }
  assert (adj3 [closure n1 n2 R []] st0) as Hadj.
  { constructor; cbn.
    - apply NoDup_singleton.
    - intros [|i] A; [|done]. intros [= <-]. by rewrite decide_True.
    - intros [|i] A; [|done]. intros [= <-]. split; [by left|done].
    - by intros i [? ?].
    - done.
    - intros [|j] Hj; [eauto|lia].
    - intros [|j] ks; [|done]. intros [= <-]. split; [constructor|].
      intros i. split; [by intros ?%elem_of_nil|by intros (? & ? & _)]. }
  destruct (lindig_while_adj (2 ^ n1) _ _ Hinv Hadj) as (As & st & -> & Hinv' & Hadj' & Hq).
  { pose proof (lindig_inv_bound _ _ _ _ _ _ _ _ Hinv) as Hb. cbn in Hb |- *. lia. }
  destruct Hadj' as [_ _ Hskeys Hsrange Hsuper Hsubkeys Hsub].
  assert (∀ i A, As !! i = Some A →
            ∃ js, dict_get (l_superconcepts_dict st) i = Some js
                  ∧ NoDup js ∧ ∀ j, j ∈ js ↔ ∃ N, As !! j = Some N ∧ un3 A N) as Hsups.
  { intros i A Hi. destruct (dict_get (l_superconcepts_dict st) i) as [js|] eqn:Hjs.
    - exists js. split; [done|]. destruct (Hsuper i A js Hi Hjs) as (? & ? & _). done.
    - apply (Hskeys i A Hi) in Hjs. rewrite Hq in Hjs. by apply elem_of_nil in Hjs. }
  exists As, st. split_and!; [done|apply Hinv'|apply Hinv'| |].
  { intros Y. split.
    - intros HY. by apply (proj1 (Forall_forall _ _) (linv_closed _ _ _ _ _ _ _ _ Hinv')).
    - by apply (lindig_complete n1 n2 R obj_names attr_names h Hon Han As st). }
  intros i A Hi.
  destruct (Hsups i A Hi) as (sups & Hsups_i & Hsups_nd & Hsups_spec).
  destruct (Hsubkeys i (lookup_lt_Some _ _ _ Hi)) as [subs Hsubs_i].
  destruct (Hsub i subs Hsubs_i) as [Hsubs_nd Hsubs_spec].
  exists sups, subs. split_and!; [done..|].
  intros j. rewrite Hsubs_spec. split.
  - intros (js & Hjs & Hi_js).
    assert (j < length As) as Hj by (apply Hsrange; eauto).
    destruct (lookup_lt_is_Some_2 As j Hj) as [N HN]. exists N. split; [done|].
    destruct (Hsuper j N js HN Hjs) as (_ & Hspec & _).
    apply Hspec in Hi_js as (A' & HA' & Hun). congruence.
  - intros (N & HN & Hun).
    destruct (Hsups j N HN) as (js & Hjs & _ & Hspec).
    exists js. split; [done|]. apply Hspec. eauto.
Qed.

End lindig_adjacency.

(** Upper neighbours among closed sets, in terms of inclusion alone. *)
Lemma upper_neighbour_order n1 n2 R (A N : list nat) :
  closed n1 n2 R N →
  upper_neighbour n1 n2 R A N
  ↔ A ⊆ N ∧ ¬ N ⊆ A
    ∧ ∀ Y, closed n1 n2 R Y → A ⊆ Y → Y ⊆ N → Y ⊆ A ∨ N ⊆ Y.
Proof.
  intros HN.
  assert (∀ Y : list nat, ¬ Y ⊆ A → ∃ y, y ∈ Y ∧ y ∉ A) as Hout.
  { intros Y HY. destruct (decide (Forall (λ y, y ∈ A) Y)) as [HF|HF].
    - destruct HY. intros y Hy. by apply (proj1 (Forall_forall _ _) HF).
    - apply not_Forall_Exists in HF; [|solve_decision].
      apply Exists_exists in HF as (y & ? & ?). by exists y. }
  split.
  - intros (_ & HAN & (g & HgN & HgA) & Hmin). split_and!; [done| |].
    + intros HNA. by apply HgA, HNA.
    + intros Y HY HAY HYN. destruct (decide (Forall (λ y, y ∈ A) Y)) as [HF|HF].
      * left. intros y Hy. by apply (proj1 (Forall_forall _ _) HF).
      * right. apply not_Forall_Exists in HF; [|solve_decision].
        apply Exists_exists in HF as (y & ? & ?).
        rewrite (Hmin Y HY HAY HYN); [done|]. by exists y.
  - intros (HAN & HNA & Hmin). split_and!; [done|done|by apply Hout|].
    intros Y HY HAY HYN (y & Hy & HyA).
    destruct (Hmin Y HY HAY HYN) as [HYA|HNY].
    + destruct HyA. by apply HYA.
    + by apply (closed_eq n1 n2 R).
Qed.

(** [concept_covers] in terms of inclusion of extents alone. *)
Lemma concept_covers_order concepts ci cj :
  concept_covers concepts ci cj
  ↔ extent_i ci ⊆ extent_i cj ∧ ¬ extent_i cj ⊆ extent_i ci
    ∧ ∀ ck, ck ∈ concepts → extent_i ci ⊆ extent_i ck → extent_i ck ⊆ extent_i cj →
            extent_i ck ⊆ extent_i ci ∨ extent_i cj ⊆ extent_i ck.
Proof.
  unfold concept_covers. split.
  - intros [[H1 H2] H3]. split_and!; [done..|].
    intros ck Hck Hik Hkj. destruct (H3 ck Hck Hik Hkj) as [->| ->]; [by left|by right].
  - intros (H1 & H2 & H3). split; [done|].
    intros ck Hck Hik Hkj. destruct (H3 ck Hck Hik Hkj); [left|right]; set_solver.
Qed.

(** Closed sets are ordered as their index sets are, and as the index sets of
    their polars are the other way round. *)
Lemma closed_order_primal (X Y : list nat) :
  list_to_set X ⊆@{gset nat} list_to_set Y ↔ X ⊆ Y.
Proof.
  split.
  - intros H x Hx. apply (elem_of_list_to_set (C:=gset nat)), H.
    by apply elem_of_list_to_set.
  - intros H x Hx%elem_of_list_to_set. by apply elem_of_list_to_set, H.
Qed.

Lemma closed_order_dual n1 n2 R (X Y : list nat) :
  closed n1 n2 R X → closed n1 n2 R Y →
  list_to_set (polar n2 R X) ⊆@{gset nat} list_to_set (polar n2 R Y) ↔ Y ⊆ X.
Proof.
  intros HX HY. rewrite closed_order_primal. split.
  - intros H. rewrite <-HX, <-HY. unfold closure. by apply polar_anti.
  - apply polar_anti.
Qed.

Section lindig_adjacency_formal.
Variable set_order : gset nat → list nat.
Variable set_pop : list FormalConcept → nat.
Variable hash_fixed : FormalContext → Z.
Variable K : FormalContext.
Hypothesis HK : context_ok K = true.
Hypothesis Horder : ∀ s, set_order s ≡ₚ elements s.

Lemma lindig_adjacency_extents :
  ∃ lattice,
    lindig_algorithm set_order set_pop hash_fixed (FormalCtx K) (Some true)
    = Some (Ok lattice)
    ∧ ∀ i ci, lattice_concepts lattice !! i = Some ci →
        ∃ sups subs,
          dict_get (superconcepts_dict lattice) i = Some sups
          ∧ dict_get (subconcepts_dict lattice) i = Some subs
          ∧ NoDup sups ∧ NoDup subs
          ∧ (∀ j, j ∈ sups ↔ ∃ cj, lattice_concepts lattice !! j = Some cj
                                  ∧ concept_covers (lattice_concepts lattice) ci cj)
          ∧ (∀ j, j ∈ subs ↔ ∃ cj, lattice_concepts lattice !! j = Some cj
                                  ∧ concept_covers (lattice_concepts lattice) cj ci).
Proof.
  destruct (context_ok_inv K HK) as (_ & _ & Hon & Han).
  unfold lindig_algorithm. cbn [default negb].
  set (n1 := n_objects K). set (n2 := n_attributes K). set (R := incidence K).
  set (f := closed_concept n2 R (object_names K) (attribute_names K) (hash_fixed K)).
  destruct (lindig_run_adj set_order set_pop (intention_i K) (extension_i K)
              n1 n2 R (object_names K) (attribute_names K) (hash_fixed K))
    as (As & st & -> & Hc & Hnd & Hall & Hadj); [done| | |done|done|].
  { intros C HC. by apply intention_i_ok. }
  { intros S HS. by apply extension_i_ok. }
  eexists. split; [done|]. cbn [lattice_concepts superconcepts_dict subconcepts_dict].
  rewrite Hc.
  assert (∀ A N, closed n1 n2 R A → closed n1 n2 R N →
            concept_covers (f <$> As) (f A) (f N) ↔ upper_neighbour n1 n2 R A N) as Hcov.
  { intros A N HA HN. rewrite concept_covers_order, (upper_neighbour_order n1 n2 R A N HN).
    change (extent_i (f A)) with (list_to_set (C:=gset nat) A).
    change (extent_i (f N)) with (list_to_set (C:=gset nat) N).
    rewrite !closed_order_primal. do 2 apply and_iff_compat_l. split.
    - intros H Y HY HAY HYN.
      destruct (H (f Y)) as [H'|H'].
      + apply list_elem_of_fmap. exists Y. split; [done|]. by apply Hall.
      + by apply closed_order_primal.
      + by apply closed_order_primal.
      + left. by apply closed_order_primal.
      + right. by apply closed_order_primal.
    - intros H ck (Y & -> & HY%Hall)%list_elem_of_fmap.
      change (extent_i (f Y)) with (list_to_set (C:=gset nat) Y).
      rewrite !closed_order_primal. by apply H. }
  intros i ci Hi. apply list_lookup_fmap_Some in Hi as (A & -> & Hi).
  assert (closed n1 n2 R A) as HA by (by eapply Hall, list_elem_of_lookup_2).
  destruct (Hadj i A Hi) as (sups & subs & Hsups & Hsubs & Hnd1 & Hnd2 & Hsp1 & Hsp2).
  exists sups, subs. split_and!; [done..| |].
  - intros j. rewrite Hsp1. split.
    + intros (N & HN & Hun). exists (f N). split; [by rewrite list_lookup_fmap, HN|].
      apply Hcov; [done| |done]. by eapply Hall, list_elem_of_lookup_2.
    + intros (cj & (N & -> & HN)%list_lookup_fmap_Some & Hcj). exists N. split; [done|].
      apply Hcov; [done| |done]. by eapply Hall, list_elem_of_lookup_2.
  - intros j. rewrite Hsp2. split.
    + intros (N & HN & Hun). exists (f N). split; [by rewrite list_lookup_fmap, HN|].
      apply Hcov; [|done..]. by eapply Hall, list_elem_of_lookup_2.
    + intros (cj & (N & -> & HN)%list_lookup_fmap_Some & Hcj). exists N. split; [done|].
      apply Hcov; [|done..]. by eapply Hall, list_elem_of_lookup_2.
Qed.

Lemma lindig_adjacency_intents :
  ∃ lattice,
    lindig_algorithm set_order set_pop hash_fixed (FormalCtx K) (Some false)
    = Some (Ok lattice)
    ∧ ∀ i ci, lattice_concepts lattice !! i = Some ci →
        ∃ sups subs,
          dict_get (superconcepts_dict lattice) i = Some sups
          ∧ dict_get (subconcepts_dict lattice) i = Some subs
          ∧ NoDup sups ∧ NoDup subs
          ∧ (∀ j, j ∈ sups ↔ ∃ cj, lattice_concepts lattice !! j = Some cj
                                  ∧ concept_covers (lattice_concepts lattice) ci cj)
          ∧ (∀ j, j ∈ subs ↔ ∃ cj, lattice_concepts lattice !! j = Some cj
                                  ∧ concept_covers (lattice_concepts lattice) cj ci).
Proof.
  destruct (context_ok_inv K HK) as (_ & _ & Hon & Han).
  unfold lindig_algorithm. cbn [default negb].
  set (n1 := n_attributes K). set (n2 := n_objects K). set (R := λ m g, incidence K g m).
  set (f := λ B, swap_concept (hash_fixed K)
                   (closed_concept n2 R (attribute_names K) (object_names K) (hash_fixed K) B)).
  destruct (lindig_run_adj set_order set_pop (extension_i K) (intention_i K)
              n1 n2 R (attribute_names K) (object_names K) (hash_fixed K))
    as (Bs & st & -> & Hc & Hnd & Hall & Hadj); [done| | |done|done|].
  { intros C HC. by apply extension_i_ok. }
  { intros S HS. by apply intention_i_ok. }
  eexists. split; [done|]. cbn [lattice_concepts superconcepts_dict subconcepts_dict].
  rewrite Hc, <-list_fmap_compose. change (_ ∘ _) with f.
  assert (∀ B, extent_i (f B) = list_to_set (polar n2 R B)) as Hext_f by done.
  assert (∀ B N, closed n1 n2 R B → closed n1 n2 R N →
            concept_covers (f <$> Bs) (f B) (f N) ↔ upper_neighbour n1 n2 R N B) as Hcov.
  { intros B N HB HN. rewrite concept_covers_order, (upper_neighbour_order n1 n2 R N B HB).
    rewrite !Hext_f, !(closed_order_dual n1 n2 R) by done.
    do 2 apply and_iff_compat_l. split.
    - intros H Y HY HNY HYB.
      destruct (H (f Y)) as [H'|H'].
      + apply list_elem_of_fmap. exists Y. split; [done|]. by apply Hall.
      + rewrite !Hext_f. by apply (closed_order_dual n1 n2 R).
      + rewrite !Hext_f. by apply (closed_order_dual n1 n2 R).
      + right. rewrite !Hext_f in H'. by apply (closed_order_dual n1 n2 R) in H'.
      + left. rewrite !Hext_f in H'. by apply (closed_order_dual n1 n2 R) in H'.
    - intros H ck (Y & -> & HY%Hall)%list_elem_of_fmap.
      rewrite !Hext_f, !(closed_order_dual n1 n2 R) by done.
      intros HYB HNY. destruct (H Y HY HNY HYB); [by right|by left]. }
  intros i ci Hi. apply list_lookup_fmap_Some in Hi as (B & -> & Hi).
  assert (closed n1 n2 R B) as HB by (by eapply Hall, list_elem_of_lookup_2).
  destruct (Hadj i B Hi) as (subs & sups & Hsubs & Hsups & Hnd1 & Hnd2 & Hsp1 & Hsp2).
  exists sups, subs. split_and!; [done..| |].
  - intros j. rewrite Hsp2. split.
    + intros (N & HN & Hun). exists (f N). split; [by rewrite list_lookup_fmap, HN|].
      apply Hcov; [done| |done]. by eapply Hall, list_elem_of_lookup_2.
    + intros (cj & (N & -> & HN)%list_lookup_fmap_Some & Hcj). exists N. split; [done|].
      apply Hcov; [done| |done]. by eapply Hall, list_elem_of_lookup_2.
  - intros j. rewrite Hsp1. split.
    + intros (N & HN & Hun). exists (f N). split; [by rewrite list_lookup_fmap, HN|].
      apply Hcov; [|done..]. by eapply Hall, list_elem_of_lookup_2.
    + intros (cj & (N & -> & HN)%list_lookup_fmap_Some & Hcj). exists N. split; [done|].
      apply Hcov; [|done..]. by eapply Hall, list_elem_of_lookup_2.
Qed.

End lindig_adjacency_formal.

(** The adjacency dictionaries of [lindig_algorithm].  On a context that
    passed the assertions of the setters, whatever direction is chosen, the
    lattice returned has, for every position [i] of its list of concepts, an
    entry in [superconcepts_dict] and one in [subconcepts_dict]; neither
    lists a position twice; the first lists exactly the positions of the
    concepts that cover concept [i] (a strictly larger extent, and no
    concept of the lattice strictly in between), the second exactly the
    positions of the concepts that concept [i] covers. *)
Theorem lindig_adjacency_covers (set_order : gset nat → list nat)
    (set_pop : list FormalConcept → nat) (hash_fixed : FormalContext → Z)
    (K : FormalContext) (iterate_extents : option bool) :
  context_ok K = true →
  (∀ s, set_order s ≡ₚ elements s) →
  ∃ lattice,
    lindig_algorithm set_order set_pop hash_fixed (FormalCtx K) iterate_extents
    = Some (Ok lattice)
    ∧ ∀ i ci, lattice_concepts lattice !! i = Some ci →
        ∃ sups subs,
          dict_get (superconcepts_dict lattice) i = Some sups
          ∧ dict_get (subconcepts_dict lattice) i = Some subs
          ∧ NoDup sups ∧ NoDup subs
          ∧ (∀ j, j ∈ sups ↔ ∃ cj, lattice_concepts lattice !! j = Some cj
                                  ∧ concept_covers (lattice_concepts lattice) ci cj)
          ∧ (∀ j, j ∈ subs ↔ ∃ cj, lattice_concepts lattice !! j = Some cj
                                  ∧ concept_covers (lattice_concepts lattice) cj ci).
Proof.
  intros HK Horder.
  assert (lindig_algorithm set_order set_pop hash_fixed (FormalCtx K) iterate_extents
          = lindig_algorithm set_order set_pop hash_fixed (FormalCtx K)
              (Some (default (n_objects K <? n_attributes K) iterate_extents))) as ->
    by done.
  destruct (default (n_objects K <? n_attributes K) iterate_extents).
  - by apply lindig_adjacency_extents.
  - by apply lindig_adjacency_intents.
Qed.

Lemma lindig_adjacency_covers_witness :
  ∃ lattice,
    lindig_algorithm elements (λ _, 0) (λ _, 0%Z) (FormalCtx animals) None
    = Some (Ok lattice)
    ∧ ∀ i ci, lattice_concepts lattice !! i = Some ci →
        ∃ sups subs,
          dict_get (superconcepts_dict lattice) i = Some sups
          ∧ dict_get (subconcepts_dict lattice) i = Some subs
          ∧ NoDup sups ∧ NoDup subs
          ∧ (∀ j, j ∈ sups ↔ ∃ cj, lattice_concepts lattice !! j = Some cj
                                  ∧ concept_covers (lattice_concepts lattice) ci cj)
          ∧ (∀ j, j ∈ subs ↔ ∃ cj, lattice_concepts lattice !! j = Some cj
                                  ∧ concept_covers (lattice_concepts lattice) cj ci).
Proof.
  apply (lindig_adjacency_covers elements (λ _, 0) (λ _, 0%Z) animals None).
  - reflexivity.
  - intros s. reflexivity.
Defined.

(** ** FormalContext.print_data *)

Lemma string_length_app (s1 s2 : string) :
  String.length (s1 +:+ s2) = String.length s1 + String.length s2.
Proof.
  induction s1 as [|a s1 IH]; [done|].
  change (S (String.length (s1 +:+ s2)) = S (String.length s1 + String.length s2)).
  by rewrite IH.
Qed.

Lemma string_length_concat (sep : string) (l : list string) :
  String.length (String.concat sep l)
  = sum_list (String.length <$> l) + (length l - 1) * String.length sep.
Proof.
  induction l as [|x [|y l] IH]; [done|cbn; lia|].
  change (String.concat sep (x :: y :: l)) with (x +:+ sep +:+ String.concat sep (y :: l)).
  rewrite !string_length_app, IH. cbn. lia.
Qed.

Lemma string_length_times (c : Ascii.ascii) (n : Z) :
  String.length (str_times (String c "") n) = Z.to_nat n.
Proof.
  unfold str_times. rewrite string_length_concat. cbn [String.length].
  rewrite Nat.mul_0_r, Nat.add_0_r.
  induction (Z.to_nat n) as [|k IH]; [done|]. cbn. by rewrite IH.
Qed.

Lemma py_max_Ok (l : list nat) :
  l ≠ [] → ∃ m, py_max l = Ok m ∧ Forall (λ x, x ≤ m) l.
Proof.
  destruct l as [|x l]; [done|]. intros _. eexists. split; [done|].
  assert (∀ l a, a ≤ foldl Nat.max a l ∧ Forall (λ x, x ≤ foldl Nat.max a l) l) as H.
  { clear. induction l as [|y l IH]; intros a; cbn; [by split|].
    destruct (IH (a `max` y)) as [H1 H2]. split; [lia|]. constructor; [lia|done]. }
  destruct (H l x). by constructor.
Qed.

Lemma mapM_Forall {A B} (f : A → result B) (P : B → Prop) (l : list A) :
  Forall (λ x, ∃ y, f x = Ok y ∧ P y) l →
  ∃ ys, mapM f l = Ok ys ∧ length ys = length l ∧ Forall P ys.
Proof.
  induction 1 as [|x l (y & Hy & HP) _ (ys & Hys & Hlen & HPs)]; [by exists []|].
  exists (y :: ys). rewrite mapM_cons, Hy, Hys. cbn.
  split_and!; [done|by rewrite Hlen|by constructor].
Qed.

(** An entry is as wide as the name of its column. *)
Lemma print_cell_str_length (m_name : string) (m_val : bool) :
  m_name ≠ ""%string →
  String.length (print_cell_str m_name (CellValue m_val)) = String.length m_name.
Proof.
  intros Hm. cbn. rewrite string_length_app, string_length_times.
  destruct m_name as [|a s]; [done|]. destruct m_val; cbn; lia.
Qed.

Lemma print_cells_length (attrs : list string) (g_ms : list print_cell) :
  Forall2 (λ m c, String.length (print_cell_str m c) = String.length m) attrs g_ms →
  String.length (String.concat "|" (zip_with print_cell_str attrs g_ms))
  = String.length (String.concat "|" attrs).
Proof.
  intros HF. rewrite !string_length_concat.
  rewrite length_zip_with, <-(Forall2_length _ _ _ HF), Nat.min_id. f_equal.
  induction HF as [|m c attrs g_ms Hmc _ IH]; [done|]. cbn. by rewrite Hmc, IH.
Qed.

Lemma py_slices_Forall2 {A B} (P : A → B → Prop) (k : Z) (l : list A) (l' : list B) :
  Forall2 P l l' →
  Forall2 P (py_slice_to k l) (py_slice_to k l')
  ∧ Forall2 P (py_slice_from k l) (py_slice_from k l').
Proof.
  intros HF. unfold py_slice_to, py_slice_from. rewrite <-(Forall2_length _ _ _ HF).
  split; [by apply Forall2_take|by apply Forall2_drop].
Qed.

Lemma py_slices_length {A B} (k k' : Z) (l : list A) (l' : list B) :
  length l = length l' →
  length (py_slice_to k l ++ py_slice_from k' l)
  = length (py_slice_to k l' ++ py_slice_from k' l').
Proof.
  intros Hl. unfold py_slice_to, py_slice_from.
  by rewrite !length_app, !length_take, !length_drop, Hl.
Qed.

(** With a bound that is not negative, the two slices of a list that is not
    empty, [l[:k//2] + l[-k//2:]], are not both empty. *)
Lemma py_slices_not_empty {A} (k : Z) (l : list A) :
  (0 ≤ k)%Z → l ≠ [] → py_slice_to (k `div` 2) l ++ py_slice_from ((- k) `div` 2) l ≠ [].
Proof.
  intros Hk Hl Heq. apply (f_equal length) in Heq.
  unfold py_slice_to, py_slice_from in Heq.
  rewrite length_app, length_take, length_drop in Heq.
  assert (0 < length l) by (destruct l; [done|cbn; lia]).
  cbn [length] in Heq.
  destruct ((- k) `div` 2 <? 0)%Z eqn:E.
  - apply Z.ltb_lt in E. lia.
  - apply Z.ltb_ge in E. assert (k = 0%Z) as ->.
    { pose proof (Z.div_lt_upper_bound (- k) 2 0). lia. }
    change ((- 0) `div` 2)%Z with 0%Z in Heq. lia.
Qed.

(** Lines 395-415 on the names and rows that are left to print. *)
Lemma print_lines_rectangular (objs attrs : list string) (rows : list (list print_cell))
    (plot_objs_line : bool) (max_n_objects : Z) :
  length objs = length rows → objs ≠ [] →
  Forall (Forall2 (λ m c, String.length (print_cell_str m c) = String.length m) attrs) rows →
  attrs ≠ [] ∨ plot_objs_line = false →
  ∃ header lines,
    (max_obj_name_len ← py_max (String.length <$> objs);
     let header :=
       str_times " " (Z.of_nat max_obj_name_len) +:+ "|"
       +:+ String.concat "|" attrs +:+ "|" in
     lines ← mapM (λ idx,
                     g_name ← getitem objs idx;
                     g_ms ← getitem rows idx;
                     let dots :=
                       if plot_objs_line && (Z.of_nat idx =? max_n_objects `div` 2)%Z then
                         replicate 2
                           (str_times "."
                              (Z.of_nat (max_obj_name_len + 1
                                         + sum_list ((λ m, String.length m + 1) <$> attrs))))
                       else [] in
                     let line :=
                       g_name
                       +:+ str_times " "
                             (Z.of_nat max_obj_name_len - Z.of_nat (String.length g_name))
                       +:+ "|"
                       +:+ String.concat "|" (zip_with print_cell_str attrs g_ms)
                       +:+ "|" in
                     mret (dots ++ [line]))
                  (seq 0 (length rows));
     mret (header :: concat lines))
    = Ok (header :: lines)
    ∧ (plot_objs_line = false → length lines = length rows)
    ∧ Forall (λ line, String.length line = String.length header) lines.
Proof.
  intros Hlen Hobjs Hrows Hattrs.
  destruct (py_max_Ok (String.length <$> objs)) as (M & -> & HM); [by destruct objs|].
  cbn [mbind result_bind].
  set (header := (str_times " " (Z.of_nat M) +:+ "|" +:+ String.concat "|" attrs +:+ "|")%string).
  assert (String.length header = M + 1 + String.length (String.concat "|" attrs) + 1) as Hh.
  { unfold header. rewrite !string_length_app, string_length_times. cbn. lia. }
  match goal with |- context [mapM ?f ?l] =>
    destruct (mapM_Forall f
                (λ ls, (plot_objs_line = false → length ls = 1)
                       ∧ Forall (λ line, String.length line = String.length header) ls) l)
      as (lines & -> & Hlen_lines & Hlines) end.
  { apply Forall_forall. intros idx Hidx%elem_of_seq.
    destruct (getitem_Ok objs idx) as (g_name & Hg & ->); [lia|].
    destruct (getitem_Ok rows idx) as (g_ms & Hms & ->); [lia|].
    cbn [mbind result_bind mret result_ret]. eexists. split; [done|].
    split; [by intros ->|].
    apply Forall_app. split.
    - destruct (plot_objs_line && (Z.of_nat idx =? max_n_objects `div` 2)%Z) eqn:E;
        [|constructor].
      destruct Hattrs as [Hattrs| ->]; [|done].
      assert (String.length (str_times "."
                (Z.of_nat (M + 1 + sum_list ((λ m, String.length m + 1) <$> attrs))))
              = String.length header) as Hd.
      { rewrite string_length_times, Hh, string_length_concat, Nat2Z.id.
        assert (sum_list ((λ m, String.length m + 1) <$> attrs)
                = sum_list (String.length <$> attrs) + length attrs) as ->.
        { clear. induction attrs as [|m attrs IH]; [done|]. cbn. rewrite IH. lia. }
        destruct attrs; [done|]. cbn. lia. }
      cbn. by repeat constructor.
    - constructor; [|constructor].
      rewrite !string_length_app, string_length_times, Hh.
      rewrite print_cells_length
        by (apply (proj1 (Forall_forall _ _) Hrows); by eapply list_elem_of_lookup_2).
      assert (String.length g_name ≤ M).
      { apply (proj1 (Forall_forall _ _) HM), list_elem_of_fmap.
        exists g_name. split; [done|]. by eapply list_elem_of_lookup_2. }
      cbn. lia. }
  exists header, (concat lines). split; [done|]. split.
  - intros Hplot. rewrite length_seq in Hlen_lines. rewrite <-Hlen_lines.
    clear -Hlines Hplot. induction Hlines as [|ls lines [Hone _] _ IH]; [done|].
    cbn. rewrite length_app, IH, (Hone Hplot). done.
  - apply Forall_concat. eapply Forall_impl; [exact Hlines|]. by intros ls [_ ?].
Qed.

Lemma print_cells_fit (attrs : list string) (g_ms : list bool) :
  Forall (λ m_name, m_name ≠ ""%string) attrs → length g_ms = length attrs →
  Forall2 (λ m c, String.length (print_cell_str m c) = String.length m)
    attrs (CellValue <$> g_ms).
Proof.
  intros Hattrs. revert g_ms.
  induction Hattrs as [|m attrs Hm _ IH]; intros [|m_val g_ms] Hlen; try done.
  cbn [fmap list_fmap]. constructor; [by apply print_cell_str_length|].
  apply IH. cbn in Hlen. lia.
Qed.

Lemma print_data_lines_rectangular (K : FormalContext) (max_n_objects max_n_attributes : Z) :
  context_ok K = true →
  Forall (λ m_name, m_name ≠ ""%string) (attribute_names K) →
  (0 ≤ max_n_objects)%Z →
  0 < n_attributes K ∨ (Z.of_nat (n_objects K) ≤ max_n_objects)%Z →
  ∃ header lines,
    print_data_lines K max_n_objects max_n_attributes = Ok (header :: lines)
    ∧ ((Z.of_nat (n_objects K) ≤ max_n_objects)%Z → length lines = n_objects K)
    ∧ Forall (λ line, String.length line = String.length header) lines.
Proof.
  intros HK Hnames Hmax Hplot.
  destruct (context_ok_inv K HK) as (Hdata & Hrows & Hon & Han).
  assert (object_names K ≠ []) as Hobjs.
  { intros Heq. rewrite Heq in Hon. unfold n_objects in Hon. by destruct (data K). }
  assert (∃ attrs rows,
            (if (max_n_attributes <? Z.of_nat (n_attributes K))%Z then
               (py_slice_to (max_n_attributes `div` 2) (attribute_names K) ++ ["..."%string]
                  ++ py_slice_from ((- max_n_attributes) `div` 2) (attribute_names K),
                (λ line, py_slice_to (max_n_attributes `div` 2) line ++ [CellDots]
                           ++ py_slice_from ((- max_n_attributes) `div` 2) line)
                  <$> (fmap (M:=list) CellValue <$> data K))
             else (attribute_names K, fmap (M:=list) CellValue <$> data K)) = (attrs, rows)
            ∧ length rows = n_objects K
            ∧ (0 < n_attributes K → attrs ≠ [])
            ∧ Forall (Forall2 (λ m c, String.length (print_cell_str m c) = String.length m)
                        attrs) rows)
    as (attrs & rows & Hcut & Hlen & Hne & Hfit).
  { assert (Forall (Forall2 (λ m c, String.length (print_cell_str m c) = String.length m)
                      (attribute_names K)) (fmap (M:=list) CellValue <$> data K)) as Hfit.
    { apply Forall_fmap. eapply Forall_impl; [exact Hrows|]. cbn. intros g_ms Hg.
      apply print_cells_fit; [done|]. by rewrite Han. }
    destruct (max_n_attributes <? Z.of_nat (n_attributes K))%Z;
      eexists _, _; (split; [reflexivity|]); rewrite ?length_fmap;
      (split_and!; [done| |]).
    - intros _. by destruct (py_slice_to (max_n_attributes `div` 2) (attribute_names K)).
    - apply Forall_fmap. eapply Forall_impl; [exact Hfit|]. cbn. intros row Hrow.
      destruct (py_slices_Forall2 _ (max_n_attributes `div` 2) _ _ Hrow) as [H1 _].
      destruct (py_slices_Forall2 _ ((- max_n_attributes) `div` 2) _ _ Hrow) as [_ H2].
      apply Forall2_app; [done|]. by constructor.
    - intros Hpos Heq. rewrite Heq in Han. cbn in Han. lia.
    - done. }
  unfold print_data_lines. rewrite Hcut. cbv beta iota zeta.
  destruct (max_n_objects <? Z.of_nat (n_objects K))%Z eqn:E; cbv beta iota zeta.
  - apply Z.ltb_lt in E.
    destruct (print_lines_rectangular
                (py_slice_to (max_n_objects `div` 2) (object_names K)
                   ++ py_slice_from ((- max_n_objects) `div` 2) (object_names K))
                attrs
                (py_slice_to (max_n_objects `div` 2) rows
                   ++ py_slice_from ((- max_n_objects) `div` 2) rows)
                true max_n_objects)
      as (header & lines & Hrun & _ & Hall).
    + apply py_slices_length. by rewrite Hlen.
    + by apply py_slices_not_empty.
    + apply Forall_app. split; [by apply Forall_take|by apply Forall_drop].
    + left. apply Hne. destruct Hplot; [done|lia].
    + exists header, lines. split_and!; [done|lia|done].
  - destruct (print_lines_rectangular (object_names K) attrs rows false max_n_objects)
      as (header & lines & Hrun & Hcount & Hall); [by rewrite Hlen|done|done|by right|].
    exists header, lines. split_and!; [done| |done].
    intros _. by rewrite Hcount.
Qed.

(** The table of [print_data].  On a context that passed the assertions of
    the setters, with no attribute name empty, a bound on the objects that is
    not negative, and at least one attribute or no object left out,
    [print_data] returns the header and the lines joined by line feeds, and
    every line is as long as the header.  When no object is left out there
    is one line for each object. *)
Theorem print_data_rectangular (K : FormalContext) (max_n_objects max_n_attributes : Z) :
  context_ok K = true →
  Forall (λ m_name, m_name ≠ ""%string) (attribute_names K) →
  (0 ≤ max_n_objects)%Z →
  0 < n_attributes K ∨ (Z.of_nat (n_objects K) ≤ max_n_objects)%Z →
  ∃ header lines,
    print_data K max_n_objects max_n_attributes
    = Ok (String.concat newline (header :: lines))
    ∧ print_data_lines K max_n_objects max_n_attributes = Ok (header :: lines)
    ∧ ((Z.of_nat (n_objects K) ≤ max_n_objects)%Z → length lines = n_objects K)
    ∧ Forall (λ line, String.length line = String.length header) lines.
Proof.
  intros HK Hnames Hmax Hplot.
  destruct (print_data_lines_rectangular K max_n_objects max_n_attributes HK Hnames Hmax Hplot)
    as (header & lines & Hrun & Hcount & Hall).
  exists header, lines. unfold print_data. by rewrite Hrun.
Qed.

Lemma print_data_rectangular_witness :
  ∃ header lines,
    print_data animals 4 2 = Ok (String.concat newline (header :: lines))
    ∧ print_data_lines animals 4 2 = Ok (header :: lines)
    ∧ ((Z.of_nat (n_objects animals) ≤ 4)%Z → length lines = n_objects animals)
    ∧ Forall (λ line, String.length line = String.length header) lines.
Proof.
  apply (print_data_rectangular animals 4 2).
  - reflexivity.
  - apply (bool_decide_unpack _). vm_compute. exact I.
  - lia.
  - left. vm_compute. lia.
Defined.

(** A bound on the objects of at most minus twice their number leaves no
    object name to print, and [max] of line 395 is given an empty list:
    [print_data] raises [ValueError]. *)
Theorem print_data_negative_bound (K : FormalContext) (max_n_objects max_n_attributes : Z) :
  context_ok K = true →
  (max_n_objects ≤ - 2 * Z.of_nat (n_objects K))%Z →
  print_data K max_n_objects max_n_attributes = Raise ValueError.
Proof.
  intros HK Hmax.
  destruct (context_ok_inv K HK) as (Hdata & _ & Hon & _).
  assert (0 < n_objects K) as Hpos.
  { unfold n_objects. destruct (data K); [done|cbn; lia]. }
  assert (py_slice_to (max_n_objects `div` 2) (object_names K)
            ++ py_slice_from ((- max_n_objects) `div` 2) (object_names K) = []) as Hobjs.
  { pose proof (Z.div_le_upper_bound max_n_objects 2 (- Z.of_nat (n_objects K))) as H1.
    pose proof (Z.div_le_lower_bound (- max_n_objects) 2 (Z.of_nat (n_objects K))) as H2.
    unfold py_slice_to, py_slice_from. rewrite Hon.
    assert ((max_n_objects `div` 2 <? 0)%Z = true) as -> by (apply Z.ltb_lt; lia).
    assert (((- max_n_objects) `div` 2 <? 0)%Z = false) as -> by (apply Z.ltb_ge; lia).
    replace (Z.to_nat (Z.of_nat (n_objects K) + max_n_objects `div` 2)) with 0 by lia.
    rewrite take_0, drop_ge; [done|]. rewrite Hon. lia. }
  unfold print_data, print_data_lines.
  destruct (if (max_n_attributes <? Z.of_nat (n_attributes K))%Z then _ else _)
    as [attrs rows].
  assert ((max_n_objects <? Z.of_nat (n_objects K))%Z = true) as -> by (apply Z.ltb_lt; lia).
  cbv beta iota zeta. by rewrite Hobjs.
Qed.

Lemma print_data_negative_bound_witness :
  print_data animals (-14) 10 = Raise ValueError.
Proof.
  apply (print_data_negative_bound animals (-14) 10).
  - reflexivity.
  - vm_compute. discriminate.
Defined.

(** ** sofia_binary: no pass of the loop gets past line 232 *)



Section cbo_records.
Context {Side : Type}.
Variable set_order : gset nat → list nat.
Variable iterset_fnc : Side → result (list nat).
Variable sideset_fnc : list nat → result Side.
Variable E : list nat.






End cbo_records.


Section sofia_pass.
Variable set_order : gset nat → list nat.
Variable hash_fixed : FormalContext → Z.
Variable random_sample : nat → list nat.



End sofia_pass.



(** On the context of two objects and one attribute, with the lattice built
    on no attribute at all ([proj_to_start = 0], its one concept has the
    empty intent, which is the one seed of the pass): [close_by_one] returns
    the two concepts of the context and line 232 raises. *)
Lemma sofia_binary_frozen_two_by_one :
  (∃ st new_concepts,
     sofia_binary_first_pass elements (λ _, 0%Z) (λ n, seq 0 n) two_by_one 4 true
       (MeasureStr "LStab") None (Some 0) = Some (Ok (st, Some new_concepts))
     ∧ length (lattice_concepts (s_lattice st)) = 1
     ∧ length new_concepts = 2)
  ∧ sofia_binary_to_rehash elements (λ _, 0%Z) (λ n, seq 0 n) two_by_one 4 true
      (MeasureStr "LStab") None (Some 0) = Some (Raise FrozenInstanceError).
Proof.
  split; [|vm_compute; reflexivity].
  eexists _, _. split; [vm_compute; reflexivity|]. split; reflexivity.
Qed.
